(** * BusTub storage core: LRU-K replacer, buffer pool manager, copy-on-write trie

    A shallow embedding of [src/buffer/lru_k_replacer.cpp],
    [src/buffer/buffer_pool_manager.cpp] and [src/primer/trie.cpp], and the
    properties of the specification stated over it. *)

From Stdlib Require Import ZArith Ascii String.
From stdpp Require Import base option list gmap strings sorting.

Open Scope Z_scope.

(** ** Outcomes of a C++ call

    A call either returns, throws [std::exception], or has undefined
    behaviour (an out-of-bounds [operator[]], a null dereference, [erase] of
    a singular iterator). *)

Inductive outcome (A : Type) : Type :=
| Ok (a : A)
| Throw
| Undefined.

Arguments Ok {A} a.
Arguments Throw {A}.
Arguments Undefined {A}.

Definition bind {A B : Type} (m : outcome A) (f : A → outcome B) : outcome B :=
  match m with
  | Ok a => f a
  | Throw => Throw
  | Undefined => Undefined
  end.

Notation "'let*' x ':=' m 'in' k" := (bind m (fun x => k))
  (at level 10, x pattern, m at level 100, k at level 200).

(** [v[i]] on a [std::vector] or an array, the index being a signed integer:
    outside [0, size) the access is undefined. *)
Definition vec_at {A : Type} (v : list A) (i : Z) : outcome A :=
  if bool_decide (0 ≤ i) then
    match v !! Z.to_nat i with
    | Some a => Ok a
    | None => Undefined
    end
  else Undefined.

(** [v[i] = a], issued only after [v[i]] was read. *)
Definition vec_set {A : Type} (v : list A) (i : Z) (a : A) : list A :=
  <[Z.to_nat i := a]> v.

(** [l.erase(it)] for the iterator that an index map keeps for [f]: the
    element [f] leaves the list, the others keep their order. *)
Fixpoint list_erase (f : Z) (l : list Z) : list Z :=
  match l with
  | [] => []
  | x :: l' => if bool_decide (x = f) then l' else x :: list_erase f l'
  end.

(** [size_t] arithmetic wraps modulo 2^64. *)
Definition size_t_wrap (z : Z) : Z := z mod 2 ^ 64.

(** * The LRU-K replacer ([src/buffer/lru_k_replacer.cpp]) *)

Module LRUKReplacer.

(** Modelled from the spec: the class is declared in [lru_k_replacer.h],
    which is not among the sources; the fields are the ones the code uses,
    with the types their uses call for.  [frame_id_t] is a signed integer,
    so frame ids are in [Z]; the range checks compare a frame id with
    [static_cast<frame_id_t>(replacer_size_)], taken here to preserve the
    value.  [use_count_] is indexed with [operator[]] without ever being
    resized, so it is a map whose missing entries read as 0; its values
    count accesses and are kept unbounded.  [history_map_] and [cache_map_]
    index the two lists by frame id: the model keeps their key sets, the
    iterator stored for a key being the position of that key in the list.
    [curr_size_] is the [size_t] that [Size] returns. *)
Record t : Type := mk {
  replacer_size_ : Z;
  k_ : N;
  curr_size_ : Z;
  is_accessible_ : list bool;
  use_count_ : gmap Z N;
  history_list_ : list Z;
  history_map_ : gset Z;
  cache_list_ : list Z;
  cache_map_ : gset Z
}.

(** [LRUKReplacer(num_frames, k)]: [is_accessible_.resize(num_frames + 1)],
    everything else empty or zero.  The sum is a [size_t]; the model is of
    a replacer for which it does not wrap ([num_frames < 2^64 - 1]), which
    the theorems that index [is_accessible_] up to [num_frames] assume. *)
Definition new (num_frames : Z) (k : N) : t :=
  {| replacer_size_ := num_frames;
     k_ := k;
     curr_size_ := 0;
     is_accessible_ := replicate (Z.to_nat (num_frames + 1)) false;
     use_count_ := ∅;
     history_list_ := [];
     history_map_ := ∅;
     cache_list_ := [];
     cache_map_ := ∅ |}.

(** [use_count_[frame_id]] read as a value. *)
Definition use_count (r : t) (frame_id : Z) : N :=
  default 0%N (use_count_ r !! frame_id).

(** The loop
    [it = l.end(); while (it != l.begin()) { it--; if (!is_accessible_[*it]) continue; ... return true; }]
    visits [l] from its back and stops at the first evictable entry; the
    result is that entry and the list after [l.erase(it)]. *)
Fixpoint scan (is_accessible : list bool) (l : list Z) : outcome (option (Z * list Z)) :=
  match l with
  | [] => Ok None
  | f :: behind =>
      let* found := scan is_accessible behind in
      match found with
      | Some (victim, behind') => Ok (Some (victim, f :: behind'))
      | None =>
          let* a := vec_at is_accessible f in
          if a : bool then Ok (Some (f, behind)) else Ok None
      end
  end.

(** [Evict(frame_id_t *frame_id) -> bool]: [Some f] stands for [true] with
    [*frame_id = f], [None] for [false] (the out-parameter is then 0). *)
Definition Evict (r : t) : outcome (t * option Z) :=
  if bool_decide (history_map_ r = ∅ ∧ cache_map_ r = ∅) then Ok (r, None)
  else
    let* h := scan (is_accessible_ r) (history_list_ r) in
    match h with
    | Some (f, rest) =>
        Ok ({| replacer_size_ := replacer_size_ r;
               k_ := k_ r;
               curr_size_ := size_t_wrap (curr_size_ r - 1);
               is_accessible_ := vec_set (is_accessible_ r) f false;
               use_count_ := <[f := 0%N]> (use_count_ r);
               history_list_ := rest;
               history_map_ := history_map_ r ∖ {[f]};
               cache_list_ := cache_list_ r;
               cache_map_ := cache_map_ r |}, Some f)
    | None =>
        let* c := scan (is_accessible_ r) (cache_list_ r) in
        match c with
        | Some (f, rest) =>
            Ok ({| replacer_size_ := replacer_size_ r;
                   k_ := k_ r;
                   curr_size_ := size_t_wrap (curr_size_ r - 1);
                   is_accessible_ := vec_set (is_accessible_ r) f false;
                   use_count_ := <[f := 0%N]> (use_count_ r);
                   history_list_ := history_list_ r;
                   history_map_ := history_map_ r;
                   cache_list_ := rest;
                   cache_map_ := cache_map_ r ∖ {[f]} |}, Some f)
        | None => Ok (r, None)
        end
    end.

(** [RecordAccess(frame_id)]. *)
Definition RecordAccess (r : t) (frame_id : Z) : outcome t :=
  if bool_decide (frame_id > replacer_size_ r) then Throw
  else
    let cnt := (use_count r frame_id + 1)%N in
    let counts := <[frame_id := cnt]> (use_count_ r) in
    if bool_decide (cnt = k_ r) then
      (* take frame from history to cache *)
      let in_history := bool_decide (frame_id ∈ history_map_ r) in
      Ok {| replacer_size_ := replacer_size_ r;
            k_ := k_ r;
            curr_size_ := curr_size_ r;
            is_accessible_ := is_accessible_ r;
            use_count_ := counts;
            history_list_ :=
              if in_history then list_erase frame_id (history_list_ r) else history_list_ r;
            history_map_ :=
              if in_history then history_map_ r ∖ {[frame_id]} else history_map_ r;
            cache_list_ := frame_id :: cache_list_ r;
            cache_map_ := {[frame_id]} ∪ cache_map_ r |}
    else if bool_decide (k_ r < cnt)%N then
      (* resort the cache *)
      let in_cache := bool_decide (frame_id ∈ cache_map_ r) in
      Ok {| replacer_size_ := replacer_size_ r;
            k_ := k_ r;
            curr_size_ := curr_size_ r;
            is_accessible_ := is_accessible_ r;
            use_count_ := counts;
            history_list_ := history_list_ r;
            history_map_ := history_map_ r;
            cache_list_ :=
              frame_id :: (if in_cache then list_erase frame_id (cache_list_ r) else cache_list_ r);
            cache_map_ := {[frame_id]} ∪ cache_map_ r |}
    else
      (* use count < k, change history *)
      let in_history := bool_decide (frame_id ∈ history_map_ r) in
      Ok {| replacer_size_ := replacer_size_ r;
            k_ := k_ r;
            curr_size_ := curr_size_ r;
            is_accessible_ := is_accessible_ r;
            use_count_ := counts;
            history_list_ :=
              if in_history then history_list_ r else frame_id :: history_list_ r;
            history_map_ :=
              if in_history then history_map_ r else {[frame_id]} ∪ history_map_ r;
            cache_list_ := cache_list_ r;
            cache_map_ := cache_map_ r |}.

(** [SetEvictable(frame_id, set_evictable)]. *)
Definition SetEvictable (r : t) (frame_id : Z) (set_evictable : bool) : outcome t :=
  if bool_decide (frame_id > replacer_size_ r) then Throw
  else if bool_decide (use_count r frame_id = 0%N) then Ok r
  else
    let* a := vec_at (is_accessible_ r) frame_id in
    let size1 :=
      if a && negb set_evictable then size_t_wrap (curr_size_ r - 1) else curr_size_ r in
    let size2 :=
      if negb a && set_evictable then size_t_wrap (size1 + 1) else size1 in
    Ok {| replacer_size_ := replacer_size_ r;
          k_ := k_ r;
          curr_size_ := size2;
          is_accessible_ := vec_set (is_accessible_ r) frame_id set_evictable;
          use_count_ := use_count_ r;
          history_list_ := history_list_ r;
          history_map_ := history_map_ r;
          cache_list_ := cache_list_ r;
          cache_map_ := cache_map_ r |}.

(** [Remove(frame_id)].  [history_map_[frame_id]] on a missing key yields a
    singular iterator, and erasing it is undefined. *)
Definition Remove (r : t) (frame_id : Z) : outcome t :=
  if bool_decide (frame_id > replacer_size_ r) then Throw
  else
    let* a := vec_at (is_accessible_ r) frame_id in
    if negb a then Ok r
    else
      let removal := use_count r frame_id in
      if bool_decide (removal < k_ r)%N then
        if bool_decide (frame_id ∈ history_map_ r) then
          Ok {| replacer_size_ := replacer_size_ r;
                k_ := k_ r;
                curr_size_ := size_t_wrap (curr_size_ r - 1);
                is_accessible_ := vec_set (is_accessible_ r) frame_id false;
                use_count_ := <[frame_id := 0%N]> (use_count_ r);
                history_list_ := list_erase frame_id (history_list_ r);
                history_map_ := history_map_ r ∖ {[frame_id]};
                cache_list_ := cache_list_ r;
                cache_map_ := cache_map_ r |}
        else Undefined
      else
        if bool_decide (frame_id ∈ cache_map_ r) then
          Ok {| replacer_size_ := replacer_size_ r;
                k_ := k_ r;
                curr_size_ := size_t_wrap (curr_size_ r - 1);
                is_accessible_ := vec_set (is_accessible_ r) frame_id false;
                use_count_ := <[frame_id := 0%N]> (use_count_ r);
                history_list_ := history_list_ r;
                history_map_ := history_map_ r;
                cache_list_ := list_erase frame_id (cache_list_ r);
                cache_map_ := cache_map_ r ∖ {[frame_id]} |}
        else Undefined.

(** [Size()]. *)
Definition Size (r : t) : Z := curr_size_ r.

(** The evictable flag of a frame, and the number of frames whose flag is
    set. *)
Definition evictable (r : t) (frame_id : Z) : Prop :=
  vec_at (is_accessible_ r) frame_id = Ok true.

Fixpoint count_true (v : list bool) : Z :=
  match v with
  | [] => 0
  | b :: v' => (if b then 1 else 0) + count_true v'
  end.

(** States the replacer reaches from its constructor.  Frame ids passed in
    are non-negative; a call that throws leaves the object as it was. *)
Inductive reachable (num_frames : Z) (k : N) : t → Prop :=
| reach_new : reachable num_frames k (new num_frames k)
| reach_RecordAccess r frame_id r' :
    reachable num_frames k r → 0 ≤ frame_id →
    RecordAccess r frame_id = Ok r' → reachable num_frames k r'
| reach_SetEvictable r frame_id b r' :
    reachable num_frames k r →
    SetEvictable r frame_id b = Ok r' → reachable num_frames k r'
| reach_Remove r frame_id r' :
    reachable num_frames k r →
    Remove r frame_id = Ok r' → reachable num_frames k r'
| reach_Evict r r' victim :
    reachable num_frames k r →
    Evict r = Ok (r', victim) → reachable num_frames k r'.

(** The representation invariant. *)
Record wf (r : t) : Prop := mk_wf {
  wf_size : 0 ≤ replacer_size_ r;
  wf_len : length (is_accessible_ r) = Z.to_nat (replacer_size_ r + 1);
  wf_hmap : ∀ f, f ∈ history_map_ r ↔ f ∈ history_list_ r;
  wf_cmap : ∀ f, f ∈ cache_map_ r ↔ f ∈ cache_list_ r;
  wf_hnodup : NoDup (history_list_ r);
  wf_cnodup : NoDup (cache_list_ r);
  wf_hist : ∀ f, f ∈ history_list_ r ↔ (0 < use_count r f < k_ r)%N;
  wf_cache : ∀ f, f ∈ cache_list_ r ↔ (0 < use_count r f ∧ k_ r ≤ use_count r f)%N;
  wf_range : ∀ f, (0 < use_count r f)%N → 0 ≤ f ≤ replacer_size_ r;
  wf_acc : ∀ f, evictable r f → (0 < use_count r f)%N
}.

Ltac proj := cbn [replacer_size_ k_ curr_size_ is_accessible_ use_count_
  history_list_ history_map_ cache_list_ cache_map_].

Ltac cnt := first [lia | split; [intros [? ?]; first [done | lia] | lia] | intuition lia].

(** [curr_size_] counts the set flags, and the flag vector is short enough
    for a [size_t]. *)
Definition size_ok (r : t) : Prop :=
  curr_size_ r = count_true (is_accessible_ r) ∧
  Z.of_nat (length (is_accessible_ r)) < 2 ^ 64.

(** A reachable state with frames 1 and 2 in the history list, 2 evictable. *)
Definition sample_state : t :=
  {| replacer_size_ := 7; k_ := 2; curr_size_ := 1;
     is_accessible_ := [false; false; true; false; false; false; false; false];
     use_count_ := {[1 := 1%N; 2 := 1%N]};
     history_list_ := [2; 1]; history_map_ := {[2; 1]};
     cache_list_ := []; cache_map_ := ∅ |}.

(** *** Access times

    The code keeps no timestamps; to speak about arrival and recency the
    calls are counted on the side.  [now] is the number of [RecordAccess]
    calls so far, [arrival] the time of the access that put a frame into
    the history list (its first access since it was last reset), and
    [last_access] the time of a frame's most recent access. *)
Record times : Type := mk_times {
  now : nat;
  arrival : gmap Z nat;
  last_access : gmap Z nat
}.

Definition time_of (m : gmap Z nat) (f : Z) : nat := default 0%nat (m !! f).

(** The times after [RecordAccess(f)] on the replacer [r]. *)
Definition tick (r : t) (g : times) (f : Z) : times :=
  {| now := S (now g);
     arrival :=
       if bool_decide (use_count r f = 0%N) then <[f := now g]> (arrival g) else arrival g;
     last_access := <[f := now g]> (last_access g) |}.

(** Reachable states together with their access times. *)
Inductive timed (num_frames : Z) (k : N) : t → times → Prop :=
| timed_new : timed num_frames k (new num_frames k) (mk_times 0 ∅ ∅)
| timed_RecordAccess r g frame_id r' :
    timed num_frames k r g → 0 ≤ frame_id →
    RecordAccess r frame_id = Ok r' → timed num_frames k r' (tick r g frame_id)
| timed_SetEvictable r g frame_id b r' :
    timed num_frames k r g →
    SetEvictable r frame_id b = Ok r' → timed num_frames k r' g
| timed_Remove r g frame_id r' :
    timed num_frames k r g →
    Remove r frame_id = Ok r' → timed num_frames k r' g
| timed_Evict r g r' victim :
    timed num_frames k r g →
    Evict r = Ok (r', victim) → timed num_frames k r' g.

(** [x] comes before [y] in a list ordered by [m] when its time is later. *)
Definition later (m : gmap Z nat) (x y : Z) : Prop := (time_of m y < time_of m x)%nat.

(** Both lists run from the latest time at the front to the earliest at the
    back: the history list by arrival, the cache list by last access. *)
Record ordered (r : t) (g : times) : Prop := mk_ordered {
  ord_hist : StronglySorted (later (arrival g)) (history_list_ r);
  ord_cache : StronglySorted (later (last_access g)) (cache_list_ r);
  ord_hist_now : ∀ f, f ∈ history_list_ r → (time_of (arrival g) f < now g)%nat;
  ord_cache_now : ∀ f, f ∈ cache_list_ r → (time_of (last_access g) f < now g)%nat
}.

Definition sample_times : times :=
  {| now := 2; arrival := {[1 := 0%nat; 2 := 1%nat]};
     last_access := {[1 := 0%nat; 2 := 1%nat]} |}.

(** Calls on the replacer, and a sequence of them run from a state. *)
Inductive call : Type :=
| CallRecordAccess (frame_id : Z)
| CallSetEvictable (frame_id : Z) (set_evictable : bool)
| CallRemove (frame_id : Z)
| CallEvict.

Definition step (r : t) (c : call) : outcome t :=
  match c with
  | CallRecordAccess f => RecordAccess r f
  | CallSetEvictable f b => SetEvictable r f b
  | CallRemove f => Remove r f
  | CallEvict => let* (r', _) := Evict r in Ok r'
  end.

Fixpoint run (r : t) (calls : list call) : outcome t :=
  match calls with
  | [] => Ok r
  | c :: calls' => let* r' := step r c in run r' calls'
  end.

(** The positions, in a sequence of calls, of the accesses to a frame, and
    the k-th most recent of them. *)
Fixpoint access_times (calls : list call) (frame_id : Z) (position : nat) : list nat :=
  match calls with
  | [] => []
  | c :: calls' =>
      let rest := access_times calls' frame_id (S position) in
      match c with
      | CallRecordAccess f => if bool_decide (f = frame_id) then position :: rest else rest
      | _ => rest
      end
  end.

Definition kth_most_recent (k : nat) (accesses : list nat) : option nat :=
  reverse accesses !! pred k.

End LRUKReplacer.

(** * The buffer pool manager ([src/buffer/buffer_pool_manager.cpp]) *)

Module BufferPoolManager.

(** Modelled from the spec: the sentinel [INVALID_PAGE_ID] and the page size
    are constants of [common/config.h], which is not among the sources; the
    spec gives -1 and 4096 for them. *)
Definition INVALID_PAGE_ID : Z := -1.
Definition BUSTUB_PAGE_SIZE : nat := 4096.

(** Modelled from the spec: a frame is a [Page] object ([page.h] is not
    among the sources), a buffer of [BUSTUB_PAGE_SIZE] bytes with the page
    id, the pin count and the dirty flag.  [pin_count_] is kept unbounded. *)
Record Page : Type := mkPage {
  data_ : list Byte.byte;
  page_id_ : Z;
  pin_count_ : Z;
  is_dirty_ : bool
}.

(** [ResetMemory()]. *)
Definition zero_data : list Byte.byte := replicate BUSTUB_PAGE_SIZE Byte.x00.

(** Modelled from the spec: a freshly constructed [Page] ([page.h] is not
    among the sources) holds no page, is unpinned, clean and zeroed. *)
Definition empty_page : Page :=
  {| data_ := zero_data; page_id_ := INVALID_PAGE_ID; pin_count_ := 0; is_dirty_ := false |}.

(** What the pool does to its collaborators and to its page table, in
    program order.  The disk manager calls are the pool's only I/O, and
    [DeallocatePage] is the pool's own hook, defined in the header; the two
    page-table events let a property speak about the order between a
    write-back and the detaching of a page id. *)
Inductive Event : Type :=
| WritePage (page_id : Z) (data : list Byte.byte)
| ReadPage (page_id : Z)
| DeallocatePage (page_id : Z)
| PageTableErase (page_id : Z)
| PageTableAssign (page_id : Z) (frame_id : Z).

(** Modelled from the spec: the disk manager is an external collaborator;
    [ReadPage] fills the buffer with what was last written to the page id,
    or with zeroes. *)
Fixpoint disk_read (trace : list Event) (page_id : Z) : list Byte.byte :=
  match trace with
  | [] => zero_data
  | e :: trace' =>
      let earlier := disk_read trace' page_id in
      match e with
      | WritePage p d => if bool_decide (p = page_id) then d else earlier
      | _ => earlier
      end
  end.

(** Modelled from the spec: the class is declared in
    [buffer_pool_manager.h], which is not among the sources; the fields are
    the ones the code uses: the frame array, the page table, the free list
    (its back is the end of the list), the replacer and the page id
    counter.  [trace_] is the sequence of events so far, most recent
    first. *)
Record t : Type := mk {
  pool_size_ : Z;
  pages_ : list Page;
  page_table_ : gmap Z Z;
  free_list_ : list Z;
  replacer_ : LRUKReplacer.t;
  next_page_id_ : Z;
  trace_ : list Event
}.

(** [BufferPoolManager(pool_size, disk_manager, replacer_k)]. *)
Definition new (pool_size : Z) (replacer_k : N) : t :=
  {| pool_size_ := pool_size;
     pages_ := replicate (Z.to_nat pool_size) empty_page;
     page_table_ := ∅;
     free_list_ := Z.of_nat <$> seq 0 (Z.to_nat pool_size);
     replacer_ := LRUKReplacer.new pool_size replacer_k;
     next_page_id_ := 0;
     trace_ := [] |}.

(** [free_list_.back()] and [free_list_.pop_back()]: the list without its
    last element, and that element. *)
Fixpoint pop_back (l : list Z) : option (list Z * Z) :=
  match l with
  | [] => None
  | x :: l' =>
      match pop_back l' with
      | None => Some ([], x)
      | Some (front, last) => Some (x :: front, last)
      end
  end.

(** The block that [NewPage] (lines 47-64) and [FetchPage] (lines 97-111)
    share: take a frame from the free list, else ask the replacer for a
    victim, write the victim back if it is dirty and erase its page id from
    the page table.  [None] stands for the early [return nullptr]. *)
Definition obtain_frame (b : t) : outcome (t * option Z) :=
  match pop_back (free_list_ b) with
  | Some (rest, frame_id) =>
      Ok ({| pool_size_ := pool_size_ b;
             pages_ := pages_ b;
             page_table_ := page_table_ b;
             free_list_ := rest;
             replacer_ := replacer_ b;
             next_page_id_ := next_page_id_ b;
             trace_ := trace_ b |}, Some frame_id)
  | None =>
      let* (r, victim) := LRUKReplacer.Evict (replacer_ b) in
      match victim with
      | None =>
          Ok ({| pool_size_ := pool_size_ b;
                 pages_ := pages_ b;
                 page_table_ := page_table_ b;
                 free_list_ := free_list_ b;
                 replacer_ := r;
                 next_page_id_ := next_page_id_ b;
                 trace_ := trace_ b |}, None)
      | Some frame_id =>
          let* pg := vec_at (pages_ b) frame_id in
          let flushed :=
            {| data_ := data_ pg; page_id_ := page_id_ pg;
               pin_count_ := pin_count_ pg; is_dirty_ := false |} in
          Ok ({| pool_size_ := pool_size_ b;
                 pages_ :=
                   if is_dirty_ pg then vec_set (pages_ b) frame_id flushed else pages_ b;
                 page_table_ := delete (page_id_ pg) (page_table_ b);
                 free_list_ := free_list_ b;
                 replacer_ := r;
                 next_page_id_ := next_page_id_ b;
                 trace_ :=
                   PageTableErase (page_id_ pg) ::
                   (if is_dirty_ pg
                    then WritePage (page_id_ pg) (data_ pg) :: trace_ b
                    else trace_ b) |}, Some frame_id)
      end
  end.

(** [NewPage(page_id_t *page_id) -> Page *]: the result is the new page id
    and the index of the frame the returned pointer refers to. *)
Definition NewPage (b : t) : outcome (t * option (Z * Z)) :=
  let new_page_id := next_page_id_ b in
  let* (b1, got) :=
    obtain_frame {| pool_size_ := pool_size_ b;
                    pages_ := pages_ b;
                    page_table_ := page_table_ b;
                    free_list_ := free_list_ b;
                    replacer_ := replacer_ b;
                    next_page_id_ := next_page_id_ b + 1;
                    trace_ := trace_ b |} in
  match got with
  | None => Ok (b1, None)
  | Some frame_id =>
      let* _ := vec_at (pages_ b1) frame_id in
      let current_page :=
        {| data_ := zero_data; page_id_ := new_page_id;
           pin_count_ := 1; is_dirty_ := false |} in
      let* r1 := LRUKReplacer.RecordAccess (replacer_ b1) frame_id in
      let* r2 := LRUKReplacer.SetEvictable r1 frame_id false in
      Ok ({| pool_size_ := pool_size_ b1;
             pages_ := vec_set (pages_ b1) frame_id current_page;
             page_table_ := <[new_page_id := frame_id]> (page_table_ b1);
             free_list_ := free_list_ b1;
             replacer_ := r2;
             next_page_id_ := next_page_id_ b1;
             trace_ := PageTableAssign new_page_id frame_id :: trace_ b1 |},
          Some (new_page_id, frame_id))
  end.

(** [FetchPage(page_id) -> Page *]: the result is the index of the frame
    the returned pointer refers to. *)
Definition FetchPage (b : t) (page_id : Z) : outcome (t * option Z) :=
  match page_table_ b !! page_id with
  | Some frame_id =>
      let* pg := vec_at (pages_ b) frame_id in
      let pinned :=
        {| data_ := data_ pg; page_id_ := page_id_ pg;
           pin_count_ := pin_count_ pg + 1; is_dirty_ := is_dirty_ pg |} in
      let* r1 := LRUKReplacer.RecordAccess (replacer_ b) frame_id in
      let* r2 := LRUKReplacer.SetEvictable r1 frame_id false in
      Ok ({| pool_size_ := pool_size_ b;
             pages_ := vec_set (pages_ b) frame_id pinned;
             page_table_ := page_table_ b;
             free_list_ := free_list_ b;
             replacer_ := r2;
             next_page_id_ := next_page_id_ b;
             trace_ := trace_ b |}, Some frame_id)
  | None =>
      let* (b1, got) := obtain_frame b in
      match got with
      | None => Ok (b1, None)
      | Some frame_id =>
          let* _ := vec_at (pages_ b1) frame_id in
          let trace1 := PageTableAssign page_id frame_id :: trace_ b1 in
          let fetched :=
            {| data_ := disk_read trace1 page_id; page_id_ := page_id;
               pin_count_ := 1; is_dirty_ := false |} in
          let* r1 := LRUKReplacer.SetEvictable (replacer_ b1) frame_id false in
          let* r2 := LRUKReplacer.RecordAccess r1 frame_id in
          Ok ({| pool_size_ := pool_size_ b1;
                 pages_ := vec_set (pages_ b1) frame_id fetched;
                 page_table_ := <[page_id := frame_id]> (page_table_ b1);
                 free_list_ := free_list_ b1;
                 replacer_ := r2;
                 next_page_id_ := next_page_id_ b1;
                 trace_ := ReadPage page_id :: trace1 |}, Some frame_id)
      end
  end.

(** [UnpinPage(page_id, is_dirty) -> bool]. *)
Definition UnpinPage (b : t) (page_id : Z) (is_dirty : bool) : outcome (t * bool) :=
  match page_table_ b !! page_id with
  | None => Ok (b, false)
  | Some frame_id =>
      let* pg := vec_at (pages_ b) frame_id in
      if bool_decide (pin_count_ pg = 0) then Ok (b, false)
      else
        let dirty := is_dirty_ pg || is_dirty in
        if bool_decide (pin_count_ pg > 0) then
          let unpinned :=
            {| data_ := data_ pg; page_id_ := page_id_ pg;
               pin_count_ := pin_count_ pg - 1; is_dirty_ := dirty |} in
          let* r :=
            if bool_decide (pin_count_ pg - 1 = 0)
            then LRUKReplacer.SetEvictable (replacer_ b) frame_id true
            else Ok (replacer_ b) in
          Ok ({| pool_size_ := pool_size_ b;
                 pages_ := vec_set (pages_ b) frame_id unpinned;
                 page_table_ := page_table_ b;
                 free_list_ := free_list_ b;
                 replacer_ := r;
                 next_page_id_ := next_page_id_ b;
                 trace_ := trace_ b |}, true)
        else
          let marked :=
            {| data_ := data_ pg; page_id_ := page_id_ pg;
               pin_count_ := pin_count_ pg; is_dirty_ := dirty |} in
          Ok ({| pool_size_ := pool_size_ b;
                 pages_ := vec_set (pages_ b) frame_id marked;
                 page_table_ := page_table_ b;
                 free_list_ := free_list_ b;
                 replacer_ := replacer_ b;
                 next_page_id_ := next_page_id_ b;
                 trace_ := trace_ b |}, false)
  end.

(** [FlushPage(page_id) -> bool]. *)
Definition FlushPage (b : t) (page_id : Z) : outcome (t * bool) :=
  if bool_decide (page_id = INVALID_PAGE_ID) then Ok (b, false)
  else
    match page_table_ b !! page_id with
    | None => Ok (b, false)
    | Some frame_id =>
        let* pg := vec_at (pages_ b) frame_id in
        let flushed :=
          {| data_ := data_ pg; page_id_ := page_id_ pg;
             pin_count_ := pin_count_ pg; is_dirty_ := false |} in
        Ok ({| pool_size_ := pool_size_ b;
               pages_ := vec_set (pages_ b) frame_id flushed;
               page_table_ := page_table_ b;
               free_list_ := free_list_ b;
               replacer_ := replacer_ b;
               next_page_id_ := next_page_id_ b;
               trace_ := WritePage (page_id_ pg) (data_ pg) :: trace_ b |}, true)
    end.

(** The loop of [FlushAllPages] over the frames, in index order: the frames
    afterwards and the events issued (most recent first). *)
Fixpoint flush_frames (pages : list Page) (trace : list Event) : list Page * list Event :=
  match pages with
  | [] => ([], trace)
  | pg :: pages' =>
      if is_dirty_ pg && negb (bool_decide (page_id_ pg = INVALID_PAGE_ID)) then
        let flushed :=
          {| data_ := data_ pg; page_id_ := page_id_ pg;
             pin_count_ := pin_count_ pg; is_dirty_ := false |} in
        let (rest, trace') :=
          flush_frames pages' (WritePage (page_id_ pg) (data_ pg) :: trace) in
        (flushed :: rest, trace')
      else
        let (rest, trace') := flush_frames pages' trace in
        (pg :: rest, trace')
  end.

(** [FlushAllPages()]; [pages_] has [pool_size_] entries. *)
Definition FlushAllPages (b : t) : outcome t :=
  let (pages, trace) := flush_frames (pages_ b) (trace_ b) in
  Ok {| pool_size_ := pool_size_ b;
        pages_ := pages;
        page_table_ := page_table_ b;
        free_list_ := free_list_ b;
        replacer_ := replacer_ b;
        next_page_id_ := next_page_id_ b;
        trace_ := trace |}.

(** [DeletePage(page_id) -> bool]. *)
Definition DeletePage (b : t) (page_id : Z) : outcome (t * bool) :=
  match page_table_ b !! page_id with
  | None => Ok (b, true)
  | Some frame_id =>
      let* pg := vec_at (pages_ b) frame_id in
      if bool_decide (pin_count_ pg ≠ 0) then Ok (b, false)
      else
        let trace1 :=
          if is_dirty_ pg then WritePage (page_id_ pg) (data_ pg) :: trace_ b
          else trace_ b in
        let released :=
          {| data_ := zero_data; page_id_ := INVALID_PAGE_ID;
             pin_count_ := pin_count_ pg; is_dirty_ := false |} in
        let* r := LRUKReplacer.Remove (replacer_ b) frame_id in
        Ok ({| pool_size_ := pool_size_ b;
               pages_ := vec_set (pages_ b) frame_id released;
               page_table_ := delete page_id (page_table_ b);
               free_list_ := free_list_ b ++ [frame_id];
               replacer_ := r;
               next_page_id_ := next_page_id_ b;
               trace_ := DeallocatePage page_id :: PageTableErase page_id :: trace1 |},
            true)
  end.

(** A client that holds a pin writes into the frame through the [Page *] it
    was given. *)
Definition client_write (b : t) (frame_id : Z) (data : list Byte.byte) : outcome t :=
  let* pg := vec_at (pages_ b) frame_id in
  Ok {| pool_size_ := pool_size_ b;
        pages_ :=
          vec_set (pages_ b) frame_id
            {| data_ := data; page_id_ := page_id_ pg;
               pin_count_ := pin_count_ pg; is_dirty_ := is_dirty_ pg |};
        page_table_ := page_table_ b;
        free_list_ := free_list_ b;
        replacer_ := replacer_ b;
        next_page_id_ := next_page_id_ b;
        trace_ := trace_ b |}.

(** States the pool reaches from its constructor. *)
Inductive reachable (pool_size : Z) (replacer_k : N) : t → Prop :=
| reach_new : reachable pool_size replacer_k (new pool_size replacer_k)
| reach_NewPage b b' res :
    reachable pool_size replacer_k b →
    NewPage b = Ok (b', res) → reachable pool_size replacer_k b'
| reach_FetchPage b page_id b' res :
    reachable pool_size replacer_k b →
    FetchPage b page_id = Ok (b', res) → reachable pool_size replacer_k b'
| reach_UnpinPage b page_id is_dirty b' res :
    reachable pool_size replacer_k b →
    UnpinPage b page_id is_dirty = Ok (b', res) → reachable pool_size replacer_k b'
| reach_FlushPage b page_id b' res :
    reachable pool_size replacer_k b →
    FlushPage b page_id = Ok (b', res) → reachable pool_size replacer_k b'
| reach_FlushAllPages b b' :
    reachable pool_size replacer_k b →
    FlushAllPages b = Ok b' → reachable pool_size replacer_k b'
| reach_DeletePage b page_id b' res :
    reachable pool_size replacer_k b →
    DeletePage b page_id = Ok (b', res) → reachable pool_size replacer_k b'
| reach_client_write b frame_id data b' :
    reachable pool_size replacer_k b →
    length data = BUSTUB_PAGE_SIZE →
    client_write b frame_id data = Ok b' → reachable pool_size replacer_k b'.

(** The representation invariant of the pool. *)
Record inv (b : t) : Prop := mk_inv {
  inv_wf : LRUKReplacer.wf (replacer_ b);
  inv_rsize : LRUKReplacer.replacer_size_ (replacer_ b) = pool_size_ b;
  inv_len : Z.of_nat (length (pages_ b)) = pool_size_ b;
  inv_table : ∀ page_id f, page_table_ b !! page_id = Some f → 0 ≤ f < pool_size_ b;
  inv_free : ∀ f, f ∈ free_list_ b → 0 ≤ f < pool_size_ b;
  inv_known : ∀ f, (0 < LRUKReplacer.use_count (replacer_ b) f)%N → f < pool_size_ b;
  inv_pin : ∀ f pg,
    LRUKReplacer.evictable (replacer_ b) f →
    pages_ b !! Z.to_nat f = Some pg → pin_count_ pg = 0;
  inv_pin_nonneg : ∀ i pg, pages_ b !! i = Some pg → 0 ≤ pin_count_ pg
}.

Ltac projb := cbn [pool_size_ pages_ page_table_ free_list_ replacer_ next_page_id_ trace_
                   data_ page_id_ pin_count_ is_dirty_].

(** What pinning a frame does to the replacer: [RecordAccess] and
    [SetEvictable(frame_id, false)], in either order. *)
Definition pinned_rel (r r2 : LRUKReplacer.t) (f : Z) : Prop :=
  LRUKReplacer.wf r2 ∧
  LRUKReplacer.replacer_size_ r2 = LRUKReplacer.replacer_size_ r ∧
  (∀ x, (0 < LRUKReplacer.use_count r2 x)%N → x = f ∨ (0 < LRUKReplacer.use_count r x)%N) ∧
  (∀ x, LRUKReplacer.evictable r2 x → x ≠ f ∧ LRUKReplacer.evictable r x).

(** A pool of one frame: a page is created, written to, and unpinned dirty. *)
Definition state_of {A : Type} (o : outcome (t * A)) : t :=
  match o with
  | Ok (b, _) => b
  | _ => new 0 0
  end.

Definition pool1_pinned : t := state_of (NewPage (new 1 2)).

Definition pool1_written : t :=
  match client_write pool1_pinned 0 (replicate BUSTUB_PAGE_SIZE Byte.x68) with
  | Ok b => b
  | _ => new 0 0
  end.

Definition pool1_unpinned : t := state_of (UnpinPage pool1_written 0 true).

(** How the page table, the free list, the frames and the replacer hang
    together. *)
Record coherent (b : t) : Prop := mk_coherent {
  co_page : ∀ page_id f, page_table_ b !! page_id = Some f →
    ∃ pg, pages_ b !! Z.to_nat f = Some pg ∧ page_id_ pg = page_id;
  co_free : ∀ f page_id, f ∈ free_list_ b → page_table_ b !! page_id ≠ Some f;
  co_nodup : NoDup (free_list_ b);
  co_free_page : ∀ f pg, f ∈ free_list_ b → pages_ b !! Z.to_nat f = Some pg →
    page_id_ pg = INVALID_PAGE_ID ∧ pin_count_ pg = 0 ∧ is_dirty_ pg = false;
  co_free_untracked : ∀ f, f ∈ free_list_ b →
    LRUKReplacer.use_count (replacer_ b) f = 0%N;
  co_tracked : ∀ page_id f, page_table_ b !! page_id = Some f →
    LRUKReplacer.use_count (replacer_ b) f ≠ 0%N;
  co_unpinned : ∀ page_id f pg, page_table_ b !! page_id = Some f →
    pages_ b !! Z.to_nat f = Some pg → pin_count_ pg = 0 →
    LRUKReplacer.evictable (replacer_ b) f
}.

(** What pinning a frame does to the replacer, frame by frame. *)
Definition pin_exact (r r2 : LRUKReplacer.t) (f : Z) : Prop :=
  (∀ x, x ≠ f → LRUKReplacer.use_count r2 x = LRUKReplacer.use_count r x) ∧
  (∀ x, x ≠ f → LRUKReplacer.evictable r2 x ↔ LRUKReplacer.evictable r x) ∧
  LRUKReplacer.use_count r2 f ≠ 0%N ∧
  ¬ LRUKReplacer.evictable r2 f.

(** The calls a client makes, and one of them run on the pool. *)
Inductive call : Type :=
| CallNewPage
| CallFetchPage (page_id : Z)
| CallUnpinPage (page_id : Z) (is_dirty : bool)
| CallFlushPage (page_id : Z)
| CallFlushAllPages
| CallDeletePage (page_id : Z)
| CallClientWrite (frame_id : Z) (data : list Byte.byte).

Definition step (b : t) (c : call) : outcome t :=
  match c with
  | CallNewPage => let* (b', _) := NewPage b in Ok b'
  | CallFetchPage page_id => let* (b', _) := FetchPage b page_id in Ok b'
  | CallUnpinPage page_id is_dirty => let* (b', _) := UnpinPage b page_id is_dirty in Ok b'
  | CallFlushPage page_id => let* (b', _) := FlushPage b page_id in Ok b'
  | CallFlushAllPages => FlushAllPages b
  | CallDeletePage page_id => let* (b', _) := DeletePage b page_id in Ok b'
  | CallClientWrite frame_id data => client_write b frame_id data
  end.

(** [FetchPageBasic(page_id)] and [NewPageGuarded(page_id)] wrap the
    pointer that [FetchPage] and [NewPage] return, null or not, in a guard.
    Modelled from the spec: the guard classes are declared in
    [storage/page/page_guard.h], which is not among the sources; a guard is
    taken to hold the frame its page pointer refers to, [None] for
    [nullptr]. *)
Definition FetchPageBasic (b : t) (page_id : Z) : outcome (t * option Z) :=
  FetchPage b page_id.

Definition NewPageGuarded (b : t) : outcome (t * option (Z * Z)) :=
  NewPage b.

(** [FetchPageRead(page_id)] and [FetchPageWrite(page_id)] call
    [page->RLatch()] and [page->WLatch()] on the pointer that [FetchPage]
    returns, without a null check.  Modelled from the spec: the latch is a
    member of [Page] ([page.h] is not among the sources); the model keeps
    no latch state, the caller being taken to hold no latch on the page. *)
Definition FetchPageRead (b : t) (page_id : Z) : outcome (t * Z) :=
  let* (b', page) := FetchPage b page_id in
  match page with
  | Some frame_id => Ok (b', frame_id)
  | None => Undefined
  end.

Definition FetchPageWrite (b : t) (page_id : Z) : outcome (t * Z) :=
  let* (b', page) := FetchPage b page_id in
  match page with
  | Some frame_id => Ok (b', frame_id)
  | None => Undefined
  end.

(** A client that asks [FetchPage] only for page ids that [NewPage] has
    handed out. *)
Definition allocated (b : t) (c : call) : Prop :=
  match c with
  | CallFetchPage page_id => 0 ≤ page_id < next_page_id_ b
  | _ => True
  end.

(** The states the pool reaches with such a client. *)
Inductive reachable_allocated (pool_size : Z) (replacer_k : N) : t → Prop :=
| reach_alloc_new : reachable_allocated pool_size replacer_k (new pool_size replacer_k)
| reach_alloc_step b c b' :
    reachable_allocated pool_size replacer_k b → allocated b c →
    (∀ frame_id data, c = CallClientWrite frame_id data → length data = BUSTUB_PAGE_SIZE) →
    step b c = Ok b' → reachable_allocated pool_size replacer_k b'.

(** Every frame is accounted for: resident page ids have been allocated, a
    frame that holds a page is the frame the page table maps that page to,
    and a frame that holds no page is on the free list. *)
Record accounted (b : t) : Prop := mk_accounted {
  ac_ids : ∀ page_id f, page_table_ b !! page_id = Some f → 0 ≤ page_id < next_page_id_ b;
  ac_counter : 0 ≤ next_page_id_ b;
  ac_mapped : ∀ f pg, 0 ≤ f → pages_ b !! Z.to_nat f = Some pg →
    page_id_ pg ≠ INVALID_PAGE_ID → page_table_ b !! page_id_ pg = Some f;
  ac_free : ∀ f pg, 0 ≤ f → pages_ b !! Z.to_nat f = Some pg →
    page_id_ pg = INVALID_PAGE_ID → f ∈ free_list_ b
}.

(** The bytes of a page as the pool and the disk together hold them: the
    data of its frame when the page is resident, what the disk holds
    otherwise. *)
Definition page_content (b : t) (page_id : Z) : list Byte.byte :=
  match page_table_ b !! page_id with
  | Some f =>
      match pages_ b !! Z.to_nat f with
      | Some pg => data_ pg
      | None => []
      end
  | None => disk_read (trace_ b) page_id
  end.

(** A resident page whose frame is clean has on disk what its frame
    holds. *)
Definition in_sync (b : t) (page_id : Z) : Prop :=
  ∀ f pg, page_table_ b !! page_id = Some f → pages_ b !! Z.to_nat f = Some pg →
    is_dirty_ pg = false → data_ pg = disk_read (trace_ b) page_id.

(** The pool of one frame, continued: a second page displaces the first,
    which was unpinned dirty, and is unpinned in turn. *)
Definition pool1_evicted : t := state_of (NewPage pool1_unpinned).

Definition pool1_released : t := state_of (UnpinPage pool1_evicted 1 false).

(** One more call on the pool, by a client that writes whole pages. *)
Definition client_step (b b' : t) : Prop :=
  ∃ c, (∀ frame_id data, c = CallClientWrite frame_id data →
          length data = BUSTUB_PAGE_SIZE) ∧
       step b c = Ok b'.

(** A frame is stranded under a page id when it holds that id with pin
    count 1 while the page table has no entry for the frame, the free list
    does not hold it and the replacer may not evict it. *)
Definition stranded (b : t) (f page_id : Z) : Prop :=
  (∃ pg, vec_at (pages_ b) f = Ok pg ∧ page_id_ pg = page_id ∧ pin_count_ pg = 1) ∧
  (f ∉ free_list_ b) ∧
  (∀ q, page_table_ b !! q ≠ Some f) ∧
  ¬ LRUKReplacer.evictable (replacer_ b) f.

End BufferPoolManager.

(** * The copy-on-write trie ([src/primer/trie.cpp]) *)

Module Trie.

(** The value types the file instantiates [Put] and [Get] for:
    [uint32_t], [uint64_t], [std::string], [Integer]
    ([std::unique_ptr<uint32_t>]) and [MoveBlocked].  A value carries its
    type, as [TrieNodeWithValue<T>] does at run time. *)
Inductive ValueType : Type :=
| TUInt32 | TUInt64 | TString | TInteger | TMoveBlocked.

(** Modelled from the spec: the values of these types.  An [Integer] is
    the number its pointer owns.  [MoveBlocked] is declared in
    [primer/trie.h], which is not among the sources; of such an object the
    model keeps the flag [waited_], which tells whether the object has been
    through a move. *)
Inductive Value : Type :=
| VUInt32 (n : N)
| VUInt64 (n : N)
| VString (s : string)
| VInteger (n : N)
| VMoveBlocked (waited : bool).

(** Modelled from the spec: [T(std::move(value))], the object that the
    move constructor of the value's type builds from [value].  For
    [uint32_t], [uint64_t], [std::string] and [Integer] it holds what
    [value] held.  The move constructor of [MoveBlocked] ([primer/trie.h])
    waits on the source's future unless the source has waited already, and
    sets [waited_] in both objects. *)
Definition std_move (v : Value) : Value :=
  match v with
  | VMoveBlocked _ => VMoveBlocked true
  | _ => v
  end.

Definition type_of (v : Value) : ValueType :=
  match v with
  | VUInt32 _ => TUInt32
  | VUInt64 _ => TUInt64
  | VString _ => TString
  | VInteger _ => TInteger
  | VMoveBlocked _ => TMoveBlocked
  end.

#[global] Instance ValueType_eq_dec : EqDecision ValueType.
Proof. solve_decision. Defined.

(** Modelled from the spec: the node classes of [primer/trie.h], which is
    not among the sources.  A node holds a map from one character to a
    shared child; a [TrieNodeWithValue<T>] also holds a value and has
    [is_value_node_] set.  Nodes live in a heap and a [std::shared_ptr] to
    a node is its address; the children of a node are never null. *)
Inductive TrieNode : Type :=
| Node (children : gmap ascii nat)
| NodeWithValue (children : gmap ascii nat) (value : Value).

Definition children_ (n : TrieNode) : gmap ascii nat :=
  match n with
  | Node m => m
  | NodeWithValue m _ => m
  end.

Definition is_value_node_ (n : TrieNode) : bool :=
  match n with
  | Node _ => false
  | NodeWithValue _ _ => true
  end.

(** The same object with another [children_] map: what an assignment to
    [ptr->children_[c]] or an [erase] leaves behind. *)
Definition with_children (n : TrieNode) (m : gmap ascii nat) : TrieNode :=
  match n with
  | Node _ => Node m
  | NodeWithValue _ v => NodeWithValue m v
  end.

Abbreviation heap := (list TrieNode).

(** [std::make_shared] and [Clone]: a new object at a fresh address. *)
Definition alloc (h : heap) (n : TrieNode) : heap * nat := (h ++ [n], length h).

(** [*p]. *)
Definition deref (h : heap) (p : nat) : outcome TrieNode :=
  match h !! p with
  | Some n => Ok n
  | None => Undefined
  end.

(** [p->children_[c] = q]. *)
Definition set_child (h : heap) (p : nat) (c : ascii) (q : nat) : outcome heap :=
  let* n := deref h p in
  Ok (<[p := with_children n (<[c := q]> (children_ n))]> h).

(** [p->children_.erase(c)]. *)
Definition erase_child (h : heap) (p : nat) (c : ascii) : outcome heap :=
  let* n := deref h p in
  Ok (<[p := with_children n (delete c (children_ n))]> h).

(** The loop of [Get]: follow [key] from [ptr]; [None] when a branch is
    missing. *)
Fixpoint walk (h : heap) (ptr : nat) (key : list ascii) : outcome (option nat) :=
  match key with
  | [] => Ok (Some ptr)
  | c :: key' =>
      let* n := deref h ptr in
      match children_ n !! c with
      | Some child => walk h child key'
      | None => Ok None
      end
  end.

(** What [Get] does once it stands on the node for the key: the
    [is_value_node_] test and the [dynamic_cast]. *)
Definition value_at (h : heap) (p : nat) (T : ValueType) : outcome (option Value) :=
  let* n := deref h p in
  if negb (is_value_node_ n) then Ok None
  else
    match n with
    | NodeWithValue _ v => if decide (type_of v = T) then Ok (Some v) else Ok None
    | Node _ => Ok None
    end.

(** [Get<T>(key)] on the trie whose [root_] is [root]. *)
Definition Get (h : heap) (root : option nat) (key : list ascii) (T : ValueType)
    : outcome (option Value) :=
  match root with
  | None => Ok None
  | Some r =>
      let* found := walk h r key in
      match found with
      | Some p => value_at h p T
      | None => Ok None
      end
  end.

(** The loop of [Put] and the statements after it, from the node [ptr]
    (a copy that [Put] owns) and the non-empty key [c :: rest].  The value
    node holds [std::make_shared<T>(std::move(value))]. *)
Fixpoint put_walk (h : heap) (ptr : nat) (c : ascii) (rest : list ascii) (v : Value)
    : outcome heap :=
  match rest with
  | [] =>
      (* c is key.back() *)
      let* n := deref h ptr in
      match children_ n !! c with
      | None =>
          let (h1, obj_node) := alloc h (NodeWithValue ∅ (std_move v)) in
          set_child h1 ptr c obj_node
      | Some old =>
          let* o := deref h old in
          let (h1, obj_node) := alloc h (NodeWithValue (children_ o) (std_move v)) in
          set_child h1 ptr c obj_node
      end
  | c' :: rest' =>
      let* n := deref h ptr in
      match children_ n !! c with
      | None =>
          let (h1, create_internal_node) := alloc h (Node ∅) in
          let* h2 := set_child h1 ptr c create_internal_node in
          put_walk h2 create_internal_node c' rest' v
      | Some old =>
          let* o := deref h old in
          let (h1, clone_node) := alloc h o in
          let* h2 := set_child h1 ptr c clone_node in
          put_walk h2 clone_node c' rest' v
      end
  end.

(** [Put] on a trie that has a root. *)
Definition Put_rooted (h : heap) (r : nat) (key : list ascii) (v : Value)
    : outcome (heap * nat) :=
  let* rn := deref h r in
  let (h1, root) := alloc h rn in
  match key with
  | [] =>
      let (h2, new_root) := alloc h1 (NodeWithValue (children_ rn) (std_move v)) in
      Ok (h2, new_root)
  | c :: rest =>
      let* h2 := put_walk h1 root c rest v in
      Ok (h2, root)
  end.

(** [Put<T>(key, value)]: the heap afterwards and the root of the new trie.
    Without a root, an empty node is made and [Put] runs on it, with
    [std::move(value)] for its parameter. *)
Definition Put (h : heap) (root : option nat) (key : list ascii) (v : Value)
    : outcome (heap * nat) :=
  match root with
  | None =>
      let (h1, r) := alloc h (Node ∅) in
      Put_rooted h1 r key (std_move v)
  | Some r => Put_rooted h r key v
  end.

(** [Dfs(root, key, index)], [key] being what is left from [index] on.
    [root] may be null, and is dereferenced either way. *)
Fixpoint Dfs (h : heap) (root : option nat) (key : list ascii)
    : outcome (heap * option nat) :=
  match key with
  | [] =>
      match root with
      | None => Undefined
      | Some r =>
          let* n := deref h r in
          if bool_decide (children_ n = ∅) then Ok (h, None)
          else
            let (h1, p) := alloc h (Node (children_ n)) in
            Ok (h1, Some p)
      end
  | c :: key' =>
      match root with
      | None => Undefined
      | Some r =>
          let* t := deref h r in
          match children_ t !! c with
          | Some child =>
              let* (h1, new_node) := Dfs h (Some child) key' in
              let* rn := deref h1 r in
              let (h2, node) := alloc h1 rn in
              match new_node with
              | Some p =>
                  let* h3 := set_child h2 node c p in
                  Ok (h3, Some node)
              | None =>
                  let* h3 := erase_child h2 node c in
                  let* nd := deref h3 node in
                  if negb (is_value_node_ nd) && bool_decide (children_ nd = ∅)
                  then Ok (h3, None)
                  else Ok (h3, Some node)
              end
          | None => Ok (h, Some r)
          end
      end
  end.

(** [Remove(key)]. *)
Definition Remove (h : heap) (root : option nat) (key : list ascii)
    : outcome (heap * option nat) :=
  Dfs h root key.

(** A heap is closed when every child pointer stays inside it; a root is
    valid when it is null or inside the heap; [h'] preserves [h] when every
    node of [h] is still there, unchanged. *)
Definition closed (h : heap) : Prop :=
  ∀ p n c q, h !! p = Some n → children_ n !! c = Some q → (q < length h)%nat.

Definition valid_root (h : heap) (root : option nat) : Prop :=
  match root with
  | None => True
  | Some r => (r < length h)%nat
  end.

Definition preserves (h h' : heap) : Prop :=
  (length h ≤ length h')%nat ∧ ∀ p, (p < length h)%nat → h' !! p = h !! p.

Local Open Scope nat_scope.

(** The two sides of the equation of C6, for a trie [root] in heap [h]:
    [Get] on the original trie, and [Get] on the trie after [Put] and then
    [Remove] of the same key. *)
Definition get_before_and_after (h : heap) (root : option nat) (key : list ascii)
    (v : Value) (T : ValueType) : outcome (option Value * option Value) :=
  let* (h1, t1) := Put h root key v in
  let* (h2, t2) := Remove h1 (Some t1) key in
  let* before := Get h root key T in
  let* after := Get h2 t2 key T in
  Ok (before, after).

(** The trie that holds 1 under the key "a". *)
Definition heap_a : list TrieNode :=
  [Node ∅; Node {["a"%char := 2]}; NodeWithValue ∅ (VUInt32 1)].

(** A trie has no dead leaf when every node that [Get] can reach and that
    has no children holds a value. *)
Definition no_dead_leaf (h : heap) (root : option nat) : Prop :=
  ∀ r key p n, root = Some r → walk h r key = Ok (Some p) → h !! p = Some n →
    children_ n = ∅ → is_value_node_ n = true.

End Trie.

(** * Facts about outcomes, vectors and list erasure *)

Lemma bind_Ok_inv {A B : Type} (m : outcome A) (f : A → outcome B) (b : B) :
  bind m f = Ok b → ∃ a, m = Ok a ∧ f a = Ok b.
Proof. destruct m as [a| |]; simpl; intros H; try discriminate. by exists a. Qed.

Lemma vec_at_Ok {A : Type} (v : list A) (i : Z) (a : A) :
  vec_at v i = Ok a ↔ 0 ≤ i ∧ v !! Z.to_nat i = Some a.
Proof.
  unfold vec_at. case_bool_decide as Hi.
  - destruct (v !! Z.to_nat i) as [x|]; split.
    + intros [= ->]. done.
    + intros [_ [= ->]]. done.
    + discriminate.
    + intros [_ ?]. discriminate.
  - split; [discriminate | intros [? _]; lia].
Qed.

Lemma vec_at_in_range {A : Type} (v : list A) (i : Z) :
  0 ≤ i → (Z.to_nat i < length v)%nat → ∃ a, vec_at v i = Ok a.
Proof.
  intros Hi Hlt. destruct (lookup_lt_is_Some_2 v (Z.to_nat i) Hlt) as [a Ha].
  exists a. apply vec_at_Ok. done.
Qed.

Lemma list_erase_notin (f : Z) (l : list Z) : f ∉ l → list_erase f l = l.
Proof.
  induction l as [|x l IH]; simpl; [done|]. intros Hf.
  apply not_elem_of_cons in Hf as [Hne Hf]. case_bool_decide; [congruence|].
  by rewrite IH.
Qed.

Lemma elem_of_list_erase (f x : Z) (l : list Z) :
  NoDup l → x ∈ list_erase f l ↔ x ∈ l ∧ x ≠ f.
Proof.
  induction l as [|y l IH]; simpl; intros Hnd.
  - split; [by intros ?%elem_of_nil | by intros [?%elem_of_nil _]].
  - apply NoDup_cons in Hnd as [Hy Hnd]. case_bool_decide as Hyf.
    + subst y. rewrite elem_of_cons. split.
      * intros Hx. split; [by right | by intros ->].
      * intros [[->|Hx] Hne]; done.
    + rewrite !elem_of_cons, IH by done. intuition congruence.
Qed.

Lemma NoDup_list_erase (f : Z) (l : list Z) : NoDup l → NoDup (list_erase f l).
Proof.
  induction l as [|y l IH]; simpl; intros Hnd; [done|].
  apply NoDup_cons in Hnd as [Hy Hnd]. case_bool_decide; [done|].
  apply NoDup_cons. split; [|by apply IH].
  rewrite elem_of_list_erase by done. tauto.
Qed.

Lemma vec_at_vec_set_ne {A : Type} (v : list A) (f x : Z) (b : A) :
  0 ≤ f → x ≠ f → vec_at (vec_set v f b) x = vec_at v x.
Proof.
  intros Hf Hne. unfold vec_at, vec_set. case_bool_decide; [|done].
  by rewrite list_lookup_insert_ne by lia.
Qed.

(** * Properties of the LRU-K replacer *)

Module ReplacerProofs.

Import LRUKReplacer.

(** *** Facts about the back-to-front scan *)

Lemma scan_Some (acc : list bool) (l : list Z) (v : Z) (rest : list Z) :
  scan acc l = Ok (Some (v, rest)) →
  ∃ pre post, l = pre ++ v :: post ∧ rest = pre ++ post ∧
    vec_at acc v = Ok true ∧ Forall (λ x, vec_at acc x = Ok false) post.
Proof.
  revert v rest. induction l as [|f l IH]; simpl; intros v rest H; [discriminate|].
  apply bind_Ok_inv in H as ([[v' rest']|] & Hscan & H).
  - injection H as <- <-. destruct (IH _ _ Hscan) as (pre & post & -> & -> & Hv & Hpost).
    by exists (f :: pre), post.
  - apply bind_Ok_inv in H as (a & Ha & H). destruct a; [|discriminate].
    injection H as <- <-. exists [], l. split_and!; try done.
    clear IH Ha. revert Hscan. induction l as [|x l IHl]; simpl; [done|].
    intros H. apply bind_Ok_inv in H as ([[? ?]|] & Hscan & H); [discriminate|].
    apply bind_Ok_inv in H as (a & Ha & H). destruct a; [discriminate|].
    constructor; [done | by apply IHl].
Qed.

Lemma scan_None (acc : list bool) (l : list Z) :
  scan acc l = Ok None → Forall (λ x, vec_at acc x = Ok false) l.
Proof.
  induction l as [|x l IHl]; simpl; [done|].
  intros H. apply bind_Ok_inv in H as ([[? ?]|] & Hscan & H); [discriminate|].
  apply bind_Ok_inv in H as (a & Ha & H). destruct a; [discriminate|].
  constructor; [done | by apply IHl].
Qed.

Lemma scan_defined (acc : list bool) (l : list Z) :
  Forall (λ x, ∃ b, vec_at acc x = Ok b) l → ∃ res, scan acc l = Ok res.
Proof.
  induction 1 as [|x l [b Hb] _ [res IH]]; simpl; [by eexists|].
  rewrite IH. simpl. destruct res as [[v rest]|]; [by eexists|].
  rewrite Hb. simpl. destruct b; by eexists.
Qed.

(** Scanning from the back: the entries behind an evictable one decide. *)
Lemma scan_app_hit (acc : list bool) (pre post : list Z) (v : Z) :
  vec_at acc v = Ok true → Forall (λ x, vec_at acc x = Ok false) post →
  scan acc (pre ++ v :: post) = Ok (Some (v, pre ++ post)).
Proof.
  intros Hv Hpost.
  assert (Hp : scan acc post = Ok None).
  { induction Hpost as [|x l Hx _ IH]; simpl; [done|]. by rewrite IH, Hx. }
  induction pre as [|x pre IH]; simpl.
  - by rewrite Hp, Hv.
  - by rewrite IH.
Qed.

Lemma scan_all_false (acc : list bool) (l : list Z) :
  Forall (λ x, vec_at acc x = Ok false) l → scan acc l = Ok None.
Proof. induction 1 as [|x l Hx _ IH]; simpl; [done|]. by rewrite IH, Hx. Qed.

(** *** The invariant holds in every reachable state *)

Lemma use_count_insert (m : gmap Z N) (f x : Z) (c : N) :
  default 0%N (<[f := c]> m !! x) = if decide (x = f) then c else default 0%N (m !! x).
Proof.
  destruct (decide (x = f)) as [->|Hne].
  - by rewrite lookup_insert_eq.
  - by rewrite lookup_insert_ne.
Qed.

Lemma evictable_vec_set (v : list bool) (f x : Z) (b : bool) :
  0 ≤ f → vec_at (vec_set v f b) x = Ok true →
  (x = f ∧ b = true) ∨ (x ≠ f ∧ vec_at v x = Ok true).
Proof.
  intros Hf. rewrite !vec_at_Ok. unfold vec_set. intros [Hx H].
  destruct (decide (x = f)) as [->|Hne].
  - left. split; [done|]. apply list_lookup_insert_Some in H as [(_ & ? & _)|[? _]]; done.
  - right. rewrite list_lookup_insert_ne in H by lia. done.
Qed.

Lemma wf_new (num_frames : Z) (k : N) : 0 ≤ num_frames → wf (new num_frames k).
Proof.
  intros Hn. constructor; simpl.
  - done.
  - by rewrite length_replicate.
  - intros f. set_solver.
  - intros f. set_solver.
  - apply NoDup_nil_2.
  - apply NoDup_nil_2.
  - intros f. unfold use_count; simpl. rewrite lookup_empty; simpl.
    split; [by intros ?%elem_of_nil | lia].
  - intros f. unfold use_count; simpl. rewrite lookup_empty; simpl.
    split; [by intros ?%elem_of_nil | lia].
  - intros f. unfold use_count; simpl. rewrite lookup_empty; simpl. lia.
  - intros f. unfold evictable; simpl. rewrite vec_at_Ok.
    intros [_ H]. apply lookup_replicate in H as [? _]. done.
Qed.

Lemma elem_of_cond_erase (m : gset Z) (l : list Z) (f x : Z) :
  NoDup l → (f ∈ m ↔ f ∈ l) →
  x ∈ (if bool_decide (f ∈ m) then list_erase f l else l) ↔ x ∈ l ∧ x ≠ f.
Proof.
  intros Hnd Hm. case_bool_decide as Hin.
  - by apply elem_of_list_erase.
  - split; [|by intros [? _]]. intros Hx. split; [done|]. intros ->. apply Hin, Hm, Hx.
Qed.

Lemma NoDup_cond_erase (m : gset Z) (l : list Z) (f : Z) :
  NoDup l → NoDup (if bool_decide (f ∈ m) then list_erase f l else l).
Proof. intros Hnd. case_bool_decide; [by apply NoDup_list_erase | done]. Qed.

Lemma use_count_upd (r : t) (f x : Z) (n : N) s k c a hl hm cl cm :
  use_count (mk s k c a (<[f := n]> (use_count_ r)) hl hm cl cm) x =
  if decide (x = f) then n else use_count r x.
Proof. apply use_count_insert. Qed.

Lemma use_count_same (r : t) (x : Z) s k c a hl hm cl cm :
  use_count (mk s k c a (use_count_ r) hl hm cl cm) x = use_count r x.
Proof. done. Qed.

Lemma wf_RecordAccess (r r' : t) (f : Z) :
  wf r → 0 ≤ f → RecordAccess r f = Ok r' → wf r'.
Proof.
  intros Hwf Hf. unfold RecordAccess.
  case_bool_decide as Hrange; [discriminate|].
  pose proof (wf_hmap r Hwf) as Hhm. pose proof (wf_cmap r Hwf) as Hcm.
  pose proof (wf_hist r Hwf) as Hh. pose proof (wf_cache r Hwf) as Hc.
  pose proof (wf_hnodup r Hwf) as Hhn. pose proof (wf_cnodup r Hwf) as Hcn.
  pose proof (wf_range r Hwf) as Hr. pose proof (wf_acc r Hwf) as Ha.
  pose proof (wf_size r Hwf) as Hs. pose proof (wf_len r Hwf) as Hl.
  case_bool_decide as Hk; [|case_bool_decide as Hk2]; intros [= <-].
  - (* the count reaches k *)
    constructor; proj; try done.
    + intros x. rewrite elem_of_cond_erase by done. case_bool_decide as Hin.
      * rewrite elem_of_difference, elem_of_singleton, Hhm. done.
      * rewrite Hhm. split; [|tauto]. intros Hx. split; [done|].
        intros ->. by apply Hin, Hhm.
    + intros x. rewrite elem_of_union, elem_of_singleton, elem_of_cons, Hcm. done.
    + by apply NoDup_cond_erase.
    + apply NoDup_cons. split; [|done]. rewrite Hc. lia.
    + intros x. rewrite elem_of_cond_erase by done. rewrite use_count_upd. rewrite Hh. destruct (decide (x = f)) as [->|Hne]; [cnt | tauto].
    + intros x. rewrite elem_of_cons, Hc. rewrite use_count_upd. destruct (decide (x = f)) as [->|Hne]; [cnt | tauto].
    + intros x. rewrite use_count_upd.
      destruct (decide (x = f)) as [->|Hne]; [cnt | apply Hr].
    + intros x Hx. rewrite use_count_upd.
      destruct (decide (x = f)) as [->|Hne]; [lia | by apply Ha].
  - (* the count is above k *)
    constructor; proj; try done.
    + intros x. rewrite elem_of_union, elem_of_singleton, elem_of_cons.
      rewrite elem_of_cond_erase, Hcm by done.
      destruct (decide (x = f)); tauto.
    + apply NoDup_cons. split; [|by apply NoDup_cond_erase].
      rewrite elem_of_cond_erase by done. tauto.
    + intros x. rewrite use_count_upd. rewrite Hh. destruct (decide (x = f)) as [->|Hne]; [cnt | tauto].
    + intros x. rewrite elem_of_cons, elem_of_cond_erase, Hc by done.
      rewrite use_count_upd. destruct (decide (x = f)) as [->|Hne]; [cnt | tauto].
    + intros x. rewrite use_count_upd.
      destruct (decide (x = f)) as [->|Hne]; [cnt | apply Hr].
    + intros x Hx. rewrite use_count_upd.
      destruct (decide (x = f)) as [->|Hne]; [lia | by apply Ha].
  - (* the count stays below k *)
    assert (Hin : f ∈ history_map_ r ↔ (0 < use_count r f)%N).
    { rewrite Hhm, Hh. lia. }
    constructor; proj; try done.
    + intros x. case_bool_decide; [done|].
      rewrite elem_of_union, elem_of_singleton, elem_of_cons, Hhm. done.
    + case_bool_decide as Hi; [done|]. apply NoDup_cons. split; [|done].
      by rewrite <- Hhm.
    + intros x. rewrite use_count_upd.
      case_bool_decide as Hi.
      * rewrite Hh. destruct (decide (x = f)) as [->|Hne]; [cnt | tauto].
      * rewrite elem_of_cons, Hh. destruct (decide (x = f)) as [->|Hne]; [cnt | tauto].
    + intros x. rewrite Hc. rewrite use_count_upd. destruct (decide (x = f)) as [->|Hne]; [cnt | tauto].
    + intros x. rewrite use_count_upd.
      destruct (decide (x = f)) as [->|Hne]; [cnt | apply Hr].
    + intros x Hx. rewrite use_count_upd.
      destruct (decide (x = f)) as [->|Hne]; [lia | by apply Ha].
Qed.

Lemma list_erase_middle (pre post : list Z) (v : Z) :
  v ∉ pre → list_erase v (pre ++ v :: post) = pre ++ post.
Proof.
  induction pre as [|x pre IH]; simpl; intros Hv.
  - by rewrite bool_decide_eq_true_2.
  - apply not_elem_of_cons in Hv as [Hne Hv].
    rewrite bool_decide_eq_false_2 by done. by rewrite IH.
Qed.

Lemma scan_Some_erase (acc : list bool) (l : list Z) (v : Z) (rest : list Z) :
  NoDup l → scan acc l = Ok (Some (v, rest)) →
  rest = list_erase v l ∧ v ∈ l ∧ vec_at acc v = Ok true.
Proof.
  intros Hnd H. apply scan_Some in H as (pre & post & -> & -> & Hv & _).
  split_and!; [|set_solver|done].
  symmetry. apply list_erase_middle.
  apply NoDup_app in Hnd as (_ & Hd & _). intros Hin. apply (Hd v Hin). by left.
Qed.

Lemma wf_SetEvictable (r r' : t) (f : Z) (b : bool) :
  wf r → SetEvictable r f b = Ok r' → wf r'.
Proof.
  intros Hwf. unfold SetEvictable.
  case_bool_decide as Hrange; [discriminate|].
  case_bool_decide as Hcnt; [by intros [= <-]|].
  intros H. apply bind_Ok_inv in H as (a & Ha & [= <-]).
  apply vec_at_Ok in Ha as [Hf Ha].
  destruct Hwf. constructor; proj; try done.
  - unfold vec_set. by rewrite length_insert.
  - intros x Hx. rewrite use_count_same. unfold evictable in Hx; proj.
    apply evictable_vec_set in Hx as [[-> _]|[_ Hx]]; [lia | by auto | done].
Qed.

(** Dropping an evictable frame from the list it lives in, as [Evict] and
    [Remove] both do. *)
Lemma wf_drop_history (r : t) (f : Z) (c : Z) :
  wf r → evictable r f → f ∈ history_list_ r →
  wf {| replacer_size_ := replacer_size_ r;
        k_ := k_ r;
        curr_size_ := c;
        is_accessible_ := vec_set (is_accessible_ r) f false;
        use_count_ := <[f := 0%N]> (use_count_ r);
        history_list_ := list_erase f (history_list_ r);
        history_map_ := history_map_ r ∖ {[f]};
        cache_list_ := cache_list_ r;
        cache_map_ := cache_map_ r |}.
Proof.
  intros [] Hev Hin.
  assert (Hf : 0 ≤ f) by (apply vec_at_Ok in Hev; tauto).
  pose proof (proj1 (wf_hist0 f) Hin) as Hcnt.
  constructor; proj; try done.
  - unfold vec_set. by rewrite length_insert.
  - intros x. rewrite elem_of_difference, elem_of_singleton, elem_of_list_erase, wf_hmap0 by done. done.
  - by apply NoDup_list_erase.
  - intros x. rewrite elem_of_list_erase, use_count_upd, wf_hist0 by done.
    destruct (decide (x = f)) as [->|Hne]; [cnt | tauto].
  - intros x. rewrite use_count_upd, wf_cache0.
    destruct (decide (x = f)) as [->|Hne]; [cnt | tauto].
  - intros x. rewrite use_count_upd.
    destruct (decide (x = f)) as [->|Hne]; [lia | apply wf_range0].
  - intros x Hx. rewrite use_count_upd. unfold evictable in Hx; proj.
    apply evictable_vec_set in Hx as [[_ ?]|[Hne Hx]]; [done| |done].
    rewrite decide_False by done. by apply wf_acc0.
Qed.

Lemma wf_drop_cache (r : t) (f : Z) (c : Z) :
  wf r → evictable r f → f ∈ cache_list_ r →
  wf {| replacer_size_ := replacer_size_ r;
        k_ := k_ r;
        curr_size_ := c;
        is_accessible_ := vec_set (is_accessible_ r) f false;
        use_count_ := <[f := 0%N]> (use_count_ r);
        history_list_ := history_list_ r;
        history_map_ := history_map_ r;
        cache_list_ := list_erase f (cache_list_ r);
        cache_map_ := cache_map_ r ∖ {[f]} |}.
Proof.
  intros [] Hev Hin.
  assert (Hf : 0 ≤ f) by (apply vec_at_Ok in Hev; tauto).
  pose proof (proj1 (wf_cache0 f) Hin) as Hcnt.
  constructor; proj; try done.
  - unfold vec_set. by rewrite length_insert.
  - intros x. rewrite elem_of_difference, elem_of_singleton, elem_of_list_erase, wf_cmap0 by done. done.
  - by apply NoDup_list_erase.
  - intros x. rewrite use_count_upd, wf_hist0.
    destruct (decide (x = f)) as [->|Hne]; [cnt | tauto].
  - intros x. rewrite elem_of_list_erase, use_count_upd, wf_cache0 by done.
    destruct (decide (x = f)) as [->|Hne]; [cnt | tauto].
  - intros x. rewrite use_count_upd.
    destruct (decide (x = f)) as [->|Hne]; [lia | apply wf_range0].
  - intros x Hx. rewrite use_count_upd. unfold evictable in Hx; proj.
    apply evictable_vec_set in Hx as [[_ ?]|[Hne Hx]]; [done| |done].
    rewrite decide_False by done. by apply wf_acc0.
Qed.

Lemma wf_Remove (r r' : t) (f : Z) : wf r → Remove r f = Ok r' → wf r'.
Proof.
  intros Hwf. unfold Remove.
  case_bool_decide as Hrange; [discriminate|].
  intros Hrm. apply bind_Ok_inv in Hrm as (a & Ha & Hrm).
  destruct a; simpl in Hrm; [|by injection Hrm as <-].
  repeat case_bool_decide; try discriminate; injection Hrm as <-.
  - apply wf_drop_history; [exact Hwf | exact Ha | apply wf_hmap; assumption].
  - apply wf_drop_cache; [exact Hwf | exact Ha | apply wf_cmap; assumption].
Qed.

Lemma wf_Evict (r r' : t) (victim : option Z) :
  wf r → Evict r = Ok (r', victim) → wf r'.
Proof.
  intros Hwf. unfold Evict. case_bool_decide as Hempty; [by intros [= <- <-]|].
  intros H. apply bind_Ok_inv in H as ([[f rest]|] & Hscan & H).
  - injection H as <- <-.
    apply scan_Some_erase in Hscan as (-> & Hin & Hev); [|by apply wf_hnodup].
    by apply wf_drop_history.
  - apply bind_Ok_inv in H as ([[f rest]|] & Hscan2 & H); [|by injection H as <- <-].
    injection H as <- <-.
    apply scan_Some_erase in Hscan2 as (-> & Hin & Hev); [|by apply wf_cnodup].
    by apply wf_drop_cache.
Qed.

Lemma reachable_wf (num_frames : Z) (k : N) (r : t) :
  0 ≤ num_frames → reachable num_frames k r → wf r.
Proof.
  intros Hn. induction 1 as [|r f r' _ IH Hf H|r f b r' _ IH H|r f r' _ IH H|r r' v _ IH H].
  - by apply wf_new.
  - by eapply wf_RecordAccess.
  - by eapply wf_SetEvictable.
  - by eapply wf_Remove.
  - by eapply wf_Evict.
Qed.

(** *** The size law *)

Lemma count_true_bounds (v : list bool) : 0 ≤ count_true v ≤ Z.of_nat (length v).
Proof. induction v as [|[] v IH]; simpl; lia. Qed.

Lemma count_true_replicate (n : nat) : count_true (replicate n false) = 0.
Proof. induction n as [|n IH]; simpl; lia. Qed.

Lemma count_true_insert (v : list bool) (i : nat) (a b : bool) :
  v !! i = Some a →
  count_true (<[i := b]> v) = count_true v - (if a then 1 else 0) + (if b then 1 else 0).
Proof.
  revert i. induction v as [|x v IH]; intros [|i]; simpl; try done.
  - intros [= ->]. lia.
  - intros H. rewrite (IH _ H). lia.
Qed.

Lemma count_true_pos (v : list bool) (i : nat) : v !! i = Some true → 1 ≤ count_true v.
Proof.
  revert i. induction v as [|x v IH]; intros [|i]; simpl; try done.
  - intros [= ->]. pose proof (count_true_bounds v). lia.
  - intros H. apply IH in H. destruct x; lia.
Qed.

Lemma size_ok_clear (r : t) (f : Z) s k uc hl hm cl cm :
  size_ok r → evictable r f →
  size_ok (mk s k (size_t_wrap (curr_size_ r - 1)) (vec_set (is_accessible_ r) f false)
              uc hl hm cl cm).
Proof.
  intros [Hc Hlen] Hev. apply vec_at_Ok in Hev as [Hf Hev].
  unfold size_ok, vec_set; proj. rewrite length_insert. split; [|done].
  rewrite (count_true_insert _ _ true) by done.
  pose proof (count_true_pos _ _ Hev). pose proof (count_true_bounds (is_accessible_ r)).
  unfold size_t_wrap. rewrite Z.mod_small; lia.
Qed.

Lemma size_ok_SetEvictable (r r' : t) (f : Z) (b : bool) :
  size_ok r → SetEvictable r f b = Ok r' → size_ok r'.
Proof.
  intros [Hc Hlen]. unfold SetEvictable.
  case_bool_decide as Hrange; [discriminate|].
  case_bool_decide as Hcnt; [by intros [= <-]|].
  intros H. apply bind_Ok_inv in H as (a & Ha & [= <-]).
  apply vec_at_Ok in Ha as [Hf Ha].
  unfold size_ok, vec_set; proj. rewrite length_insert. split; [|done].
  rewrite (count_true_insert _ _ a) by done.
  pose proof (count_true_bounds (is_accessible_ r)).
  pose proof (count_true_bounds (<[Z.to_nat f := b]> (is_accessible_ r))) as Hb.
  rewrite length_insert, (count_true_insert _ _ a) in Hb by done.
  unfold size_t_wrap. destruct a, b; simpl in *; rewrite ?Z.mod_small; lia.
Qed.

Lemma size_ok_RecordAccess (r r' : t) (f : Z) :
  size_ok r → RecordAccess r f = Ok r' → size_ok r'.
Proof.
  intros Hs. unfold RecordAccess. repeat case_bool_decide; intros [= <-]; exact Hs.
Qed.

Lemma size_ok_Remove (r r' : t) (f : Z) :
  size_ok r → Remove r f = Ok r' → size_ok r'.
Proof.
  intros Hs. unfold Remove.
  case_bool_decide as Hrange; [discriminate|].
  intros Hrm. apply bind_Ok_inv in Hrm as (a & Ha & Hrm).
  destruct a; simpl in Hrm; [|by injection Hrm as <-].
  repeat case_bool_decide; try discriminate; injection Hrm as <-;
    by apply size_ok_clear.
Qed.

Lemma size_ok_Evict (r r' : t) (victim : option Z) :
  wf r → size_ok r → Evict r = Ok (r', victim) → size_ok r'.
Proof.
  intros Hwf Hs. unfold Evict. case_bool_decide as Hempty; [by intros [= <- <-]|].
  intros H. apply bind_Ok_inv in H as ([[f rest]|] & Hscan & H).
  - injection H as <- <-.
    apply scan_Some_erase in Hscan as (-> & Hin & Hev); [|by apply wf_hnodup].
    by apply size_ok_clear.
  - apply bind_Ok_inv in H as ([[f rest]|] & Hscan2 & H); [|by injection H as <- <-].
    injection H as <- <-.
    apply scan_Some_erase in Hscan2 as (-> & Hin & Hev); [|by apply wf_cnodup].
    by apply size_ok_clear.
Qed.

Lemma reachable_size_ok (num_frames : Z) (k : N) (r : t) :
  0 ≤ num_frames < 2 ^ 64 - 1 → reachable num_frames k r → size_ok r.
Proof.
  intros Hn Hreach.
  induction Hreach as [|r f r' Hr IH Hf H|r f b r' Hr IH H|r f r' Hr IH H|r r' v Hr IH H].
  - split; simpl.
    + by rewrite count_true_replicate.
    + rewrite length_replicate. lia.
  - by eapply size_ok_RecordAccess.
  - by eapply size_ok_SetEvictable.
  - by eapply size_ok_Remove.
  - eapply size_ok_Evict; [|done..]. eapply reachable_wf; [|done]. lia.
Qed.

(** *** The constructor's parameters never change *)

Lemma RecordAccess_params (r r' : t) (f : Z) :
  RecordAccess r f = Ok r' → replacer_size_ r' = replacer_size_ r ∧ k_ r' = k_ r.
Proof. unfold RecordAccess. repeat case_bool_decide; by intros [= <-]. Qed.

Lemma SetEvictable_params (r r' : t) (f : Z) (b : bool) :
  SetEvictable r f b = Ok r' → replacer_size_ r' = replacer_size_ r ∧ k_ r' = k_ r.
Proof.
  unfold SetEvictable. repeat case_bool_decide; try discriminate; [by intros [= <-]|].
  intros Hop. by apply bind_Ok_inv in Hop as (a & _ & [= <-]).
Qed.

Lemma Remove_params (r r' : t) (f : Z) :
  Remove r f = Ok r' → replacer_size_ r' = replacer_size_ r ∧ k_ r' = k_ r.
Proof.
  unfold Remove. case_bool_decide; [discriminate|].
  intros Hop. apply bind_Ok_inv in Hop as (a & _ & Hop).
  destruct a; simpl in Hop; [|by injection Hop as <-].
  repeat case_bool_decide; try discriminate; by injection Hop as <-.
Qed.

Lemma Evict_params (r r' : t) (victim : option Z) :
  Evict r = Ok (r', victim) → replacer_size_ r' = replacer_size_ r ∧ k_ r' = k_ r.
Proof.
  unfold Evict. case_bool_decide; [by intros [= <- <-]|].
  intros Hop. apply bind_Ok_inv in Hop as ([[f rest]|] & _ & Hop); [by injection Hop as <- <-|].
  apply bind_Ok_inv in Hop as ([[f rest]|] & _ & Hop); by injection Hop as <- <-.
Qed.

Lemma reachable_params (num_frames : Z) (k : N) (r : t) :
  reachable num_frames k r → replacer_size_ r = num_frames ∧ k_ r = k.
Proof.
  induction 1 as [|r f r' _ IH _ H|r f b r' _ IH H|r f r' _ IH H|r r' v _ IH H]; [done|..].
  - apply RecordAccess_params in H. intuition congruence.
  - apply SetEvictable_params in H. intuition congruence.
  - apply Remove_params in H. intuition congruence.
  - apply Evict_params in H. intuition congruence.
Qed.

(** *** Calls on a well-formed replacer are defined *)

Lemma wf_vec_at (r : t) (f : Z) :
  wf r → 0 ≤ f ≤ replacer_size_ r → ∃ a, vec_at (is_accessible_ r) f = Ok a.
Proof.
  intros Hwf Hf. apply vec_at_in_range; [lia|]. rewrite (wf_len r Hwf). lia.
Qed.

Lemma wf_not_evictable (r : t) (f : Z) :
  wf r → 0 ≤ f ≤ replacer_size_ r → ¬ evictable r f → vec_at (is_accessible_ r) f = Ok false.
Proof.
  intros Hwf Hf Hne. destruct (wf_vec_at r f Hwf Hf) as [[] Ha]; [by destruct Hne | done].
Qed.

Lemma wf_list_range (r : t) (f : Z) :
  wf r → f ∈ history_list_ r ∨ f ∈ cache_list_ r → 0 ≤ f ≤ replacer_size_ r.
Proof.
  intros Hwf [Hin|Hin]; apply (wf_range r Hwf).
  - apply (wf_hist r Hwf) in Hin. lia.
  - apply (wf_cache r Hwf) in Hin. lia.
Qed.

Lemma RecordAccess_defined (r : t) (f : Z) :
  f ≤ replacer_size_ r → ∃ r', RecordAccess r f = Ok r'.
Proof.
  intros Hf. unfold RecordAccess. rewrite bool_decide_eq_false_2 by lia.
  repeat case_bool_decide; by eexists.
Qed.

Lemma SetEvictable_defined (r : t) (f : Z) (b : bool) :
  wf r → 0 ≤ f ≤ replacer_size_ r → ∃ r', SetEvictable r f b = Ok r'.
Proof.
  intros Hwf Hf. unfold SetEvictable. rewrite bool_decide_eq_false_2 by lia.
  case_bool_decide; [by eexists|].
  destruct (wf_vec_at r f Hwf Hf) as [a ->]. simpl. by eexists.
Qed.

Lemma Remove_defined (r : t) (f : Z) :
  wf r → 0 ≤ f ≤ replacer_size_ r → ∃ r', Remove r f = Ok r'.
Proof.
  intros Hwf Hf. unfold Remove. rewrite bool_decide_eq_false_2 by lia.
  destruct (wf_vec_at r f Hwf Hf) as [a Ha]. rewrite Ha. simpl.
  destruct a; simpl; [|by eexists].
  pose proof (wf_acc r Hwf f Ha) as Hcnt.
  case_bool_decide as Hk.
  - rewrite bool_decide_eq_true_2; [by eexists|].
    apply (wf_hmap r Hwf), (wf_hist r Hwf). lia.
  - rewrite bool_decide_eq_true_2; [by eexists|].
    apply (wf_cmap r Hwf), (wf_cache r Hwf). lia.
Qed.

Lemma Evict_defined (r : t) : wf r → ∃ res, Evict r = Ok res.
Proof.
  intros Hwf. unfold Evict. case_bool_decide; [by eexists|].
  assert (Hdef : ∀ l, (∀ x, x ∈ l → x ∈ history_list_ r ∨ x ∈ cache_list_ r) →
                      ∃ res, scan (is_accessible_ r) l = Ok res).
  { intros l Hl. apply scan_defined, Forall_forall. intros x Hx.
    apply wf_vec_at; [done|]. by apply wf_list_range, Hl. }
  destruct (Hdef (history_list_ r)) as [[[f rest]|] ->]; [by left | by eexists |].
  simpl. destruct (Hdef (cache_list_ r)) as [[[f rest]|] ->]; [by right|..]; by eexists.
Qed.

(** *** What each call does to the flags and to [curr_size_] *)

Lemma vec_at_vec_set_eq (v : list bool) (f : Z) (a b : bool) :
  vec_at v f = Ok a → vec_at (vec_set v f b) f = Ok b.
Proof.
  rewrite !vec_at_Ok. intros [Hf Ha]. split; [done|]. unfold vec_set.
  apply list_lookup_insert_eq. by eapply lookup_lt_Some.
Qed.

Lemma wrap_dec (r : t) (f : Z) :
  size_ok r → evictable r f → size_t_wrap (curr_size_ r - 1) = curr_size_ r - 1.
Proof.
  intros [Hc Hlen] Hev. apply vec_at_Ok in Hev as [_ Hev].
  pose proof (count_true_pos _ _ Hev). pose proof (count_true_bounds (is_accessible_ r)).
  unfold size_t_wrap. rewrite Z.mod_small; lia.
Qed.

Lemma wrap_inc (r : t) (f : Z) :
  size_ok r → vec_at (is_accessible_ r) f = Ok false →
  size_t_wrap (curr_size_ r + 1) = curr_size_ r + 1.
Proof.
  intros [Hc Hlen] Hev. apply vec_at_Ok in Hev as [_ Hev].
  pose proof (count_true_bounds (<[Z.to_nat f := true]> (is_accessible_ r))) as Hb.
  rewrite length_insert, (count_true_insert _ _ false) in Hb by done.
  pose proof (count_true_bounds (is_accessible_ r)).
  unfold size_t_wrap. rewrite Z.mod_small; lia.
Qed.

Lemma SetEvictable_unknown (r : t) (f : Z) (b : bool) :
  f ≤ replacer_size_ r → use_count r f = 0%N → SetEvictable r f b = Ok r.
Proof.
  intros Hf Hcnt. unfold SetEvictable.
  rewrite bool_decide_eq_false_2 by lia. by rewrite bool_decide_eq_true_2.
Qed.

Lemma SetEvictable_known (r r' : t) (f : Z) (b : bool) :
  size_ok r → use_count r f ≠ 0%N → SetEvictable r f b = Ok r' →
  ∃ a, vec_at (is_accessible_ r) f = Ok a ∧
       vec_at (is_accessible_ r') f = Ok b ∧
       is_accessible_ r' = vec_set (is_accessible_ r) f b ∧
       Size r' = Size r - (if a then 1 else 0) + (if b then 1 else 0) ∧
       use_count_ r' = use_count_ r ∧
       history_list_ r' = history_list_ r ∧ cache_list_ r' = cache_list_ r ∧
       history_map_ r' = history_map_ r ∧ cache_map_ r' = cache_map_ r.
Proof.
  intros Hs Hcnt. unfold SetEvictable.
  case_bool_decide as Hrange; [discriminate|].
  rewrite bool_decide_eq_false_2 by done.
  intros Hop. apply bind_Ok_inv in Hop as (a & Ha & [= <-]).
  exists a. proj. split_and!; try done.
  - by eapply vec_at_vec_set_eq.
  - unfold Size; proj. destruct a, b; simpl.
    + lia.
    + rewrite (wrap_dec r f) by done. lia.
    + rewrite (wrap_inc r f) by done. lia.
    + lia.
Qed.

Lemma Remove_not_evictable (r r' : t) (f : Z) :
  ¬ evictable r f → Remove r f = Ok r' → r' = r.
Proof.
  intros Hne. unfold Remove. case_bool_decide; [discriminate|].
  intros Hop. apply bind_Ok_inv in Hop as (a & Ha & Hop).
  destruct a; [by destruct Hne|]. by injection Hop as <-.
Qed.

Lemma Remove_evictable (r r' : t) (f : Z) :
  wf r → size_ok r → evictable r f → Remove r f = Ok r' →
  vec_at (is_accessible_ r') f = Ok false ∧
  is_accessible_ r' = vec_set (is_accessible_ r) f false ∧
  use_count_ r' = <[f := 0%N]> (use_count_ r) ∧
  Size r' = Size r - 1 ∧
  history_list_ r' = list_erase f (history_list_ r) ∧
  cache_list_ r' = list_erase f (cache_list_ r).
Proof.
  intros Hwf Hs Hev. unfold Remove. case_bool_decide; [discriminate|].
  rewrite Hev. simpl.
  case_bool_decide as Hk; case_bool_decide as Hin; try discriminate; intros [= <-];
    unfold Size; proj.
  - assert (Hnc : f ∉ cache_list_ r) by (rewrite (wf_cache r Hwf); lia).
    split_and!; [by eapply vec_at_vec_set_eq | done | done | by eapply wrap_dec | done |].
    by rewrite list_erase_notin.
  - assert (Hnh : f ∉ history_list_ r) by (rewrite (wf_hist r Hwf); lia).
    split_and!; [by eapply vec_at_vec_set_eq | done | done | by eapply wrap_dec | | done].
    by rewrite list_erase_notin.
Qed.

Lemma Evict_Some (r r' : t) (f : Z) :
  wf r → size_ok r → Evict r = Ok (r', Some f) →
  evictable r f ∧
  vec_at (is_accessible_ r') f = Ok false ∧
  is_accessible_ r' = vec_set (is_accessible_ r) f false ∧
  use_count_ r' = <[f := 0%N]> (use_count_ r) ∧
  Size r' = Size r - 1 ∧
  history_list_ r' = list_erase f (history_list_ r) ∧
  cache_list_ r' = list_erase f (cache_list_ r) ∧
  (f ∉ history_list_ r') ∧ (f ∉ cache_list_ r').
Proof.
  intros Hwf Hs Hop. pose proof (wf_Evict _ _ _ Hwf Hop) as Hwf'. revert Hop.
  unfold Evict. case_bool_decide as Hempty; [discriminate|].
  intros Hop. apply bind_Ok_inv in Hop as ([[v rest]|] & Hscan & Hop).
  - injection Hop as <- ->.
    apply scan_Some_erase in Hscan as (-> & Hin & Hev); [|by apply wf_hnodup].
    assert (Hnc : f ∉ cache_list_ r).
    { rewrite (wf_cache r Hwf). apply (wf_hist r Hwf) in Hin. lia. }
    unfold Size; proj. split_and!; try done.
    + by eapply vec_at_vec_set_eq.
    + by eapply wrap_dec.
    + by rewrite list_erase_notin.
    + rewrite elem_of_list_erase by (by apply wf_hnodup). tauto.
  - apply bind_Ok_inv in Hop as ([[v rest]|] & Hscan2 & Hop); [|discriminate].
    injection Hop as <- ->.
    apply scan_Some_erase in Hscan2 as (-> & Hin & Hev); [|by apply wf_cnodup].
    assert (Hnh : f ∉ history_list_ r).
    { rewrite (wf_hist r Hwf). apply (wf_cache r Hwf) in Hin. lia. }
    unfold Size; proj. split_and!; try done.
    + by eapply vec_at_vec_set_eq.
    + by eapply wrap_dec.
    + by rewrite list_erase_notin.
    + rewrite elem_of_list_erase by (by apply wf_cnodup). tauto.
Qed.

Lemma Evict_None (r r' : t) : Evict r = Ok (r', None) → r' = r.
Proof.
  unfold Evict. case_bool_decide; [by intros [= <-]|].
  intros Hop. apply bind_Ok_inv in Hop as ([[v rest]|] & _ & Hop); [discriminate|].
  apply bind_Ok_inv in Hop as ([[v rest]|] & _ & Hop); [discriminate|].
  by injection Hop as <-.
Qed.

(** *** Victim selection *)

Lemma not_evictable_Forall (r : t) (l : list Z) :
  wf r → (∀ x, x ∈ l → x ∈ history_list_ r ∨ x ∈ cache_list_ r) →
  Forall (λ x, ¬ evictable r x) l →
  Forall (λ x, vec_at (is_accessible_ r) x = Ok false) l.
Proof.
  intros Hwf Hl. rewrite !Forall_forall. intros Hne x Hx.
  apply wf_not_evictable; [done | by apply wf_list_range, Hl | by apply Hne].
Qed.

Lemma maps_nonempty (r : t) (f : Z) :
  wf r → f ∈ history_list_ r ∨ f ∈ cache_list_ r →
  bool_decide (history_map_ r = ∅ ∧ cache_map_ r = ∅) = false.
Proof.
  intros Hwf Hin. apply bool_decide_eq_false_2. intros [Hh Hc].
  destruct Hin as [Hin|Hin].
  - apply (wf_hmap r Hwf) in Hin. rewrite Hh in Hin. by apply not_elem_of_empty in Hin.
  - apply (wf_cmap r Hwf) in Hin. rewrite Hc in Hin. by apply not_elem_of_empty in Hin.
Qed.

Lemma Evict_history_hit (r : t) (pre post : list Z) (v : Z) :
  wf r → history_list_ r = pre ++ v :: post → evictable r v →
  Forall (λ x, ¬ evictable r x) post → ∃ r', Evict r = Ok (r', Some v).
Proof.
  intros Hwf Hl Hv Hpost. unfold Evict.
  rewrite (maps_nonempty r v) by (try done; left; rewrite Hl; set_solver).
  rewrite Hl, (scan_app_hit _ pre post v); [by eexists | done |].
  apply not_evictable_Forall; [done | | done].
  intros x Hx. left. rewrite Hl. set_solver.
Qed.

Lemma Evict_cache_hit (r : t) (pre post : list Z) (v : Z) :
  wf r → Forall (λ x, ¬ evictable r x) (history_list_ r) →
  cache_list_ r = pre ++ v :: post → evictable r v →
  Forall (λ x, ¬ evictable r x) post → ∃ r', Evict r = Ok (r', Some v).
Proof.
  intros Hwf Hhist Hl Hv Hpost. unfold Evict.
  rewrite (maps_nonempty r v) by (try done; right; rewrite Hl; set_solver).
  rewrite scan_all_false by (apply not_evictable_Forall; auto).
  simpl. rewrite Hl, (scan_app_hit _ pre post v); [by eexists | done |].
  apply not_evictable_Forall; [done | | done].
  intros x Hx. right. rewrite Hl. set_solver.
Qed.

Lemma Evict_None_inv (r r' : t) (f : Z) :
  wf r → Evict r = Ok (r', None) → ¬ evictable r f.
Proof.
  intros Hwf Hop Hev. pose proof (wf_acc r Hwf f Hev) as Hcnt.
  assert (Hin : f ∈ history_list_ r ∨ f ∈ cache_list_ r).
  { rewrite (wf_hist r Hwf), (wf_cache r Hwf). lia. }
  revert Hop. unfold Evict. rewrite (maps_nonempty r f) by done.
  intros Hop. apply bind_Ok_inv in Hop as ([[v rest]|] & Hs1 & Hop); [discriminate|].
  apply bind_Ok_inv in Hop as ([[v rest]|] & Hs2 & Hop); [discriminate|].
  apply scan_None in Hs1. apply scan_None in Hs2.
  rewrite Forall_forall in Hs1, Hs2. unfold evictable in Hev.
  destruct Hin as [Hin|Hin]; [apply Hs1 in Hin | apply Hs2 in Hin]; congruence.
Qed.

Lemma sample_state_reachable : reachable 7 2 sample_state.
Proof.
  apply (reach_SetEvictable 7 2
           {| replacer_size_ := 7; k_ := 2; curr_size_ := 0;
              is_accessible_ := replicate 8 false;
              use_count_ := {[1 := 1%N; 2 := 1%N]};
              history_list_ := [2; 1]; history_map_ := {[2; 1]};
              cache_list_ := []; cache_map_ := ∅ |} 2 true); [|by vm_compute].
  apply (reach_RecordAccess 7 2
           {| replacer_size_ := 7; k_ := 2; curr_size_ := 0;
              is_accessible_ := replicate 8 false;
              use_count_ := {[1 := 1%N]};
              history_list_ := [1]; history_map_ := {[1]};
              cache_list_ := []; cache_map_ := ∅ |} 2); [|lia|by vm_compute].
  apply (reach_RecordAccess 7 2 (new 7 2) 1); [|lia|by vm_compute].
  constructor.
Defined.

(** *** Recording an access *)

(** C4: [RecordAccess] on a frame id that passes the range check adds one
    to the frame's use count.  While the new count is below [k] the frame is
    in the history list, pushed to its front on the first access and left
    where it is afterwards; when the new count reaches [k] the frame leaves
    the history list and is pushed to the front of the cache list; above
    [k] it is moved to the front of the cache list. *)
Theorem RecordAccess_list_discipline (num_frames : Z) (k : N) (r : t) (frame_id : Z) :
  0 ≤ num_frames → reachable num_frames k r → 0 ≤ frame_id ≤ num_frames →
  ∃ r', RecordAccess r frame_id = Ok r' ∧
    use_count r' frame_id = (use_count r frame_id + 1)%N ∧
    ((use_count r frame_id + 1 < k)%N →
       frame_id ∈ history_list_ r' ∧ cache_list_ r' = cache_list_ r ∧
       (use_count r frame_id = 0%N → history_list_ r' = frame_id :: history_list_ r) ∧
       (use_count r frame_id ≠ 0%N → history_list_ r' = history_list_ r)) ∧
    ((use_count r frame_id + 1 = k)%N →
       history_list_ r' = list_erase frame_id (history_list_ r) ∧
       (frame_id ∉ history_list_ r') ∧
       cache_list_ r' = frame_id :: cache_list_ r) ∧
    ((use_count r frame_id + 1 > k)%N →
       history_list_ r' = history_list_ r ∧
       cache_list_ r' = frame_id :: list_erase frame_id (cache_list_ r)).
Proof.
  intros Hn Hreach Hf.
  assert (Hwf : wf r) by (by eapply reachable_wf).
  destruct (reachable_params _ _ _ Hreach) as [Hsz Hk].
  destruct (RecordAccess_defined r frame_id) as [r' Hop]; [lia|].
  pose proof (wf_RecordAccess r r' frame_id Hwf (proj1 Hf) Hop) as Hwf'.
  exists r'. split; [done|]. revert Hop Hwf'. unfold RecordAccess.
  rewrite bool_decide_eq_false_2 by lia.
  pose proof (wf_hmap r Hwf frame_id) as Hhm. pose proof (wf_cmap r Hwf frame_id) as Hcm.
  pose proof (wf_hist r Hwf frame_id) as Hh. pose proof (wf_cache r Hwf frame_id) as Hc.
  case_bool_decide as Hk1; [|case_bool_decide as Hk2]; intros [= <-] Hwf'; proj;
    rewrite use_count_upd, decide_True by done; (split; [done|]);
    (split_and!; intros Hcase; try lia).
  - assert (Hnew : (if bool_decide (frame_id ∈ history_map_ r)
                   then list_erase frame_id (history_list_ r)
                   else history_list_ r) = list_erase frame_id (history_list_ r)).
    { case_bool_decide as Hin; [done|].
      symmetry. apply list_erase_notin. by rewrite <- Hhm. }
    split_and!; [done | | done].
    pose proof (wf_hist _ Hwf' frame_id) as Hh'. revert Hh'. proj.
    rewrite use_count_upd, decide_True by done. intros ->. lia.
  - split; [done|]. f_equal. case_bool_decide as Hin; [done|].
    symmetry. apply list_erase_notin. by rewrite <- Hcm.
  - split_and!; [|done|..].
    + case_bool_decide as Hin; [tauto | by left].
    + intros H0. rewrite bool_decide_eq_false_2; [done|]. rewrite Hhm, Hh. lia.
    + intros H0. rewrite bool_decide_eq_true_2; [done|]. rewrite Hhm, Hh. lia.
Qed.

Lemma RecordAccess_list_discipline_witness :
  0 ≤ 7 ∧ reachable 7 2 sample_state ∧ 0 ≤ 1 ≤ 7 ∧
  ∃ r', RecordAccess sample_state 1 = Ok r' ∧ use_count r' 1 = 2%N ∧
        history_list_ r' = [2] ∧ cache_list_ r' = [1].
Proof.
  split; [lia|]. split; [exact sample_state_reachable|]. split; [lia|].
  destruct (RecordAccess_list_discipline 7 2 sample_state 1)
    as (r' & Hop & Hcnt & _ & Hk & _); [lia | exact sample_state_reachable | lia |].
  exists r'. split; [exact Hop|]. split; [exact Hcnt|].
  destruct (Hk eq_refl) as (Hh & _ & Hc). split; [exact Hh | exact Hc].
Defined.

(** *** The range check *)

Lemma RecordAccess_Throw (r : t) (f : Z) :
  RecordAccess r f = Throw ↔ f > replacer_size_ r.
Proof.
  unfold RecordAccess. case_bool_decide as Hrange; [done|].
  split; [|done]. repeat case_bool_decide; discriminate.
Qed.

Lemma SetEvictable_Throw (r : t) (f : Z) (b : bool) :
  SetEvictable r f b = Throw ↔ f > replacer_size_ r.
Proof.
  unfold SetEvictable. case_bool_decide as Hrange; [done|].
  split; [|done]. case_bool_decide; [discriminate|].
  unfold vec_at. case_bool_decide; [|discriminate].
  destruct (_ !! _); discriminate.
Qed.

Lemma Remove_Throw (r : t) (f : Z) :
  Remove r f = Throw ↔ f > replacer_size_ r.
Proof.
  unfold Remove. case_bool_decide as Hrange; [done|].
  split; [|done]. unfold vec_at. case_bool_decide; [|discriminate].
  destruct (_ !! _) as [[]|]; simpl; repeat case_bool_decide; discriminate.
Qed.

(** C8 (amended): [RecordAccess], [SetEvictable] and [Remove] throw exactly
    when [frame_id > num_frames]; for [0 ≤ frame_id ≤ num_frames] they
    return normally.  [num_frames] is below 2^31: it is then a value of
    [frame_id_t] (a 32-bit signed integer, [common/config.h]), which the
    cast in the three range checks keeps, and [num_frames + 1] does not
    wrap in the constructor. *)
Theorem out_of_range_errors (num_frames : Z) (k : N) (r : t) (frame_id : Z) (b : bool) :
  0 ≤ num_frames < 2 ^ 31 → reachable num_frames k r →
  (RecordAccess r frame_id = Throw ↔ frame_id > num_frames) ∧
  (SetEvictable r frame_id b = Throw ↔ frame_id > num_frames) ∧
  (Remove r frame_id = Throw ↔ frame_id > num_frames) ∧
  (0 ≤ frame_id ≤ num_frames →
     (∃ r', RecordAccess r frame_id = Ok r') ∧
     (∃ r', SetEvictable r frame_id b = Ok r') ∧
     (∃ r', Remove r frame_id = Ok r')).
Proof.
  intros [Hn _] Hreach.
  assert (Hwf : wf r) by (by apply (reachable_wf num_frames k)).
  destruct (reachable_params _ _ _ Hreach) as [<- _].
  split_and!.
  - apply RecordAccess_Throw.
  - apply SetEvictable_Throw.
  - apply Remove_Throw.
  - intros Hf. split_and!.
    + apply RecordAccess_defined. lia.
    + by apply SetEvictable_defined.
    + by apply Remove_defined.
Qed.

Lemma out_of_range_errors_witness :
  0 ≤ 7 < 2 ^ 31 ∧ reachable 7 2 sample_state ∧
  RecordAccess sample_state 8 = Throw ∧ ∃ r', RecordAccess sample_state 7 = Ok r'.
Proof.
  split; [lia|]. split; [exact sample_state_reachable|]. split.
  - apply (out_of_range_errors 7 2 sample_state 8 true);
      [lia | exact sample_state_reachable | lia].
  - apply (out_of_range_errors 7 2 sample_state 7 true);
      [lia | exact sample_state_reachable | lia].
Defined.

(** C8 as stated fails: with [num_frames = 7], frame id 7 satisfies
    [frame_id ≥ num_frames], yet none of the three calls throws. *)
Lemma out_of_range_counterexample :
  7 >= replacer_size_ (new 7 2) ∧
  RecordAccess (new 7 2) 7 ≠ Throw ∧
  SetEvictable (new 7 2) 7 true ≠ Throw ∧
  Remove (new 7 2) 7 ≠ Throw.
Proof. split_and!; [simpl; lia | by vm_compute..]. Qed.

(** *** The size law *)

(** C9: in every reachable state [Size] is the number of set evictable
    flags.  [SetEvictable] leaves the replacer as it is when the frame's use
    count is 0, leaves [Size] alone when the flag already has the requested
    value, and otherwise moves it by one; [Evict] and [Remove] lower it by
    one when they clear a flag. *)
Theorem curr_size_law (num_frames : Z) (k : N) (r : t) :
  0 ≤ num_frames < 2 ^ 64 - 1 → reachable num_frames k r →
  Size r = count_true (is_accessible_ r) ∧
  (∀ f b r', SetEvictable r f b = Ok r' →
     (use_count r f = 0%N → r' = r) ∧
     ((evictable r f ↔ b = true) → Size r' = Size r) ∧
     (evictable r f → b = false → ¬ evictable r' f ∧ Size r' = Size r - 1) ∧
     (¬ evictable r f → b = true → use_count r f ≠ 0%N →
        evictable r' f ∧ Size r' = Size r + 1)) ∧
  (∀ r' f, Evict r = Ok (r', Some f) →
     evictable r f ∧ ¬ evictable r' f ∧ Size r' = Size r - 1) ∧
  (∀ r', Evict r = Ok (r', None) → r' = r) ∧
  (∀ f r', Remove r f = Ok r' →
     (evictable r f → ¬ evictable r' f ∧ Size r' = Size r - 1) ∧
     (¬ evictable r f → r' = r)).
Proof.
  intros Hn Hreach.
  assert (Hwf : wf r) by (eapply reachable_wf; [|done]; lia).
  assert (Hs : size_ok r) by (by eapply reachable_size_ok).
  split_and!.
  - apply Hs.
  - intros f b r' Hop.
    assert (Hle : f ≤ replacer_size_ r).
    { destruct (decide (f > replacer_size_ r)) as [Hgt|]; [|lia].
      apply (SetEvictable_Throw r f b) in Hgt. congruence. }
    destruct (decide (use_count r f = 0%N)) as [H0|Hpos].
    + rewrite (SetEvictable_unknown r f b Hle H0) in Hop. injection Hop as <-.
      split_and!; try done.
      * intros Hev _. apply (wf_acc r Hwf) in Hev. lia.
    + destruct (SetEvictable_known r r' f b Hs Hpos Hop) as (a & Ha & Ha' & _ & Hsz & _).
      unfold evictable. rewrite Ha, Ha'. split_and!; try done.
      * intros Hiff. rewrite Hsz. destruct a, b; try lia.
        -- destruct Hiff as [Hiff _]. by specialize (Hiff eq_refl).
        -- destruct Hiff as [_ Hiff]. by specialize (Hiff eq_refl).
      * intros [= ->] ->. split; [discriminate|]. lia.
      * intros Hna -> _. split; [done|]. destruct a; [by destruct Hna | lia].
  - intros r' f Hop.
    destruct (Evict_Some r r' f Hwf Hs Hop) as (Hev & Ha & _ & _ & Hsz & _).
    split_and!; try done. unfold evictable. congruence.
  - apply Evict_None.
  - intros f r' Hop. split.
    + intros Hev.
      destruct (Remove_evictable r r' f Hwf Hs Hev Hop) as (Ha & _ & _ & Hsz & _).
      split; [|done]. unfold evictable. congruence.
    + intros Hne. by eapply Remove_not_evictable.
Qed.

Lemma curr_size_law_witness :
  0 ≤ 7 < 2 ^ 64 - 1 ∧ reachable 7 2 sample_state ∧
  Size sample_state = count_true (is_accessible_ sample_state).
Proof.
  split; [lia|]. split; [exact sample_state_reachable|].
  apply (curr_size_law 7 2 sample_state); [lia | exact sample_state_reachable].
Defined.

(** *** How each call moves the flags and the counts (for the pool) *)

Lemma RecordAccess_evictable (r r' : t) (f x : Z) :
  RecordAccess r f = Ok r' → (evictable r' x ↔ evictable r x).
Proof. unfold RecordAccess. repeat case_bool_decide; by intros [= <-]. Qed.

Lemma RecordAccess_use_count (r r' : t) (f x : Z) :
  RecordAccess r f = Ok r' →
  use_count r' x = if decide (x = f) then (use_count r f + 1)%N else use_count r x.
Proof.
  unfold RecordAccess. repeat case_bool_decide; intros [= <-]; try done;
    apply use_count_upd.
Qed.

Lemma SetEvictable_use_count (r r' : t) (f x : Z) (b : bool) :
  SetEvictable r f b = Ok r' → use_count r' x = use_count r x.
Proof.
  unfold SetEvictable. repeat case_bool_decide; try discriminate; [by intros [= <-]|].
  intros Hop. by apply bind_Ok_inv in Hop as (a & _ & [= <-]).
Qed.

Lemma SetEvictable_evictable (r r' : t) (f x : Z) (b : bool) :
  SetEvictable r f b = Ok r' → evictable r' x →
  (x = f ∧ b = true) ∨ (x ≠ f ∧ evictable r x) ∨ (use_count r f = 0%N ∧ evictable r x).
Proof.
  unfold SetEvictable. case_bool_decide; [discriminate|].
  case_bool_decide; [intros [= <-]; by auto|].
  intros Hop. apply bind_Ok_inv in Hop as (a & Ha & [= <-]).
  apply vec_at_Ok in Ha as [Hf _]. unfold evictable; proj. intros Hx.
  apply evictable_vec_set in Hx as [?|?]; auto.
Qed.

Lemma SetEvictable_false_clears (r r' : t) (f : Z) :
  wf r → SetEvictable r f false = Ok r' → ¬ evictable r' f.
Proof.
  intros Hwf Hop Hev.
  destruct (SetEvictable_evictable _ _ _ _ _ Hop Hev) as [[_ ?]|[[? _]|[H0 Hev']]]; try done.
  apply (wf_acc r Hwf) in Hev'. lia.
Qed.

Lemma Remove_evictable_le (r r' : t) (f x : Z) :
  Remove r f = Ok r' → evictable r' x → evictable r x.
Proof.
  unfold Remove. case_bool_decide; [discriminate|].
  intros Hop. apply bind_Ok_inv in Hop as (a & Ha & Hop).
  destruct a; simpl in Hop; [|by injection Hop as <-].
  apply vec_at_Ok in Ha as [Hf _].
  repeat case_bool_decide; try discriminate; injection Hop as <-;
    unfold evictable; proj; intros Hx;
    apply evictable_vec_set in Hx as [[_ ?]|[_ ?]]; done.
Qed.

Lemma Remove_use_count_le (r r' : t) (f x : Z) :
  Remove r f = Ok r' → (0 < use_count r' x)%N → (0 < use_count r x)%N.
Proof.
  unfold Remove. case_bool_decide; [discriminate|].
  intros Hop. apply bind_Ok_inv in Hop as (a & Ha & Hop).
  destruct a; simpl in Hop; [|by injection Hop as <-].
  repeat case_bool_decide; try discriminate; injection Hop as <-;
    rewrite use_count_upd; destruct (decide (x = f)); (lia || done).
Qed.

Lemma Evict_flags (r r' : t) (f : Z) :
  wf r → Evict r = Ok (r', Some f) →
  evictable r f ∧
  is_accessible_ r' = vec_set (is_accessible_ r) f false ∧
  use_count_ r' = <[f := 0%N]> (use_count_ r).
Proof.
  intros Hwf. unfold Evict. case_bool_decide as Hempty; [discriminate|].
  intros Hop. apply bind_Ok_inv in Hop as ([[v rest]|] & Hscan & Hop).
  - injection Hop as <- ->. by apply scan_Some in Hscan as (? & ? & _ & _ & ? & _).
  - apply bind_Ok_inv in Hop as ([[v rest]|] & Hscan2 & Hop); [|discriminate].
    injection Hop as <- ->. by apply scan_Some in Hscan2 as (? & ? & _ & _ & ? & _).
Qed.

Lemma Evict_evictable_le (r r' : t) (victim : option Z) (x : Z) :
  wf r → Evict r = Ok (r', victim) → evictable r' x →
  evictable r x ∧ victim ≠ Some x.
Proof.
  intros Hwf Hop. destruct victim as [f|]; [|apply Evict_None in Hop as ->; by auto].
  destruct (Evict_flags r r' f Hwf Hop) as (Hev & Ha & _).
  unfold evictable. rewrite Ha. intros Hx.
  apply evictable_vec_set in Hx as [[_ ?]|[? ?]]; [done| |].
  - split; [done | congruence].
  - apply vec_at_Ok in Hev. tauto.
Qed.

Lemma Evict_use_count_le (r r' : t) (victim : option Z) (x : Z) :
  wf r → Evict r = Ok (r', victim) → (0 < use_count r' x)%N → (0 < use_count r x)%N.
Proof.
  intros Hwf Hop. destruct victim as [f|]; [|by apply Evict_None in Hop as ->].
  destruct (Evict_flags r r' f Hwf Hop) as (_ & _ & Huc).
  unfold use_count at 1. rewrite Huc, use_count_insert.
  destruct (decide (x = f)); [lia | done].
Qed.

Lemma timed_reachable (num_frames : Z) (k : N) (r : t) (g : times) :
  timed num_frames k r g → reachable num_frames k r.
Proof.
  induction 1; [constructor | by eapply reach_RecordAccess | by eapply reach_SetEvictable
                | by eapply reach_Remove | by eapply reach_Evict].
Qed.

Lemma reachable_timed (num_frames : Z) (k : N) (r : t) :
  reachable num_frames k r → ∃ g, timed num_frames k r g.
Proof.
  induction 1 as [|r f r' _ [g IH] Hf H|r f b r' _ [g IH] H|r f r' _ [g IH] H|r r' v _ [g IH] H].
  - eexists. constructor.
  - eexists. by eapply timed_RecordAccess.
  - eexists. by eapply timed_SetEvictable.
  - eexists. by eapply timed_Remove.
  - eexists. by eapply timed_Evict.
Qed.

Lemma sorted_list_erase (R : Z → Z → Prop) (f : Z) (l : list Z) :
  StronglySorted R l → StronglySorted R (list_erase f l).
Proof.
  induction l as [|x l IH]; simpl; [done|]. rewrite StronglySorted_cons. intros [Hx Hl].
  case_bool_decide; [done|]. apply StronglySorted_cons. split; [|by apply IH].
  rewrite Forall_forall in Hx |- *. intros y Hy. apply Hx.
  clear -Hy. induction l as [|z l IHl]; simpl in Hy; [done|].
  case_bool_decide; [by right|]. apply elem_of_cons in Hy as [->|Hy]; [by left|].
  right. by apply IHl.
Qed.

Lemma elem_of_list_erase_1 (f x : Z) (l : list Z) : x ∈ list_erase f l → x ∈ l.
Proof.
  induction l as [|z l IHl]; simpl; [done|].
  case_bool_decide; [by right|]. intros Hy. apply elem_of_cons in Hy as [->|Hy]; [by left|].
  right. by apply IHl.
Qed.

Lemma sorted_later_ext (m m' : gmap Z nat) (l : list Z) :
  (∀ x, x ∈ l → time_of m' x = time_of m x) →
  StronglySorted (later m) l → StronglySorted (later m') l.
Proof.
  induction l as [|x l IH]; intros Hext; [constructor|].
  rewrite !StronglySorted_cons. intros [Hx Hl]. split.
  - rewrite Forall_forall in Hx |- *. intros y Hy. unfold later.
    rewrite !Hext by set_solver. by apply Hx.
  - apply IH; [|done]. intros y Hy. apply Hext. set_solver.
Qed.

Lemma time_of_insert (m : gmap Z nat) (f x : Z) (n : nat) :
  time_of (<[f := n]> m) x = if decide (x = f) then n else time_of m x.
Proof.
  unfold time_of. destruct (decide (x = f)) as [->|Hne].
  - by rewrite lookup_insert_eq.
  - by rewrite lookup_insert_ne.
Qed.

(** Pushing a frame to the front with the current time keeps a list
    ordered. *)
Lemma sorted_push_front (m : gmap Z nat) (f : Z) (n : nat) (l : list Z) :
  f ∉ l → (∀ x, x ∈ l → (time_of m x < n)%nat) →
  StronglySorted (later m) l → StronglySorted (later (<[f := n]> m)) (f :: l).
Proof.
  intros Hf Hnow Hl. apply StronglySorted_cons. split.
  - apply Forall_forall. intros x Hx. unfold later. rewrite !time_of_insert.
    destruct (decide (x = f)) as [->|Hne]; [done|].
    rewrite decide_True by done. by apply Hnow.
  - eapply sorted_later_ext; [|done]. intros x Hx. rewrite time_of_insert.
    destruct (decide (x = f)) as [->|Hne]; done.
Qed.

Lemma later_ext_away (m : gmap Z nat) (f : Z) (n : nat) (l : list Z) :
  f ∉ l → StronglySorted (later m) l → StronglySorted (later (<[f := n]> m)) l.
Proof.
  intros Hf. apply sorted_later_ext. intros x Hx. rewrite time_of_insert.
  destruct (decide (x = f)) as [->|Hne]; done.
Qed.

Lemma now_ext_away (m : gmap Z nat) (f x : Z) (n now : nat) (l : list Z) :
  f ∉ l → (∀ y, y ∈ l → (time_of m y < now)%nat) → x ∈ l →
  (time_of (<[f := n]> m) x < S now)%nat.
Proof.
  intros Hf Hnow Hx. rewrite time_of_insert.
  destruct (decide (x = f)) as [->|Hne]; [done|]. specialize (Hnow x Hx). lia.
Qed.

Lemma ordered_RecordAccess (r r' : t) (g : times) (f : Z) :
  wf r → ordered r g → RecordAccess r f = Ok r' → ordered r' (tick r g f).
Proof.
  intros Hwf [Hoh Hoc Hnh Hnc]. unfold RecordAccess.
  case_bool_decide as Hrange; [discriminate|].
  pose proof (wf_hmap r Hwf f) as Hhm. pose proof (wf_cmap r Hwf f) as Hcm.
  pose proof (wf_hist r Hwf f) as Hh. pose proof (wf_cache r Hwf f) as Hc.
  pose proof (wf_hnodup r Hwf) as Hhn. pose proof (wf_cnodup r Hwf) as Hcn.
  assert (Harr : ∀ l, f ∉ l → (∀ y, y ∈ l → (time_of (arrival g) y < now g)%nat) →
            StronglySorted (later (arrival g)) l →
            StronglySorted (later (arrival (tick r g f))) l ∧
            ∀ x, x ∈ l → (time_of (arrival (tick r g f)) x < now (tick r g f))%nat).
  { intros l Hf Hnow Hl. unfold tick; simpl. case_bool_decide.
    - split; [by apply later_ext_away|]. intros x Hx. by eapply now_ext_away.
    - split; [done|]. intros x Hx. specialize (Hnow x Hx). lia. }
  assert (Hfront : ∀ l, f ∉ l → (∀ y, y ∈ l → (time_of (last_access g) y < now g)%nat) →
            StronglySorted (later (last_access g)) l →
            StronglySorted (later (last_access (tick r g f))) (f :: l) ∧
            ∀ x, x ∈ f :: l → (time_of (last_access (tick r g f)) x < now (tick r g f))%nat).
  { intros l Hf Hnow Hl. unfold tick; simpl. split; [by apply sorted_push_front|].
    intros x Hx. rewrite time_of_insert. destruct (decide (x = f)) as [->|Hne]; [lia|].
    apply elem_of_cons in Hx as [?|Hx]; [done|]. specialize (Hnow x Hx). lia. }
  assert (Hkeep : ∀ l, f ∉ l → (∀ y, y ∈ l → (time_of (last_access g) y < now g)%nat) →
            StronglySorted (later (last_access g)) l →
            StronglySorted (later (last_access (tick r g f))) l ∧
            ∀ x, x ∈ l → (time_of (last_access (tick r g f)) x < now (tick r g f))%nat).
  { intros l Hf Hnow Hl. unfold tick; simpl.
    split; [by apply later_ext_away|]. intros x Hx. by eapply now_ext_away. }
  case_bool_decide as Hk; [|case_bool_decide as Hk2]; intros [= <-].
  - (* the count reaches k *)
    set (hl := if bool_decide (f ∈ history_map_ r)
               then list_erase f (history_list_ r) else history_list_ r).
    assert (Hhl : f ∉ hl).
    { unfold hl. rewrite elem_of_cond_erase by done. tauto. }
    destruct (Harr hl) as [? ?]; [done | | |].
    { intros y Hy. apply Hnh. unfold hl in Hy. rewrite elem_of_cond_erase in Hy by done. tauto. }
    { unfold hl. case_bool_decide; [by apply sorted_list_erase | done]. }
    destruct (Hfront (cache_list_ r)) as [? ?]; [rewrite Hc; lia | done | done |].
    by constructor.
  - (* the count is above k *)
    set (cl := if bool_decide (f ∈ cache_map_ r)
               then list_erase f (cache_list_ r) else cache_list_ r).
    assert (Hcl : f ∉ cl).
    { unfold cl. rewrite elem_of_cond_erase by done. tauto. }
    destruct (Harr (history_list_ r)) as [? ?]; [rewrite Hh; lia | done | done |].
    destruct (Hfront cl) as [? ?]; [done | | |].
    { intros y Hy. apply Hnc. unfold cl in Hy. rewrite elem_of_cond_erase in Hy by done. tauto. }
    { unfold cl. case_bool_decide; [by apply sorted_list_erase | done]. }
    by constructor.
  - (* the count stays below k *)
    destruct (Hkeep (cache_list_ r)) as [? ?]; [rewrite Hc; lia | done | done |].
    constructor; proj; try done.
    + case_bool_decide as Hin.
      * unfold tick; simpl. rewrite bool_decide_eq_false_2; [done|].
        apply Hhm, Hh in Hin. lia.
      * unfold tick; simpl. rewrite bool_decide_eq_true_2.
        -- apply sorted_push_front; [by rewrite <- Hhm | done | done].
        -- rewrite Hhm, Hh in Hin. lia.
    + intros x. case_bool_decide as Hin.
      * unfold tick; simpl. rewrite bool_decide_eq_false_2 by (apply Hhm, Hh in Hin; lia).
        intros Hx. specialize (Hnh x Hx). lia.
      * unfold tick; simpl. rewrite bool_decide_eq_true_2 by (rewrite Hhm, Hh in Hin; lia).
        rewrite time_of_insert. destruct (decide (x = f)) as [->|Hne]; [lia|].
        intros Hx. apply elem_of_cons in Hx as [?|Hx]; [done|]. specialize (Hnh x Hx). lia.
Qed.

(** Erasing entries keeps the lists ordered; the times do not move. *)
Lemma ordered_shrink (r : t) (g : times) s k c a uc hl hm cl cm :
  ordered r g →
  (hl = history_list_ r ∨ ∃ f, hl = list_erase f (history_list_ r)) →
  (cl = cache_list_ r ∨ ∃ f, cl = list_erase f (cache_list_ r)) →
  ordered (mk s k c a uc hl hm cl cm) g.
Proof.
  intros [Hoh Hoc Hnh Hnc] Hhl Hcl. constructor; proj.
  - destruct Hhl as [->|[f ->]]; [done | by apply sorted_list_erase].
  - destruct Hcl as [->|[f ->]]; [done | by apply sorted_list_erase].
  - intros x Hx. apply Hnh. destruct Hhl as [->|[f ->]]; [done | by eapply elem_of_list_erase_1].
  - intros x Hx. apply Hnc. destruct Hcl as [->|[f ->]]; [done | by eapply elem_of_list_erase_1].
Qed.

Lemma ordered_SetEvictable (r r' : t) (g : times) (f : Z) (b : bool) :
  ordered r g → SetEvictable r f b = Ok r' → ordered r' g.
Proof.
  intros Ho. unfold SetEvictable.
  case_bool_decide; [discriminate|]. case_bool_decide; [by intros [= <-]|].
  intros Hop. apply bind_Ok_inv in Hop as (a & _ & [= <-]).
  apply (ordered_shrink r); auto.
Qed.

Lemma ordered_Remove (r r' : t) (g : times) (f : Z) :
  ordered r g → Remove r f = Ok r' → ordered r' g.
Proof.
  intros Ho. unfold Remove. case_bool_decide; [discriminate|].
  intros Hop. apply bind_Ok_inv in Hop as (a & _ & Hop).
  destruct a; simpl in Hop; [|by injection Hop as <-].
  repeat case_bool_decide; try discriminate; injection Hop as <-;
    apply (ordered_shrink r); eauto.
Qed.

Lemma ordered_Evict (r r' : t) (g : times) (victim : option Z) :
  wf r → ordered r g → Evict r = Ok (r', victim) → ordered r' g.
Proof.
  intros Hwf Ho. unfold Evict. case_bool_decide as Hempty; [by intros [= <- <-]|].
  intros Hop. apply bind_Ok_inv in Hop as ([[f rest]|] & Hscan & Hop).
  - injection Hop as <- <-.
    apply scan_Some_erase in Hscan as (-> & _ & _); [|by apply wf_hnodup].
    apply (ordered_shrink r); eauto.
  - apply bind_Ok_inv in Hop as ([[f rest]|] & Hscan2 & Hop); [|by injection Hop as <- <-].
    injection Hop as <- <-.
    apply scan_Some_erase in Hscan2 as (-> & _ & _); [|by apply wf_cnodup].
    apply (ordered_shrink r); eauto.
Qed.

Lemma timed_ordered (num_frames : Z) (k : N) (r : t) (g : times) :
  0 ≤ num_frames → timed num_frames k r g → ordered r g.
Proof.
  intros Hn Ht.
  induction Ht as [|r g f r' Ht IH Hf H|r g f b r' Ht IH H|r g f r' Ht IH H|r g r' v Ht IH H].
  - constructor; simpl; [constructor | constructor | |]; intros f Hf; by apply elem_of_nil in Hf.
  - eapply ordered_RecordAccess; [|done..].
    apply (reachable_wf num_frames k); [done|]. by eapply timed_reachable.
  - by eapply ordered_SetEvictable.
  - by eapply ordered_Remove.
  - eapply ordered_Evict; [|done..].
    apply (reachable_wf num_frames k); [done|]. by eapply timed_reachable.
Qed.

(** *** Victim selection, with times *)

(** Where [Evict] found its victim. *)
Lemma Evict_Some_place (r r' : t) (v : Z) :
  Evict r = Ok (r', Some v) →
  (∃ pre post, history_list_ r = pre ++ v :: post ∧
     Forall (λ x, vec_at (is_accessible_ r) x = Ok false) post) ∨
  (Forall (λ x, vec_at (is_accessible_ r) x = Ok false) (history_list_ r) ∧
   ∃ pre post, cache_list_ r = pre ++ v :: post ∧
     Forall (λ x, vec_at (is_accessible_ r) x = Ok false) post).
Proof.
  unfold Evict. case_bool_decide as Hempty; [discriminate|].
  intros Hop. apply bind_Ok_inv in Hop as ([[f rest]|] & Hscan & Hop).
  - injection Hop as _ ->. left.
    apply scan_Some in Hscan as (pre & post & ? & _ & _ & ?). by exists pre, post.
  - apply bind_Ok_inv in Hop as ([[f rest]|] & Hscan2 & Hop); [|discriminate].
    injection Hop as _ ->. right. split; [by apply scan_None|].
    apply scan_Some in Hscan2 as (pre & post & ? & _ & _ & ?). by exists pre, post.
Qed.

(** In an ordered list, the evictable entry nearest the back is the
    evictable entry with the earliest time. *)
Lemma earliest_evictable (r : t) (m : gmap Z nat) (pre post : list Z) (v x : Z) :
  StronglySorted (later m) (pre ++ v :: post) →
  Forall (λ y, vec_at (is_accessible_ r) y = Ok false) post →
  x ∈ pre ++ v :: post → evictable r x → (time_of m v ≤ time_of m x)%nat.
Proof.
  intros Hsorted Hpost Hx Hev. apply elem_of_app in Hx as [Hx|Hx].
  - assert (later m x v); [|unfold later in *; lia].
    eapply StronglySorted_app_1_elem_of; [done | done | by left].
  - apply elem_of_cons in Hx as [->|Hx]; [done|].
    rewrite Forall_forall in Hpost. specialize (Hpost x Hx).
    unfold evictable in Hev. congruence.
Qed.

(** C3 (amended): [Evict] finds a victim exactly when some frame is
    evictable.  The victim is the evictable entry nearest the back of the
    history list, which is the evictable history entry that arrived
    earliest; only when the history list holds no evictable entry it is the
    evictable entry nearest the back of the cache list, which is the
    evictable cache entry whose last access is the oldest.  The victim
    leaves its list, its use count becomes 0, its flag is cleared and
    [curr_size_] drops by one. *)
Theorem Evict_victim_selection (num_frames : Z) (k : N) (r : t) (g : times) :
  0 ≤ num_frames < 2 ^ 64 - 1 → timed num_frames k r g →
  (∃ res, Evict r = Ok res) ∧
  ((∃ f, evictable r f) ↔ (∃ r' v, Evict r = Ok (r', Some v))) ∧
  (∀ pre v post,
     history_list_ r = pre ++ v :: post → evictable r v →
     Forall (λ x, ¬ evictable r x) post → ∃ r', Evict r = Ok (r', Some v)) ∧
  (∀ pre v post,
     Forall (λ x, ¬ evictable r x) (history_list_ r) →
     cache_list_ r = pre ++ v :: post → evictable r v →
     Forall (λ x, ¬ evictable r x) post → ∃ r', Evict r = Ok (r', Some v)) ∧
  (∀ r' v, Evict r = Ok (r', Some v) →
     evictable r v ∧
     ((v ∈ history_list_ r ∧
       ∀ x, x ∈ history_list_ r → evictable r x →
            (time_of (arrival g) v ≤ time_of (arrival g) x)%nat) ∨
      (v ∈ cache_list_ r ∧
       (∀ x, x ∈ history_list_ r → ¬ evictable r x) ∧
       ∀ x, x ∈ cache_list_ r → evictable r x →
            (time_of (last_access g) v ≤ time_of (last_access g) x)%nat)) ∧
     history_list_ r' = list_erase v (history_list_ r) ∧
     cache_list_ r' = list_erase v (cache_list_ r) ∧
     (v ∉ history_list_ r') ∧ (v ∉ cache_list_ r') ∧
     use_count r' v = 0%N ∧ ¬ evictable r' v ∧ Size r' = Size r - 1).
Proof.
  intros Hn Htimed. pose proof (timed_reachable _ _ _ _ Htimed) as Hreach.
  assert (Hwf : wf r) by (apply (reachable_wf num_frames k); [lia | done]).
  assert (Hs : size_ok r) by (by eapply reachable_size_ok).
  assert (Hord : ordered r g) by (apply (timed_ordered num_frames k); [lia | done]).
  split_and!.
  - by apply Evict_defined.
  - split.
    + intros [f Hf]. destruct (Evict_defined r Hwf) as [[r' [v|]] Hop]; [by eauto|].
      by destruct (Evict_None_inv r r' f Hwf Hop).
    + intros (r' & v & Hop). exists v. by apply (Evict_Some r r' v Hwf Hs Hop).
  - intros pre v post. by apply Evict_history_hit.
  - intros pre v post. by apply Evict_cache_hit.
  - intros r' v Hop.
    destruct (Evict_Some r r' v Hwf Hs Hop) as (Hev & Ha & _ & Huc & Hsz & Hh & Hc & Hnh & Hnc).
    split_and!; try done.
    + destruct (Evict_Some_place r r' v Hop)
        as [(pre & post & Hl & Hpost)|(Hhist & pre & post & Hl & Hpost)].
      * left. split; [rewrite Hl; apply elem_of_app; right; by left|]. intros x Hx Hx_ev.
        eapply earliest_evictable; [| exact Hpost | by rewrite <- Hl | done].
        rewrite <- Hl. apply Hord.
      * right. split_and!; [rewrite Hl; apply elem_of_app; right; by left | |].
        -- intros x Hx Hx_ev. rewrite Forall_forall in Hhist. specialize (Hhist x Hx).
           unfold evictable in Hx_ev. congruence.
        -- intros x Hx Hx_ev.
           eapply earliest_evictable; [| exact Hpost | by rewrite <- Hl | done].
           rewrite <- Hl. apply Hord.
    + unfold use_count. rewrite Huc. by rewrite lookup_insert_eq.
    + unfold evictable. congruence.
Qed.

Lemma sample_state_timed : timed 7 2 sample_state sample_times.
Proof.
  apply (timed_SetEvictable 7 2
           {| replacer_size_ := 7; k_ := 2; curr_size_ := 0;
              is_accessible_ := replicate 8 false;
              use_count_ := {[1 := 1%N; 2 := 1%N]};
              history_list_ := [2; 1]; history_map_ := {[2; 1]};
              cache_list_ := []; cache_map_ := ∅ |} sample_times 2 true); [|by vm_compute].
  change sample_times with
    (tick {| replacer_size_ := 7; k_ := 2; curr_size_ := 0;
             is_accessible_ := replicate 8 false;
             use_count_ := {[1 := 1%N]};
             history_list_ := [1]; history_map_ := {[1]};
             cache_list_ := []; cache_map_ := ∅ |}
          (tick (new 7 2) (mk_times 0 ∅ ∅) 1) 2).
  apply timed_RecordAccess; [|lia|by vm_compute].
  apply timed_RecordAccess; [|lia|by vm_compute].
  constructor.
Defined.

Lemma Evict_victim_selection_witness :
  0 ≤ 7 < 2 ^ 64 - 1 ∧ timed 7 2 sample_state sample_times ∧
  history_list_ sample_state = [2; 1] ∧
  ∃ r', Evict sample_state = Ok (r', Some 2).
Proof.
  split; [lia|]. split; [exact sample_state_timed|]. split; [reflexivity|].
  destruct (Evict_victim_selection 7 2 sample_state sample_times) as (_ & _ & Hhist & _);
    [lia | exact sample_state_timed |].
  apply (Hhist [] 2 [1]); [reflexivity | reflexivity |].
  constructor; [discriminate | constructor].
Defined.

(** C3 as stated fails in its reading of the cache list, which is not in
    order of k-th-most-recent access.  With [k = 2], frame 1 is accessed at
    times 0 and 3 and frame 2 at times 1 and 2, and both are made
    evictable: the second most recent access of frame 1 (time 0) is older
    than that of frame 2 (time 1), yet [Evict] returns frame 2, the frame
    whose last access is the older one. *)
Lemma Evict_cache_order_counterexample :
  let calls := [CallRecordAccess 1; CallRecordAccess 2; CallRecordAccess 2;
                CallRecordAccess 1; CallSetEvictable 1 true; CallSetEvictable 2 true] in
  ∃ r r',
    run (new 7 2) calls = Ok r ∧
    history_list_ r = [] ∧ cache_list_ r = [1; 2] ∧ evictable r 1 ∧ evictable r 2 ∧
    kth_most_recent 2 (access_times calls 1 0) = Some 0%nat ∧
    kth_most_recent 2 (access_times calls 2 0) = Some 1%nat ∧
    Evict r = Ok (r', Some 2).
Proof.
  simpl.
  exists {| replacer_size_ := 7; k_ := 2; curr_size_ := 2;
            is_accessible_ := [false; true; true; false; false; false; false; false];
            use_count_ := {[1 := 2%N; 2 := 2%N]};
            history_list_ := []; history_map_ := ∅;
            cache_list_ := [1; 2]; cache_map_ := {[1; 2]} |}.
  eexists. split_and!; by vm_compute.
Qed.

(** *** The effect of each call on the other frames *)

Lemma SetEvictable_other (r r' : t) (f x : Z) (b : bool) :
  SetEvictable r f b = Ok r' → x ≠ f → (evictable r' x ↔ evictable r x).
Proof.
  unfold SetEvictable. case_bool_decide as Hrange; [discriminate|].
  case_bool_decide as Hcnt; [by intros [= <-]|].
  intros Hop Hne. apply bind_Ok_inv in Hop as (a & Ha & [= <-]).
  apply vec_at_Ok in Ha as [Hf _]. unfold evictable; proj.
  by rewrite vec_at_vec_set_ne.
Qed.

Lemma SetEvictable_true_sets (r r' : t) (f : Z) :
  SetEvictable r f true = Ok r' → use_count r f ≠ 0%N → evictable r' f.
Proof.
  unfold SetEvictable. case_bool_decide as Hrange; [discriminate|].
  intros Hop Hcnt. rewrite bool_decide_eq_false_2 in Hop by done.
  apply bind_Ok_inv in Hop as (a & Ha & [= <-]). unfold evictable; proj.
  by eapply vec_at_vec_set_eq.
Qed.

Lemma Remove_other (r r' : t) (f x : Z) :
  Remove r f = Ok r' → x ≠ f →
  use_count r' x = use_count r x ∧ (evictable r' x ↔ evictable r x).
Proof.
  unfold Remove. case_bool_decide as Hrange; [discriminate|].
  intros Hop Hne. apply bind_Ok_inv in Hop as (a & Ha & Hop).
  destruct a; simpl in Hop; [|by injection Hop as <-].
  apply vec_at_Ok in Ha as [Hf _].
  repeat case_bool_decide; try discriminate; injection Hop as <-;
    (split; [rewrite use_count_upd; by rewrite decide_False |
             unfold evictable; proj; by rewrite vec_at_vec_set_ne]).
Qed.

Lemma Remove_clears (r r' : t) (f : Z) :
  Remove r f = Ok r' → evictable r f → use_count r' f = 0%N ∧ ¬ evictable r' f.
Proof.
  unfold Remove, evictable. case_bool_decide as Hrange; [discriminate|].
  intros Hop Hev. rewrite Hev in Hop. cbn [bind negb] in Hop.
  repeat case_bool_decide; try discriminate; injection Hop as <-;
    (split; [rewrite use_count_upd; by rewrite decide_True |
             proj; by rewrite (vec_at_vec_set_eq _ _ _ _ Hev)]).
Qed.

Lemma Evict_other (r r' : t) (f x : Z) :
  wf r → Evict r = Ok (r', Some f) → x ≠ f →
  use_count r' x = use_count r x ∧ (evictable r' x ↔ evictable r x).
Proof.
  intros Hwf Hev Hne. destruct (Evict_flags r r' f Hwf Hev) as (Hf & Ha & Hu).
  apply vec_at_Ok in Hf as [Hf _]. split.
  - unfold use_count. rewrite Hu. by rewrite lookup_insert_ne.
  - unfold evictable. rewrite Ha. by rewrite vec_at_vec_set_ne.
Qed.

Lemma Evict_clears (r r' : t) (f : Z) :
  wf r → Evict r = Ok (r', Some f) → use_count r' f = 0%N ∧ ¬ evictable r' f.
Proof.
  intros Hwf Hev. destruct (Evict_flags r r' f Hwf Hev) as (Hf & Ha & Hu). split.
  - unfold use_count. rewrite Hu. by rewrite lookup_insert_eq.
  - unfold evictable. rewrite Ha. by rewrite (vec_at_vec_set_eq _ _ _ _ Hf).
Qed.

(** [Evict] fails exactly when no frame is evictable. *)
Lemma Evict_None_iff (r : t) :
  wf r → (∃ r', Evict r = Ok (r', None)) ↔ ∀ f, ¬ evictable r f.
Proof.
  intros Hwf. split.
  - intros [r' Hev] f. by eapply Evict_None_inv.
  - intros Hnone. destruct (Evict_defined r Hwf) as [[r' [v|]] Hev]; [|by eexists].
    destruct (Evict_flags r r' v Hwf Hev) as (Hv & _). by destruct (Hnone v).
Qed.

(** *** Negative frame ids *)

Lemma union_singleton_non_empty (f : Z) (m : gset Z) : {[f]} ∪ m = ∅ → False.
Proof.
  intros He. assert (Hf : f ∈ {[f]} ∪ m) by (apply elem_of_union; left; by apply elem_of_singleton).
  rewrite He in Hf. by apply elem_of_empty in Hf.
Qed.

Lemma scan_stuck (acc : list bool) (l : list Z) (f : Z) :
  f < 0 → Forall (λ x, vec_at acc x = Ok false) l → scan acc (f :: l) = Undefined.
Proof.
  intros Hf Hl. cbn [scan]. rewrite (scan_all_false _ _ Hl). cbn [bind].
  unfold vec_at. by rewrite bool_decide_eq_false_2 by lia.
Qed.

(** The range check lets negative frame ids through: [RecordAccess] on one
    returns normally and enters it at the front of a list.  From then on
    [SetEvictable] and [Remove] on that id index [is_accessible_] out of
    bounds, and so does [Evict] as soon as no frame is evictable. *)
Theorem negative_frame_id_unchecked (num_frames : Z) (k : N) (r : t) (frame_id : Z) :
  0 ≤ num_frames → reachable num_frames k r → frame_id < 0 →
  ∃ r', RecordAccess r frame_id = Ok r' ∧
    (history_list_ r' = frame_id :: history_list_ r ∨
     cache_list_ r' = frame_id :: cache_list_ r) ∧
    (∀ b, SetEvictable r' frame_id b = Undefined) ∧
    Remove r' frame_id = Undefined ∧
    ((∀ x, ¬ evictable r x) → Evict r' = Undefined).
Proof.
  intros Hn Hreach Hneg.
  pose proof (reachable_wf num_frames k r Hn Hreach) as Hwf.
  destruct (reachable_params num_frames k r Hreach) as [Hsize Hk].
  assert (Hcnt : use_count r frame_id = 0%N).
  { destruct (use_count r frame_id) eqn:Hc; [done|].
    destruct (wf_range r Hwf frame_id); lia. }
  assert (Hnh : frame_id ∉ history_map_ r).
  { rewrite (wf_hmap r Hwf), (wf_hist r Hwf). lia. }
  assert (Hnc : frame_id ∉ cache_map_ r).
  { rewrite (wf_cmap r Hwf), (wf_cache r Hwf). lia. }
  assert (Hh : (∀ x, ¬ evictable r x) →
            Forall (λ x, vec_at (is_accessible_ r) x = Ok false) (history_list_ r)).
  { intros Hnone. apply not_evictable_Forall; [done | by left |]. apply Forall_forall. auto. }
  assert (Hc : (∀ x, ¬ evictable r x) →
            Forall (λ x, vec_at (is_accessible_ r) x = Ok false) (cache_list_ r)).
  { intros Hnone. apply not_evictable_Forall; [done | by right |]. apply Forall_forall. auto. }
  assert (Hstuck : ∀ r', replacer_size_ r' = replacer_size_ r →
            is_accessible_ r' = is_accessible_ r → use_count r' frame_id = 1%N →
            (∀ b, SetEvictable r' frame_id b = Undefined) ∧ Remove r' frame_id = Undefined).
  { intros r' Hs Ha Hu. unfold SetEvictable, Remove.
    rewrite !bool_decide_eq_false_2 by lia. rewrite Ha. unfold vec_at.
    by rewrite bool_decide_eq_false_2 by lia. }
  assert (Hcache : ∀ uc, (∀ x, ¬ evictable r x) →
            Evict (mk (replacer_size_ r) (k_ r) (curr_size_ r) (is_accessible_ r) uc
                     (history_list_ r) (history_map_ r)
                     (frame_id :: cache_list_ r) ({[frame_id]} ∪ cache_map_ r)) = Undefined).
  { intros uc Hnone. unfold Evict. proj.
    rewrite bool_decide_eq_false_2 by (intros [_ He]; by apply union_singleton_non_empty in He).
    rewrite (scan_all_false _ _ (Hh Hnone)). cbn [bind].
    by rewrite (scan_stuck _ _ _ Hneg (Hc Hnone)). }
  unfold RecordAccess. rewrite bool_decide_eq_false_2 by lia. rewrite Hcnt.
  case_bool_decide as Hk1; [|case_bool_decide as Hk0].
  - (* k = 1 *)
    rewrite bool_decide_eq_false_2 by done. eexists. split; [done|]. proj.
    split; [by right|]. split_and!; [| |by apply Hcache]; apply Hstuck; try done;
      unfold use_count; proj; by rewrite lookup_insert_eq.
  - (* k = 0 *)
    rewrite bool_decide_eq_false_2 by done. eexists. split; [done|]. proj.
    split; [by right|]. split_and!; [| |by apply Hcache]; apply Hstuck; try done;
      unfold use_count; proj; by rewrite lookup_insert_eq.
  - (* 1 < k *)
    rewrite bool_decide_eq_false_2 by done. eexists. split; [done|]. proj.
    split; [by left|]. split_and!; [apply Hstuck | apply Hstuck |]; try done;
      try (unfold use_count; proj; by rewrite lookup_insert_eq).
    intros Hnone. unfold Evict. proj.
    rewrite bool_decide_eq_false_2 by (intros [He _]; by apply union_singleton_non_empty in He).
    by rewrite (scan_stuck _ _ _ Hneg (Hh Hnone)).
Qed.

Lemma negative_frame_id_unchecked_witness :
  0 ≤ 7 ∧ reachable 7 2 (new 7 2) ∧ -1 < 0 ∧
  ∃ r', RecordAccess (new 7 2) (-1) = Ok r' ∧ Evict r' = Undefined.
Proof.
  split; [lia|]. split; [apply reach_new|]. split; [lia|].
  destruct (negative_frame_id_unchecked 7 2 (new 7 2) (-1)) as (r' & Hra & _ & _ & _ & Hev);
    [lia | apply reach_new | lia |].
  exists r'. split; [exact Hra|]. apply Hev.
  intros x Hx. unfold evictable, vec_at in Hx. simpl in Hx.
  destruct (bool_decide (0 ≤ x)); [|discriminate].
  destruct (Z.to_nat x) as [|[|[|[|[|[|[|[|n]]]]]]]]; discriminate.
Defined.

(** *** The representation invariant *)

Lemma count_true_le_length (v : list bool) (l : list Z) :
  (∀ i, v !! i = Some true → Z.of_nat i ∈ l) → count_true v ≤ Z.of_nat (length l).
Proof.
  revert l. induction v as [|b v IH]; intros l Hl; simpl; [lia|].
  set (l' := (λ x, x - 1) <$> filter (λ x, x ≠ 0) l).
  assert (Hl' : ∀ i, v !! i = Some true → Z.of_nat i ∈ l').
  { intros i Hi. unfold l'. apply list_elem_of_fmap. exists (Z.of_nat (S i)).
    split; [lia|]. apply list_elem_of_filter. split; [lia|]. by apply Hl. }
  specialize (IH l' Hl'). unfold l' in IH. rewrite length_fmap in IH.
  destruct b.
  - assert (H0 : (0 : Z) ∈ l) by (by apply (Hl 0%nat)).
    pose proof (length_filter_lt (λ x, x ≠ 0) l 0 H0) as Hlt. lia.
  - pose proof (length_filter (λ x, x ≠ 0) l). lia.
Qed.

Lemma length_in_range (l : list Z) (n : Z) :
  0 ≤ n → NoDup l → (∀ x, x ∈ l → 0 ≤ x ≤ n) → Z.of_nat (length l) ≤ n + 1.
Proof.
  intros Hn Hnd Hl.
  assert (Hsub : l ⊆+ seqZ 0 (n + 1)).
  { apply NoDup_submseteq; [done|]. intros x Hx. apply elem_of_seqZ. specialize (Hl x Hx). lia. }
  apply submseteq_length in Hsub. rewrite length_seqZ in Hsub. lia.
Qed.

(** The representation invariant, in every state the replacer reaches: the
    two lists have no entry in common and no entry twice, their entries are
    frame ids between 0 and [num_frames], and the index maps hold the
    entries of their lists.  A tracked frame is in the history list while
    its count is below [k] and in the cache list from then on, an evictable
    frame is tracked, and so [Size] is at most the number of tracked
    frames, which is at most [num_frames + 1]. *)
Theorem replacer_invariant (num_frames : Z) (k : N) (r : t) :
  0 ≤ num_frames < 2 ^ 64 - 1 → reachable num_frames k r →
  NoDup (history_list_ r ++ cache_list_ r) ∧
  (∀ f, f ∈ history_list_ r ++ cache_list_ r ↔ use_count r f ≠ 0%N) ∧
  (∀ f, f ∈ history_list_ r → (use_count r f < k)%N) ∧
  (∀ f, f ∈ cache_list_ r → (k ≤ use_count r f)%N) ∧
  (∀ f, f ∈ history_list_ r ++ cache_list_ r → 0 ≤ f ≤ num_frames) ∧
  (∀ f, f ∈ history_map_ r ↔ f ∈ history_list_ r) ∧
  (∀ f, f ∈ cache_map_ r ↔ f ∈ cache_list_ r) ∧
  (∀ f, evictable r f → f ∈ history_list_ r ++ cache_list_ r) ∧
  0 ≤ Size r ≤ Z.of_nat (length (history_list_ r ++ cache_list_ r)) ∧
  Z.of_nat (length (history_list_ r ++ cache_list_ r)) ≤ num_frames + 1.
Proof.
  intros Hn Hreach.
  assert (Hwf : wf r) by (apply (reachable_wf num_frames k); [lia | done]).
  destruct (reachable_size_ok num_frames k r Hn Hreach) as [Hsize _].
  destruct (reachable_params num_frames k r Hreach) as [Hrs Hk].
  destruct Hwf as [_ _ Hhmap Hcmap Hhnd Hcnd Hhist Hcache Hrange Hacc].
  assert (Htracked : ∀ f, f ∈ history_list_ r ++ cache_list_ r ↔ use_count r f ≠ 0%N).
  { intros f. rewrite elem_of_app, Hhist, Hcache. lia. }
  assert (Hnd : NoDup (history_list_ r ++ cache_list_ r)).
  { apply NoDup_app. split_and!; [done| |done].
    intros f Hf Hf'. apply Hhist in Hf. apply Hcache in Hf'. lia. }
  assert (Hin : ∀ f, f ∈ history_list_ r ++ cache_list_ r → 0 ≤ f ≤ num_frames).
  { intros f Hf. apply Htracked in Hf. rewrite <- Hrs. apply Hrange. lia. }
  assert (Hev : ∀ f, evictable r f → f ∈ history_list_ r ++ cache_list_ r).
  { intros f Hf. apply Htracked. apply Hacc in Hf. lia. }
  split_and!; try done.
  - intros f Hf. apply Hhist in Hf. lia.
  - intros f Hf. apply Hcache in Hf. lia.
  - unfold Size. rewrite Hsize. apply count_true_bounds.
  - unfold Size. rewrite Hsize. apply count_true_le_length. intros i Hi.
    apply Hev. unfold evictable, vec_at. rewrite bool_decide_eq_true_2 by lia.
    by rewrite Nat2Z.id, Hi.
  - apply length_in_range; [lia | done | done].
Qed.

Lemma replacer_invariant_witness :
  0 ≤ 7 < 2 ^ 64 - 1 ∧ reachable 7 2 sample_state ∧
  NoDup (history_list_ sample_state ++ cache_list_ sample_state) ∧
  0 ≤ Size sample_state ≤ 2.
Proof.
  split; [lia|]. split; [exact sample_state_reachable|].
  destruct (replacer_invariant 7 2 sample_state) as (Hnd & _ & _ & _ & _ & _ & _ & _ & Hsz & _);
    [lia | exact sample_state_reachable |].
  split; [exact Hnd | exact Hsz].
Defined.

End ReplacerProofs.

(** * Properties of the buffer pool manager *)

Module BufferPoolProofs.

Import BufferPoolManager.

Lemma pop_back_Some (l rest : list Z) (f : Z) :
  pop_back l = Some (rest, f) → l = rest ++ [f].
Proof.
  revert rest. induction l as [|x l IH]; simpl; intros rest; [discriminate|].
  destruct (pop_back l) as [[front last]|] eqn:Hl.
  - intros [= <- <-]. by rewrite (IH front).
  - intros [= <- <-]. destruct l as [|y l]; [done|]. simpl in Hl.
    by destruct (pop_back l) as [[? ?]|].
Qed.

Lemma pop_back_None (l : list Z) : pop_back l = None → l = [].
Proof. destruct l as [|x l]; simpl; [done|]. by destruct (pop_back l) as [[? ?]|]. Qed.

Lemma inv_new (pool_size : Z) (replacer_k : N) : 0 ≤ pool_size → inv (new pool_size replacer_k).
Proof.
  intros Hp. constructor; simpl.
  - by apply ReplacerProofs.wf_new.
  - done.
  - rewrite length_replicate. lia.
  - intros page_id f. by rewrite lookup_empty.
  - intros f Hf. apply list_elem_of_fmap in Hf as (n & -> & Hn).
    apply elem_of_seq in Hn. lia.
  - intros f. unfold LRUKReplacer.use_count; simpl. rewrite lookup_empty; simpl. lia.
  - intros f pg Hev. exfalso. apply (LRUKReplacer.wf_acc _ (ReplacerProofs.wf_new pool_size replacer_k Hp)) in Hev.
    revert Hev. unfold LRUKReplacer.use_count; simpl. rewrite lookup_empty; simpl. lia.
  - intros i pg Hpg. by apply lookup_replicate in Hpg as [-> _].
Qed.

Lemma inv_frame (b : t) (f : Z) :
  inv b → 0 ≤ f < pool_size_ b → ∃ pg, vec_at (pages_ b) f = Ok pg.
Proof.
  intros Hinv Hf. apply vec_at_in_range; [lia|]. pose proof (inv_len b Hinv). lia.
Qed.

Lemma lookup_vec_set_ne {A : Type} (v : list A) (f x : Z) (a : A) :
  0 ≤ f → 0 ≤ x → x ≠ f → vec_set v f a !! Z.to_nat x = v !! Z.to_nat x.
Proof. intros Hf Hx Hne. unfold vec_set. apply list_lookup_insert_ne. lia. Qed.

Lemma lookup_vec_set {A : Type} (v : list A) (f x : Z) (a b : A) :
  0 ≤ f → 0 ≤ x → vec_set v f a !! Z.to_nat x = Some b →
  (x = f ∧ b = a) ∨ (x ≠ f ∧ v !! Z.to_nat x = Some b).
Proof.
  intros Hf Hx. unfold vec_set. destruct (decide (x = f)) as [->|Hne].
  - intros H. apply list_lookup_insert_Some in H as [(_ & ? & _)|[? _]]; [by left | done].
  - rewrite list_lookup_insert_ne by lia. by right.
Qed.

Lemma pins_nonneg_vec_set (v : list Page) (f : Z) (pg : Page) :
  (∀ i pg', v !! i = Some pg' → 0 ≤ pin_count_ pg') → 0 ≤ pin_count_ pg →
  ∀ i pg', vec_set v f pg !! i = Some pg' → 0 ≤ pin_count_ pg'.
Proof.
  intros Hv Hpg i pg'. unfold vec_set. intros H.
  apply list_lookup_insert_Some in H as [(_ & <- & _)|[_ H]]; [done | by eapply Hv].
Qed.

Lemma evictable_nonneg (r : LRUKReplacer.t) (f : Z) : LRUKReplacer.evictable r f → 0 ≤ f.
Proof. intros H. apply vec_at_Ok in H. tauto. Qed.

Lemma obtain_frame_inv (b b1 : t) (got : option Z) :
  inv b → obtain_frame b = Ok (b1, got) →
  inv b1 ∧ pool_size_ b1 = pool_size_ b ∧ next_page_id_ b1 = next_page_id_ b ∧
  ∀ f, got = Some f → 0 ≤ f < pool_size_ b.
Proof.
  intros Hinv. unfold obtain_frame.
  destruct (pop_back (free_list_ b)) as [[rest f]|] eqn:Hpop.
  - intros [= <- <-]. apply pop_back_Some in Hpop.
    destruct Hinv. split_and!; try done.
    + constructor; projb; try done. intros x Hx. apply inv_free0. rewrite Hpop.
      apply elem_of_app. by left.
    + intros ? [= <-]. apply inv_free0. rewrite Hpop. apply elem_of_app. right. by left.
  - intros Hop. apply bind_Ok_inv in Hop as ([r victim] & Hev & Hop).
    pose proof (inv_wf b Hinv) as Hwf.
    pose proof (ReplacerProofs.wf_Evict _ _ _ Hwf Hev) as Hwf'.
    destruct (ReplacerProofs.Evict_params _ _ _ Hev) as [Hsz _].
    destruct victim as [f|].
    + apply bind_Ok_inv in Hop as (pg & Hpg & [= <- <-]).
      destruct (ReplacerProofs.Evict_flags _ _ _ Hwf Hev) as (Hf & _ & _).
      assert (Hrange : 0 ≤ f < pool_size_ b).
      { split; [by eapply evictable_nonneg|].
        apply (inv_known b Hinv), (LRUKReplacer.wf_acc _ Hwf), Hf. }
      destruct Hinv. split_and!; try done; [|by intros ? [= <-]].
      constructor; projb; try done.
      * congruence.
      * destruct (is_dirty_ pg); [|done]. unfold vec_set. by rewrite length_insert.
      * intros page_id x Hx. apply lookup_delete_Some in Hx as [_ Hx]. by eapply inv_table0.
      * intros x Hx. by eapply inv_known0, ReplacerProofs.Evict_use_count_le.
      * intros x pg' Hx Hpg'.
        apply (ReplacerProofs.Evict_evictable_le _ _ _ _ Hwf Hev) in Hx as [Hx Hne].
        destruct (is_dirty_ pg); [|by eapply inv_pin0].
        apply lookup_vec_set in Hpg' as [[-> _]|[_ Hpg']];
          [done | by eapply inv_pin0 | lia | by eapply evictable_nonneg].
      * destruct (is_dirty_ pg); [|done]. apply pins_nonneg_vec_set; [done|]. projb.
        apply vec_at_Ok in Hpg as [_ Hpg]. by eapply inv_pin_nonneg0.
    + injection Hop as <- <-. apply ReplacerProofs.Evict_None in Hev as ->.
      split_and!; try done. by destruct Hinv.
Qed.

Lemma pin_access_first (r r1 r2 : LRUKReplacer.t) (f : Z) :
  LRUKReplacer.wf r → 0 ≤ f →
  LRUKReplacer.RecordAccess r f = Ok r1 → LRUKReplacer.SetEvictable r1 f false = Ok r2 →
  pinned_rel r r2 f.
Proof.
  intros Hwf Hf H1 H2.
  pose proof (ReplacerProofs.wf_RecordAccess _ _ _ Hwf Hf H1) as Hwf1.
  pose proof (ReplacerProofs.wf_SetEvictable _ _ _ _ Hwf1 H2) as Hwf2.
  destruct (ReplacerProofs.RecordAccess_params _ _ _ H1) as [Hs1 _].
  destruct (ReplacerProofs.SetEvictable_params _ _ _ _ H2) as [Hs2 _].
  split_and!; [done | congruence | |].
  - intros x. rewrite (ReplacerProofs.SetEvictable_use_count _ _ _ x _ H2).
    rewrite (ReplacerProofs.RecordAccess_use_count _ _ _ x H1).
    destruct (decide (x = f)); auto.
  - intros x Hx.
    assert (Hne : x ≠ f).
    { intros ->. by apply (ReplacerProofs.SetEvictable_false_clears _ _ _ Hwf1 H2). }
    split; [done|].
    apply (ReplacerProofs.SetEvictable_evictable _ _ _ _ _ H2) in Hx as [[? _]|[[_ Hx]|[_ Hx]]];
      [done|..]; by apply (ReplacerProofs.RecordAccess_evictable _ _ _ _ H1).
Qed.

Lemma pin_flag_first (r r1 r2 : LRUKReplacer.t) (f : Z) :
  LRUKReplacer.wf r → 0 ≤ f →
  LRUKReplacer.SetEvictable r f false = Ok r1 → LRUKReplacer.RecordAccess r1 f = Ok r2 →
  pinned_rel r r2 f.
Proof.
  intros Hwf Hf H1 H2.
  pose proof (ReplacerProofs.wf_SetEvictable _ _ _ _ Hwf H1) as Hwf1.
  pose proof (ReplacerProofs.wf_RecordAccess _ _ _ Hwf1 Hf H2) as Hwf2.
  destruct (ReplacerProofs.SetEvictable_params _ _ _ _ H1) as [Hs1 _].
  destruct (ReplacerProofs.RecordAccess_params _ _ _ H2) as [Hs2 _].
  split_and!; [done | congruence | |].
  - intros x. rewrite (ReplacerProofs.RecordAccess_use_count _ _ _ x H2).
    rewrite !(ReplacerProofs.SetEvictable_use_count _ _ _ _ _ H1).
    destruct (decide (x = f)); auto.
  - intros x Hx. apply (ReplacerProofs.RecordAccess_evictable _ _ _ _ H2) in Hx.
    assert (Hne : x ≠ f).
    { intros ->. by apply (ReplacerProofs.SetEvictable_false_clears _ _ _ Hwf H1). }
    split; [done|].
    by apply (ReplacerProofs.SetEvictable_evictable _ _ _ _ _ H1) in Hx as [[? _]|[[_ Hx]|[_ Hx]]].
Qed.

Lemma inv_pin_frame (b : t) (f : Z) (r2 : LRUKReplacer.t) (pg : Page)
    (pt : gmap Z Z) (n : Z) (tr : list Event) :
  inv b → 0 ≤ f < pool_size_ b → pinned_rel (replacer_ b) r2 f → 0 ≤ pin_count_ pg →
  (∀ page_id x, pt !! page_id = Some x → 0 ≤ x < pool_size_ b) →
  inv (mk (pool_size_ b) (vec_set (pages_ b) f pg) pt (free_list_ b) r2 n tr).
Proof.
  intros [] Hf (Hwf2 & Hsz & Hknown & Hflags) Hpin Hpt. constructor; projb; try done.
  all: try by apply pins_nonneg_vec_set.
  - congruence.
  - unfold vec_set. by rewrite length_insert.
  - intros x Hx. apply Hknown in Hx as [->|Hx]; [lia | by apply inv_known0].
  - intros x pg' Hx Hpg'. pose proof (evictable_nonneg _ _ Hx) as Hx0.
    apply Hflags in Hx as [Hne Hx].
    rewrite lookup_vec_set_ne in Hpg' by (done || lia). by eapply inv_pin0.
Qed.

Lemma inv_same_pin (b : t) (f : Z) (pg pg' : Page) (r' : LRUKReplacer.t)
    (pt : gmap Z Z) (fl : list Z) (n : Z) (tr : list Event) :
  inv b → vec_at (pages_ b) f = Ok pg → pin_count_ pg' = pin_count_ pg →
  LRUKReplacer.wf r' →
  LRUKReplacer.replacer_size_ r' = LRUKReplacer.replacer_size_ (replacer_ b) →
  (∀ x, (0 < LRUKReplacer.use_count r' x)%N → (0 < LRUKReplacer.use_count (replacer_ b) x)%N) →
  (∀ x, LRUKReplacer.evictable r' x → LRUKReplacer.evictable (replacer_ b) x) →
  (∀ page_id x, pt !! page_id = Some x → 0 ≤ x < pool_size_ b) →
  (∀ x, x ∈ fl → 0 ≤ x < pool_size_ b) →
  inv (mk (pool_size_ b) (vec_set (pages_ b) f pg') pt fl r' n tr).
Proof.
  intros [] Hpg Hpin Hwf' Hsz Hknown Hflags Hpt Hfl.
  apply vec_at_Ok in Hpg as [Hf Hpg]. constructor; projb; try done.
  all: try (apply pins_nonneg_vec_set; [done|]; rewrite Hpin; by eapply inv_pin_nonneg0).
  - congruence.
  - unfold vec_set. by rewrite length_insert.
  - intros x Hx. by apply inv_known0, Hknown.
  - intros x pg2 Hx Hpg2. pose proof (evictable_nonneg _ _ Hx) as Hx0.
    apply Hflags in Hx.
    apply lookup_vec_set in Hpg2 as [[-> ->]|[_ Hpg2]]; [|by eapply inv_pin0|done..].
    rewrite Hpin. by eapply inv_pin0.
Qed.

Lemma inv_NewPage (b b' : t) (res : option (Z * Z)) :
  inv b → NewPage b = Ok (b', res) → inv b'.
Proof.
  intros Hinv. unfold NewPage. intros Hop.
  apply bind_Ok_inv in Hop as ([b1 got] & Hget & Hop).
  apply obtain_frame_inv in Hget as (Hinv1 & Hps & _ & Hgot).
  2:{ destruct Hinv. by constructor. }
  destruct got as [f|]; [|by injection Hop as <- <-].
  apply bind_Ok_inv in Hop as (pg & Hpg & Hop).
  apply bind_Ok_inv in Hop as (r1 & H1 & Hop).
  apply bind_Ok_inv in Hop as (r2 & H2 & [= <- <-]).
  specialize (Hgot f eq_refl). projb.
  apply inv_pin_frame; [done | by rewrite Hps | | done |].
  - eapply pin_access_first; [by apply inv_wf | lia | done..].
  - intros page_id x Hx. apply lookup_insert_Some in Hx as [[_ <-]|[_ Hx]].
    + by rewrite Hps.
    + by eapply inv_table.
Qed.

Lemma inv_FetchPage (b b' : t) (page_id : Z) (res : option Z) :
  inv b → FetchPage b page_id = Ok (b', res) → inv b'.
Proof.
  intros Hinv. unfold FetchPage.
  destruct (page_table_ b !! page_id) as [f|] eqn:Hpt; intros Hop.
  - apply bind_Ok_inv in Hop as (pg & Hpg & Hop).
    apply bind_Ok_inv in Hop as (r1 & H1 & Hop).
    apply bind_Ok_inv in Hop as (r2 & H2 & [= <- <-]).
    pose proof (inv_table b Hinv _ _ Hpt) as Hf.
    apply inv_pin_frame; [done | done | | | by apply inv_table].
    + eapply pin_access_first; [by apply inv_wf | lia | done..].
    + projb. apply vec_at_Ok in Hpg as [_ Hpg].
      pose proof (inv_pin_nonneg b Hinv _ _ Hpg). lia.
  - apply bind_Ok_inv in Hop as ([b1 got] & Hget & Hop).
    apply obtain_frame_inv in Hget as (Hinv1 & Hps & _ & Hgot); [|done].
    destruct got as [f|]; [|by injection Hop as <- <-].
    apply bind_Ok_inv in Hop as (pg & Hpg & Hop).
    apply bind_Ok_inv in Hop as (r1 & H1 & Hop).
    apply bind_Ok_inv in Hop as (r2 & H2 & [= <- <-]).
    specialize (Hgot f eq_refl).
    apply inv_pin_frame; [done | by rewrite Hps | | done |].
    + eapply pin_flag_first; [by apply inv_wf | lia | done..].
    + intros pid x Hx. apply lookup_insert_Some in Hx as [[_ <-]|[_ Hx]].
      * by rewrite Hps.
      * by eapply inv_table.
Qed.

Lemma inv_UnpinPage (b b' : t) (page_id : Z) (is_dirty res : bool) :
  inv b → UnpinPage b page_id is_dirty = Ok (b', res) → inv b'.
Proof.
  intros Hinv. unfold UnpinPage.
  destruct (page_table_ b !! page_id) as [f|] eqn:Hpt; [|by intros [= <- <-]].
  intros Hop. apply bind_Ok_inv in Hop as (pg & Hpg & Hop).
  case_bool_decide as Hzero; [by injection Hop as <- <-|].
  pose proof (inv_wf b Hinv) as Hwf.
  case_bool_decide as Hpos.
  - apply bind_Ok_inv in Hop as (r & Hr & [= <- <-]).
    pose proof Hpg as Hpg'. apply vec_at_Ok in Hpg' as [Hf Hlook].
    case_bool_decide as Hlast.
    + (* the last pin goes: the frame becomes evictable *)
      pose proof (ReplacerProofs.wf_SetEvictable _ _ _ _ Hwf Hr) as Hwf'.
      destruct (ReplacerProofs.SetEvictable_params _ _ _ _ Hr) as [Hsz _].
      destruct Hinv. constructor; projb; try done.
      * congruence.
      * unfold vec_set. by rewrite length_insert.
      * intros x. rewrite (ReplacerProofs.SetEvictable_use_count _ _ _ _ _ Hr). apply inv_known0.
      * intros x pg2 Hx Hpg2. pose proof (evictable_nonneg _ _ Hx) as Hx0.
        apply lookup_vec_set in Hpg2 as [[-> ->]|[Hne Hpg2]]; [done| |done..].
        apply (ReplacerProofs.SetEvictable_evictable _ _ _ _ _ Hr) in Hx
          as [[? _]|[[_ Hx]|[_ Hx]]]; [done|..]; by eapply inv_pin0.
      * apply pins_nonneg_vec_set; [done|]. projb. lia.
    + injection Hr as <-.
      destruct Hinv. constructor; projb; try done.
      * unfold vec_set. by rewrite length_insert.
      * intros x pg2 Hx Hpg2. pose proof (evictable_nonneg _ _ Hx) as Hx0.
        apply lookup_vec_set in Hpg2 as [[-> ->]|[Hne Hpg2]]; [|by eapply inv_pin0|done..].
        by specialize (inv_pin0 _ _ Hx Hlook).
      * apply pins_nonneg_vec_set; [done|]. projb. lia.
  - injection Hop as <- <-. by eapply inv_same_pin; try apply Hinv.
Qed.

Lemma inv_FlushPage (b b' : t) (page_id : Z) (res : bool) :
  inv b → FlushPage b page_id = Ok (b', res) → inv b'.
Proof.
  intros Hinv. unfold FlushPage. case_bool_decide; [by intros [= <- <-]|].
  destruct (page_table_ b !! page_id) as [f|] eqn:Hpt; [|by intros [= <- <-]].
  intros Hop. apply bind_Ok_inv in Hop as (pg & Hpg & [= <- <-]).
  by eapply inv_same_pin; try apply Hinv.
Qed.

Lemma flush_frames_pins (pages pages' : list Page) (trace trace' : list Event) :
  flush_frames pages trace = (pages', trace') →
  length pages' = length pages ∧
  ∀ i pg', pages' !! i = Some pg' →
    ∃ pg, pages !! i = Some pg ∧ pin_count_ pg' = pin_count_ pg ∧
          page_id_ pg' = page_id_ pg ∧ data_ pg' = data_ pg.
Proof.
  revert pages' trace trace'. induction pages as [|pg pages IH]; simpl; intros pages' trace trace'.
  - intros [= <- <-]. split; [done|]. by intros i pg'.
  - destruct (is_dirty_ pg && negb (bool_decide (page_id_ pg = INVALID_PAGE_ID)));
      destruct (flush_frames pages _) as [rest tr] eqn:Hrest; intros [= <- <-];
      destruct (IH _ _ _ Hrest) as [Hlen Hpins]; (split; [simpl; by rewrite Hlen|]);
      intros [|i] pg'; simpl; try (by apply Hpins); intros [= <-]; by eexists.
Qed.

Lemma inv_FlushAllPages (b b' : t) : inv b → FlushAllPages b = Ok b' → inv b'.
Proof.
  intros Hinv. unfold FlushAllPages.
  destruct (flush_frames (pages_ b) (trace_ b)) as [pages trace] eqn:Hflush.
  intros [= <-]. apply flush_frames_pins in Hflush as [Hlen Hpins].
  destruct Hinv. constructor; projb; try done.
  - by rewrite Hlen.
  - intros x pg' Hx Hpg'. apply Hpins in Hpg' as (pg & Hpg & -> & _). by eapply inv_pin0.
  - intros i pg' Hpg'. apply Hpins in Hpg' as (pg & Hpg & -> & _). by eapply inv_pin_nonneg0.
Qed.

Lemma inv_DeletePage (b b' : t) (page_id : Z) (res : bool) :
  inv b → DeletePage b page_id = Ok (b', res) → inv b'.
Proof.
  intros Hinv. unfold DeletePage.
  destruct (page_table_ b !! page_id) as [f|] eqn:Hpt; [|by intros [= <- <-]].
  intros Hop. apply bind_Ok_inv in Hop as (pg & Hpg & Hop).
  case_bool_decide as Hpinned; [by injection Hop as <- <-|].
  apply bind_Ok_inv in Hop as (r & Hr & [= <- <-]).
  pose proof (inv_wf b Hinv) as Hwf.
  eapply inv_same_pin; [done | done | done | ..].
  - by eapply ReplacerProofs.wf_Remove.
  - by apply ReplacerProofs.Remove_params in Hr as [? _].
  - intros x. by apply (ReplacerProofs.Remove_use_count_le _ _ _ _ Hr).
  - intros x. by apply (ReplacerProofs.Remove_evictable_le _ _ _ _ Hr).
  - intros pid x Hx. apply lookup_delete_Some in Hx as [_ Hx]. by eapply inv_table.
  - intros x Hx. apply elem_of_app in Hx as [Hx|Hx]; [by eapply inv_free|].
    apply list_elem_of_singleton in Hx as ->. by eapply inv_table.
Qed.

Lemma inv_client_write (b b' : t) (frame_id : Z) (data : list Byte.byte) :
  inv b → client_write b frame_id data = Ok b' → inv b'.
Proof.
  intros Hinv. unfold client_write. intros Hop.
  apply bind_Ok_inv in Hop as (pg & Hpg & [= <-]).
  by eapply inv_same_pin; try apply Hinv.
Qed.

Lemma reachable_inv (pool_size : Z) (replacer_k : N) (b : t) :
  0 ≤ pool_size → reachable pool_size replacer_k b → inv b.
Proof.
  intros Hp. induction 1.
  - by apply inv_new.
  - by eapply inv_NewPage.
  - by eapply inv_FetchPage.
  - by eapply inv_UnpinPage.
  - by eapply inv_FlushPage.
  - by eapply inv_FlushAllPages.
  - by eapply inv_DeletePage.
  - by eapply inv_client_write.
Qed.

(** *** Pinning *)

Lemma vec_at_vec_set_same {A : Type} (v : list A) (f : Z) (a a' : A) :
  vec_at v f = Ok a → vec_at (vec_set v f a') f = Ok a'.
Proof.
  rewrite !vec_at_Ok. intros [Hf Ha]. split; [done|]. unfold vec_set.
  apply list_lookup_insert_eq. by eapply lookup_lt_Some.
Qed.

Lemma pinned_rel_clear (r r2 : LRUKReplacer.t) (f : Z) :
  pinned_rel r r2 f → ¬ LRUKReplacer.evictable r2 f.
Proof. intros (_ & _ & _ & Hflags) Hev. by apply Hflags in Hev as [? _]. Qed.

Lemma NewPage_pins (b b' : t) (page_id f : Z) :
  inv b → NewPage b = Ok (b', Some (page_id, f)) →
  ∃ pg, vec_at (pages_ b') f = Ok pg ∧ pin_count_ pg = 1 ∧
        ¬ LRUKReplacer.evictable (replacer_ b') f.
Proof.
  intros Hinv. unfold NewPage. intros Hop.
  apply bind_Ok_inv in Hop as ([b1 got] & Hget & Hop).
  apply obtain_frame_inv in Hget as (Hinv1 & Hps & _ & Hgot).
  2:{ destruct Hinv. by constructor. }
  destruct got as [f'|]; [|discriminate].
  apply bind_Ok_inv in Hop as (pg & Hpg & Hop).
  apply bind_Ok_inv in Hop as (r1 & H1 & Hop).
  apply bind_Ok_inv in Hop as (r2 & H2 & [= <- <- ->]).
  specialize (Hgot f eq_refl). projb. eexists. split_and!.
  - by eapply vec_at_vec_set_same.
  - done.
  - eapply pinned_rel_clear, pin_access_first; [by apply inv_wf | lia | done..].
Qed.

Lemma FetchPage_pins (b b' : t) (page_id f : Z) :
  inv b → FetchPage b page_id = Ok (b', Some f) →
  ∃ pg, vec_at (pages_ b') f = Ok pg ∧ pin_count_ pg > 0 ∧
        ¬ LRUKReplacer.evictable (replacer_ b') f.
Proof.
  intros Hinv. unfold FetchPage.
  destruct (page_table_ b !! page_id) as [f'|] eqn:Hpt; intros Hop.
  - apply bind_Ok_inv in Hop as (pg & Hpg & Hop).
    apply bind_Ok_inv in Hop as (r1 & H1 & Hop).
    apply bind_Ok_inv in Hop as (r2 & H2 & [= <- ->]).
    pose proof (inv_table b Hinv _ _ Hpt) as Hf. projb. eexists. split_and!.
    + by eapply vec_at_vec_set_same.
    + projb. apply vec_at_Ok in Hpg as [_ Hpg].
      pose proof (inv_pin_nonneg b Hinv _ _ Hpg). lia.
    + eapply pinned_rel_clear, pin_access_first; [by apply inv_wf | lia | done..].
  - apply bind_Ok_inv in Hop as ([b1 got] & Hget & Hop).
    apply obtain_frame_inv in Hget as (Hinv1 & Hps & _ & Hgot); [|done].
    destruct got as [f'|]; [|discriminate].
    apply bind_Ok_inv in Hop as (pg & Hpg & Hop).
    apply bind_Ok_inv in Hop as (r1 & H1 & Hop).
    apply bind_Ok_inv in Hop as (r2 & H2 & [= <- ->]).
    specialize (Hgot f eq_refl). projb. eexists. split_and!.
    + by eapply vec_at_vec_set_same.
    + projb. lia.
    + eapply pinned_rel_clear, pin_flag_first; [by apply inv_wf | lia | done..].
Qed.

(** C1: in every state the pool reaches, a frame that [Evict] returns has
    pin count 0, and no frame with a positive pin count is evictable; the
    frame that [NewPage] or [FetchPage] hands out is pinned and not
    evictable. *)
Theorem pin_count_safety (pool_size : Z) (replacer_k : N) (b : t) :
  0 ≤ pool_size → reachable pool_size replacer_k b →
  (∀ r' f, LRUKReplacer.Evict (replacer_ b) = Ok (r', Some f) →
     ∃ pg, vec_at (pages_ b) f = Ok pg ∧ pin_count_ pg = 0) ∧
  (∀ f pg, vec_at (pages_ b) f = Ok pg → pin_count_ pg > 0 →
     ¬ LRUKReplacer.evictable (replacer_ b) f) ∧
  (∀ b' page_id f, NewPage b = Ok (b', Some (page_id, f)) →
     ∃ pg, vec_at (pages_ b') f = Ok pg ∧ pin_count_ pg = 1 ∧
           ¬ LRUKReplacer.evictable (replacer_ b') f) ∧
  (∀ page_id b' f, FetchPage b page_id = Ok (b', Some f) →
     ∃ pg, vec_at (pages_ b') f = Ok pg ∧ pin_count_ pg > 0 ∧
           ¬ LRUKReplacer.evictable (replacer_ b') f).
Proof.
  intros Hp Hreach. pose proof (reachable_inv _ _ _ Hp Hreach) as Hinv.
  split_and!.
  - intros r' f Hev.
    destruct (ReplacerProofs.Evict_flags _ _ _ (inv_wf b Hinv) Hev) as (Hf & _ & _).
    destruct (inv_frame b f Hinv) as [pg Hpg].
    { split; [by eapply evictable_nonneg|].
      by apply (inv_known b Hinv), (LRUKReplacer.wf_acc _ (inv_wf b Hinv)). }
    exists pg. split; [done|]. apply vec_at_Ok in Hpg as [_ Hpg]. by eapply inv_pin.
  - intros f pg Hpg Hpos Hev. apply vec_at_Ok in Hpg as [_ Hpg].
    pose proof (inv_pin b Hinv _ _ Hev Hpg). lia.
  - intros b' page_id f. by apply NewPage_pins.
  - intros page_id b' f. by apply FetchPage_pins.
Qed.

Lemma pool1_pinned_reachable : reachable 1 2 pool1_pinned.
Proof.
  apply (reach_NewPage 1 2 (new 1 2) pool1_pinned (Some (0, 0))); [constructor|].
  vm_compute. reflexivity.
Defined.

Lemma pool1_unpinned_reachable : reachable 1 2 pool1_unpinned.
Proof.
  apply (reach_UnpinPage 1 2 pool1_written 0 true pool1_unpinned true);
    [|vm_compute; reflexivity].
  apply (reach_client_write 1 2 pool1_pinned 0 (replicate BUSTUB_PAGE_SIZE Byte.x68));
    [exact pool1_pinned_reachable | vm_compute; reflexivity | vm_compute; reflexivity].
Defined.

Lemma pin_count_safety_witness :
  0 ≤ 1 ∧ reachable 1 2 pool1_unpinned ∧
  ∃ r' pg, LRUKReplacer.Evict (replacer_ pool1_unpinned) = Ok (r', Some 0) ∧
           vec_at (pages_ pool1_unpinned) 0 = Ok pg ∧ pin_count_ pg = 0.
Proof.
  split; [lia|]. split; [exact pool1_unpinned_reachable|].
  destruct (pin_count_safety 1 2 pool1_unpinned) as (Hev & _);
    [lia | exact pool1_unpinned_reachable |].
  destruct (LRUKReplacer.Evict (replacer_ pool1_unpinned)) as [[r' [f|]]| |] eqn:Hop;
    try (vm_compute in Hop; discriminate).
  assert (f = 0) as -> by (vm_compute in Hop; congruence).
  destruct (Hev r' 0 eq_refl) as (pg & Hpg & Hpin). by exists r', pg.
Defined.

(** *** Displacing a victim *)

Lemma pop_back_nil : pop_back [] = None.
Proof. done. Qed.

(** With an empty free list and a victim [f], the shared block writes the
    victim back when it is dirty and then erases its page id. *)
Lemma obtain_frame_victim (b : t) (r' : LRUKReplacer.t) (f : Z) (pg : Page) :
  free_list_ b = [] → LRUKReplacer.Evict (replacer_ b) = Ok (r', Some f) →
  vec_at (pages_ b) f = Ok pg →
  ∃ b1, obtain_frame b = Ok (b1, Some f) ∧
    pool_size_ b1 = pool_size_ b ∧ replacer_ b1 = r' ∧
    next_page_id_ b1 = next_page_id_ b ∧ free_list_ b1 = [] ∧
    page_table_ b1 = delete (page_id_ pg) (page_table_ b) ∧
    trace_ b1 = PageTableErase (page_id_ pg) ::
                (if is_dirty_ pg then [WritePage (page_id_ pg) (data_ pg)] else [])
                ++ trace_ b.
Proof.
  intros Hfree Hev Hpg. unfold obtain_frame. rewrite Hfree, pop_back_nil, Hev. simpl.
  rewrite Hpg. simpl. eexists. split; [done|]. projb.
  split_and!; try done. by destruct (is_dirty_ pg).
Qed.

(** C2: when [NewPage] or [FetchPage] takes a victim from the replacer, a
    dirty victim is written back once, under its old page id and with its
    current contents, before that page id is erased from the page table and
    the frame is assigned to the new page; a clean victim is not written. *)
Theorem dirty_write_back (pool_size : Z) (replacer_k : N) (b : t)
    (r' : LRUKReplacer.t) (f : Z) (pg : Page) :
  0 ≤ pool_size → reachable pool_size replacer_k b →
  free_list_ b = [] → LRUKReplacer.Evict (replacer_ b) = Ok (r', Some f) →
  vec_at (pages_ b) f = Ok pg →
  let written := if is_dirty_ pg then [WritePage (page_id_ pg) (data_ pg)] else [] in
  (∃ b', NewPage b = Ok (b', Some (next_page_id_ b, f)) ∧
     page_table_ b' = <[next_page_id_ b := f]> (delete (page_id_ pg) (page_table_ b)) ∧
     trace_ b' = PageTableAssign (next_page_id_ b) f ::
                 PageTableErase (page_id_ pg) :: written ++ trace_ b) ∧
  (∀ page_id, page_table_ b !! page_id = None →
     ∃ b', FetchPage b page_id = Ok (b', Some f) ∧
       page_table_ b' = <[page_id := f]> (delete (page_id_ pg) (page_table_ b)) ∧
       trace_ b' = ReadPage page_id :: PageTableAssign page_id f ::
                   PageTableErase (page_id_ pg) :: written ++ trace_ b).
Proof.
  intros Hp Hreach Hfree Hev Hpg written.
  pose proof (reachable_inv _ _ _ Hp Hreach) as Hinv.
  pose proof (inv_wf b Hinv) as Hwf.
  pose proof (ReplacerProofs.wf_Evict _ _ _ Hwf Hev) as Hwf'.
  destruct (ReplacerProofs.Evict_params _ _ _ Hev) as [Hsz _].
  assert (Hrange : 0 ≤ f ≤ LRUKReplacer.replacer_size_ r').
  { apply vec_at_Ok in Hpg as [Hf Hpg]. apply lookup_lt_Some in Hpg.
    pose proof (inv_len b Hinv). pose proof (inv_rsize b Hinv). lia. }
  split.
  - set (b0 := mk (pool_size_ b) (pages_ b) (page_table_ b) (free_list_ b)
                  (replacer_ b) (next_page_id_ b + 1) (trace_ b)).
    destruct (obtain_frame_victim b0 r' f pg Hfree Hev Hpg)
      as (b1 & Hget & Hps & Hr & Hn & Hfl & Hpt & Htr).
    assert (Hinv0 : inv b0) by (destruct Hinv; by constructor).
    destruct (obtain_frame_inv _ _ _ Hinv0 Hget) as (Hinv1 & _ & _ & Hgot).
    specialize (Hgot f eq_refl).
    destruct (inv_frame b1 f Hinv1) as [pg1 Hpg1]; [by rewrite Hps|].
    destruct (ReplacerProofs.RecordAccess_defined r' f) as [r1 H1]; [apply Hrange|].
    destruct (ReplacerProofs.SetEvictable_defined r1 f false) as [r2 H2].
    { eapply ReplacerProofs.wf_RecordAccess; [exact Hwf' | apply Hrange | exact H1]. }
    { apply ReplacerProofs.RecordAccess_params in H1 as [-> _]. exact Hrange. }
    unfold NewPage. fold b0. rewrite Hget. simpl. rewrite Hpg1. simpl.
    rewrite Hr, H1. simpl. rewrite H2. simpl.
    eexists. split; [done|]. projb. by rewrite Hpt, Htr.
  - intros page_id Hnone.
    destruct (obtain_frame_victim b r' f pg Hfree Hev Hpg)
      as (b1 & Hget & Hps & Hr & Hn & Hfl & Hpt & Htr).
    destruct (obtain_frame_inv _ _ _ Hinv Hget) as (Hinv1 & _ & _ & Hgot).
    specialize (Hgot f eq_refl).
    destruct (inv_frame b1 f Hinv1) as [pg1 Hpg1]; [by rewrite Hps|].
    destruct (ReplacerProofs.SetEvictable_defined r' f false) as [r1 H1]; [done..|].
    destruct (ReplacerProofs.RecordAccess_defined r1 f) as [r2 H2].
    { apply ReplacerProofs.SetEvictable_params in H1 as [-> _]. apply Hrange. }
    unfold FetchPage. rewrite Hnone, Hget. simpl. rewrite Hpg1. simpl.
    rewrite Hr, H1. simpl. rewrite H2. simpl.
    eexists. split; [done|]. projb. by rewrite Hpt, Htr.
Qed.

Lemma dirty_write_back_witness :
  0 ≤ 1 ∧ reachable 1 2 pool1_unpinned ∧ free_list_ pool1_unpinned = [] ∧
  ∃ b', NewPage pool1_unpinned = Ok (b', Some (1, 0)) ∧
        trace_ b' = [PageTableAssign 1 0; PageTableErase 0;
                     WritePage 0 (replicate BUSTUB_PAGE_SIZE Byte.x68);
                     PageTableAssign 0 0].
Proof.
  split; [lia|]. split; [exact pool1_unpinned_reachable|]. split; [reflexivity|].
  destruct (LRUKReplacer.Evict (replacer_ pool1_unpinned)) as [[r' [f|]]| |] eqn:Hop;
    try (vm_compute in Hop; discriminate).
  assert (f = 0) as -> by (vm_compute in Hop; congruence).
  destruct (dirty_write_back 1 2 pool1_unpinned r' 0
              (mkPage (replicate BUSTUB_PAGE_SIZE Byte.x68) 0 0 true))
    as [(b' & Hnew & _ & Htr) _];
    [lia | exact pool1_unpinned_reachable | reflexivity | exact Hop
     | vm_compute; reflexivity |].
  exists b'. split; [exact Hnew | exact Htr].
Defined.

(** *** Flushing *)

(** C10: [FlushPage] returns [false], changing nothing, for
    [INVALID_PAGE_ID] and for a page that is not in the page table;
    otherwise it writes the frame's contents to disk whether dirty or not,
    clears the frame's dirty flag and returns [true], and the frame's pin
    count, page id and data, the other frames, the page table, the free
    list and the replacer stay as they were. *)
Theorem FlushPage_effect (pool_size : Z) (replacer_k : N) (b : t) (page_id : Z) :
  0 ≤ pool_size → reachable pool_size replacer_k b →
  (page_id = INVALID_PAGE_ID ∨ page_table_ b !! page_id = None →
     FlushPage b page_id = Ok (b, false)) ∧
  (∀ f, page_id ≠ INVALID_PAGE_ID → page_table_ b !! page_id = Some f →
     ∃ pg b',
       vec_at (pages_ b) f = Ok pg ∧
       FlushPage b page_id = Ok (b', true) ∧
       trace_ b' = WritePage (page_id_ pg) (data_ pg) :: trace_ b ∧
       vec_at (pages_ b') f =
         Ok (mkPage (data_ pg) (page_id_ pg) (pin_count_ pg) false) ∧
       (∀ x, x ≠ Z.to_nat f → pages_ b' !! x = pages_ b !! x) ∧
       page_table_ b' = page_table_ b ∧
       free_list_ b' = free_list_ b ∧
       replacer_ b' = replacer_ b ∧
       next_page_id_ b' = next_page_id_ b ∧
       pool_size_ b' = pool_size_ b).
Proof.
  intros Hp Hreach. pose proof (reachable_inv _ _ _ Hp Hreach) as Hinv. split.
  - unfold FlushPage. intros [->|Hnone]; [done|].
    case_bool_decide; [done|]. by rewrite Hnone.
  - intros f Hvalid Hpt.
    destruct (inv_frame b f Hinv) as [pg Hpg]; [by eapply inv_table|].
    unfold FlushPage. rewrite bool_decide_eq_false_2, Hpt, Hpg by done. simpl.
    eexists _, _. split_and!; try done.
    + projb. by eapply vec_at_vec_set_same.
    + intros x Hx. projb. unfold vec_set. by apply list_lookup_insert_ne.
Qed.

Lemma FlushPage_effect_witness :
  0 ≤ 1 ∧ reachable 1 2 pool1_pinned ∧ page_table_ pool1_pinned !! 0 = Some 0 ∧
  ∃ pg b', vec_at (pages_ pool1_pinned) 0 = Ok pg ∧ is_dirty_ pg = false ∧
           FlushPage pool1_pinned 0 = Ok (b', true) ∧
           trace_ b' = WritePage 0 (data_ pg) :: trace_ pool1_pinned.
Proof.
  split; [lia|]. split; [exact pool1_pinned_reachable|]. split; [reflexivity|].
  destruct (FlushPage_effect 1 2 pool1_pinned 0) as [_ Hres];
    [lia | exact pool1_pinned_reachable |].
  destruct (Hres 0) as (pg & b' & Hpg & Hop & Htr & _); [discriminate | reflexivity |].
  assert (pg = mkPage zero_data 0 1 false) as ->.
  { vm_compute in Hpg. injection Hpg as <-. reflexivity. }
  eexists _, b'. split; [reflexivity|]. split; [reflexivity|]. split; [exact Hop|exact Htr].
Defined.

(** *** No call throws or is undefined in a reachable state *)

Lemma obtain_frame_defined (b : t) : inv b → ∃ res, obtain_frame b = Ok res.
Proof.
  intros Hinv. unfold obtain_frame.
  destruct (pop_back (free_list_ b)) as [[rest f]|]; [by eexists|].
  pose proof (inv_wf b Hinv) as Hwf.
  destruct (ReplacerProofs.Evict_defined _ Hwf) as [[r [f|]] Hev]; rewrite Hev; simpl;
    [|by eexists].
  destruct (ReplacerProofs.Evict_flags _ _ _ Hwf Hev) as (Hf & _ & _).
  destruct (inv_frame b f Hinv) as [pg ->]; [|by eexists].
  split; [by eapply evictable_nonneg|].
  by apply (inv_known b Hinv), (LRUKReplacer.wf_acc _ Hwf).
Qed.

Lemma pin_defined (r : LRUKReplacer.t) (f : Z) :
  LRUKReplacer.wf r → 0 ≤ f ≤ LRUKReplacer.replacer_size_ r →
  (∃ r1 r2, LRUKReplacer.RecordAccess r f = Ok r1 ∧
            LRUKReplacer.SetEvictable r1 f false = Ok r2) ∧
  (∃ r1 r2, LRUKReplacer.SetEvictable r f false = Ok r1 ∧
            LRUKReplacer.RecordAccess r1 f = Ok r2).
Proof.
  intros Hwf Hf. split.
  - destruct (ReplacerProofs.RecordAccess_defined r f) as [r1 H1]; [lia|].
    destruct (ReplacerProofs.SetEvictable_defined r1 f false) as [r2 H2].
    + apply (ReplacerProofs.wf_RecordAccess r r1 f); [done | lia | done].
    + apply ReplacerProofs.RecordAccess_params in H1 as [-> _]. lia.
    + by exists r1, r2.
  - destruct (ReplacerProofs.SetEvictable_defined r f false) as [r1 H1]; [done..|].
    destruct (ReplacerProofs.RecordAccess_defined r1 f) as [r2 H2].
    + apply ReplacerProofs.SetEvictable_params in H1 as [-> _]. lia.
    + by exists r1, r2.
Qed.

Lemma NewPage_defined (b : t) : inv b → ∃ res, NewPage b = Ok res.
Proof.
  intros Hinv. unfold NewPage.
  assert (Hinv0 : inv (mk (pool_size_ b) (pages_ b) (page_table_ b) (free_list_ b)
                          (replacer_ b) (next_page_id_ b + 1) (trace_ b))).
  { destruct Hinv. by constructor. }
  destruct (obtain_frame_defined _ Hinv0) as [[b1 got] Hget]. rewrite Hget. simpl.
  destruct (obtain_frame_inv _ _ _ Hinv0 Hget) as (Hinv1 & Hps & _ & Hgot).
  destruct got as [f|]; [|by eexists]. specialize (Hgot f eq_refl). simpl in Hgot, Hps.
  destruct (inv_frame b1 f Hinv1) as [pg ->]; [lia|]. simpl.
  destruct (pin_defined (replacer_ b1) f) as [(r1 & r2 & -> & H2) _].
  { by apply inv_wf. }
  { rewrite (inv_rsize b1 Hinv1). lia. }
  simpl. rewrite H2. simpl. by eexists.
Qed.

Lemma FetchPage_defined (b : t) (page_id : Z) : inv b → ∃ res, FetchPage b page_id = Ok res.
Proof.
  intros Hinv. unfold FetchPage.
  destruct (page_table_ b !! page_id) as [f|] eqn:Hpt.
  - pose proof (inv_table b Hinv _ _ Hpt) as Hf.
    destruct (inv_frame b f Hinv Hf) as [pg ->]. simpl.
    destruct (pin_defined (replacer_ b) f) as [(r1 & r2 & -> & H2) _].
    { by apply inv_wf. }
    { rewrite (inv_rsize b Hinv). lia. }
    simpl. rewrite H2. simpl. by eexists.
  - destruct (obtain_frame_defined _ Hinv) as [[b1 got] Hget]. rewrite Hget. simpl.
    destruct (obtain_frame_inv _ _ _ Hinv Hget) as (Hinv1 & Hps & _ & Hgot).
    destruct got as [f|]; [|by eexists]. specialize (Hgot f eq_refl).
    destruct (inv_frame b1 f Hinv1) as [pg ->]; [lia|]. simpl.
    destruct (pin_defined (replacer_ b1) f) as [_ (r1 & r2 & -> & H2)].
    { by apply inv_wf. }
    { rewrite (inv_rsize b1 Hinv1). lia. }
    simpl. rewrite H2. simpl. by eexists.
Qed.

Lemma UnpinPage_defined (b : t) (page_id : Z) (is_dirty : bool) :
  inv b → ∃ res, UnpinPage b page_id is_dirty = Ok res.
Proof.
  intros Hinv. unfold UnpinPage.
  destruct (page_table_ b !! page_id) as [f|] eqn:Hpt; [|by eexists].
  pose proof (inv_table b Hinv _ _ Hpt) as Hf.
  destruct (inv_frame b f Hinv Hf) as [pg ->]. simpl.
  case_bool_decide; [by eexists|]. case_bool_decide; [|by eexists].
  case_bool_decide; [|simpl; by eexists].
  destruct (ReplacerProofs.SetEvictable_defined (replacer_ b) f true) as [r ->].
  { by apply inv_wf. }
  { rewrite (inv_rsize b Hinv). lia. }
  simpl. by eexists.
Qed.

Lemma FlushPage_defined (b : t) (page_id : Z) : inv b → ∃ res, FlushPage b page_id = Ok res.
Proof.
  intros Hinv. unfold FlushPage. case_bool_decide; [by eexists|].
  destruct (page_table_ b !! page_id) as [f|] eqn:Hpt; [|by eexists].
  pose proof (inv_table b Hinv _ _ Hpt) as Hf.
  destruct (inv_frame b f Hinv Hf) as [pg ->]. simpl. by eexists.
Qed.

Lemma FlushAllPages_defined (b : t) : ∃ b', FlushAllPages b = Ok b'.
Proof. unfold FlushAllPages. destruct (flush_frames _ _). by eexists. Qed.

Lemma DeletePage_defined (b : t) (page_id : Z) : inv b → ∃ res, DeletePage b page_id = Ok res.
Proof.
  intros Hinv. unfold DeletePage.
  destruct (page_table_ b !! page_id) as [f|] eqn:Hpt; [|by eexists].
  pose proof (inv_table b Hinv _ _ Hpt) as Hf.
  destruct (inv_frame b f Hinv Hf) as [pg ->]. simpl.
  case_bool_decide; [by eexists|].
  destruct (ReplacerProofs.Remove_defined (replacer_ b) f) as [r ->].
  { by apply inv_wf. }
  { rewrite (inv_rsize b Hinv). lia. }
  simpl. by eexists.
Qed.

(** Every operation of the pool returns normally from every reachable
    state: no replacer call throws, no frame index is out of bounds. *)
Theorem operations_defined (pool_size : Z) (replacer_k : N) (b : t) :
  0 ≤ pool_size → reachable pool_size replacer_k b →
  (∃ res, NewPage b = Ok res) ∧
  (∀ page_id, ∃ res, FetchPage b page_id = Ok res) ∧
  (∀ page_id is_dirty, ∃ res, UnpinPage b page_id is_dirty = Ok res) ∧
  (∀ page_id, ∃ res, FlushPage b page_id = Ok res) ∧
  (∃ b', FlushAllPages b = Ok b') ∧
  (∀ page_id, ∃ res, DeletePage b page_id = Ok res).
Proof.
  intros Hp Hreach. pose proof (reachable_inv _ _ _ Hp Hreach) as Hinv.
  split_and!.
  - by apply NewPage_defined.
  - intros page_id. by apply FetchPage_defined.
  - intros page_id is_dirty. by apply UnpinPage_defined.
  - intros page_id. by apply FlushPage_defined.
  - apply FlushAllPages_defined.
  - intros page_id. by apply DeletePage_defined.
Qed.

Lemma operations_defined_witness :
  0 ≤ 1 ∧ reachable 1 2 pool1_unpinned ∧ ∃ res, NewPage pool1_unpinned = Ok res.
Proof.
  split; [lia|]. split; [exact pool1_unpinned_reachable|].
  apply (operations_defined 1 2 pool1_unpinned); [lia | exact pool1_unpinned_reachable].
Defined.

(** *** Coherence of the page table, the free list, the frames and the replacer *)

Lemma pin_exact_access_first (r r1 r2 : LRUKReplacer.t) (f : Z) :
  LRUKReplacer.wf r → 0 ≤ f →
  LRUKReplacer.RecordAccess r f = Ok r1 → LRUKReplacer.SetEvictable r1 f false = Ok r2 →
  pin_exact r r2 f.
Proof.
  intros Hwf Hf H1 H2.
  pose proof (ReplacerProofs.wf_RecordAccess _ _ _ Hwf Hf H1) as Hwf1.
  split_and!.
  - intros x Hne. rewrite (ReplacerProofs.SetEvictable_use_count _ _ _ x _ H2).
    rewrite (ReplacerProofs.RecordAccess_use_count _ _ _ x H1). by rewrite decide_False.
  - intros x Hne. rewrite (ReplacerProofs.SetEvictable_other _ _ _ _ _ H2 Hne).
    apply (ReplacerProofs.RecordAccess_evictable _ _ _ _ H1).
  - rewrite (ReplacerProofs.SetEvictable_use_count _ _ _ f _ H2).
    rewrite (ReplacerProofs.RecordAccess_use_count _ _ _ f H1). rewrite decide_True by done. lia.
  - by apply (ReplacerProofs.SetEvictable_false_clears _ _ _ Hwf1 H2).
Qed.

Lemma pin_exact_flag_first (r r1 r2 : LRUKReplacer.t) (f : Z) :
  LRUKReplacer.wf r → 0 ≤ f →
  LRUKReplacer.SetEvictable r f false = Ok r1 → LRUKReplacer.RecordAccess r1 f = Ok r2 →
  pin_exact r r2 f.
Proof.
  intros Hwf Hf H1 H2. split_and!.
  - intros x Hne. rewrite (ReplacerProofs.RecordAccess_use_count _ _ _ x H2).
    rewrite decide_False by done. apply (ReplacerProofs.SetEvictable_use_count _ _ _ x _ H1).
  - intros x Hne. rewrite (ReplacerProofs.RecordAccess_evictable _ _ _ _ H2).
    by apply (ReplacerProofs.SetEvictable_other _ _ _ _ _ H1).
  - rewrite (ReplacerProofs.RecordAccess_use_count _ _ _ f H2). rewrite decide_True by done. lia.
  - rewrite (ReplacerProofs.RecordAccess_evictable _ _ _ _ H2).
    by apply (ReplacerProofs.SetEvictable_false_clears _ _ _ Hwf H1).
Qed.

Lemma coherent_new (pool_size : Z) (replacer_k : N) :
  0 ≤ pool_size → coherent (new pool_size replacer_k).
Proof.
  intros Hp. constructor; simpl.
  - intros page_id f. by rewrite lookup_empty.
  - intros f page_id _. by rewrite lookup_empty.
  - apply NoDup_fmap; [apply Nat2Z.inj'|apply NoDup_seq].
  - intros f pg _ Hpg. by apply lookup_replicate in Hpg as [-> _].
  - intros f _. unfold LRUKReplacer.use_count; simpl. by rewrite lookup_empty.
  - intros page_id f. by rewrite lookup_empty.
  - intros page_id f pg. by rewrite lookup_empty.
Qed.

(** A frame that was just pinned is installed under a page id: the frame
    was in neither the free list nor the page table. *)
Lemma coherent_install (b : t) (f page_id : Z) (pg : Page) (r2 : LRUKReplacer.t)
    (n : Z) (tr : list Event) :
  inv b → coherent b → 0 ≤ f → f ∉ free_list_ b →
  (∀ p, page_table_ b !! p ≠ Some f) →
  pin_exact (replacer_ b) r2 f → page_id_ pg = page_id → pin_count_ pg ≠ 0 →
  (Z.to_nat f < length (pages_ b))%nat →
  coherent (mk (pool_size_ b) (vec_set (pages_ b) f pg) (<[page_id := f]> (page_table_ b))
              (free_list_ b) r2 n tr).
Proof.
  intros Hinv [] Hf Hnfree Hunmapped (Hcnt & Hflag & Hcntf & Hflagf) Hid Hpin Hlen.
  assert (Hother : ∀ p x, page_table_ b !! p = Some x → x ≠ f ∧ 0 ≤ x).
  { intros p x Hx. split; [intros ->; by apply (Hunmapped p)|].
    apply (inv_table b Hinv) in Hx. lia. }
  assert (Hfree : ∀ x, x ∈ free_list_ b → x ≠ f ∧ 0 ≤ x).
  { intros x Hx. split; [by intros ->|]. apply (inv_free b Hinv) in Hx. lia. }
  constructor; projb.
  - intros p x Hx. apply lookup_insert_Some in Hx as [[<- <-]|[Hne Hx]].
    + exists pg. split; [|done]. unfold vec_set. by apply list_lookup_insert_eq.
    + destruct (Hother _ _ Hx) as [Hxf Hx0].
      rewrite lookup_vec_set_ne by done. by eapply co_page0.
  - intros x p Hx Hp. apply lookup_insert_Some in Hp as [[_ <-]|[_ Hp]]; [done|].
    by eapply co_free0.
  - done.
  - intros x pg' Hx. destruct (Hfree _ Hx) as [Hxf Hx0].
    rewrite lookup_vec_set_ne by done. by apply co_free_page0.
  - intros x Hx. destruct (Hfree _ Hx) as [Hxf Hx0]. rewrite Hcnt by done.
    by apply co_free_untracked0.
  - intros p x Hx. apply lookup_insert_Some in Hx as [[_ <-]|[_ Hx]]; [done|].
    destruct (Hother _ _ Hx) as [Hxf Hx0]. rewrite Hcnt by done. by eapply co_tracked0.
  - intros p x pg' Hx. apply lookup_insert_Some in Hx as [[_ <-]|[_ Hx]].
    + unfold vec_set. rewrite list_lookup_insert_eq by done. by intros [= <-].
    + destruct (Hother _ _ Hx) as [Hxf Hx0]. rewrite lookup_vec_set_ne by done.
      intros Hpg' Hzero. apply Hflag; [done|]. by eapply co_unpinned0.
Qed.

(** A frame that the page table maps is rewritten in place, keeping its
    page id. *)
Lemma coherent_update (b : t) (f page_id : Z) (pg pg' : Page) (r' : LRUKReplacer.t)
    (n : Z) (tr : list Event) :
  inv b → coherent b → page_table_ b !! page_id = Some f →
  pages_ b !! Z.to_nat f = Some pg → page_id_ pg' = page_id_ pg →
  (∀ x, x ≠ f → LRUKReplacer.use_count r' x = LRUKReplacer.use_count (replacer_ b) x) →
  (∀ x, x ≠ f → LRUKReplacer.evictable (replacer_ b) x → LRUKReplacer.evictable r' x) →
  LRUKReplacer.use_count r' f ≠ 0%N →
  (pin_count_ pg' = 0 → LRUKReplacer.evictable r' f) →
  coherent (mk (pool_size_ b) (vec_set (pages_ b) f pg') (page_table_ b)
              (free_list_ b) r' n tr).
Proof.
  intros Hinv [] Hpt Hpg Hid Hcnt Hflag Hcntf Hflagf.
  assert (Hf : 0 ≤ f) by (pose proof (inv_table b Hinv _ _ Hpt); lia).
  assert (Hlen : (Z.to_nat f < length (pages_ b))%nat) by (by eapply lookup_lt_Some).
  assert (Hfree : ∀ x, x ∈ free_list_ b → x ≠ f ∧ 0 ≤ x).
  { intros x Hx. split; [intros ->; by apply (co_free0 f page_id)|].
    apply (inv_free b Hinv) in Hx. lia. }
  assert (Hlook : ∀ x pg2, 0 ≤ x → vec_set (pages_ b) f pg' !! Z.to_nat x = Some pg2 →
            (x = f ∧ pg2 = pg') ∨ (x ≠ f ∧ pages_ b !! Z.to_nat x = Some pg2)).
  { intros x pg2 Hx. by apply lookup_vec_set. }
  constructor; projb.
  - intros p x Hx. pose proof (inv_table b Hinv _ _ Hx) as [Hx0 _].
    destruct (decide (x = f)) as [->|Hne].
    + exists pg'. split; [unfold vec_set; by apply list_lookup_insert_eq|].
      rewrite Hid. destruct (co_page0 _ _ Hx) as (pg2 & Hpg2 & <-). congruence.
    + rewrite lookup_vec_set_ne by done. by eapply co_page0.
  - done.
  - done.
  - intros x pg2 Hx. destruct (Hfree _ Hx) as [Hxf Hx0].
    rewrite lookup_vec_set_ne by done. by apply co_free_page0.
  - intros x Hx. destruct (Hfree _ Hx) as [Hxf Hx0]. rewrite Hcnt by done.
    by apply co_free_untracked0.
  - intros p x Hx. destruct (decide (x = f)) as [->|Hne]; [done|].
    rewrite Hcnt by done. by eapply co_tracked0.
  - intros p x pg2 Hx Hpg2 Hzero. pose proof (inv_table b Hinv _ _ Hx) as [Hx0 _].
    apply Hlook in Hpg2 as [[-> ->]|[Hne Hpg2]]; [by apply Hflagf| |done].
    apply Hflag; [done|]. by eapply co_unpinned0.
Qed.

(** Frames change in their data or lose a dirty flag; nothing else moves. *)
Lemma coherent_same_meta (b : t) (pages : list Page) (n : Z) (tr : list Event) :
  coherent b →
  (∀ i pg', pages !! i = Some pg' →
     ∃ pg, pages_ b !! i = Some pg ∧ page_id_ pg' = page_id_ pg ∧
           pin_count_ pg' = pin_count_ pg ∧ (is_dirty_ pg' = true → is_dirty_ pg = true)) →
  length pages = length (pages_ b) →
  coherent (mk (pool_size_ b) pages (page_table_ b) (free_list_ b) (replacer_ b) n tr).
Proof.
  intros [] Hpages Hlen. constructor; projb; try done.
  - intros p x Hx. destruct (co_page0 _ _ Hx) as (pg & Hpg & Hid).
    destruct (lookup_lt_is_Some_2 pages (Z.to_nat x)) as [pg' Hpg'].
    { rewrite Hlen. by eapply lookup_lt_Some. }
    exists pg'. split; [done|]. destruct (Hpages _ _ Hpg') as (pg2 & Hpg2 & Hid2 & _).
    congruence.
  - intros x pg' Hx Hpg'. destruct (Hpages _ _ Hpg') as (pg & Hpg & Hid & Hpin & Hdirty).
    destruct (co_free_page0 _ _ Hx Hpg) as (Hi & Hp & Hd). split_and!; [congruence..|].
    destruct (is_dirty_ pg'); [|done]. rewrite <- Hd. symmetry. by apply Hdirty.
  - intros p x pg' Hx Hpg' Hzero. destruct (Hpages _ _ Hpg') as (pg & Hpg & _ & Hpin & _).
    eapply co_unpinned0; [done..|congruence].
Qed.

Lemma coherent_counter (b : t) (n : Z) :
  coherent b →
  coherent (mk (pool_size_ b) (pages_ b) (page_table_ b) (free_list_ b) (replacer_ b) n
              (trace_ b)).
Proof. intros []. by constructor. Qed.

Lemma inv_counter (b : t) (n : Z) :
  inv b →
  inv (mk (pool_size_ b) (pages_ b) (page_table_ b) (free_list_ b) (replacer_ b) n (trace_ b)).
Proof. intros []. by constructor. Qed.

(** The frame that the shared block hands over is in neither the free list
    nor the page table; without a frame, nothing has changed. *)
Lemma obtain_frame_coherent (b b1 : t) (got : option Z) :
  inv b → coherent b → obtain_frame b = Ok (b1, got) →
  coherent b1 ∧
  match got with
  | Some f => (f ∉ free_list_ b1) ∧ ∀ p, page_table_ b1 !! p ≠ Some f
  | None => b1 = b
  end.
Proof.
  intros Hinv Hco. unfold obtain_frame.
  destruct (pop_back (free_list_ b)) as [[rest f]|] eqn:Hpop.
  - intros [= <- <-]. apply pop_back_Some in Hpop. projb.
    destruct Hco. rewrite Hpop in co_nodup0. apply NoDup_app in co_nodup0 as (Hnd & Hdis & _).
    assert (Hin : ∀ x, x ∈ rest → x ∈ free_list_ b).
    { intros x Hx. rewrite Hpop. apply elem_of_app. by left. }
    assert (Hf : f ∈ free_list_ b).
    { rewrite Hpop. apply elem_of_app. right. by left. }
    split_and!.
    + constructor; projb;
        [done | intros x p Hx; by apply co_free0, Hin | done
        | intros x pg' Hx; by apply co_free_page0, Hin
        | intros x Hx; by apply co_free_untracked0, Hin | done | done].
    + intros Hx. apply (Hdis f Hx). by left.
    + intros p. by apply co_free0.
  - intros Hop. apply bind_Ok_inv in Hop as ([r victim] & Hev & Hop).
    pose proof (inv_wf b Hinv) as Hwf. apply pop_back_None in Hpop.
    destruct victim as [f|].
    + apply bind_Ok_inv in Hop as (pg & Hpg & [= <- <-]). projb.
      pose proof Hpg as Hpg'. apply vec_at_Ok in Hpg' as [Hf Hlook].
      assert (Hpages : ∀ x, 0 ≤ x → x ≠ f →
                (if is_dirty_ pg
                 then vec_set (pages_ b) f (mkPage (data_ pg) (page_id_ pg) (pin_count_ pg) false)
                 else pages_ b) !! Z.to_nat x = pages_ b !! Z.to_nat x).
      { intros x Hx Hne. destruct (is_dirty_ pg); [|done]. by apply lookup_vec_set_ne. }
      assert (Hother : ∀ p x, delete (page_id_ pg) (page_table_ b) !! p = Some x →
                page_table_ b !! p = Some x ∧ x ≠ f ∧ 0 ≤ x).
      { intros p x Hx. apply lookup_delete_Some in Hx as [Hne Hx]. split; [done|].
        split; [|pose proof (inv_table b Hinv _ _ Hx); lia].
        intros ->. destruct (co_page b Hco _ _ Hx) as (pg2 & Hpg2 & Hid). congruence. }
      destruct Hco. split_and!.
      * constructor; projb.
        -- intros p x Hx. destruct (Hother _ _ Hx) as (Hx' & Hne & Hx0).
           rewrite Hpages by done. by eapply co_page0.
        -- rewrite Hpop. intros x p Hx. by apply elem_of_nil in Hx.
        -- done.
        -- rewrite Hpop. intros x pg' Hx. by apply elem_of_nil in Hx.
        -- rewrite Hpop. intros x Hx. by apply elem_of_nil in Hx.
        -- intros p x Hx. destruct (Hother _ _ Hx) as (Hx' & Hne & Hx0).
           destruct (ReplacerProofs.Evict_other _ _ _ x Hwf Hev Hne) as [-> _]. by eapply co_tracked0.
        -- intros p x pg' Hx. destruct (Hother _ _ Hx) as (Hx' & Hne & Hx0).
           rewrite Hpages by done. intros Hpg' Hzero.
           apply (ReplacerProofs.Evict_other _ _ _ x Hwf Hev Hne). by eapply co_unpinned0.
      * rewrite Hpop. apply not_elem_of_nil.
      * intros p Hp. by destruct (Hother _ _ Hp) as (_ & Hne & _).
    + injection Hop as <- <-. apply ReplacerProofs.Evict_None in Hev as ->.
      split; [|by destruct b]. destruct Hco. by constructor.
Qed.

Lemma coherent_NewPage (b b' : t) (res : option (Z * Z)) :
  inv b → coherent b → NewPage b = Ok (b', res) → coherent b'.
Proof.
  intros Hinv Hco. unfold NewPage. intros Hop.
  apply bind_Ok_inv in Hop as ([b1 got] & Hget & Hop).
  pose proof (inv_counter b (next_page_id_ b + 1) Hinv) as Hinv0.
  pose proof (coherent_counter b (next_page_id_ b + 1) Hco) as Hco0.
  destruct (obtain_frame_inv _ _ _ Hinv0 Hget) as (Hinv1 & Hps & _ & Hgot).
  destruct (obtain_frame_coherent _ _ _ Hinv0 Hco0 Hget) as [Hco1 Hlimbo].
  destruct got as [f|]; [|by injection Hop as <- <-].
  apply bind_Ok_inv in Hop as (pg & Hpg & Hop).
  apply bind_Ok_inv in Hop as (r1 & H1 & Hop).
  apply bind_Ok_inv in Hop as (r2 & H2 & [= <- <-]).
  specialize (Hgot f eq_refl). destruct Hlimbo as [Hnfree Hunmapped].
  apply vec_at_Ok in Hpg as [Hf Hpg].
  apply coherent_install; try done.
  - eapply pin_exact_access_first; [by apply inv_wf | done..].
  - by eapply lookup_lt_Some.
Qed.

Lemma pin_exact_le (r r2 : LRUKReplacer.t) (f : Z) :
  pin_exact r r2 f →
  (∀ x, x ≠ f → LRUKReplacer.use_count r2 x = LRUKReplacer.use_count r x) ∧
  (∀ x, x ≠ f → LRUKReplacer.evictable r x → LRUKReplacer.evictable r2 x).
Proof. intros (Hcnt & Hflag & _). split; [done|]. intros x Hne. by apply Hflag. Qed.

Lemma coherent_FetchPage (b b' : t) (page_id : Z) (res : option Z) :
  inv b → coherent b → FetchPage b page_id = Ok (b', res) → coherent b'.
Proof.
  intros Hinv Hco. unfold FetchPage.
  destruct (page_table_ b !! page_id) as [f|] eqn:Hpt; intros Hop.
  - apply bind_Ok_inv in Hop as (pg & Hpg & Hop).
    apply bind_Ok_inv in Hop as (r1 & H1 & Hop).
    apply bind_Ok_inv in Hop as (r2 & H2 & [= <- <-]).
    apply vec_at_Ok in Hpg as [Hf Hpg].
    pose proof (pin_exact_access_first _ _ _ f (inv_wf b Hinv) Hf H1 H2) as Hpin.
    destruct (pin_exact_le _ _ _ Hpin) as [Hcnt Hflag]. destruct Hpin as (_ & _ & Hcntf & _).
    apply (coherent_update b f page_id pg); try done.
    projb. pose proof (inv_pin_nonneg b Hinv _ _ Hpg). lia.
  - apply bind_Ok_inv in Hop as ([b1 got] & Hget & Hop).
    destruct (obtain_frame_inv _ _ _ Hinv Hget) as (Hinv1 & Hps & _ & Hgot).
    destruct (obtain_frame_coherent _ _ _ Hinv Hco Hget) as [Hco1 Hlimbo].
    destruct got as [f|]; [|by injection Hop as <- <-].
    apply bind_Ok_inv in Hop as (pg & Hpg & Hop).
    apply bind_Ok_inv in Hop as (r1 & H1 & Hop).
    apply bind_Ok_inv in Hop as (r2 & H2 & [= <- <-]).
    specialize (Hgot f eq_refl). destruct Hlimbo as [Hnfree Hunmapped].
    apply vec_at_Ok in Hpg as [Hf Hpg].
    apply coherent_install; try done.
    + eapply pin_exact_flag_first; [by apply inv_wf | done..].
    + by eapply lookup_lt_Some.
Qed.

Lemma coherent_UnpinPage (b b' : t) (page_id : Z) (is_dirty res : bool) :
  inv b → coherent b → UnpinPage b page_id is_dirty = Ok (b', res) → coherent b'.
Proof.
  intros Hinv Hco. unfold UnpinPage.
  destruct (page_table_ b !! page_id) as [f|] eqn:Hpt; [|by intros [= <- <-]].
  intros Hop. apply bind_Ok_inv in Hop as (pg & Hpg & Hop).
  case_bool_decide as Hzero; [by injection Hop as <- <-|].
  apply vec_at_Ok in Hpg as [Hf Hpg].
  pose proof (co_tracked b Hco _ _ Hpt) as Htracked.
  case_bool_decide as Hpos.
  - apply bind_Ok_inv in Hop as (r & Hr & [= <- <-]).
    case_bool_decide as Hlast.
    + apply (coherent_update b f page_id pg); try done.
      * intros x _. apply (ReplacerProofs.SetEvictable_use_count _ _ _ _ _ Hr).
      * intros x Hne. by apply (ReplacerProofs.SetEvictable_other _ _ _ _ _ Hr).
      * by rewrite (ReplacerProofs.SetEvictable_use_count _ _ _ _ _ Hr).
      * intros _. by apply (ReplacerProofs.SetEvictable_true_sets _ _ _ Hr).
    + injection Hr as <-. by apply (coherent_update b f page_id pg).
  - injection Hop as <- <-. by apply (coherent_update b f page_id pg).
Qed.

Lemma coherent_FlushPage (b b' : t) (page_id : Z) (res : bool) :
  inv b → coherent b → FlushPage b page_id = Ok (b', res) → coherent b'.
Proof.
  intros Hinv Hco. unfold FlushPage. case_bool_decide; [by intros [= <- <-]|].
  destruct (page_table_ b !! page_id) as [f|] eqn:Hpt; [|by intros [= <- <-]].
  intros Hop. apply bind_Ok_inv in Hop as (pg & Hpg & [= <- <-]).
  apply vec_at_Ok in Hpg as [Hf Hpg].
  apply (coherent_update b f page_id pg); try done.
  - by eapply co_tracked.
  - projb. by eapply co_unpinned.
Qed.

(** [flush_frames] clears dirty flags and touches nothing else. *)
Lemma flush_frames_meta (pages pages' : list Page) (trace trace' : list Event) :
  flush_frames pages trace = (pages', trace') →
  length pages' = length pages ∧
  ∀ i pg', pages' !! i = Some pg' →
    ∃ pg, pages !! i = Some pg ∧ page_id_ pg' = page_id_ pg ∧
          pin_count_ pg' = pin_count_ pg ∧ (is_dirty_ pg' = true → is_dirty_ pg = true).
Proof.
  revert pages' trace trace'. induction pages as [|pg pages IH]; simpl; intros pages' trace trace'.
  - intros [= <- <-]. split; [done|]. by intros i pg'.
  - destruct (is_dirty_ pg && negb (bool_decide (page_id_ pg = INVALID_PAGE_ID))) eqn:Hd;
      destruct (flush_frames pages _) as [rest tr] eqn:Hrest; intros [= <- <-];
      destruct (IH _ _ _ Hrest) as [Hlen Hmeta]; (split; [simpl; by rewrite Hlen|]);
      intros [|i] pg'; simpl; try (by apply Hmeta); intros [= <-]; by eexists.
Qed.

Lemma coherent_FlushAllPages (b b' : t) : coherent b → FlushAllPages b = Ok b' → coherent b'.
Proof.
  intros Hco. unfold FlushAllPages.
  destruct (flush_frames (pages_ b) (trace_ b)) as [pages trace] eqn:Hflush.
  intros [= <-]. apply flush_frames_meta in Hflush as [Hlen Hmeta].
  by apply coherent_same_meta.
Qed.

Lemma coherent_client_write (b b' : t) (frame_id : Z) (data : list Byte.byte) :
  coherent b → client_write b frame_id data = Ok b' → coherent b'.
Proof.
  intros Hco. unfold client_write. intros Hop.
  apply bind_Ok_inv in Hop as (pg & Hpg & [= <-]). apply vec_at_Ok in Hpg as [Hf Hpg].
  apply coherent_same_meta; [done| |unfold vec_set; by rewrite length_insert].
  intros i pg'. unfold vec_set. intros Hi.
  apply list_lookup_insert_Some in Hi as [(<- & <- & _)|[_ Hi]]; by eexists.
Qed.

Lemma coherent_DeletePage (b b' : t) (page_id : Z) (res : bool) :
  inv b → coherent b → DeletePage b page_id = Ok (b', res) → coherent b'.
Proof.
  intros Hinv Hco. unfold DeletePage.
  destruct (page_table_ b !! page_id) as [f|] eqn:Hpt; [|by intros [= <- <-]].
  intros Hop. apply bind_Ok_inv in Hop as (pg & Hpg & Hop).
  case_bool_decide as Hpinned; [by injection Hop as <- <-|].
  apply bind_Ok_inv in Hop as (r & Hr & [= <- <-]).
  apply vec_at_Ok in Hpg as [Hf Hpg].
  assert (Hzero : pin_count_ pg = 0) by (destruct (decide (pin_count_ pg = 0)); done).
  pose proof (co_unpinned b Hco _ _ _ Hpt Hpg Hzero) as Hev.
  destruct (ReplacerProofs.Remove_clears _ _ _ Hr Hev) as [Hcntf Hflagf].
  assert (Hother : ∀ p x, delete page_id (page_table_ b) !! p = Some x →
            page_table_ b !! p = Some x ∧ x ≠ f ∧ 0 ≤ x).
  { intros p x Hx. apply lookup_delete_Some in Hx as [Hne Hx]. split; [done|].
    split; [|pose proof (inv_table b Hinv _ _ Hx); lia].
    intros ->. destruct (co_page b Hco _ _ Hx) as (pg2 & Hpg2 & Hid).
    destruct (co_page b Hco _ _ Hpt) as (pg3 & Hpg3 & Hid3). congruence. }
  assert (Hfree : ∀ x, x ∈ free_list_ b → x ≠ f ∧ 0 ≤ x).
  { intros x Hx. split; [intros ->; by apply (co_free b Hco f page_id)|].
    pose proof (inv_free b Hinv _ Hx). lia. }
  destruct Hco. constructor; projb.
  - intros p x Hx. destruct (Hother _ _ Hx) as (Hx' & Hne & Hx0).
    rewrite lookup_vec_set_ne by done. by eapply co_page0.
  - intros x p Hx Hp. destruct (Hother _ _ Hp) as (Hp' & Hne & _).
    apply elem_of_app in Hx as [Hx|Hx]; [by eapply co_free0|].
    by apply list_elem_of_singleton in Hx.
  - apply NoDup_app. split_and!; [done| |apply NoDup_singleton].
    intros x Hx Hx'. apply list_elem_of_singleton in Hx' as ->. by destruct (Hfree _ Hx).
  - intros x pg' Hx. apply elem_of_app in Hx as [Hx|Hx].
    + destruct (Hfree _ Hx) as [Hne Hx0]. rewrite lookup_vec_set_ne by done.
      by apply co_free_page0.
    + apply list_elem_of_singleton in Hx as ->. unfold vec_set.
      rewrite list_lookup_insert_eq by (by eapply lookup_lt_Some). by intros [= <-].
  - intros x Hx. apply elem_of_app in Hx as [Hx|Hx].
    + destruct (Hfree _ Hx) as [Hne Hx0].
      destruct (ReplacerProofs.Remove_other _ _ _ x Hr Hne) as [-> _]. by apply co_free_untracked0.
    + by apply list_elem_of_singleton in Hx as ->.
  - intros p x Hx. destruct (Hother _ _ Hx) as (Hx' & Hne & Hx0).
    destruct (ReplacerProofs.Remove_other _ _ _ x Hr Hne) as [-> _]. by eapply co_tracked0.
  - intros p x pg' Hx. destruct (Hother _ _ Hx) as (Hx' & Hne & Hx0).
    rewrite lookup_vec_set_ne by done. intros Hpg' Hz.
    apply (ReplacerProofs.Remove_other _ _ _ x Hr Hne). by eapply co_unpinned0.
Qed.

Lemma reachable_coherent (pool_size : Z) (replacer_k : N) (b : t) :
  0 ≤ pool_size → reachable pool_size replacer_k b → coherent b.
Proof.
  intros Hp. induction 1 as [|b b' res Hreach IH Hop|b page_id b' res Hreach IH Hop
    |b page_id is_dirty b' res Hreach IH Hop|b page_id b' res Hreach IH Hop
    |b b' Hreach IH Hop|b page_id b' res Hreach IH Hop|b frame_id data b' Hreach IH Hlen Hop];
    try pose proof (reachable_inv pool_size replacer_k b Hp Hreach) as Hinv.
  - by apply coherent_new.
  - by eapply coherent_NewPage.
  - by eapply coherent_FetchPage.
  - by eapply coherent_UnpinPage.
  - by eapply coherent_FlushPage.
  - by eapply coherent_FlushAllPages.
  - by eapply coherent_DeletePage.
  - by eapply coherent_client_write.
Qed.

Lemma obtain_frame_pool_size (b b1 : t) (got : option Z) :
  obtain_frame b = Ok (b1, got) → pool_size_ b1 = pool_size_ b.
Proof.
  unfold obtain_frame. destruct (pop_back (free_list_ b)) as [[rest f]|].
  - by intros [= <- <-].
  - intros Hop. apply bind_Ok_inv in Hop as ([r [f|]] & _ & Hop).
    + by apply bind_Ok_inv in Hop as (pg & _ & [= <- <-]).
    + by injection Hop as <- <-.
Qed.

Lemma reachable_pool_size (pool_size : Z) (replacer_k : N) (b : t) :
  reachable pool_size replacer_k b → pool_size_ b = pool_size.
Proof.
  induction 1 as [|b b' res Hreach IH Hop|b page_id b' res Hreach IH Hop
    |b page_id is_dirty b' res Hreach IH Hop|b page_id b' res Hreach IH Hop
    |b b' Hreach IH Hop|b page_id b' res Hreach IH Hop|b frame_id data b' Hreach IH Hlen Hop];
    [done|rewrite <- IH; clear IH Hreach..].
  - unfold NewPage in Hop. apply bind_Ok_inv in Hop as ([b1 [f|]] & Hget & Hop);
      apply obtain_frame_pool_size in Hget; [|by injection Hop as <- <-].
    apply bind_Ok_inv in Hop as (pg & _ & Hop). apply bind_Ok_inv in Hop as (r1 & _ & Hop).
    by apply bind_Ok_inv in Hop as (r2 & _ & [= <- <-]).
  - unfold FetchPage in Hop. destruct (page_table_ b !! page_id).
    + apply bind_Ok_inv in Hop as (pg & _ & Hop). apply bind_Ok_inv in Hop as (r1 & _ & Hop).
      by apply bind_Ok_inv in Hop as (r2 & _ & [= <- <-]).
    + apply bind_Ok_inv in Hop as ([b1 [f|]] & Hget & Hop);
        apply obtain_frame_pool_size in Hget; [|by injection Hop as <- <-].
      apply bind_Ok_inv in Hop as (pg & _ & Hop). apply bind_Ok_inv in Hop as (r1 & _ & Hop).
      by apply bind_Ok_inv in Hop as (r2 & _ & [= <- <-]).
  - unfold UnpinPage in Hop. destruct (page_table_ b !! page_id); [|by injection Hop as <- <-].
    apply bind_Ok_inv in Hop as (pg & _ & Hop).
    repeat case_bool_decide; try (by injection Hop as <- <-);
      by apply bind_Ok_inv in Hop as (r & _ & [= <- <-]).
  - unfold FlushPage in Hop. case_bool_decide; [by injection Hop as <- <-|].
    destruct (page_table_ b !! page_id); [|by injection Hop as <- <-].
    by apply bind_Ok_inv in Hop as (pg & _ & [= <- <-]).
  - unfold FlushAllPages in Hop. destruct (flush_frames _ _). by injection Hop as <-.
  - unfold DeletePage in Hop. destruct (page_table_ b !! page_id); [|by injection Hop as <- <-].
    apply bind_Ok_inv in Hop as (pg & _ & Hop).
    case_bool_decide; [by injection Hop as <- <-|].
    by apply bind_Ok_inv in Hop as (r & _ & [= <- <-]).
  - unfold client_write in Hop. by apply bind_Ok_inv in Hop as (pg & _ & [= <-]).
Qed.

(** *** The page table, the free list and the frames *)

(** In every state the pool reaches, a page id in the page table is mapped
    to a frame of the pool that holds that page, so no two page ids share a
    frame; the free list has no frame twice and none that the page table
    maps; a free frame holds no page, is unpinned and clean. *)
Theorem page_table_consistent (pool_size : Z) (replacer_k : N) (b : t) :
  0 ≤ pool_size → reachable pool_size replacer_k b →
  (∀ page_id f, page_table_ b !! page_id = Some f →
     0 ≤ f < pool_size ∧ ∃ pg, vec_at (pages_ b) f = Ok pg ∧ page_id_ pg = page_id) ∧
  (∀ p1 p2 f, page_table_ b !! p1 = Some f → page_table_ b !! p2 = Some f → p1 = p2) ∧
  NoDup (free_list_ b) ∧
  (∀ f, f ∈ free_list_ b →
     0 ≤ f < pool_size ∧ (∀ page_id, page_table_ b !! page_id ≠ Some f) ∧
     ∃ pg, vec_at (pages_ b) f = Ok pg ∧
       page_id_ pg = INVALID_PAGE_ID ∧ pin_count_ pg = 0 ∧ is_dirty_ pg = false).
Proof.
  intros Hp Hreach.
  pose proof (reachable_inv pool_size replacer_k b Hp Hreach) as Hinv.
  pose proof (reachable_coherent pool_size replacer_k b Hp Hreach) as Hco.
  pose proof (reachable_pool_size pool_size replacer_k b Hreach) as Hps.
  split_and!.
  - intros page_id f Hpt. pose proof (inv_table b Hinv _ _ Hpt) as Hf.
    split; [lia|]. destruct (co_page b Hco _ _ Hpt) as (pg & Hpg & Hid).
    exists pg. split; [|done]. apply vec_at_Ok. split; [lia | done].
  - intros p1 p2 f H1 H2.
    destruct (co_page b Hco _ _ H1) as (pg1 & Hpg1 & <-).
    destruct (co_page b Hco _ _ H2) as (pg2 & Hpg2 & <-). congruence.
  - apply (co_nodup b Hco).
  - intros f Hf. pose proof (inv_free b Hinv _ Hf) as Hrange.
    split; [lia|]. split; [intros page_id; by apply (co_free b Hco)|].
    destruct (inv_frame b f Hinv Hrange) as [pg Hpg]. exists pg. split; [done|].
    apply vec_at_Ok in Hpg as [_ Hpg]. by apply (co_free_page b Hco f).
Qed.

Lemma page_table_consistent_witness :
  0 ≤ 1 ∧ reachable 1 2 pool1_unpinned ∧
  ∃ pg, vec_at (pages_ pool1_unpinned) 0 = Ok pg ∧ page_id_ pg = 0.
Proof.
  split; [lia|]. split; [exact pool1_unpinned_reachable|].
  destruct (page_table_consistent 1 2 pool1_unpinned) as (Hpt & _);
    [lia | exact pool1_unpinned_reachable |].
  destruct (Hpt 0 0) as (_ & pg & Hpg & Hid); [vm_compute; reflexivity|].
  exists pg. split; [exact Hpg | exact Hid].
Defined.

(** The replacer follows the pins: a frame that the page table maps is
    known to the replacer and is evictable exactly when its pin count is 0;
    a free frame is unknown to the replacer. *)
Theorem replacer_follows_pins (pool_size : Z) (replacer_k : N) (b : t) :
  0 ≤ pool_size → reachable pool_size replacer_k b →
  (∀ page_id f pg, page_table_ b !! page_id = Some f → vec_at (pages_ b) f = Ok pg →
     LRUKReplacer.use_count (replacer_ b) f ≠ 0%N ∧
     (LRUKReplacer.evictable (replacer_ b) f ↔ pin_count_ pg = 0)) ∧
  (∀ f, f ∈ free_list_ b →
     LRUKReplacer.use_count (replacer_ b) f = 0%N ∧
     ¬ LRUKReplacer.evictable (replacer_ b) f).
Proof.
  intros Hp Hreach.
  pose proof (reachable_inv pool_size replacer_k b Hp Hreach) as Hinv.
  pose proof (reachable_coherent pool_size replacer_k b Hp Hreach) as Hco.
  split.
  - intros page_id f pg Hpt Hpg. apply vec_at_Ok in Hpg as [Hf Hpg].
    split; [by eapply co_tracked|]. split.
    + intros Hev. by eapply inv_pin.
    + by eapply co_unpinned.
  - intros f Hf. pose proof (co_free_untracked b Hco f Hf) as Hcnt. split; [done|].
    intros Hev. apply (LRUKReplacer.wf_acc _ (inv_wf b Hinv)) in Hev. lia.
Qed.

Lemma replacer_follows_pins_witness :
  0 ≤ 1 ∧ reachable 1 2 pool1_unpinned ∧
  LRUKReplacer.evictable (replacer_ pool1_unpinned) 0.
Proof.
  split; [lia|]. split; [exact pool1_unpinned_reachable|].
  destruct (replacer_follows_pins 1 2 pool1_unpinned) as (Hres & _);
    [lia | exact pool1_unpinned_reachable |].
  destruct (vec_at (pages_ pool1_unpinned) 0) as [pg| |] eqn:Hpg;
    try (vm_compute in Hpg; discriminate).
  destruct (Hres 0 0 pg) as (_ & Hiff); [vm_compute; reflexivity | exact Hpg |].
  apply Hiff. vm_compute in Hpg. injection Hpg as <-. reflexivity.
Defined.

(** *** Running out of frames *)

Lemma obtain_frame_exhausted (b : t) :
  inv b → free_list_ b = [] → (∀ f, ¬ LRUKReplacer.evictable (replacer_ b) f) →
  obtain_frame b = Ok (b, None).
Proof.
  intros Hinv Hfree Hnone. unfold obtain_frame. rewrite Hfree. cbn [pop_back].
  destruct (proj2 (ReplacerProofs.Evict_None_iff _ (inv_wf b Hinv)) Hnone) as [r' Hev].
  rewrite Hev. cbn [bind]. apply ReplacerProofs.Evict_None in Hev as ->.
  rewrite <- Hfree. by destruct b.
Qed.

Lemma obtain_frame_available (b : t) :
  inv b → free_list_ b ≠ [] ∨ (∃ f, LRUKReplacer.evictable (replacer_ b) f) →
  ∃ b1 f, obtain_frame b = Ok (b1, Some f).
Proof.
  intros Hinv Havail. destruct (obtain_frame_defined b Hinv) as [[b1 [f|]] Hop]; [by eauto|].
  exfalso. unfold obtain_frame in Hop.
  destruct (pop_back (free_list_ b)) as [[rest f]|] eqn:Hpop; [discriminate|].
  apply pop_back_None in Hpop. destruct Havail as [Hne|[f Hf]]; [done|].
  apply bind_Ok_inv in Hop as ([r [v|]] & Hev & Hop).
  - by apply bind_Ok_inv in Hop as (pg & _ & [=]).
  - by apply (ReplacerProofs.Evict_None_inv _ _ f (inv_wf b Hinv) Hev).
Qed.

(** [NewPage] and [FetchPage] of a page that is not resident return
    [nullptr] exactly when the free list is empty and no frame is
    evictable; the pool is then left as it was, except that [NewPage] has
    used up a page id.  With a free frame or an evictable one they hand out
    a frame, [FetchPage] of a resident page always does, and a resident
    page with pin count 0 means that a frame is available. *)
Theorem frame_exhaustion (pool_size : Z) (replacer_k : N) (b : t) :
  0 ≤ pool_size → reachable pool_size replacer_k b →
  let exhausted :=
    free_list_ b = [] ∧ ∀ f, ¬ LRUKReplacer.evictable (replacer_ b) f in
  let available :=
    free_list_ b ≠ [] ∨ ∃ f, LRUKReplacer.evictable (replacer_ b) f in
  (exhausted →
     NewPage b = Ok (mk (pool_size_ b) (pages_ b) (page_table_ b) (free_list_ b)
                        (replacer_ b) (next_page_id_ b + 1) (trace_ b), None) ∧
     ∀ page_id, page_table_ b !! page_id = None → FetchPage b page_id = Ok (b, None)) ∧
  (available →
     (∃ b' f, NewPage b = Ok (b', Some (next_page_id_ b, f))) ∧
     ∀ page_id, ∃ b' f, FetchPage b page_id = Ok (b', Some f)) ∧
  (∀ page_id f, page_table_ b !! page_id = Some f →
     ∃ b', FetchPage b page_id = Ok (b', Some f)) ∧
  (∀ page_id f pg, page_table_ b !! page_id = Some f → vec_at (pages_ b) f = Ok pg →
     pin_count_ pg = 0 → available).
Proof.
  intros Hp Hreach exhausted available.
  pose proof (reachable_inv pool_size replacer_k b Hp Hreach) as Hinv.
  pose proof (reachable_coherent pool_size replacer_k b Hp Hreach) as Hco.
  assert (Hresident : ∀ page_id f, page_table_ b !! page_id = Some f →
            ∃ b', FetchPage b page_id = Ok (b', Some f)).
  { intros page_id f Hpt. destruct (FetchPage_defined b page_id Hinv) as [[b' res] Hop].
    exists b'. rewrite Hop. unfold FetchPage in Hop. rewrite Hpt in Hop.
    apply bind_Ok_inv in Hop as (pg & _ & Hop). apply bind_Ok_inv in Hop as (r1 & _ & Hop).
    by apply bind_Ok_inv in Hop as (r2 & _ & [= <- <-]). }
  split_and!.
  - intros [Hfree Hnone]. split.
    + unfold NewPage. rewrite obtain_frame_exhausted; [done | by apply inv_counter | done..].
    + intros page_id Hpt. unfold FetchPage. rewrite Hpt.
      by rewrite obtain_frame_exhausted.
  - intros Havail. split.
    + destruct (NewPage_defined b Hinv) as [[b' res] Hop].
      destruct (obtain_frame_available _ (inv_counter b (next_page_id_ b + 1) Hinv) Havail)
        as (b1 & f & Hget).
      exists b', f. rewrite Hop. unfold NewPage in Hop. rewrite Hget in Hop. cbn [bind] in Hop.
      apply bind_Ok_inv in Hop as (pg & _ & Hop). apply bind_Ok_inv in Hop as (r1 & _ & Hop).
      by apply bind_Ok_inv in Hop as (r2 & _ & [= <- <-]).
    + intros page_id. destruct (page_table_ b !! page_id) as [f|] eqn:Hpt.
      { destruct (Hresident _ _ Hpt) as [b' Hop]. by exists b', f. }
      destruct (FetchPage_defined b page_id Hinv) as [[b' res] Hop].
      destruct (obtain_frame_available _ Hinv Havail) as (b1 & f & Hget).
      exists b', f. rewrite Hop. unfold FetchPage in Hop. rewrite Hpt, Hget in Hop.
      cbn [bind] in Hop.
      apply bind_Ok_inv in Hop as (pg & _ & Hop). apply bind_Ok_inv in Hop as (r1 & _ & Hop).
      by apply bind_Ok_inv in Hop as (r2 & _ & [= <- <-]).
  - done.
  - intros page_id f pg Hpt Hpg Hzero. right. exists f.
    apply vec_at_Ok in Hpg as [_ Hpg]. by eapply co_unpinned.
Qed.

Lemma frame_exhaustion_witness :
  0 ≤ 1 ∧ reachable 1 2 pool1_pinned ∧
  ∃ b', NewPage pool1_pinned = Ok (b', None) ∧ next_page_id_ b' = 2.
Proof.
  split; [lia|]. split; [exact pool1_pinned_reachable|].
  destruct (frame_exhaustion 1 2 pool1_pinned) as ((Hnew & _) & _);
    [lia | exact pool1_pinned_reachable | |].
  - split; [vm_compute; reflexivity|]. intros f Hf.
    unfold LRUKReplacer.evictable, vec_at in Hf.
    destruct (bool_decide (0 ≤ f)); [|discriminate].
    destruct (Z.to_nat f) as [|[|n]]; vm_compute in Hf; discriminate.
  - eexists. split; [exact Hnew|]. vm_compute. reflexivity.
Defined.

(** *** Dirty frames are written before they are given up *)

(** What a step leaves of a dirty frame: either the frame as it was, or a
    write of its contents among the events of the step. *)
Lemma obtain_frame_dirty (b b1 : t) (got : option Z) (f : Z) (pg : Page) :
  inv b → coherent b → obtain_frame b = Ok (b1, got) →
  vec_at (pages_ b) f = Ok pg → is_dirty_ pg = true →
  ∃ recent, trace_ b1 = recent ++ trace_ b ∧
    ((got ≠ Some f ∧ vec_at (pages_ b1) f = Ok pg) ∨
     (got = Some f ∧ WritePage (page_id_ pg) (data_ pg) ∈ recent)).
Proof.
  intros Hinv Hco Hop Hpg Hdirty. unfold obtain_frame in Hop.
  destruct (pop_back (free_list_ b)) as [[rest f0]|] eqn:Hpop.
  - injection Hop as <- <-. apply pop_back_Some in Hpop. exists []. split; [done|]. left.
    split; [|done]. intros [= ->].
    assert (Hf : f ∈ free_list_ b) by (rewrite Hpop; apply elem_of_app; right; by left).
    apply vec_at_Ok in Hpg as [_ Hpg].
    destruct (co_free_page b Hco f pg Hf Hpg) as (_ & _ & Hclean). congruence.
  - apply bind_Ok_inv in Hop as ([r [f0|]] & Hev & Hop).
    + apply bind_Ok_inv in Hop as (pg0 & Hpg0 & [= <- <-]). projb.
      destruct (decide (f0 = f)) as [->|Hne].
      * rewrite Hpg in Hpg0. injection Hpg0 as <-. rewrite Hdirty.
        exists [PageTableErase (page_id_ pg); WritePage (page_id_ pg) (data_ pg)].
        split; [done|]. right. split; [done|]. apply elem_of_cons. right. by left.
      * exists (PageTableErase (page_id_ pg0) ::
                if is_dirty_ pg0 then [WritePage (page_id_ pg0) (data_ pg0)] else []).
        split; [by destruct (is_dirty_ pg0)|]. left. split; [congruence|].
        destruct (is_dirty_ pg0); [|done]. apply vec_at_Ok in Hpg0 as [Hf0 _].
        by rewrite vec_at_vec_set_ne.
    + injection Hop as <- <-. exists []. split; [done|]. by left.
Qed.

Lemma flush_frames_dirty (pages pages' : list Page) (trace trace' : list Event) :
  flush_frames pages trace = (pages', trace') →
  ∃ recent, trace' = recent ++ trace ∧
    ∀ i pg, pages !! i = Some pg → is_dirty_ pg = true →
      pages' !! i = Some pg ∨
      (pages' !! i = Some (mkPage (data_ pg) (page_id_ pg) (pin_count_ pg) false) ∧
       WritePage (page_id_ pg) (data_ pg) ∈ recent).
Proof.
  revert pages' trace trace'. induction pages as [|pg0 pages IH]; simpl; intros pages' trace trace'.
  - intros [= <- <-]. exists []. split; [done|]. by intros i pg.
  - destruct (is_dirty_ pg0 && negb (bool_decide (page_id_ pg0 = INVALID_PAGE_ID))) eqn:Hd;
      destruct (flush_frames pages _) as [rest tr] eqn:Hrest; intros [= <- <-];
      destruct (IH _ _ _ Hrest) as (recent & -> & Hpages).
    + exists (recent ++ [WritePage (page_id_ pg0) (data_ pg0)]).
      split; [by rewrite <- app_assoc|]. intros [|i] pg; simpl.
      * intros [= <-] _. right. split; [done|]. apply elem_of_app. right. by left.
      * intros Hi Hdirty. destruct (Hpages i pg Hi Hdirty) as [?|[? Hw]]; [by left|].
        right. split; [done|]. apply elem_of_app. by left.
    + exists recent. split; [done|]. intros [|i] pg; simpl.
      * intros [= <-] _. by left.
      * apply Hpages.
Qed.

(** No call gives up the contents of a dirty frame: after the call the
    frame is still dirty under the same page id, with the same data unless
    the call is a client's write into that frame, or the call has written
    the frame's page id and data to disk. *)
Theorem dirty_never_dropped (pool_size : Z) (replacer_k : N) (b b' : t) (c : call)
    (f : Z) (pg : Page) :
  0 ≤ pool_size → reachable pool_size replacer_k b → step b c = Ok b' →
  vec_at (pages_ b) f = Ok pg → is_dirty_ pg = true →
  (∃ pg', vec_at (pages_ b') f = Ok pg' ∧ is_dirty_ pg' = true ∧
          page_id_ pg' = page_id_ pg ∧
          (data_ pg' = data_ pg ∨ c = CallClientWrite f (data_ pg'))) ∨
  (∃ recent, trace_ b' = recent ++ trace_ b ∧
             WritePage (page_id_ pg) (data_ pg) ∈ recent).
Proof.
  intros Hp Hreach Hstep Hpg Hdirty.
  pose proof (reachable_inv pool_size replacer_k b Hp Hreach) as Hinv.
  pose proof (reachable_coherent pool_size replacer_k b Hp Hreach) as Hco.
  assert (Hkeep : ∀ pages, vec_at pages f = Ok pg →
            ∃ pg', vec_at pages f = Ok pg' ∧ is_dirty_ pg' = true ∧
                   page_id_ pg' = page_id_ pg ∧
                   (data_ pg' = data_ pg ∨ c = CallClientWrite f (data_ pg'))).
  { intros pages Hpages. exists pg. split_and!; auto. }
  assert (Hset : ∀ pages f0 pg0 pg0', vec_at pages f = Ok pg → vec_at pages f0 = Ok pg0 →
            (f0 = f → is_dirty_ pg0' = true ∧ page_id_ pg0' = page_id_ pg ∧
                      (data_ pg0' = data_ pg ∨ c = CallClientWrite f (data_ pg0'))) →
            ∃ pg', vec_at (vec_set pages f0 pg0') f = Ok pg' ∧ is_dirty_ pg' = true ∧
                   page_id_ pg' = page_id_ pg ∧
                   (data_ pg' = data_ pg ∨ c = CallClientWrite f (data_ pg'))).
  { intros pages f0 pg0 pg0' Hpages Hpg0 Hsame. destruct (decide (f0 = f)) as [->|Hne].
    - exists pg0'. split; [by eapply vec_at_vec_set_same|]. by apply Hsame.
    - exists pg. apply vec_at_Ok in Hpg0 as [Hf0 _].
      rewrite vec_at_vec_set_ne by done. split_and!; auto. }
  destruct c as [|page_id|page_id is_dirty|page_id| |page_id|frame_id data]; cbn [step] in Hstep.
  - (* NewPage *)
    apply bind_Ok_inv in Hstep as ([b2 res] & Hop & [= <-]). unfold NewPage in Hop.
    apply bind_Ok_inv in Hop as ([b1 got] & Hget & Hop).
    destruct (obtain_frame_dirty _ _ _ f pg (inv_counter b (next_page_id_ b + 1) Hinv)
                (coherent_counter b (next_page_id_ b + 1) Hco) Hget Hpg Hdirty)
      as (recent & Htr & Hcase). projb.
    destruct got as [f0|].
    + apply bind_Ok_inv in Hop as (pg0 & Hpg0 & Hop).
      apply bind_Ok_inv in Hop as (r1 & _ & Hop).
      apply bind_Ok_inv in Hop as (r2 & _ & [= <- <-]). projb.
      destruct Hcase as [[Hne Hsame]|[_ Hw]].
      * left. apply (Hset _ f0 pg0); [done..|]. intros ->. done.
      * right. exists (PageTableAssign (next_page_id_ b) f0 :: recent).
        split; [by rewrite Htr|]. by apply elem_of_cons; right.
    + injection Hop as <- <-. destruct Hcase as [[_ Hsame]|[[=] _]]. left. by apply Hkeep.
  - (* FetchPage *)
    apply bind_Ok_inv in Hstep as ([b2 res] & Hop & [= <-]). unfold FetchPage in Hop.
    destruct (page_table_ b !! page_id) as [f0|] eqn:Hpt.
    + apply bind_Ok_inv in Hop as (pg0 & Hpg0 & Hop).
      apply bind_Ok_inv in Hop as (r1 & _ & Hop).
      apply bind_Ok_inv in Hop as (r2 & _ & [= <- <-]). projb.
      left. apply (Hset _ f0 pg0); [done..|]. intros ->. projb.
      rewrite Hpg in Hpg0. injection Hpg0 as <-. auto.
    + apply bind_Ok_inv in Hop as ([b1 got] & Hget & Hop).
      destruct (obtain_frame_dirty _ _ _ f pg Hinv Hco Hget Hpg Hdirty)
        as (recent & Htr & Hcase).
      destruct got as [f0|].
      * apply bind_Ok_inv in Hop as (pg0 & Hpg0 & Hop).
        apply bind_Ok_inv in Hop as (r1 & _ & Hop).
        apply bind_Ok_inv in Hop as (r2 & _ & [= <- <-]). projb.
        destruct Hcase as [[Hne Hsame]|[_ Hw]].
        -- left. apply (Hset _ f0 pg0); [done..|]. intros ->. done.
        -- right. exists (ReadPage page_id :: PageTableAssign page_id f0 :: recent).
           split; [by rewrite Htr|]. apply elem_of_cons; right. by apply elem_of_cons; right.
      * injection Hop as <- <-. destruct Hcase as [[_ Hsame]|[[=] _]]. left. by apply Hkeep.
  - (* UnpinPage *)
    apply bind_Ok_inv in Hstep as ([b2 res] & Hop & [= <-]). unfold UnpinPage in Hop.
    destruct (page_table_ b !! page_id) as [f0|] eqn:Hpt;
      [|injection Hop as <- <-; left; by apply Hkeep].
    apply bind_Ok_inv in Hop as (pg0 & Hpg0 & Hop).
    case_bool_decide as Hzero; [injection Hop as <- <-; left; by apply Hkeep|].
    assert (Hsame : f0 = f → is_dirty_ pg0 || is_dirty = true ∧ page_id_ pg0 = page_id_ pg ∧
              (data_ pg0 = data_ pg ∨ CallUnpinPage page_id is_dirty = CallClientWrite f (data_ pg0))).
    { intros ->. rewrite Hpg in Hpg0. injection Hpg0 as <-. rewrite Hdirty. auto. }
    case_bool_decide as Hpos.
    + apply bind_Ok_inv in Hop as (r & _ & [= <- <-]). projb.
      left. by apply (Hset _ f0 pg0).
    + injection Hop as <- <-. projb. left. by apply (Hset _ f0 pg0).
  - (* FlushPage *)
    apply bind_Ok_inv in Hstep as ([b2 res] & Hop & [= <-]). unfold FlushPage in Hop.
    case_bool_decide as Hinvalid; [injection Hop as <- <-; left; by apply Hkeep|].
    destruct (page_table_ b !! page_id) as [f0|] eqn:Hpt;
      [|injection Hop as <- <-; left; by apply Hkeep].
    apply bind_Ok_inv in Hop as (pg0 & Hpg0 & [= <- <-]). projb.
    destruct (decide (f0 = f)) as [->|Hne].
    + right. rewrite Hpg in Hpg0. injection Hpg0 as <-.
      exists [WritePage (page_id_ pg) (data_ pg)]. split; [done|]. by left.
    + left. apply (Hset _ f0 pg0); [done..|]. by intros ->.
  - (* FlushAllPages *)
    unfold FlushAllPages in Hstep.
    destruct (flush_frames (pages_ b) (trace_ b)) as [pages trace] eqn:Hflush.
    injection Hstep as <-. projb.
    destruct (flush_frames_dirty _ _ _ _ Hflush) as (recent & -> & Hpages).
    apply vec_at_Ok in Hpg as [Hf Hpg].
    destruct (Hpages _ _ Hpg Hdirty) as [Hsame|[_ Hw]].
    + left. apply Hkeep. apply vec_at_Ok. by split.
    + right. by exists recent.
  - (* DeletePage *)
    apply bind_Ok_inv in Hstep as ([b2 res] & Hop & [= <-]). unfold DeletePage in Hop.
    destruct (page_table_ b !! page_id) as [f0|] eqn:Hpt;
      [|injection Hop as <- <-; left; by apply Hkeep].
    apply bind_Ok_inv in Hop as (pg0 & Hpg0 & Hop).
    case_bool_decide as Hpinned; [injection Hop as <- <-; left; by apply Hkeep|].
    apply bind_Ok_inv in Hop as (r & _ & [= <- <-]). projb.
    destruct (decide (f0 = f)) as [->|Hne].
    + right. rewrite Hpg in Hpg0. injection Hpg0 as <-. rewrite Hdirty.
      exists [DeallocatePage page_id; PageTableErase page_id;
              WritePage (page_id_ pg) (data_ pg)].
      split; [done|]. apply elem_of_cons; right. apply elem_of_cons; right. by left.
    + left. apply (Hset _ f0 pg0); [done..|]. by intros ->.
  - (* a client's write *)
    unfold client_write in Hstep. apply bind_Ok_inv in Hstep as (pg0 & Hpg0 & [= <-]). projb.
    left. apply (Hset _ frame_id pg0); [done..|]. intros ->. projb.
    rewrite Hpg in Hpg0. injection Hpg0 as <-. auto.
Qed.

(** *** [FlushAllPages] *)

Lemma flush_frames_spec (pages : list Page) (trace : list Event) :
  flush_frames pages trace =
  ((λ pg, if is_dirty_ pg && negb (bool_decide (page_id_ pg = INVALID_PAGE_ID))
          then mkPage (data_ pg) (page_id_ pg) (pin_count_ pg) false else pg) <$> pages,
   reverse (omap (λ pg, if is_dirty_ pg && negb (bool_decide (page_id_ pg = INVALID_PAGE_ID))
                        then Some (WritePage (page_id_ pg) (data_ pg)) else None) pages)
   ++ trace).
Proof.
  revert trace. induction pages as [|pg pages IH]; intros trace; simpl; [done|].
  destruct (is_dirty_ pg && negb (bool_decide (page_id_ pg = INVALID_PAGE_ID))) eqn:Hd.
  - rewrite IH. rewrite reverse_cons, <- app_assoc. done.
  - by rewrite IH.
Qed.

Lemma flush_frames_clean (pages : list Page) (trace : list Event) :
  (∀ i pg, pages !! i = Some pg → page_id_ pg ≠ INVALID_PAGE_ID → is_dirty_ pg = false) →
  flush_frames pages trace = (pages, trace).
Proof.
  revert trace. induction pages as [|pg pages IH]; intros trace Hclean; simpl; [done|].
  destruct (is_dirty_ pg && negb (bool_decide (page_id_ pg = INVALID_PAGE_ID))) eqn:Hd.
  - apply andb_true_iff in Hd as [Hdirty Hvalid]. apply negb_true_iff in Hvalid.
    apply bool_decide_eq_false in Hvalid. specialize (Hclean 0%nat pg eq_refl Hvalid). congruence.
  - rewrite IH; [done|]. intros i pg' Hi. by apply (Hclean (S i)).
Qed.

(** [FlushAllPages] writes every dirty frame that holds a valid page id,
    once and in frame order, and clears its dirty flag; it leaves a dirty
    frame whose page id is [INVALID_PAGE_ID] dirty and unwritten, changes
    nothing else, and a second [FlushAllPages] right after does nothing. *)
Theorem FlushAllPages_effect (pool_size : Z) (replacer_k : N) (b : t) :
  0 ≤ pool_size → reachable pool_size replacer_k b →
  let to_flush pg := is_dirty_ pg && negb (bool_decide (page_id_ pg = INVALID_PAGE_ID)) in
  ∃ b', FlushAllPages b = Ok b' ∧
    pages_ b' =
      (λ pg, if to_flush pg then mkPage (data_ pg) (page_id_ pg) (pin_count_ pg) false
             else pg) <$> pages_ b ∧
    trace_ b' =
      reverse (omap (λ pg, if to_flush pg then Some (WritePage (page_id_ pg) (data_ pg))
                           else None) (pages_ b)) ++ trace_ b ∧
    (∀ f pg', vec_at (pages_ b') f = Ok pg' → page_id_ pg' ≠ INVALID_PAGE_ID →
       is_dirty_ pg' = false) ∧
    page_table_ b' = page_table_ b ∧ free_list_ b' = free_list_ b ∧
    replacer_ b' = replacer_ b ∧ next_page_id_ b' = next_page_id_ b ∧
    pool_size_ b' = pool_size_ b ∧
    FlushAllPages b' = Ok b'.
Proof.
  intros _ _ to_flush. unfold FlushAllPages. rewrite flush_frames_spec. eexists. split; [done|].
  projb. fold to_flush.
  assert (Hclean : ∀ i pg',
    ((λ pg, if to_flush pg then mkPage (data_ pg) (page_id_ pg) (pin_count_ pg) false
            else pg) <$> pages_ b) !! i = Some pg' →
    page_id_ pg' ≠ INVALID_PAGE_ID → is_dirty_ pg' = false).
  { intros i pg' Hi Hvalid. rewrite list_lookup_fmap in Hi.
    destruct (pages_ b !! i) as [pg|]; [|discriminate]. simpl in Hi. injection Hi as <-.
    destruct (to_flush pg) eqn:Hd; [done|]. unfold to_flush in Hd.
    apply andb_false_iff in Hd as [Hd|Hd]; [done|].
    apply negb_false_iff, bool_decide_eq_true in Hd. done. }
  split_and!; try done.
  - intros f pg' Hpg'. apply vec_at_Ok in Hpg' as [_ Hpg']. by apply (Hclean (Z.to_nat f)).
  - by rewrite flush_frames_clean.
Qed.

Lemma FlushAllPages_effect_witness :
  0 ≤ 1 ∧ reachable 1 2 pool1_unpinned ∧
  ∃ b', FlushAllPages pool1_unpinned = Ok b' ∧
        trace_ b' = WritePage 0 (replicate BUSTUB_PAGE_SIZE Byte.x68) :: trace_ pool1_unpinned.
Proof.
  split; [lia|]. split; [exact pool1_unpinned_reachable|].
  destruct (FlushAllPages_effect 1 2 pool1_unpinned) as (b' & Hop & _ & Htr & _);
    [lia | exact pool1_unpinned_reachable |].
  exists b'. split; [exact Hop|]. rewrite Htr. vm_compute. reflexivity.
Defined.

(** *** [DeletePage], [UnpinPage] and [FetchPage] of a resident page *)

Lemma pop_back_snoc (l : list Z) (x : Z) : pop_back (l ++ [x]) = Some (l, x).
Proof.
  induction l as [|y l IH]; simpl; [done|]. by rewrite IH.
Qed.

(** [NewPage] with a free frame: the frame at the back of the free list is
    taken, and nothing is written or read. *)
Lemma NewPage_free_frame (b : t) (rest : list Z) (f : Z) :
  free_list_ b = rest ++ [f] →
  NewPage b =
  let* _ := vec_at (pages_ b) f in
  let* r1 := LRUKReplacer.RecordAccess (replacer_ b) f in
  let* r2 := LRUKReplacer.SetEvictable r1 f false in
  Ok (mk (pool_size_ b) (vec_set (pages_ b) f (mkPage zero_data (next_page_id_ b) 1 false))
         (<[next_page_id_ b := f]> (page_table_ b)) rest r2 (next_page_id_ b + 1)
         (PageTableAssign (next_page_id_ b) f :: trace_ b),
      Some (next_page_id_ b, f)).
Proof.
  intros Hfree. unfold NewPage, obtain_frame. projb. by rewrite Hfree, pop_back_snoc.
Qed.

(** [DeletePage] returns [true] without doing anything for a page that is
    not resident and [false] without doing anything for a pinned page.
    Otherwise it writes the page back if it is dirty, erases it from the
    page table, resets the frame, makes the replacer forget the frame and
    puts the frame at the back of the free list, from where the next
    [NewPage] takes it. *)
Theorem DeletePage_effect (pool_size : Z) (replacer_k : N) (b : t) (page_id : Z) :
  0 ≤ pool_size → reachable pool_size replacer_k b →
  (page_table_ b !! page_id = None → DeletePage b page_id = Ok (b, true)) ∧
  (∀ f pg, page_table_ b !! page_id = Some f → vec_at (pages_ b) f = Ok pg →
     (pin_count_ pg ≠ 0 → DeletePage b page_id = Ok (b, false)) ∧
     (pin_count_ pg = 0 →
        ∃ b', DeletePage b page_id = Ok (b', true) ∧
          page_table_ b' = delete page_id (page_table_ b) ∧
          free_list_ b' = free_list_ b ++ [f] ∧
          vec_at (pages_ b') f = Ok (mkPage zero_data INVALID_PAGE_ID 0 false) ∧
          (∀ x, x ≠ Z.to_nat f → pages_ b' !! x = pages_ b !! x) ∧
          trace_ b' = DeallocatePage page_id :: PageTableErase page_id ::
                      (if is_dirty_ pg then [WritePage page_id (data_ pg)] else [])
                      ++ trace_ b ∧
          LRUKReplacer.use_count (replacer_ b') f = 0%N ∧
          ¬ LRUKReplacer.evictable (replacer_ b') f ∧
          next_page_id_ b' = next_page_id_ b ∧
          ∃ b'', NewPage b' = Ok (b'', Some (next_page_id_ b, f)) ∧
                 trace_ b'' = PageTableAssign (next_page_id_ b) f :: trace_ b')).
Proof.
  intros Hp Hreach.
  pose proof (reachable_inv pool_size replacer_k b Hp Hreach) as Hinv.
  pose proof (reachable_coherent pool_size replacer_k b Hp Hreach) as Hco.
  split.
  - intros Hpt. unfold DeletePage. by rewrite Hpt.
  - intros f pg Hpt Hpg. split.
    + intros Hpin. unfold DeletePage. rewrite Hpt, Hpg. cbn [bind].
      by rewrite bool_decide_eq_true_2.
    + intros Hzero.
      destruct (DeletePage_defined b page_id Hinv) as [[b' res] Hop].
      pose proof (reachable_inv pool_size replacer_k b' Hp
                    (reach_DeletePage _ _ _ _ _ _ Hreach Hop)) as Hinv'.
      exists b'. unfold DeletePage in Hop. rewrite Hpt, Hpg in Hop. cbn [bind] in Hop.
      rewrite bool_decide_eq_false_2 in Hop by (by intros ?).
      apply bind_Ok_inv in Hop as (r & Hr & [= <- <-]).
      assert (Hop : DeletePage b page_id =
                Ok (mk (pool_size_ b)
                       (vec_set (pages_ b) f (mkPage zero_data INVALID_PAGE_ID (pin_count_ pg) false))
                       (delete page_id (page_table_ b)) (free_list_ b ++ [f]) r
                       (next_page_id_ b)
                       (DeallocatePage page_id :: PageTableErase page_id ::
                        (if is_dirty_ pg then WritePage (page_id_ pg) (data_ pg) :: trace_ b
                         else trace_ b)), true)).
      { unfold DeletePage. rewrite Hpt, Hpg. cbn [bind].
        rewrite bool_decide_eq_false_2 by (by intros ?). by rewrite Hr. }
      pose proof Hpg as Hlook. apply vec_at_Ok in Hlook as [Hf Hlook].
      destruct (co_page b Hco _ _ Hpt) as (pg2 & Hpg2 & Hid).
      assert (pg2 = pg) as -> by congruence.
      pose proof (co_unpinned b Hco _ _ _ Hpt Hlook Hzero) as Hev.
      destruct (ReplacerProofs.Remove_clears _ _ _ Hr Hev) as [Hcnt Hflag].
      split; [done|]. projb. split_and!; try done.
      * rewrite Hzero. by eapply vec_at_vec_set_same.
      * intros x Hx. unfold vec_set. by apply list_lookup_insert_ne.
      * rewrite Hid. by destruct (is_dirty_ pg).
      * destruct (NewPage_defined _ Hinv') as [[b'' res] Hnew].
        exists b''. rewrite Hnew.
        rewrite (NewPage_free_frame _ (free_list_ b) f) in Hnew by reflexivity. projb.
        apply bind_Ok_inv in Hnew as (pg0 & Hpg0 & Hnew).
        apply bind_Ok_inv in Hnew as (r1 & H1 & Hnew).
        by apply bind_Ok_inv in Hnew as (r2 & H2 & [= <- <-]).
Qed.

Lemma DeletePage_effect_witness :
  0 ≤ 1 ∧ reachable 1 2 pool1_unpinned ∧
  ∃ b', DeletePage pool1_unpinned 0 = Ok (b', true) ∧ free_list_ b' = [0].
Proof.
  split; [lia|]. split; [exact pool1_unpinned_reachable|].
  destruct (DeletePage_effect 1 2 pool1_unpinned 0) as (_ & Hres);
    [lia | exact pool1_unpinned_reachable |].
  destruct (vec_at (pages_ pool1_unpinned) 0) as [pg| |] eqn:Hpg;
    try (vm_compute in Hpg; discriminate).
  destruct (Hres 0 pg) as (_ & Hdel); [vm_compute; reflexivity | exact Hpg |].
  destruct Hdel as (b' & Hop & _ & Hfree & _).
  - vm_compute in Hpg. injection Hpg as <-. reflexivity.
  - exists b'. split; [exact Hop|]. rewrite Hfree. vm_compute. reflexivity.
Defined.

(** [UnpinPage] on a resident page that has a pin. *)
Lemma UnpinPage_pinned (b : t) (page_id f : Z) (is_dirty : bool) (pg : Page) :
  inv b → coherent b →
  page_table_ b !! page_id = Some f → vec_at (pages_ b) f = Ok pg → pin_count_ pg ≠ 0 →
  ∃ b', UnpinPage b page_id is_dirty = Ok (b', true) ∧
    vec_at (pages_ b') f =
      Ok (mkPage (data_ pg) (page_id_ pg) (pin_count_ pg - 1) (is_dirty_ pg || is_dirty)) ∧
    (∀ x, x ≠ Z.to_nat f → pages_ b' !! x = pages_ b !! x) ∧
    (LRUKReplacer.evictable (replacer_ b') f ↔ pin_count_ pg = 1) ∧
    (∀ x, x ≠ f →
       LRUKReplacer.evictable (replacer_ b') x ↔ LRUKReplacer.evictable (replacer_ b) x) ∧
    page_table_ b' = page_table_ b ∧ free_list_ b' = free_list_ b ∧
    trace_ b' = trace_ b ∧ next_page_id_ b' = next_page_id_ b.
Proof.
  intros Hinv Hco Hpt Hpg Hpin.
  pose proof Hpg as Hlook. apply vec_at_Ok in Hlook as [Hf Hlook].
  pose proof (inv_pin_nonneg b Hinv _ _ Hlook) as Hnonneg.
  destruct (UnpinPage_defined b page_id is_dirty Hinv) as [[b' res] Hop].
  exists b'. rewrite Hop. unfold UnpinPage in Hop. rewrite Hpt, Hpg in Hop.
  cbn [bind] in Hop. rewrite bool_decide_eq_false_2 in Hop by done.
  rewrite bool_decide_eq_true_2 in Hop by lia.
  apply bind_Ok_inv in Hop as (r & Hr & [= <- <-]). projb.
  split_and!; try done.
  - by eapply vec_at_vec_set_same.
  - intros x Hx. unfold vec_set. by apply list_lookup_insert_ne.
  - case_bool_decide as Hlast.
    + split; [intros _; lia|]. intros _.
      apply (ReplacerProofs.SetEvictable_true_sets _ _ _ Hr). by eapply co_tracked.
    + injection Hr as <-. split; [|intros ?; lia]. intros Hev.
      pose proof (inv_pin b Hinv _ _ Hev Hlook). lia.
  - intros x Hne. case_bool_decide as Hlast; [|by injection Hr as <-].
    by apply (ReplacerProofs.SetEvictable_other _ _ _ _ _ Hr).
Qed.

(** [UnpinPage] returns [false] and changes nothing for a page that is not
    resident or whose pin count is 0.  Otherwise it lowers the pin count by
    one, sets the dirty flag if [is_dirty] is set and never clears it, and
    returns [true]; the frame is evictable afterwards exactly when its pin
    count has reached 0.  The data, the other frames, the page table, the
    free list and the disk are left alone. *)
Theorem UnpinPage_effect (pool_size : Z) (replacer_k : N) (b : t) (page_id : Z)
    (is_dirty : bool) :
  0 ≤ pool_size → reachable pool_size replacer_k b →
  (page_table_ b !! page_id = None → UnpinPage b page_id is_dirty = Ok (b, false)) ∧
  (∀ f pg, page_table_ b !! page_id = Some f → vec_at (pages_ b) f = Ok pg →
     0 ≤ pin_count_ pg ∧
     (pin_count_ pg = 0 → UnpinPage b page_id is_dirty = Ok (b, false)) ∧
     (pin_count_ pg ≠ 0 →
        ∃ b', UnpinPage b page_id is_dirty = Ok (b', true) ∧
          vec_at (pages_ b') f =
            Ok (mkPage (data_ pg) (page_id_ pg) (pin_count_ pg - 1)
                       (is_dirty_ pg || is_dirty)) ∧
          (∀ x, x ≠ Z.to_nat f → pages_ b' !! x = pages_ b !! x) ∧
          (LRUKReplacer.evictable (replacer_ b') f ↔ pin_count_ pg = 1) ∧
          (∀ x, x ≠ f →
             LRUKReplacer.evictable (replacer_ b') x ↔ LRUKReplacer.evictable (replacer_ b) x) ∧
          page_table_ b' = page_table_ b ∧ free_list_ b' = free_list_ b ∧
          trace_ b' = trace_ b ∧ next_page_id_ b' = next_page_id_ b)).
Proof.
  intros Hp Hreach.
  pose proof (reachable_inv pool_size replacer_k b Hp Hreach) as Hinv.
  pose proof (reachable_coherent pool_size replacer_k b Hp Hreach) as Hco.
  split.
  - intros Hpt. unfold UnpinPage. by rewrite Hpt.
  - intros f pg Hpt Hpg. pose proof Hpg as Hlook. apply vec_at_Ok in Hlook as [Hf Hlook].
    pose proof (inv_pin_nonneg b Hinv _ _ Hlook) as Hnonneg. split; [done|]. split.
    + intros Hzero. unfold UnpinPage. rewrite Hpt, Hpg. cbn [bind].
      by rewrite bool_decide_eq_true_2.
    + intros Hpin. by apply UnpinPage_pinned.
Qed.

Lemma UnpinPage_effect_witness :
  0 ≤ 1 ∧ reachable 1 2 pool1_pinned ∧
  ∃ b', UnpinPage pool1_pinned 0 true = Ok (b', true) ∧
        LRUKReplacer.evictable (replacer_ b') 0.
Proof.
  split; [lia|]. split; [exact pool1_pinned_reachable|].
  destruct (UnpinPage_effect 1 2 pool1_pinned 0 true) as (_ & Hres);
    [lia | exact pool1_pinned_reachable |].
  destruct (vec_at (pages_ pool1_pinned) 0) as [pg| |] eqn:Hpg;
    try (vm_compute in Hpg; discriminate).
  destruct (Hres 0 pg) as (_ & _ & Hunpin); [vm_compute; reflexivity | exact Hpg |].
  assert (Hpin : pin_count_ pg = 1) by (vm_compute in Hpg; injection Hpg as <-; reflexivity).
  destruct Hunpin as (b' & Hop & _ & _ & Hev & _); [rewrite Hpin; discriminate|].
  exists b'. split; [exact Hop|]. apply Hev. exact Hpin.
Defined.

(** [FetchPage] of a resident page adds one pin to its frame and does no
    I/O: the frame's data, page id and dirty flag, the page table and the
    free list stay as they were, and the frame is not evictable.
    [UnpinPage] without the dirty flag then takes the pin back: the frames
    are as before the fetch, and the frame is evictable again exactly when
    it was unpinned. *)
Theorem FetchPage_resident (pool_size : Z) (replacer_k : N) (b : t) (page_id f : Z)
    (pg : Page) :
  0 ≤ pool_size → reachable pool_size replacer_k b →
  page_table_ b !! page_id = Some f → vec_at (pages_ b) f = Ok pg →
  ∃ b', FetchPage b page_id = Ok (b', Some f) ∧
    vec_at (pages_ b') f =
      Ok (mkPage (data_ pg) (page_id_ pg) (pin_count_ pg + 1) (is_dirty_ pg)) ∧
    (∀ x, x ≠ Z.to_nat f → pages_ b' !! x = pages_ b !! x) ∧
    page_table_ b' = page_table_ b ∧ free_list_ b' = free_list_ b ∧
    trace_ b' = trace_ b ∧ next_page_id_ b' = next_page_id_ b ∧
    ¬ LRUKReplacer.evictable (replacer_ b') f ∧
    ∃ b'', UnpinPage b' page_id false = Ok (b'', true) ∧
      pages_ b'' = pages_ b ∧ page_table_ b'' = page_table_ b ∧
      free_list_ b'' = free_list_ b ∧ trace_ b'' = trace_ b ∧
      (LRUKReplacer.evictable (replacer_ b'') f ↔ pin_count_ pg = 0).
Proof.
  intros Hp Hreach Hpt Hpg.
  pose proof (reachable_inv pool_size replacer_k b Hp Hreach) as Hinv.
  pose proof Hpg as Hlook. apply vec_at_Ok in Hlook as [Hf Hlook].
  pose proof (inv_pin_nonneg b Hinv _ _ Hlook) as Hnonneg.
  destruct (FetchPage_defined b page_id Hinv) as [[b' res] Hop].
  pose proof (reach_FetchPage _ _ _ _ _ _ Hreach Hop) as Hreach'.
  pose proof (reachable_inv pool_size replacer_k b' Hp Hreach') as Hinv'.
  exists b'. rewrite Hop. unfold FetchPage in Hop. rewrite Hpt, Hpg in Hop. cbn [bind] in Hop.
  apply bind_Ok_inv in Hop as (r1 & H1 & Hop).
  apply bind_Ok_inv in Hop as (r2 & H2 & [= <- <-]). projb.
  pose proof (pin_exact_access_first _ _ _ f (inv_wf b Hinv) Hf H1 H2) as (_ & _ & _ & Hflag).
  assert (Hpg' : vec_at (vec_set (pages_ b) f
                   (mkPage (data_ pg) (page_id_ pg) (pin_count_ pg + 1) (is_dirty_ pg))) f =
                 Ok (mkPage (data_ pg) (page_id_ pg) (pin_count_ pg + 1) (is_dirty_ pg)))
    by (by eapply vec_at_vec_set_same).
  split_and!; try done.
  - intros x Hx. unfold vec_set. by apply list_lookup_insert_ne.
  - destruct (UnpinPage_pinned _ page_id f false _ Hinv'
                (reachable_coherent pool_size replacer_k _ Hp Hreach') Hpt Hpg')
      as (b'' & Hop' & Hpg'' & Hothers & Hev & _ & Hpt'' & Hfree'' & Htr'' & _);
      [projb; lia|].
    cbn [data_ page_id_ pin_count_ is_dirty_] in Hpg'', Hev.
    exists b''. split; [done|]. projb. split_and!; try done.
    + apply list_eq. intros i. destruct (decide (i = Z.to_nat f)) as [->|Hne].
      * apply vec_at_Ok in Hpg'' as [_ ->]. rewrite Hlook. f_equal.
        destruct pg as [d p n dirty]; projb. f_equal; [lia | by rewrite orb_false_r].
      * rewrite Hothers by done. unfold vec_set. by apply list_lookup_insert_ne.
    + rewrite Hev. lia.
Qed.

Lemma FetchPage_resident_witness :
  0 ≤ 1 ∧ reachable 1 2 pool1_unpinned ∧ page_table_ pool1_unpinned !! 0 = Some 0 ∧
  ∃ b' pg', FetchPage pool1_unpinned 0 = Ok (b', Some 0) ∧
            vec_at (pages_ b') 0 = Ok pg' ∧ pin_count_ pg' = 1 ∧
            trace_ b' = trace_ pool1_unpinned.
Proof.
  split; [lia|]. split; [exact pool1_unpinned_reachable|]. split; [vm_compute; reflexivity|].
  destruct (vec_at (pages_ pool1_unpinned) 0) as [pg| |] eqn:Hpg;
    try (vm_compute in Hpg; discriminate).
  destruct (FetchPage_resident 1 2 pool1_unpinned 0 0 pg)
    as (b' & Hop & Hpg' & _ & _ & _ & Htr & _);
    [lia | exact pool1_unpinned_reachable | vm_compute; reflexivity | exact Hpg |].
  exists b', (mkPage (data_ pg) (page_id_ pg) (pin_count_ pg + 1) (is_dirty_ pg)).
  split; [exact Hop|]. split; [exact Hpg'|]. split; [|exact Htr].
  vm_compute in Hpg. injection Hpg as <-. reflexivity.
Defined.

Lemma dirty_never_dropped_witness :
  0 ≤ 1 ∧ reachable 1 2 pool1_unpinned ∧
  step pool1_unpinned CallNewPage = Ok (state_of (NewPage pool1_unpinned)) ∧
  ∃ recent,
    trace_ (state_of (NewPage pool1_unpinned)) = recent ++ trace_ pool1_unpinned ∧
    WritePage 0 (replicate BUSTUB_PAGE_SIZE Byte.x68) ∈ recent.
Proof.
  split; [lia|]. split; [exact pool1_unpinned_reachable|].
  assert (Hstep : step pool1_unpinned CallNewPage = Ok (state_of (NewPage pool1_unpinned)))
    by (vm_compute; reflexivity).
  split; [exact Hstep|].
  destruct (dirty_never_dropped 1 2 pool1_unpinned (state_of (NewPage pool1_unpinned))
              CallNewPage 0 (mkPage (replicate BUSTUB_PAGE_SIZE Byte.x68) 0 0 true))
    as [(pg' & Hpg' & Hdirty & _)|Hw];
    [lia | exact pool1_unpinned_reachable | exact Hstep
    | vm_compute; reflexivity | reflexivity | |exact Hw].
  vm_compute in Hpg'. injection Hpg' as <-. discriminate.
Defined.

(** *** The guarded entry points *)

(** [FetchPageRead] and [FetchPageWrite] return a guard whenever [FetchPage]
    returns a page, and dereference a null pointer when it does not: on a
    page that is not resident, with the free list empty and no frame
    evictable.  [FetchPageBasic] and [NewPageGuarded] then return a guard
    around the null pointer. *)
Theorem guarded_fetch_null (pool_size : Z) (replacer_k : N) (b : t) (page_id : Z) :
  0 ≤ pool_size → reachable pool_size replacer_k b →
  let exhausted :=
    free_list_ b = [] ∧ ∀ f, ¬ LRUKReplacer.evictable (replacer_ b) f in
  (page_table_ b !! page_id = None → exhausted →
     FetchPageRead b page_id = Undefined ∧ FetchPageWrite b page_id = Undefined ∧
     FetchPageBasic b page_id = Ok (b, None) ∧
     ∃ b', NewPageGuarded b = Ok (b', None)) ∧
  (page_table_ b !! page_id ≠ None ∨ ¬ exhausted →
     ∃ b' f, FetchPage b page_id = Ok (b', Some f) ∧
       FetchPageRead b page_id = Ok (b', f) ∧ FetchPageWrite b page_id = Ok (b', f) ∧
       FetchPageBasic b page_id = Ok (b', Some f)).
Proof.
  intros Hp Hreach exhausted.
  pose proof (reachable_inv pool_size replacer_k b Hp Hreach) as Hinv.
  split.
  - intros Hpt [Hfree Hnone].
    assert (Hfetch : FetchPage b page_id = Ok (b, None)).
    { unfold FetchPage. rewrite Hpt. by rewrite obtain_frame_exhausted. }
    unfold FetchPageRead, FetchPageWrite, FetchPageBasic, NewPageGuarded. rewrite Hfetch.
    split_and!; try done. eexists. unfold NewPage.
    rewrite obtain_frame_exhausted; [done | by apply inv_counter | done..].
  - intros Hsome.
    destruct (FetchPage_defined b page_id Hinv) as [[b' [f|]] Hop].
    + exists b', f. unfold FetchPageRead, FetchPageWrite, FetchPageBasic. by rewrite Hop.
    + exfalso. unfold FetchPage in Hop.
      destruct (page_table_ b !! page_id) as [f|] eqn:Hpt.
      * apply bind_Ok_inv in Hop as (pg & _ & Hop). apply bind_Ok_inv in Hop as (r1 & _ & Hop).
        by apply bind_Ok_inv in Hop as (r2 & _ & [=]).
      * destruct Hsome as [?|Hnot]; [done|]. apply Hnot.
        apply bind_Ok_inv in Hop as ([b1 got] & Hget & Hop).
        destruct got as [f|].
        { apply bind_Ok_inv in Hop as (pg & _ & Hop). apply bind_Ok_inv in Hop as (r1 & _ & Hop).
          by apply bind_Ok_inv in Hop as (r2 & _ & [=]). }
        unfold obtain_frame in Hget.
        destruct (pop_back (free_list_ b)) as [[rest f]|] eqn:Hpop; [discriminate|].
        apply pop_back_None in Hpop. split; [done|]. intros f Hf.
        apply bind_Ok_inv in Hget as ([r [v|]] & Hev & Hget).
        -- by apply bind_Ok_inv in Hget as (pg & _ & [=]).
        -- by apply (ReplacerProofs.Evict_None_inv _ _ f (inv_wf b Hinv) Hev).
Qed.

Lemma guarded_fetch_null_witness :
  0 ≤ 1 ∧ reachable 1 2 pool1_pinned ∧ page_table_ pool1_pinned !! 5 = None ∧
  FetchPageRead pool1_pinned 5 = Undefined.
Proof.
  split; [lia|]. split; [exact pool1_pinned_reachable|]. split; [vm_compute; reflexivity|].
  destruct (guarded_fetch_null 1 2 pool1_pinned 5) as (Hnull & _);
    [lia | exact pool1_pinned_reachable |].
  apply Hnull; [vm_compute; reflexivity|].
  split; [vm_compute; reflexivity|]. intros f Hf.
  unfold LRUKReplacer.evictable, vec_at in Hf.
  destruct (bool_decide (0 ≤ f)); [|discriminate].
  destruct (Z.to_nat f) as [|[|n]]; vm_compute in Hf; discriminate.
Defined.

(** *** A client that fetches only allocated page ids *)

Lemma reachable_allocated_reachable (pool_size : Z) (replacer_k : N) (b : t) :
  reachable_allocated pool_size replacer_k b → reachable pool_size replacer_k b.
Proof.
  induction 1 as [|b c b' _ IH _ Hlen Hstep]; [constructor|].
  destruct c as [|page_id|page_id is_dirty|page_id| |page_id|frame_id data]; cbn [step] in Hstep.
  - apply bind_Ok_inv in Hstep as ([b2 res] & Hop & [= <-]). by eapply reach_NewPage.
  - apply bind_Ok_inv in Hstep as ([b2 res] & Hop & [= <-]). by eapply reach_FetchPage.
  - apply bind_Ok_inv in Hstep as ([b2 res] & Hop & [= <-]). by eapply reach_UnpinPage.
  - apply bind_Ok_inv in Hstep as ([b2 res] & Hop & [= <-]). by eapply reach_FlushPage.
  - by eapply reach_FlushAllPages.
  - apply bind_Ok_inv in Hstep as ([b2 res] & Hop & [= <-]). by eapply reach_DeletePage.
  - eapply reach_client_write; [done| |done]. by eapply Hlen.
Qed.

Lemma accounted_new (pool_size : Z) (replacer_k : N) :
  0 ≤ pool_size → accounted (new pool_size replacer_k).
Proof.
  intros Hp. constructor; simpl.
  - intros page_id f. by rewrite lookup_empty.
  - done.
  - intros f pg _ Hpg. by apply lookup_replicate in Hpg as [-> _].
  - intros f pg Hf Hpg _. apply lookup_replicate in Hpg as [_ Hlt].
    apply list_elem_of_fmap. exists (Z.to_nat f). split; [lia|]. apply elem_of_seq. lia.
Qed.

Lemma accounted_counter (b : t) (n : Z) :
  accounted b → next_page_id_ b ≤ n →
  accounted (mk (pool_size_ b) (pages_ b) (page_table_ b) (free_list_ b) (replacer_ b) n
               (trace_ b)).
Proof.
  intros [] Hn. constructor; projb; try done; [|lia].
  intros page_id f Hpt. specialize (ac_ids0 _ _ Hpt). lia.
Qed.

(** After the shared block has handed over the frame [f], every other
    frame is still accounted for. *)
Lemma obtain_frame_accounted (b b1 : t) (f : Z) :
  inv b → coherent b → accounted b → obtain_frame b = Ok (b1, Some f) →
  next_page_id_ b1 = next_page_id_ b ∧
  (∀ page_id x, page_table_ b1 !! page_id = Some x → page_table_ b !! page_id = Some x) ∧
  (∀ x pg, 0 ≤ x → x ≠ f → pages_ b1 !! Z.to_nat x = Some pg →
     pages_ b !! Z.to_nat x = Some pg ∧
     (page_id_ pg ≠ INVALID_PAGE_ID → page_table_ b1 !! page_id_ pg = Some x) ∧
     (page_id_ pg = INVALID_PAGE_ID → x ∈ free_list_ b1)).
Proof.
  intros Hinv Hco Hac. unfold obtain_frame.
  destruct (pop_back (free_list_ b)) as [[rest f0]|] eqn:Hpop.
  - intros [= <- ->]. apply pop_back_Some in Hpop. projb. split_and!; try done.
    intros x pg Hx Hne Hpg. split; [done|]. split; [by apply (ac_mapped b Hac)|].
    intros Hinvalid. pose proof (ac_free b Hac x pg Hx Hpg Hinvalid) as Hfree.
    rewrite Hpop in Hfree. apply elem_of_app in Hfree as [?|Hfree]; [done|].
    by apply list_elem_of_singleton in Hfree.
  - intros Hop. apply bind_Ok_inv in Hop as ([r [f0|]] & Hev & Hop); [|by injection Hop].
    apply bind_Ok_inv in Hop as (pg0 & Hpg0 & [= <- ->]). projb.
    apply vec_at_Ok in Hpg0 as [Hf0 Hpg0]. split_and!; try done.
    + intros page_id x Hx. by apply lookup_delete_Some in Hx as [_ Hx].
    + intros x pg Hx Hne Hpg.
      assert (Hpg' : pages_ b !! Z.to_nat x = Some pg).
      { destruct (is_dirty_ pg0); [|done]. by rewrite lookup_vec_set_ne in Hpg. }
      split; [done|]. split; [|by apply (ac_free b Hac)].
      intros Hvalid. pose proof (ac_mapped b Hac x pg Hx Hpg' Hvalid) as Hpt.
      apply lookup_delete_Some. split; [|done]. intros Heq.
      destruct (decide (page_id_ pg0 = INVALID_PAGE_ID)) as [Hinvalid|Hvalid0]; [congruence|].
      pose proof (ac_mapped b Hac f pg0 Hf0 Hpg0 Hvalid0) as Hpt0. congruence.
Qed.

(** The frame [f], which no other frame's page id leads to, is given the
    page [page_id], which is not resident. *)
Lemma accounted_install (b1 : t) (f page_id n : Z) (pg : Page) (r : LRUKReplacer.t)
    (tr : list Event) :
  0 ≤ f → (Z.to_nat f < length (pages_ b1))%nat →
  (∀ p x, page_table_ b1 !! p = Some x → 0 ≤ p < n) → 0 ≤ page_id < n →
  page_table_ b1 !! page_id = None → page_id_ pg = page_id →
  (∀ x pg', 0 ≤ x → x ≠ f → pages_ b1 !! Z.to_nat x = Some pg' →
     (page_id_ pg' ≠ INVALID_PAGE_ID → page_table_ b1 !! page_id_ pg' = Some x) ∧
     (page_id_ pg' = INVALID_PAGE_ID → x ∈ free_list_ b1)) →
  accounted (mk (pool_size_ b1) (vec_set (pages_ b1) f pg) (<[page_id := f]> (page_table_ b1))
               (free_list_ b1) r n tr).
Proof.
  intros Hf Hlen Hids Hid Hfresh Hpg Hothers. constructor; projb.
  - intros p x Hx. apply lookup_insert_Some in Hx as [[<- _]|[_ Hx]]; [done|]. by eapply Hids.
  - lia.
  - intros x pg' Hx Hpg' Hvalid. destruct (decide (x = f)) as [->|Hne].
    + unfold vec_set in Hpg'. rewrite list_lookup_insert_eq in Hpg' by done.
      injection Hpg' as <-. rewrite Hpg. by rewrite lookup_insert_eq.
    + rewrite lookup_vec_set_ne in Hpg' by done.
      destruct (Hothers x pg' Hx Hne Hpg') as [Hmapped _]. specialize (Hmapped Hvalid).
      rewrite lookup_insert_ne; [done|]. intros Heq. congruence.
  - intros x pg' Hx Hpg' Hinvalid. destruct (decide (x = f)) as [->|Hne].
    + unfold vec_set in Hpg'. rewrite list_lookup_insert_eq in Hpg' by done.
      injection Hpg' as <-. unfold INVALID_PAGE_ID in Hinvalid. lia.
    + rewrite lookup_vec_set_ne in Hpg' by done.
      by destruct (Hothers x pg' Hx Hne Hpg') as [_ Hfree]; apply Hfree.
Qed.

(** The frames keep their page ids. *)
Lemma accounted_same_ids (b : t) (pages : list Page) (r : LRUKReplacer.t) (tr : list Event) :
  accounted b →
  (∀ i pg', pages !! i = Some pg' →
     ∃ pg, pages_ b !! i = Some pg ∧ page_id_ pg' = page_id_ pg) →
  accounted (mk (pool_size_ b) pages (page_table_ b) (free_list_ b) r (next_page_id_ b) tr).
Proof.
  intros [] Hpages. constructor; projb; try done.
  - intros f pg' Hf Hpg' Hvalid. destruct (Hpages _ _ Hpg') as (pg & Hpg & Hid).
    rewrite Hid in *. by apply (ac_mapped0 f pg).
  - intros f pg' Hf Hpg' Hinvalid. destruct (Hpages _ _ Hpg') as (pg & Hpg & Hid).
    rewrite Hid in *. by apply (ac_free0 f pg).
Qed.

Lemma vec_set_same_ids (pages : list Page) (f : Z) (pg pg' : Page) :
  pages !! Z.to_nat f = Some pg → page_id_ pg' = page_id_ pg →
  ∀ i pg2, vec_set pages f pg' !! i = Some pg2 →
    ∃ pg1, pages !! i = Some pg1 ∧ page_id_ pg2 = page_id_ pg1.
Proof.
  intros Hpg Hid i pg2. unfold vec_set. intros Hi.
  apply list_lookup_insert_Some in Hi as [(<- & <- & _)|[_ Hi]]; by eexists.
Qed.

Lemma accounted_step (b b' : t) (c : call) :
  inv b → coherent b → accounted b → allocated b c → step b c = Ok b' → accounted b'.
Proof.
  intros Hinv Hco Hac Hwb Hstep.
  destruct c as [|page_id|page_id is_dirty|page_id| |page_id|frame_id data]; cbn [step] in Hstep.
  - (* NewPage *)
    apply bind_Ok_inv in Hstep as ([b2 res] & Hop & [= <-]). unfold NewPage in Hop.
    apply bind_Ok_inv in Hop as ([b1 got] & Hget & Hop).
    pose proof (inv_counter b (next_page_id_ b + 1) Hinv) as Hinv0.
    pose proof (coherent_counter b (next_page_id_ b + 1) Hco) as Hco0.
    assert (Hac0 : accounted (mk (pool_size_ b) (pages_ b) (page_table_ b) (free_list_ b)
                                (replacer_ b) (next_page_id_ b + 1) (trace_ b)))
      by (apply accounted_counter; [done | lia]).
    destruct got as [f|].
    + destruct (obtain_frame_inv _ _ _ Hinv0 Hget) as (_ & _ & _ & Hgot).
      specialize (Hgot f eq_refl).
      destruct (obtain_frame_accounted _ _ _ Hinv0 Hco0 Hac0 Hget) as (Hn & Hsub & Hothers).
      cbn [next_page_id_ page_table_ pages_ free_list_] in Hn, Hsub, Hothers.
      apply bind_Ok_inv in Hop as (pg & Hpg & Hop).
      apply bind_Ok_inv in Hop as (r1 & _ & Hop).
      apply bind_Ok_inv in Hop as (r2 & _ & [= <- <-]).
      apply vec_at_Ok in Hpg as [Hf Hpg]. rewrite Hn.
      pose proof (ac_counter b Hac) as Hcounter.
      apply accounted_install; try done.
      * by eapply lookup_lt_Some.
      * intros p x Hx. apply Hsub in Hx. apply (ac_ids b Hac) in Hx. lia.
      * lia.
      * destruct (page_table_ b1 !! next_page_id_ b) as [x|] eqn:Hx; [|done].
        apply Hsub in Hx. apply (ac_ids b Hac) in Hx. lia.
      * intros x pg' Hx Hne Hpg'. by destruct (Hothers x pg' Hx Hne Hpg') as (_ & ? & ?).
    + injection Hop as <- <-.
      destruct (obtain_frame_coherent _ _ _ Hinv0 Hco0 Hget) as [_ ->]. done.
  - (* FetchPage *)
    apply bind_Ok_inv in Hstep as ([b2 res] & Hop & [= <-]). unfold FetchPage in Hop.
    destruct (page_table_ b !! page_id) as [f|] eqn:Hpt.
    + apply bind_Ok_inv in Hop as (pg & Hpg & Hop).
      apply bind_Ok_inv in Hop as (r1 & _ & Hop).
      apply bind_Ok_inv in Hop as (r2 & _ & [= <- <-]).
      apply vec_at_Ok in Hpg as [Hf Hpg].
      apply accounted_same_ids; [done|]. by apply (vec_set_same_ids _ _ pg).
    + apply bind_Ok_inv in Hop as ([b1 got] & Hget & Hop). destruct got as [f|].
      * destruct (obtain_frame_inv _ _ _ Hinv Hget) as (_ & _ & _ & Hgot).
        specialize (Hgot f eq_refl).
        destruct (obtain_frame_accounted _ _ _ Hinv Hco Hac Hget) as (Hn & Hsub & Hothers).
        apply bind_Ok_inv in Hop as (pg & Hpg & Hop).
        apply bind_Ok_inv in Hop as (r1 & _ & Hop).
        apply bind_Ok_inv in Hop as (r2 & _ & [= <- <-]).
        apply vec_at_Ok in Hpg as [Hf Hpg]. rewrite Hn. simpl in Hwb.
        apply accounted_install; try done.
        -- by eapply lookup_lt_Some.
        -- intros p x Hx. apply Hsub in Hx. by apply (ac_ids b Hac) in Hx.
        -- destruct (page_table_ b1 !! page_id) as [x|] eqn:Hx; [|done].
           apply Hsub in Hx. congruence.
        -- intros x pg' Hx Hne Hpg'. by destruct (Hothers x pg' Hx Hne Hpg') as (_ & ? & ?).
      * injection Hop as <- <-.
        by destruct (obtain_frame_coherent _ _ _ Hinv Hco Hget) as [_ ->].
  - (* UnpinPage *)
    apply bind_Ok_inv in Hstep as ([b2 res] & Hop & [= <-]). unfold UnpinPage in Hop.
    destruct (page_table_ b !! page_id) as [f|] eqn:Hpt; [|by injection Hop as <- <-].
    apply bind_Ok_inv in Hop as (pg & Hpg & Hop).
    case_bool_decide as Hzero; [by injection Hop as <- <-|].
    apply vec_at_Ok in Hpg as [Hf Hpg].
    case_bool_decide as Hpos.
    + apply bind_Ok_inv in Hop as (r & _ & [= <- <-]).
      apply accounted_same_ids; [done|]. by apply (vec_set_same_ids _ _ pg).
    + injection Hop as <- <-.
      apply accounted_same_ids; [done|]. by apply (vec_set_same_ids _ _ pg).
  - (* FlushPage *)
    apply bind_Ok_inv in Hstep as ([b2 res] & Hop & [= <-]). unfold FlushPage in Hop.
    case_bool_decide as Hinvalid; [by injection Hop as <- <-|].
    destruct (page_table_ b !! page_id) as [f|] eqn:Hpt; [|by injection Hop as <- <-].
    apply bind_Ok_inv in Hop as (pg & Hpg & [= <- <-]). apply vec_at_Ok in Hpg as [Hf Hpg].
    apply accounted_same_ids; [done|]. by apply (vec_set_same_ids _ _ pg).
  - (* FlushAllPages *)
    unfold FlushAllPages in Hstep.
    destruct (flush_frames (pages_ b) (trace_ b)) as [pages trace] eqn:Hflush.
    injection Hstep as <-. apply flush_frames_meta in Hflush as [_ Hmeta].
    apply accounted_same_ids; [done|]. intros i pg' Hi.
    destruct (Hmeta _ _ Hi) as (pg & Hpg & Hid & _). by exists pg.
  - (* DeletePage *)
    apply bind_Ok_inv in Hstep as ([b2 res] & Hop & [= <-]). unfold DeletePage in Hop.
    destruct (page_table_ b !! page_id) as [f|] eqn:Hpt; [|by injection Hop as <- <-].
    apply bind_Ok_inv in Hop as (pg & Hpg & Hop).
    case_bool_decide as Hpinned; [by injection Hop as <- <-|].
    apply bind_Ok_inv in Hop as (r & _ & [= <- <-]).
    apply vec_at_Ok in Hpg as [Hf Hpg]. destruct Hac. constructor; projb.
    + intros p x Hx. apply lookup_delete_Some in Hx as [_ Hx]. by eapply ac_ids0.
    + done.
    + intros x pg' Hx Hpg' Hvalid. destruct (decide (x = f)) as [->|Hne].
      * unfold vec_set in Hpg'.
        rewrite list_lookup_insert_eq in Hpg' by (by eapply lookup_lt_Some).
        by injection Hpg' as <-.
      * rewrite lookup_vec_set_ne in Hpg' by done.
        pose proof (ac_mapped0 x pg' Hx Hpg' Hvalid) as Hx'.
        apply lookup_delete_Some. split; [|done]. intros Heq. congruence.
    + intros x pg' Hx Hpg' Hinvalid. apply elem_of_app.
      destruct (decide (x = f)) as [->|Hne]; [right; by left|]. left.
      rewrite lookup_vec_set_ne in Hpg' by done. by apply (ac_free0 x pg').
  - (* a client's write *)
    unfold client_write in Hstep. apply bind_Ok_inv in Hstep as (pg & Hpg & [= <-]).
    apply vec_at_Ok in Hpg as [Hf Hpg].
    apply accounted_same_ids; [done|]. by apply (vec_set_same_ids _ _ pg).
Qed.

Lemma reachable_allocated_accounted (pool_size : Z) (replacer_k : N) (b : t) :
  0 ≤ pool_size → reachable_allocated pool_size replacer_k b → accounted b.
Proof.
  intros Hp. induction 1 as [|b c b' Hreach IH Hwb Hlen Hstep]; [by apply accounted_new|].
  apply reachable_allocated_reachable in Hreach.
  eapply accounted_step; [| |done..].
  - by eapply reachable_inv.
  - by eapply reachable_coherent.
Qed.

(** With a client that fetches only allocated page ids, every frame of
    the pool is either on the free list or the frame of exactly one
    resident page, resident page ids lie in [0, next_page_id_), and no two
    frames hold the same page. *)
Theorem frames_accounted (pool_size : Z) (replacer_k : N) (b : t) :
  0 ≤ pool_size → reachable_allocated pool_size replacer_k b →
  (∀ f, 0 ≤ f < pool_size →
     (f ∈ free_list_ b ∧ ∀ page_id, page_table_ b !! page_id ≠ Some f) ∨
     ((f ∉ free_list_ b) ∧ ∃ page_id, page_table_ b !! page_id = Some f)) ∧
  (∀ page_id f, page_table_ b !! page_id = Some f → 0 ≤ page_id < next_page_id_ b) ∧
  (∀ f1 f2 pg1 pg2, vec_at (pages_ b) f1 = Ok pg1 → vec_at (pages_ b) f2 = Ok pg2 →
     page_id_ pg1 = page_id_ pg2 → page_id_ pg1 ≠ INVALID_PAGE_ID → f1 = f2).
Proof.
  intros Hp Hwb.
  pose proof (reachable_allocated_accounted pool_size replacer_k b Hp Hwb) as Hac.
  apply reachable_allocated_reachable in Hwb.
  pose proof (reachable_inv pool_size replacer_k b Hp Hwb) as Hinv.
  pose proof (reachable_coherent pool_size replacer_k b Hp Hwb) as Hco.
  pose proof (reachable_pool_size pool_size replacer_k b Hwb) as Hps.
  split_and!.
  - intros f Hf. destruct (inv_frame b f Hinv) as [pg Hpg]; [lia|].
    apply vec_at_Ok in Hpg as [_ Hpg].
    destruct (decide (page_id_ pg = INVALID_PAGE_ID)) as [Hinvalid|Hvalid].
    + left. pose proof (ac_free b Hac f pg (proj1 Hf) Hpg Hinvalid) as Hfree.
      split; [done|]. intros page_id. by apply (co_free b Hco).
    + right. pose proof (ac_mapped b Hac f pg (proj1 Hf) Hpg Hvalid) as Hpt.
      split; [|by eexists]. intros Hfree. by apply (co_free b Hco f (page_id_ pg)).
  - apply (ac_ids b Hac).
  - intros f1 f2 pg1 pg2 H1 H2 Heq Hvalid.
    apply vec_at_Ok in H1 as [Hf1 H1]. apply vec_at_Ok in H2 as [Hf2 H2].
    pose proof (ac_mapped b Hac f1 pg1 Hf1 H1 Hvalid) as Hpt1.
    rewrite Heq in Hvalid. pose proof (ac_mapped b Hac f2 pg2 Hf2 H2 Hvalid) as Hpt2.
    congruence.
Qed.

Lemma pool1_unpinned_allocated : reachable_allocated 1 2 pool1_unpinned.
Proof.
  apply (reach_alloc_step 1 2 pool1_written (CallUnpinPage 0 true));
    [|exact I | by intros ? ? [=] | vm_compute; reflexivity].
  apply (reach_alloc_step 1 2 pool1_pinned
           (CallClientWrite 0 (replicate BUSTUB_PAGE_SIZE Byte.x68)));
    [|exact I | intros ? ? [= _ <-]; vm_compute; reflexivity | vm_compute; reflexivity].
  apply (reach_alloc_step 1 2 (new 1 2) CallNewPage);
    [constructor | exact I | by intros ? ? [=] | vm_compute; reflexivity].
Defined.

Lemma frames_accounted_witness :
  0 ≤ 1 ∧ reachable_allocated 1 2 pool1_unpinned ∧
  (0 ∉ free_list_ pool1_unpinned) ∧ ∃ page_id, page_table_ pool1_unpinned !! page_id = Some 0.
Proof.
  split; [lia|]. split; [exact pool1_unpinned_allocated|].
  destruct (frames_accounted 1 2 pool1_unpinned) as (Hframes & _);
    [lia | exact pool1_unpinned_allocated |].
  destruct (Hframes 0) as [[Hfree _]|Hmapped]; [lia | | exact Hmapped].
  vm_compute in Hfree. exfalso. by apply elem_of_nil in Hfree.
Defined.

(** *** The contents of a page *)

Lemma disk_read_write (p : Z) (d : list Byte.byte) (tr : list Event) :
  disk_read (WritePage p d :: tr) p = d.
Proof. simpl. by rewrite bool_decide_eq_true_2. Qed.

Lemma disk_read_write_other (q p : Z) (d : list Byte.byte) (tr : list Event) :
  q ≠ p → disk_read (WritePage q d :: tr) p = disk_read tr p.
Proof. intros Hne. simpl. by rewrite bool_decide_eq_false_2. Qed.

Lemma disk_read_skip (recent tr : list Event) (p : Z) :
  (∀ d, WritePage p d ∉ recent) → disk_read (recent ++ tr) p = disk_read tr p.
Proof.
  induction recent as [|e recent IH]; intros Hnone; [done|].
  assert (Hrest : ∀ d, WritePage p d ∉ recent).
  { intros d Hd. apply (Hnone d). by right. }
  simpl. destruct e as [q d| | | |]; try (by apply IH).
  rewrite bool_decide_eq_false_2; [by apply IH|]. intros ->. apply (Hnone d). by left.
Qed.

(** The page keeps its frame, the frame its contents, and the disk what it
    holds for the page. *)
Lemma content_kept (b b' : t) (p : Z) :
  page_table_ b' !! p = page_table_ b !! p →
  (∀ f, page_table_ b !! p = Some f → pages_ b' !! Z.to_nat f = pages_ b !! Z.to_nat f) →
  disk_read (trace_ b') p = disk_read (trace_ b) p →
  in_sync b p → page_content b' p = page_content b p ∧ in_sync b' p.
Proof.
  intros Hpt Hpages Hdisk Hsync. unfold page_content, in_sync. rewrite Hpt, Hdisk.
  destruct (page_table_ b !! p) as [f|] eqn:Hf; [|done].
  rewrite (Hpages f eq_refl). split; [done|]. intros f' pg [= <-] Hpg Hclean.
  rewrite (Hpages f eq_refl) in Hpg. by apply (Hsync f pg).
Qed.

(** The page leaves its frame: the disk holds its contents afterwards. *)
Lemma content_evicted (b b' : t) (p f : Z) (pg : Page) :
  page_table_ b !! p = Some f → pages_ b !! Z.to_nat f = Some pg →
  page_table_ b' !! p = None →
  disk_read (trace_ b') p = (if is_dirty_ pg then data_ pg else disk_read (trace_ b) p) →
  in_sync b p → page_content b' p = page_content b p ∧ in_sync b' p.
Proof.
  intros Hpt Hpg Hpt' Hdisk Hsync. unfold page_content, in_sync.
  rewrite Hpt, Hpt', Hpg, Hdisk. split; [|done].
  destruct (is_dirty_ pg) eqn:Hd; [done|]. symmetry. by apply (Hsync f pg).
Qed.

(** The page is read into a frame. *)
Lemma content_loaded (b b' : t) (p f : Z) (pg' : Page) :
  page_table_ b !! p = None → page_table_ b' !! p = Some f →
  pages_ b' !! Z.to_nat f = Some pg' → data_ pg' = disk_read (trace_ b) p →
  disk_read (trace_ b') p = disk_read (trace_ b) p →
  page_content b' p = page_content b p ∧ in_sync b' p.
Proof.
  intros Hpt Hpt' Hpg' Hdata Hdisk. unfold page_content, in_sync.
  rewrite Hpt, Hpt', Hpg', Hdisk. split; [done|]. intros f' pg [= <-] Hpg _.
  rewrite Hpg' in Hpg. by injection Hpg as <-.
Qed.

(** The page's frame is rewritten in place, with the same data. *)
Lemma content_in_place (b b' : t) (p f : Z) (pg pg' : Page) :
  page_table_ b !! p = Some f → page_table_ b' !! p = Some f →
  pages_ b !! Z.to_nat f = Some pg → pages_ b' !! Z.to_nat f = Some pg' →
  data_ pg' = data_ pg →
  (is_dirty_ pg' = false →
     (is_dirty_ pg = false ∧ disk_read (trace_ b') p = disk_read (trace_ b) p) ∨
     disk_read (trace_ b') p = data_ pg) →
  in_sync b p → page_content b' p = page_content b p ∧ in_sync b' p.
Proof.
  intros Hpt Hpt' Hpg Hpg' Hdata Hdisk Hsync. unfold page_content, in_sync.
  rewrite Hpt, Hpt', Hpg, Hpg'. split; [done|]. intros f' pg2 [= <-] Hpg2 Hclean.
  rewrite Hpg' in Hpg2. injection Hpg2 as <-. rewrite Hdata. destruct (Hdisk Hclean) as [[Hclean0 Heq]|Heq]; rewrite Heq; [|done]. by apply (Hsync f pg).
Qed.

(** A frame other than the page's is written to; the disk gets nothing for
    the page. *)
Lemma content_other_frame (b : t) (p f0 : Z) (pg0' : Page) (recent : list Event)
    (r : LRUKReplacer.t) (n : Z) :
  inv b → 0 ≤ f0 → page_table_ b !! p ≠ Some f0 → (∀ d, WritePage p d ∉ recent) →
  in_sync b p →
  let b' := mk (pool_size_ b) (vec_set (pages_ b) f0 pg0') (page_table_ b) (free_list_ b) r n
               (recent ++ trace_ b) in
  page_content b' p = page_content b p ∧ in_sync b' p.
Proof.
  intros Hinv Hf0 Hne Hrecent Hsync b'. apply content_kept; try done; unfold b'; projb.
  - intros f Hpt. pose proof (inv_table b Hinv _ _ Hpt).
    apply lookup_vec_set_ne; [done | lia | congruence].
  - by apply disk_read_skip.
Qed.

(** [FlushAllPages] and the disk. *)
Lemma flush_writes_none (pages : list Page) (tr : list Event) (p : Z) :
  (∀ i pg, pages !! i = Some pg → page_id_ pg = p → is_dirty_ pg = false) →
  disk_read
    (reverse (omap (λ pg, if is_dirty_ pg && negb (bool_decide (page_id_ pg = INVALID_PAGE_ID))
                          then Some (WritePage (page_id_ pg) (data_ pg)) else None) pages)
     ++ tr) p = disk_read tr p.
Proof.
  intros Hclean. apply disk_read_skip. intros d Hd. rewrite elem_of_reverse in Hd.
  apply list_elem_of_omap in Hd as (pg & Hpg & Hw).
  apply list_elem_of_lookup in Hpg as [i Hi].
  destruct (is_dirty_ pg && negb (bool_decide (page_id_ pg = INVALID_PAGE_ID))) eqn:Hflush;
    [|discriminate].
  injection Hw as Hid _. apply andb_true_iff in Hflush as [Hdirty _].
  specialize (Hclean i pg Hi Hid). congruence.
Qed.

Lemma flush_writes_one (pages : list Page) (tr : list Event) (p : Z) (i : nat) (pg : Page) :
  pages !! i = Some pg → page_id_ pg = p → p ≠ INVALID_PAGE_ID → is_dirty_ pg = true →
  (∀ j pg', pages !! j = Some pg' → page_id_ pg' = p → j = i) →
  disk_read
    (reverse (omap (λ pg, if is_dirty_ pg && negb (bool_decide (page_id_ pg = INVALID_PAGE_ID))
                          then Some (WritePage (page_id_ pg) (data_ pg)) else None) pages)
     ++ tr) p = data_ pg.
Proof.
  intros Hi Hid Hvalid Hdirty Huniq.
  set (w := λ pg : Page,
         if is_dirty_ pg && negb (bool_decide (page_id_ pg = INVALID_PAGE_ID))
         then Some (WritePage (page_id_ pg) (data_ pg)) else None).
  assert (Hsplit : omap w pages =
            omap w (take i pages) ++ WritePage p (data_ pg) :: omap w (drop (S i) pages)).
  { rewrite <- (take_drop_middle pages i pg Hi) at 1. rewrite omap_app. f_equal.
    csimpl. unfold w at 1. rewrite Hdirty, bool_decide_eq_false_2 by congruence.
    simpl. by rewrite Hid. }
  rewrite Hsplit, reverse_app, reverse_cons, <- !app_assoc. cbn [app].
  unfold w at 1. rewrite flush_writes_none; [apply disk_read_write|].
  intros j pg' Hj Hid'. exfalso. rewrite lookup_drop in Hj.
  specialize (Huniq _ _ Hj Hid'). lia.
Qed.

(** The shared block keeps the contents of every page: a page whose frame
    is taken has its contents on disk afterwards. *)
Lemma obtain_frame_content (b b1 : t) (got : option Z) (p : Z) :
  inv b → coherent b → accounted b → 0 ≤ p → in_sync b p →
  obtain_frame b = Ok (b1, got) →
  page_content b1 p = page_content b p ∧ in_sync b1 p.
Proof.
  intros Hinv Hco Hac Hp Hsync. unfold obtain_frame.
  destruct (pop_back (free_list_ b)) as [[rest f0]|] eqn:Hpop.
  - intros [= <- <-]. by apply content_kept.
  - intros Hop. apply bind_Ok_inv in Hop as ([r [f0|]] & Hev & Hop);
      [|injection Hop as <- <-; by apply content_kept].
    apply bind_Ok_inv in Hop as (pg0 & Hpg0 & [= <- <-]).
    apply vec_at_Ok in Hpg0 as [Hf0 Hpg0].
    destruct (decide (page_id_ pg0 = p)) as [Hid|Hne].
    + (* the page's own frame is taken *)
      assert (Hpt : page_table_ b !! p = Some f0).
      { rewrite <- Hid. apply (ac_mapped b Hac f0 pg0 Hf0 Hpg0).
        unfold INVALID_PAGE_ID. lia. }
      apply (content_evicted b _ p f0 pg0); try done; projb.
      * rewrite Hid. by apply lookup_delete_eq.
      * rewrite Hid. simpl. destruct (is_dirty_ pg0); [|done]. apply disk_read_write.
    + apply content_kept; try done; projb.
      * by apply lookup_delete_ne.
      * intros f Hpt. destruct (is_dirty_ pg0); [|done].
        pose proof (inv_table b Hinv _ _ Hpt). apply lookup_vec_set_ne; [done | lia |].
        intros ->. destruct (co_page b Hco _ _ Hpt) as (pg & Hpg & Hid). congruence.
      * simpl. destruct (is_dirty_ pg0); [|done]. by apply disk_read_write_other.
Qed.

(** One call and the contents of the page [p]. *)
Lemma content_step (b b' : t) (c : call) (p : Z) :
  inv b → coherent b → accounted b →
  allocated b c → step b c = Ok b' →
  0 ≤ p < next_page_id_ b → in_sync b p →
  (∀ f data, c = CallClientWrite f data → page_table_ b !! p ≠ Some f) →
  page_content b' p = page_content b p ∧ in_sync b' p.
Proof.
  intros Hinv Hco Hac Halloc Hstep Hp Hsync Hquiet.
  assert (Hinj : ∀ q f, page_table_ b !! q = Some f → q ≠ p → page_table_ b !! p ≠ Some f).
  { intros q f Hq Hne Hpt. destruct (co_page b Hco _ _ Hq) as (pg1 & Hpg1 & Hid1).
    destruct (co_page b Hco _ _ Hpt) as (pg2 & Hpg2 & Hid2). congruence. }
  (* a frame that the shared block has handed over is given to the page [q] *)
  assert (Hinstall : ∀ b0 b1 f0 q pg r n recent,
    inv b0 → coherent b0 → accounted b0 → in_sync b0 p →
    page_content b0 p = page_content b p →
    obtain_frame b0 = Ok (b1, Some f0) → page_table_ b0 !! q = None →
    (∀ d, WritePage p d ∉ recent) →
    (q = p → data_ pg = disk_read (trace_ b1) p) →
    page_content (mk (pool_size_ b1) (vec_set (pages_ b1) f0 pg) (<[q := f0]> (page_table_ b1))
                    (free_list_ b1) r n (recent ++ trace_ b1)) p = page_content b p ∧
    in_sync (mk (pool_size_ b1) (vec_set (pages_ b1) f0 pg) (<[q := f0]> (page_table_ b1))
               (free_list_ b1) r n (recent ++ trace_ b1)) p).
  { intros b0 b1 f0 q pg r n recent Hinv0 Hco0 Hac0 Hsync0 Hsame Hget Hq Hrecent Hdata.
    destruct (obtain_frame_content _ _ _ p Hinv0 Hco0 Hac0 (proj1 Hp) Hsync0 Hget)
      as [Hcontent1 Hsync1].
    destruct (obtain_frame_inv _ _ _ Hinv0 Hget) as (Hinv1 & _ & _ & Hgot).
    specialize (Hgot f0 eq_refl).
    destruct (obtain_frame_coherent _ _ _ Hinv0 Hco0 Hget) as [Hco1 [_ Hunmapped]].
    destruct (obtain_frame_accounted _ _ _ Hinv0 Hco0 Hac0 Hget) as (_ & Hsub & _).
    rewrite <- Hsame, <- Hcontent1.
    assert (Hlen : (Z.to_nat f0 < length (pages_ b1))%nat).
    { pose proof (inv_len b1 Hinv1). destruct (obtain_frame_pool_size _ _ _ Hget). lia. }
    destruct (decide (q = p)) as [->|Hne].
    - apply (content_loaded b1 _ p f0 pg); projb.
      + destruct (page_table_ b1 !! p) as [x|] eqn:Hx; [|done]. apply Hsub in Hx. congruence.
      + by apply lookup_insert_eq.
      + unfold vec_set. by apply list_lookup_insert_eq.
      + by apply Hdata.
      + by apply disk_read_skip.
    - apply content_kept; try done; projb.
      + by apply lookup_insert_ne.
      + intros f Hpt. pose proof (inv_table b1 Hinv1 _ _ Hpt).
        apply lookup_vec_set_ne; [lia | lia |]. intros ->. by apply (Hunmapped p).
      + by apply disk_read_skip. }
  destruct c as [|page_id|page_id is_dirty|page_id| |page_id|frame_id data]; cbn [step] in Hstep.
  - (* NewPage *)
    apply bind_Ok_inv in Hstep as ([b2 res] & Hop & [= <-]). unfold NewPage in Hop.
    apply bind_Ok_inv in Hop as ([b1 got] & Hget & Hop).
    pose proof (inv_counter b (next_page_id_ b + 1) Hinv) as Hinv0.
    pose proof (coherent_counter b (next_page_id_ b + 1) Hco) as Hco0.
    assert (Hac0 : accounted (mk (pool_size_ b) (pages_ b) (page_table_ b) (free_list_ b)
                                (replacer_ b) (next_page_id_ b + 1) (trace_ b)))
      by (apply accounted_counter; [done | lia]).
    destruct got as [f0|].
    + apply bind_Ok_inv in Hop as (pg & Hpg & Hop).
      apply bind_Ok_inv in Hop as (r1 & _ & Hop).
      apply bind_Ok_inv in Hop as (r2 & _ & [= <- <-]).
      apply (Hinstall _ b1 f0 (next_page_id_ b) _ r2 _ [PageTableAssign (next_page_id_ b) f0]
               Hinv0 Hco0 Hac0); try done.
      * projb. destruct (page_table_ b !! next_page_id_ b) as [x|] eqn:Hx; [|done].
        apply (ac_ids b Hac) in Hx. lia.
      * intros d Hd. by apply list_elem_of_singleton in Hd.
      * intros Heq. lia.
    + injection Hop as <- <-.
      destruct (obtain_frame_coherent _ _ _ Hinv0 Hco0 Hget) as [_ ->].
      by apply content_kept.
  - (* FetchPage *)
    apply bind_Ok_inv in Hstep as ([b2 res] & Hop & [= <-]). unfold FetchPage in Hop.
    destruct (page_table_ b !! page_id) as [f0|] eqn:Hpt.
    + apply bind_Ok_inv in Hop as (pg0 & Hpg0 & Hop).
      apply bind_Ok_inv in Hop as (r1 & _ & Hop).
      apply bind_Ok_inv in Hop as (r2 & _ & [= <- <-]).
      apply vec_at_Ok in Hpg0 as [Hf0 Hpg0].
      destruct (decide (page_id = p)) as [->|Hne].
      * apply (content_in_place b _ p f0 pg0 (mkPage (data_ pg0) (page_id_ pg0)
                 (pin_count_ pg0 + 1) (is_dirty_ pg0))); try done; projb.
        -- unfold vec_set. apply list_lookup_insert_eq. by eapply lookup_lt_Some.
        -- intros Hclean. by left.
      * apply (content_other_frame b p f0 _ [] r2); try done; [by eapply Hinj|].
        intros d. apply not_elem_of_nil.
    + apply bind_Ok_inv in Hop as ([b1 got] & Hget & Hop). destruct got as [f0|].
      * apply bind_Ok_inv in Hop as (pg & Hpg & Hop).
        apply bind_Ok_inv in Hop as (r1 & _ & Hop).
        apply bind_Ok_inv in Hop as (r2 & _ & [= <- <-]).
        apply (Hinstall b b1 f0 page_id _ r2 _ [ReadPage page_id; PageTableAssign page_id f0]
                 Hinv Hco Hac); try done.
        -- intros d Hd. apply elem_of_cons in Hd as [?|Hd]; [done|].
           by apply list_elem_of_singleton in Hd.
        -- by intros ->.
      * injection Hop as <- <-.
        destruct (obtain_frame_coherent _ _ _ Hinv Hco Hget) as [_ ->]. by apply content_kept.
  - (* UnpinPage *)
    apply bind_Ok_inv in Hstep as ([b2 res] & Hop & [= <-]). unfold UnpinPage in Hop.
    destruct (page_table_ b !! page_id) as [f0|] eqn:Hpt;
      [|injection Hop as <- <-; by apply content_kept].
    apply bind_Ok_inv in Hop as (pg0 & Hpg0 & Hop).
    case_bool_decide as Hzero; [injection Hop as <- <-; by apply content_kept|].
    apply vec_at_Ok in Hpg0 as [Hf0 Hpg0].
    assert (Hgoal : ∀ pin r,
      page_content (mk (pool_size_ b)
                      (vec_set (pages_ b) f0 (mkPage (data_ pg0) (page_id_ pg0) pin
                                                (is_dirty_ pg0 || is_dirty)))
                      (page_table_ b) (free_list_ b) r (next_page_id_ b) (trace_ b)) p =
        page_content b p ∧
      in_sync (mk (pool_size_ b)
                 (vec_set (pages_ b) f0 (mkPage (data_ pg0) (page_id_ pg0) pin
                                           (is_dirty_ pg0 || is_dirty)))
                 (page_table_ b) (free_list_ b) r (next_page_id_ b) (trace_ b)) p).
    { intros pin r. destruct (decide (page_id = p)) as [->|Hne].
      - apply (content_in_place b _ p f0 pg0 (mkPage (data_ pg0) (page_id_ pg0) pin
                 (is_dirty_ pg0 || is_dirty))); try done; projb.
        + unfold vec_set. apply list_lookup_insert_eq. by eapply lookup_lt_Some.
        + intros Hclean. left. by apply orb_false_iff in Hclean as [-> _].
      - apply (content_other_frame b p f0 _ [] r); try done; [by eapply Hinj|].
        intros d. apply not_elem_of_nil. }
    case_bool_decide as Hpos.
    + apply bind_Ok_inv in Hop as (r & _ & [= <- <-]). apply Hgoal.
    + injection Hop as <- <-. apply Hgoal.
  - (* FlushPage *)
    apply bind_Ok_inv in Hstep as ([b2 res] & Hop & [= <-]). unfold FlushPage in Hop.
    case_bool_decide as Hinvalid; [injection Hop as <- <-; by apply content_kept|].
    destruct (page_table_ b !! page_id) as [f0|] eqn:Hpt;
      [|injection Hop as <- <-; by apply content_kept].
    apply bind_Ok_inv in Hop as (pg0 & Hpg0 & [= <- <-]).
    apply vec_at_Ok in Hpg0 as [Hf0 Hpg0].
    destruct (co_page b Hco _ _ Hpt) as (pg1 & Hpg1 & Hid).
    assert (pg1 = pg0) as -> by congruence.
    destruct (decide (page_id = p)) as [->|Hne].
    + apply (content_in_place b _ p f0 pg0 (mkPage (data_ pg0) (page_id_ pg0)
               (pin_count_ pg0) false)); try done; projb.
      * unfold vec_set. apply list_lookup_insert_eq. by eapply lookup_lt_Some.
      * intros _. right. rewrite Hid. apply disk_read_write.
    + apply (content_other_frame b p f0 _ [WritePage (page_id_ pg0) (data_ pg0)]
               (replacer_ b)); try done; [by eapply Hinj|].
      intros d Hd. apply list_elem_of_singleton in Hd. congruence.
  - (* FlushAllPages *)
    unfold FlushAllPages in Hstep. rewrite flush_frames_spec in Hstep.
    injection Hstep as <-.
    assert (Hother : ∀ i pg, pages_ b !! i = Some pg → page_id_ pg = p →
              page_table_ b !! p = Some (Z.of_nat i)).
    { intros i pg Hi Hid. rewrite <- Hid.
      apply (ac_mapped b Hac (Z.of_nat i) pg); [lia | by rewrite Nat2Z.id |].
      rewrite Hid. unfold INVALID_PAGE_ID. lia. }
    destruct (page_table_ b !! p) as [f|] eqn:Hpt.
    + pose proof (inv_table b Hinv _ _ Hpt) as Hf.
      destruct (co_page b Hco _ _ Hpt) as (pg & Hpg & Hid).
      assert (Huniq : ∀ j pg', pages_ b !! j = Some pg' → page_id_ pg' = p → j = Z.to_nat f).
      { intros j pg' Hj Hid'. specialize (Hother j pg' Hj Hid'). injection Hother as Heq. lia. }
      apply (content_in_place b _ p f pg
               (if is_dirty_ pg && negb (bool_decide (page_id_ pg = INVALID_PAGE_ID))
                then mkPage (data_ pg) (page_id_ pg) (pin_count_ pg) false else pg));
        try done; projb.
      * rewrite list_lookup_fmap, Hpg. done.
      * by destruct (is_dirty_ pg && negb (bool_decide (page_id_ pg = INVALID_PAGE_ID))).
      * intros Hclean. destruct (is_dirty_ pg) eqn:Hdirty.
        -- right. apply (flush_writes_one _ _ p (Z.to_nat f)); try done.
           unfold INVALID_PAGE_ID. lia.
        -- left. split; [done|]. apply flush_writes_none.
           intros j pg' Hj Hid'. rewrite (Huniq j pg' Hj Hid') in Hj. congruence.
    + apply content_kept; projb; [done | intros f Hf; congruence | | done].
      apply flush_writes_none. intros i pg Hi Hid. by specialize (Hother i pg Hi Hid).
  - (* DeletePage *)
    apply bind_Ok_inv in Hstep as ([b2 res] & Hop & [= <-]). unfold DeletePage in Hop.
    destruct (page_table_ b !! page_id) as [f0|] eqn:Hpt;
      [|injection Hop as <- <-; by apply content_kept].
    apply bind_Ok_inv in Hop as (pg0 & Hpg0 & Hop).
    case_bool_decide as Hpinned; [injection Hop as <- <-; by apply content_kept|].
    apply bind_Ok_inv in Hop as (r & _ & [= <- <-]).
    apply vec_at_Ok in Hpg0 as [Hf0 Hpg0].
    destruct (co_page b Hco _ _ Hpt) as (pg1 & Hpg1 & Hid).
    assert (pg1 = pg0) as -> by congruence.
    destruct (decide (page_id = p)) as [->|Hne].
    + apply (content_evicted b _ p f0 pg0); try done; projb.
      * by apply lookup_delete_eq.
      * simpl. destruct (is_dirty_ pg0); [|done]. rewrite Hid. apply disk_read_write.
    + apply content_kept; try done; projb.
      * by apply lookup_delete_ne.
      * intros f Hp'. pose proof (inv_table b Hinv _ _ Hp').
        apply lookup_vec_set_ne; [done | lia |]. intros ->. by apply (Hinj page_id f0).
      * simpl. destruct (is_dirty_ pg0); [|done]. apply disk_read_write_other. congruence.
  - (* a client's write *)
    unfold client_write in Hstep. apply bind_Ok_inv in Hstep as (pg0 & Hpg0 & [= <-]).
    apply vec_at_Ok in Hpg0 as [Hf0 Hpg0].
    apply (content_other_frame b p frame_id _ [] (replacer_ b)); try done.
    + by apply (Hquiet frame_id data).
    + intros d. apply not_elem_of_nil.
Qed.

(** With a client that fetches only allocated page ids, no call changes the
    contents of an allocated page, taken from its frame when the page is
    resident and from the disk when it is not, other than a client's write
    into the page's frame; and a resident page whose frame is clean stays
    in agreement with the disk. *)
Theorem page_content_preserved (pool_size : Z) (replacer_k : N) (b b' : t) (c : call)
    (p : Z) :
  0 ≤ pool_size → reachable_allocated pool_size replacer_k b →
  allocated b c → step b c = Ok b' →
  0 ≤ p < next_page_id_ b → in_sync b p →
  (∀ f data, c = CallClientWrite f data → page_table_ b !! p ≠ Some f) →
  page_content b' p = page_content b p ∧ in_sync b' p.
Proof.
  intros Hpool Hwb.
  pose proof (reachable_allocated_accounted pool_size replacer_k b Hpool Hwb) as Hac.
  apply reachable_allocated_reachable in Hwb.
  apply content_step; [by eapply reachable_inv | by eapply reachable_coherent | done].
Qed.

Lemma pool1_unpinned_in_sync : in_sync pool1_unpinned 0.
Proof.
  intros f pg Hpt Hpg Hclean. vm_compute in Hpt. injection Hpt as <-.
  vm_compute in Hpg. injection Hpg as <-. discriminate.
Qed.

Lemma page_content_preserved_witness :
  0 ≤ 1 ∧ reachable_allocated 1 2 pool1_unpinned ∧ allocated pool1_unpinned CallNewPage ∧
  step pool1_unpinned CallNewPage = Ok (state_of (NewPage pool1_unpinned)) ∧
  0 ≤ 0 < next_page_id_ pool1_unpinned ∧ in_sync pool1_unpinned 0 ∧
  page_table_ (state_of (NewPage pool1_unpinned)) !! 0 = None ∧
  page_content (state_of (NewPage pool1_unpinned)) 0 = replicate BUSTUB_PAGE_SIZE Byte.x68.
Proof.
  assert (Hstep : step pool1_unpinned CallNewPage = Ok (state_of (NewPage pool1_unpinned)))
    by (vm_compute; reflexivity).
  assert (Hn : next_page_id_ pool1_unpinned = 1) by (vm_compute; reflexivity).
  assert (Hp : 0 ≤ 0 < next_page_id_ pool1_unpinned) by (rewrite Hn; lia).
  split; [lia|]. split; [exact pool1_unpinned_allocated|]. split; [exact I|].
  split; [exact Hstep|]. split; [exact Hp|]. split; [exact pool1_unpinned_in_sync|].
  split; [vm_compute; reflexivity|].
  destruct (page_content_preserved 1 2 pool1_unpinned (state_of (NewPage pool1_unpinned))
              CallNewPage 0) as [Hcontent _];
    [lia | exact pool1_unpinned_allocated | exact I | exact Hstep | exact Hp
    | exact pool1_unpinned_in_sync | intros f data Hc; discriminate Hc |].
  rewrite Hcontent. vm_compute. reflexivity.
Defined.

Lemma FetchPage_maps (b b' : t) (p f : Z) :
  FetchPage b p = Ok (b', Some f) →
  page_table_ b' !! p = Some f ∧ ∃ pg, vec_at (pages_ b') f = Ok pg.
Proof.
  unfold FetchPage. destruct (page_table_ b !! p) as [f0|] eqn:Hpt; intros Hop.
  - apply bind_Ok_inv in Hop as (pg & Hpg & Hop).
    apply bind_Ok_inv in Hop as (r1 & _ & Hop).
    apply bind_Ok_inv in Hop as (r2 & _ & [= <- <-]). projb.
    split; [done|]. eexists. by eapply vec_at_vec_set_same.
  - apply bind_Ok_inv in Hop as ([b1 [f0|]] & _ & Hop); [|by injection Hop].
    apply bind_Ok_inv in Hop as (pg & Hpg & Hop).
    apply bind_Ok_inv in Hop as (r1 & _ & Hop).
    apply bind_Ok_inv in Hop as (r2 & _ & [= <- <-]). projb.
    split; [by apply lookup_insert_eq|]. eexists. by eapply vec_at_vec_set_same.
Qed.

(** What [FetchPage] hands out: with a client that fetches only allocated
    page ids, the frame that [FetchPage] returns for an allocated page
    holds the contents of that page, whether the page was resident or had
    to be read back from disk. *)
Theorem FetchPage_returns_content (pool_size : Z) (replacer_k : N) (b b' : t) (p f : Z) :
  0 ≤ pool_size → reachable_allocated pool_size replacer_k b →
  0 ≤ p < next_page_id_ b → in_sync b p →
  FetchPage b p = Ok (b', Some f) →
  ∃ pg, vec_at (pages_ b') f = Ok pg ∧ page_id_ pg = p ∧ data_ pg = page_content b p.
Proof.
  intros Hpool Hwb Hp Hsync Hop.
  pose proof (reachable_allocated_accounted pool_size replacer_k b Hpool Hwb) as Hac.
  apply reachable_allocated_reachable in Hwb.
  pose proof (reachable_inv pool_size replacer_k b Hpool Hwb) as Hinv.
  pose proof (reachable_coherent pool_size replacer_k b Hpool Hwb) as Hco.
  destruct (content_step b b' (CallFetchPage p) p Hinv Hco Hac) as [Hcontent _];
    [done | by cbn [step]; rewrite Hop | done | done | by intros f0 data [=] |].
  destruct (FetchPage_maps _ _ _ _ Hop) as (Hpt & pg & Hpg).
  pose proof (reachable_coherent pool_size replacer_k b' Hpool
                (reach_FetchPage _ _ _ _ _ _ Hwb Hop)) as Hco'.
  destruct (co_page b' Hco' _ _ Hpt) as (pg' & Hpg' & Hid).
  exists pg. split; [done|]. apply vec_at_Ok in Hpg as [_ Hpg].
  assert (pg' = pg) as -> by congruence. split; [done|].
  rewrite <- Hcontent. unfold page_content. by rewrite Hpt, Hpg.
Qed.

Lemma pool1_released_allocated : reachable_allocated 1 2 pool1_released.
Proof.
  apply (reach_alloc_step 1 2 pool1_evicted (CallUnpinPage 1 false));
    [|exact I | by intros ? ? [=] | vm_compute; reflexivity].
  apply (reach_alloc_step 1 2 pool1_unpinned CallNewPage);
    [exact pool1_unpinned_allocated | exact I | by intros ? ? [=] | vm_compute; reflexivity].
Defined.

Lemma FetchPage_returns_content_witness :
  0 ≤ 1 ∧ reachable_allocated 1 2 pool1_released ∧
  0 ≤ 0 < next_page_id_ pool1_released ∧ in_sync pool1_released 0 ∧
  page_table_ pool1_released !! 0 = None ∧
  FetchPage pool1_released 0 = Ok (state_of (FetchPage pool1_released 0), Some 0) ∧
  ∃ pg, vec_at (pages_ (state_of (FetchPage pool1_released 0))) 0 = Ok pg ∧
        data_ pg = replicate BUSTUB_PAGE_SIZE Byte.x68.
Proof.
  assert (Hn : next_page_id_ pool1_released = 2) by (vm_compute; reflexivity).
  assert (Hp : 0 ≤ 0 < next_page_id_ pool1_released) by (rewrite Hn; lia).
  assert (Hpt : page_table_ pool1_released !! 0 = None) by (vm_compute; reflexivity).
  assert (Hsync : in_sync pool1_released 0).
  { intros f pg Hf. rewrite Hpt in Hf. discriminate Hf. }
  assert (Hop : FetchPage pool1_released 0 = Ok (state_of (FetchPage pool1_released 0), Some 0))
    by (vm_compute; reflexivity).
  split; [lia|]. split; [exact pool1_released_allocated|]. split; [exact Hp|].
  split; [exact Hsync|]. split; [exact Hpt|]. split; [exact Hop|].
  destruct (FetchPage_returns_content 1 2 pool1_released
              (state_of (FetchPage pool1_released 0)) 0 0) as (pg & Hpg & _ & Hdata);
    [lia | exact pool1_released_allocated | exact Hp | exact Hsync | exact Hop |].
  exists pg. split; [exact Hpg|]. rewrite Hdata. vm_compute. reflexivity.
Defined.

(** *** Fetching a page id that was never allocated *)

Lemma FetchPage_free_frame (b : t) (page_id : Z) (rest : list Z) (f : Z) :
  page_table_ b !! page_id = None → free_list_ b = rest ++ [f] →
  FetchPage b page_id =
  let* _ := vec_at (pages_ b) f in
  let* r1 := LRUKReplacer.SetEvictable (replacer_ b) f false in
  let* r2 := LRUKReplacer.RecordAccess r1 f in
  Ok (mk (pool_size_ b)
         (vec_set (pages_ b) f
            (mkPage (disk_read (PageTableAssign page_id f :: trace_ b) page_id) page_id 1 false))
         (<[page_id := f]> (page_table_ b)) rest r2 (next_page_id_ b)
         (ReadPage page_id :: PageTableAssign page_id f :: trace_ b),
      Some f).
Proof.
  intros Hpt Hfree. unfold FetchPage, obtain_frame. rewrite Hpt. projb.
  by rewrite Hfree, pop_back_snoc.
Qed.

(** Fetching the id that [NewPage] hands out next, with two frames free,
    and then calling [NewPage]. *)
Lemma fetch_then_new (pool_size : Z) (replacer_k : N) (b : t)
    (rest : list Z) (f0 f1 : Z) :
  0 ≤ pool_size → reachable pool_size replacer_k b →
  free_list_ b = rest ++ [f0; f1] → page_table_ b !! next_page_id_ b = None →
  ∃ b1 b2 pg,
    FetchPage b (next_page_id_ b) = Ok (b1, Some f1) ∧
    NewPage b1 = Ok (b2, Some (next_page_id_ b, f0)) ∧
    f0 ≠ f1 ∧ page_table_ b2 !! next_page_id_ b = Some f0 ∧
    vec_at (pages_ b2) f1 = Ok pg ∧
    page_id_ pg = next_page_id_ b ∧ pin_count_ pg = 1 ∧
    (f1 ∉ free_list_ b2) ∧ (∀ page_id, page_table_ b2 !! page_id ≠ Some f1) ∧
    ¬ LRUKReplacer.evictable (replacer_ b2) f1.
Proof.
  intros Hp Hreach Hfree Hpt.
  pose proof (reachable_inv pool_size replacer_k b Hp Hreach) as Hinv.
  pose proof (reachable_coherent pool_size replacer_k b Hp Hreach) as Hco.
  assert (Hnd : NoDup (rest ++ [f0; f1])) by (rewrite <- Hfree; apply (co_nodup b Hco)).
  assert (Hin1 : f1 ∈ free_list_ b).
  { rewrite Hfree. apply elem_of_app. right. apply elem_of_cons. right. by left. }
  assert (Hin0 : f0 ∈ free_list_ b).
  { rewrite Hfree. apply elem_of_app. right. by left. }
  assert (Hne : f0 ≠ f1).
  { apply NoDup_app in Hnd as (_ & _ & Hnd). apply NoDup_cons in Hnd as [Hnd _].
    intros ->. apply Hnd. by left. }
  assert (Hnotin : f1 ∉ rest).
  { apply NoDup_app in Hnd as (_ & Hdis & _). intros Hx. apply (Hdis f1 Hx).
    apply elem_of_cons. right. by left. }
  pose proof (inv_free b Hinv _ Hin0) as Hr0. pose proof (inv_free b Hinv _ Hin1) as Hr1.
  destruct (FetchPage_defined b (next_page_id_ b) Hinv) as [[b1 res1] Hop1].
  pose proof (reach_FetchPage _ _ _ _ _ _ Hreach Hop1) as Hreach1.
  pose proof (reachable_inv pool_size replacer_k b1 Hp Hreach1) as Hinv1.
  pose proof Hop1 as Hfetch.
  rewrite (FetchPage_free_frame b _ (rest ++ [f0]) f1 Hpt) in Hop1
    by (by rewrite Hfree, <- app_assoc).
  apply bind_Ok_inv in Hop1 as (pg1 & Hpg1 & Hop1).
  apply bind_Ok_inv in Hop1 as (r1 & Hr1a & Hop1).
  apply bind_Ok_inv in Hop1 as (r2 & Hr2 & [= <- <-]).
  destruct (NewPage_defined _ Hinv1) as [[b2 res2] Hop2].
  pose proof (reachable_inv pool_size replacer_k b2 Hp
                (reach_NewPage _ _ _ _ _ Hreach1 Hop2)) as Hinv2.
  pose proof Hop2 as Hnew.
  rewrite (NewPage_free_frame _ rest f0) in Hop2 by reflexivity. projb.
  apply bind_Ok_inv in Hop2 as (pg0 & Hpg0 & Hop2). cbn [pages_ replacer_] in Hpg0, Hop2.
  apply bind_Ok_inv in Hop2 as (r3 & Hr3 & Hop2).
  apply bind_Ok_inv in Hop2 as (r4 & Hr4 & [= <- <-]).
  assert (Hstranded :
    vec_at (vec_set (vec_set (pages_ b) f1
                       (mkPage (disk_read (trace_ b) (next_page_id_ b)) (next_page_id_ b) 1 false))
              f0 (mkPage zero_data (next_page_id_ b) 1 false)) f1 =
    Ok (mkPage (disk_read (trace_ b) (next_page_id_ b)) (next_page_id_ b) 1 false)).
  { rewrite vec_at_vec_set_ne by (lia || done). by eapply vec_at_vec_set_same. }
  eexists _, _, _. split; [exact Hfetch|]. split; [exact Hnew|].
  projb. split_and!; [done | | exact Hstranded | done | done | done | |].
  - by apply lookup_insert_eq.
  - intros page_id Hx. apply lookup_insert_Some in Hx as [[_ ?]|[Hne1 Hx]]; [done|].
    apply lookup_insert_Some in Hx as [[? _]|[_ Hx]]; [done|].
    by apply (co_free b Hco f1 page_id).
  - intros Hev. apply vec_at_Ok in Hstranded as [_ Hlook].
    pose proof (inv_pin _ Hinv2 f1 _ Hev Hlook) as Hpin. discriminate Hpin.
Qed.


(** *** A stranded frame stays stranded *)

Lemma reachable_step (pool_size : Z) (replacer_k : N) (b b' : t) :
  reachable pool_size replacer_k b → client_step b b' → reachable pool_size replacer_k b'.
Proof.
  intros Hreach (c & Hlen & Hstep).
  destruct c as [|page_id|page_id is_dirty|page_id| |page_id|frame_id data]; cbn [step] in Hstep.
  - apply bind_Ok_inv in Hstep as ([b2 res] & Hop & [= <-]). by eapply reach_NewPage.
  - apply bind_Ok_inv in Hstep as ([b2 res] & Hop & [= <-]). by eapply reach_FetchPage.
  - apply bind_Ok_inv in Hstep as ([b2 res] & Hop & [= <-]). by eapply reach_UnpinPage.
  - apply bind_Ok_inv in Hstep as ([b2 res] & Hop & [= <-]). by eapply reach_FlushPage.
  - by eapply reach_FlushAllPages.
  - apply bind_Ok_inv in Hstep as ([b2 res] & Hop & [= <-]). by eapply reach_DeletePage.
  - eapply reach_client_write; [done| |done]. by eapply Hlen.
Qed.

(** A call that rewrites the page object of another frame, keeps the free
    list and the page table, and moves no flag of the replacer but that
    frame's, leaves a stranded frame stranded. *)
Lemma stranded_other_frame (b : t) (f page_id f0 : Z) (pg0 : Page) (r : LRUKReplacer.t)
    (tr : list Event) (n : Z) :
  stranded b f page_id → 0 ≤ f0 → f0 ≠ f →
  (LRUKReplacer.evictable r f → LRUKReplacer.evictable (replacer_ b) f) →
  stranded (mk (pool_size_ b) (vec_set (pages_ b) f0 pg0) (page_table_ b) (free_list_ b) r n tr)
           f page_id.
Proof.
  intros ((pg & Hpg & Hid & Hpin) & Hfree & Hpt & Hev) Hf0 Hne Hr.
  split_and!; projb; [|done..| by intros ?%Hr].
  exists pg. by rewrite vec_at_vec_set_ne.
Qed.

(** The frame that a call installs a page in. *)
Lemma stranded_install (b : t) (f page_id f0 q : Z) (pg0 : Page) (r : LRUKReplacer.t)
    (tr : list Event) (n : Z) :
  stranded b f page_id → 0 ≤ f0 → f0 ≠ f →
  (LRUKReplacer.evictable r f → LRUKReplacer.evictable (replacer_ b) f) →
  stranded (mk (pool_size_ b) (vec_set (pages_ b) f0 pg0) (<[q := f0]> (page_table_ b))
              (free_list_ b) r n tr) f page_id.
Proof.
  intros ((pg & Hpg & Hid & Hpin) & Hfree & Hpt & Hev) Hf0 Hne Hr.
  split_and!; projb; [|done| |by intros ?%Hr].
  - exists pg. by rewrite vec_at_vec_set_ne.
  - intros q' Hq'. apply lookup_insert_Some in Hq' as [[_ ?]|[_ Hq']]; [done|]. by apply Hpt in Hq'.
Qed.

Lemma obtain_frame_stranded (b b1 : t) (got : option Z) (f page_id : Z) :
  inv b → stranded b f page_id → obtain_frame b = Ok (b1, got) →
  stranded b1 f page_id ∧ got ≠ Some f.
Proof.
  intros Hinv Hst Hop. pose proof Hst as ((pg & Hpg & Hid & Hpin) & Hfree & Hpt & Hev).
  unfold obtain_frame in Hop.
  destruct (pop_back (free_list_ b)) as [[rest f0]|] eqn:Hpop.
  - injection Hop as <- <-. apply pop_back_Some in Hpop. split.
    + split_and!; projb; [by exists pg | | done..].
      intros Hin. apply Hfree. rewrite Hpop. apply elem_of_app. by left.
    + intros [= ->]. apply Hfree. rewrite Hpop. apply elem_of_app. right. by left.
  - apply bind_Ok_inv in Hop as ([r [f0|]] & Hevict & Hop).
    + apply bind_Ok_inv in Hop as (pg0 & Hpg0 & [= <- <-]).
      pose proof (inv_wf b Hinv) as Hwf.
      destruct (ReplacerProofs.Evict_flags _ _ _ Hwf Hevict) as (Hf0 & _ & _).
      assert (Hne : f0 ≠ f) by (by intros ->).
      pose proof (evictable_nonneg _ _ Hf0) as Hf0'.
      split; [|congruence].
      split_and!; projb; [|done| |].
      * exists pg. destruct (is_dirty_ pg0); [|done]. by rewrite vec_at_vec_set_ne.
      * intros q Hq. apply lookup_delete_Some in Hq as [_ Hq]. by apply Hpt in Hq.
      * intros Hev'. apply Hev.
        by apply (ReplacerProofs.Evict_other _ _ f0 f Hwf Hevict).
    + injection Hop as <- <-. apply ReplacerProofs.Evict_None in Hevict as ->.
      split; [|done]. split_and!; projb; [by exists pg | done..].
Qed.

Lemma stranded_counter (b : t) (f page_id n : Z) :
  stranded b f page_id →
  stranded (mk (pool_size_ b) (pages_ b) (page_table_ b) (free_list_ b) (replacer_ b) n
              (trace_ b)) f page_id.
Proof. intros Hst. exact Hst. Qed.

(** No call of a client releases a stranded frame. *)
Lemma stranded_step (b b' : t) (f page_id : Z) :
  inv b → stranded b f page_id → client_step b b' → stranded b' f page_id.
Proof.
  intros Hinv Hst (c & _ & Hstep).
  destruct c as [|p|p is_dirty|p| |p|frame_id data]; cbn [step] in Hstep.
  - (* NewPage *)
    apply bind_Ok_inv in Hstep as ([b2 res] & Hop & [= <-]). unfold NewPage in Hop.
    apply bind_Ok_inv in Hop as ([b1 got] & Hget & Hop).
    pose proof Hget as Hget'.
    apply obtain_frame_stranded with (f := f) (page_id := page_id) in Hget as [Hst1 Hgot];
      [|by apply inv_counter | by apply stranded_counter].
    apply obtain_frame_inv in Hget' as (Hinv1 & _ & _ & Hrange); [|by apply inv_counter].
    destruct got as [f0|]; [|by injection Hop as <- _].
    apply bind_Ok_inv in Hop as (pg0 & Hpg0 & Hop).
    apply bind_Ok_inv in Hop as (r1 & H1 & Hop).
    apply bind_Ok_inv in Hop as (r2 & H2 & [= <- _]).
    specialize (Hrange f0 eq_refl).
    apply stranded_install; [done | lia | congruence |].
    destruct (pin_exact_access_first _ _ _ f0 (inv_wf _ Hinv1) ltac:(lia) H1 H2)
      as (_ & Hflag & _).
    apply Hflag. congruence.
  - (* FetchPage *)
    apply bind_Ok_inv in Hstep as ([b2 res] & Hop & [= <-]). unfold FetchPage in Hop.
    destruct (page_table_ b !! p) as [f0|] eqn:Hp.
    + apply bind_Ok_inv in Hop as (pg0 & Hpg0 & Hop).
      apply bind_Ok_inv in Hop as (r1 & H1 & Hop).
      apply bind_Ok_inv in Hop as (r2 & H2 & [= <- _]).
      pose proof (inv_table b Hinv _ _ Hp) as Hrange.
      assert (Hne : f0 ≠ f) by (intros ->; by apply (proj1 (proj2 (proj2 Hst))) in Hp).
      apply stranded_other_frame; [done | lia | done |].
      destruct (pin_exact_access_first _ _ _ f0 (inv_wf _ Hinv) ltac:(lia) H1 H2)
        as (_ & Hflag & _).
      apply Hflag. congruence.
    + apply bind_Ok_inv in Hop as ([b1 got] & Hget & Hop).
      pose proof Hget as Hget'.
      apply obtain_frame_stranded with (f := f) (page_id := page_id) in Hget as [Hst1 Hgot];
        [|done..].
      apply obtain_frame_inv in Hget' as (Hinv1 & _ & _ & Hrange); [|done].
      destruct got as [f0|]; [|by injection Hop as <- _].
      apply bind_Ok_inv in Hop as (pg0 & Hpg0 & Hop).
      apply bind_Ok_inv in Hop as (r1 & H1 & Hop).
      apply bind_Ok_inv in Hop as (r2 & H2 & [= <- _]).
      specialize (Hrange f0 eq_refl).
      apply stranded_install; [done | lia | congruence |].
      destruct (pin_exact_flag_first _ _ _ f0 (inv_wf _ Hinv1) ltac:(lia) H1 H2)
        as (_ & Hflag & _).
      apply Hflag. congruence.
  - (* UnpinPage *)
    apply bind_Ok_inv in Hstep as ([b2 res] & Hop & [= <-]). unfold UnpinPage in Hop.
    destruct (page_table_ b !! p) as [f0|] eqn:Hp; [|by injection Hop as <- _].
    apply bind_Ok_inv in Hop as (pg0 & Hpg0 & Hop).
    pose proof (inv_table b Hinv _ _ Hp) as Hrange.
    assert (Hne : f0 ≠ f) by (intros ->; by apply (proj1 (proj2 (proj2 Hst))) in Hp).
    case_bool_decide as Hzero; [by injection Hop as <- _|].
    case_bool_decide as Hpos.
    + apply bind_Ok_inv in Hop as (r & Hr & [= <- _]).
      apply stranded_other_frame; [done | lia | done |].
      case_bool_decide; [|by injection Hr as <-].
      by apply (ReplacerProofs.SetEvictable_other _ _ f0 f true Hr).
    + injection Hop as <- _. by apply stranded_other_frame; [done | lia | done |].
  - (* FlushPage *)
    apply bind_Ok_inv in Hstep as ([b2 res] & Hop & [= <-]). unfold FlushPage in Hop.
    case_bool_decide; [by injection Hop as <- _|].
    destruct (page_table_ b !! p) as [f0|] eqn:Hp; [|by injection Hop as <- _].
    apply bind_Ok_inv in Hop as (pg0 & Hpg0 & [= <- _]).
    pose proof (inv_table b Hinv _ _ Hp) as Hrange.
    assert (Hne : f0 ≠ f) by (intros ->; by apply (proj1 (proj2 (proj2 Hst))) in Hp).
    by apply stranded_other_frame; [done | lia | done |].
  - (* FlushAllPages *)
    unfold FlushAllPages in Hstep. rewrite flush_frames_spec in Hstep. injection Hstep as <-.
    destruct Hst as ((pg & Hpg & Hid & Hpin) & Hfree & Hpt & Hev).
    split_and!; projb; [|done..].
    apply vec_at_Ok in Hpg as [Hf Hpg].
    eexists. split; [apply vec_at_Ok; split; [done|]; by rewrite list_lookup_fmap, Hpg|].
    by destruct (is_dirty_ pg && negb (bool_decide (page_id_ pg = INVALID_PAGE_ID))).
  - (* DeletePage *)
    apply bind_Ok_inv in Hstep as ([b2 res] & Hop & [= <-]). unfold DeletePage in Hop.
    destruct (page_table_ b !! p) as [f0|] eqn:Hp; [|by injection Hop as <- _].
    apply bind_Ok_inv in Hop as (pg0 & Hpg0 & Hop).
    pose proof (inv_table b Hinv _ _ Hp) as Hrange.
    assert (Hne : f0 ≠ f) by (intros ->; by apply (proj1 (proj2 (proj2 Hst))) in Hp).
    case_bool_decide; [by injection Hop as <- _|].
    apply bind_Ok_inv in Hop as (r & Hr & [= <- _]).
    destruct Hst as ((pg & Hpg & Hid & Hpin) & Hfree & Hpt & Hev).
    split_and!; projb.
    + exists pg. by rewrite vec_at_vec_set_ne by (lia || done).
    + intros Hin. apply elem_of_app in Hin as [Hin|Hin]; [done|].
      apply list_elem_of_singleton in Hin. congruence.
    + intros q Hq. apply lookup_delete_Some in Hq as [_ Hq]. by apply Hpt in Hq.
    + intros Hev'. apply Hev.
      by apply (ReplacerProofs.Remove_other _ _ f0 f Hr).
  - (* a client's write *)
    unfold client_write in Hstep. apply bind_Ok_inv in Hstep as (pg0 & Hpg0 & [= <-]).
    destruct Hst as ((pg & Hpg & Hid & Hpin) & Hfree & Hpt & Hev).
    split_and!; projb; [|done..].
    destruct (decide (frame_id = f)) as [->|Hne].
    + assert (pg0 = pg) as -> by congruence.
      eexists. split; [by eapply vec_at_vec_set_same|done].
    + exists pg. apply vec_at_Ok in Hpg0 as [Hf0 _]. by rewrite vec_at_vec_set_ne.
Qed.

Lemma stranded_steps (pool_size : Z) (replacer_k : N) (b b' : t) (f page_id : Z) :
  0 ≤ pool_size → reachable pool_size replacer_k b → stranded b f page_id →
  rtc client_step b b' → stranded b' f page_id.
Proof.
  intros Hp Hreach Hst Hsteps. induction Hsteps as [b|b b1 b' Hstep _ IH]; [done|].
  apply IH.
  - by eapply reachable_step.
  - eapply stranded_step; [by eapply reachable_inv | done..].
Qed.

(** [FetchPage] does not check that a page id was ever allocated.  Fetching
    the id that [NewPage] will hand out next, while two frames are free,
    and then calling [NewPage], leaves two frames holding the same page id:
    the page table maps the id to the second, and the first is stranded.
    It stays so whatever calls follow: it keeps the page id and pin count
    1, and never enters the page table, the free list or the replacer's
    evictable frames again. *)
Theorem unallocated_fetch_strands_frame (pool_size : Z) (replacer_k : N) (b : t)
    (rest : list Z) (f0 f1 : Z) :
  0 ≤ pool_size → reachable pool_size replacer_k b →
  free_list_ b = rest ++ [f0; f1] → page_table_ b !! next_page_id_ b = None →
  ∃ b1 b2,
    FetchPage b (next_page_id_ b) = Ok (b1, Some f1) ∧
    NewPage b1 = Ok (b2, Some (next_page_id_ b, f0)) ∧
    f0 ≠ f1 ∧ page_table_ b2 !! next_page_id_ b = Some f0 ∧
    ∀ b3, rtc client_step b2 b3 → stranded b3 f1 (next_page_id_ b).
Proof.
  intros Hp Hreach Hfree Hpt.
  destruct (fetch_then_new pool_size replacer_k b rest f0 f1 Hp Hreach Hfree Hpt)
    as (b1 & b2 & pg & Hfetch & Hnew & Hne & Hpt2 & Hpg & Hid & Hpin & Hfree2 & Hnone & Hev).
  exists b1, b2. split_and!; [done..|]. intros b3 Hsteps.
  apply (stranded_steps pool_size replacer_k b2 b3); [done | | | done].
  - eapply reach_NewPage; [|exact Hnew]. eapply reach_FetchPage; [exact Hreach | exact Hfetch].
  - split_and!; [by exists pg | done..].
Qed.

Lemma unallocated_fetch_strands_frame_witness :
  0 ≤ 2 ∧ reachable 2 2 (new 2 2) ∧ free_list_ (new 2 2) = [] ++ [0; 1] ∧
  page_table_ (new 2 2) !! next_page_id_ (new 2 2) = None ∧
  ∃ b1 b2,
    FetchPage (new 2 2) 0 = Ok (b1, Some 1) ∧ NewPage b1 = Ok (b2, Some (0, 0)) ∧
    page_table_ b2 !! 0 = Some 0 ∧ stranded b2 1 0.
Proof.
  split; [lia|]. split; [apply reach_new|]. split; [reflexivity|]. split; [reflexivity|].
  destruct (unallocated_fetch_strands_frame 2 2 (new 2 2) [] 0 1)
    as (b1 & b2 & Hfetch & Hnew & _ & Hpt & Hstays);
    [lia | apply reach_new | reflexivity | reflexivity |].
  exists b1, b2. split; [exact Hfetch|]. split; [exact Hnew|]. split; [exact Hpt|].
  apply Hstays. apply rtc_refl.
Defined.


(** *** What [NewPage] hands out *)

(** The frame that the shared block takes keeps no page-table entry, the
    entries of the other frames stay, and no other frame's page object
    changes. *)
Lemma obtain_frame_taken (b b1 : t) (f : Z) :
  inv b → coherent b → accounted b → obtain_frame b = Ok (b1, Some f) →
  0 ≤ f < pool_size_ b ∧ next_page_id_ b1 = next_page_id_ b ∧
  (∀ x, x ≠ f → vec_at (pages_ b1) x = vec_at (pages_ b) x) ∧
  (∀ q, page_table_ b1 !! q ≠ Some f) ∧
  (∀ q g, g ≠ f → page_table_ b1 !! q = Some g ↔ page_table_ b !! q = Some g).
Proof.
  intros Hinv Hco Hac Hop.
  destruct (obtain_frame_inv b b1 (Some f) Hinv Hop) as (_ & _ & Hnext & Hrange).
  specialize (Hrange f eq_refl). split; [done|]. split; [done|].
  unfold obtain_frame in Hop.
  destruct (pop_back (free_list_ b)) as [[rest f0]|] eqn:Hpop.
  - injection Hop as <- <-. projb. apply pop_back_Some in Hpop.
    split_and!; try done. intros q.
    apply (co_free b Hco). rewrite Hpop. apply elem_of_app. right. by left.
  - apply bind_Ok_inv in Hop as ([r [f0|]] & Hev & Hop); [|done].
    apply bind_Ok_inv in Hop as (pg0 & Hpg0 & [= <- <-]). projb.
    apply vec_at_Ok in Hpg0 as [Hf0 Hpg0]. split_and!.
    + intros x Hne. destruct (is_dirty_ pg0); [|done]. by apply vec_at_vec_set_ne.
    + intros q Hq. apply lookup_delete_Some in Hq as [Hne Hq].
      destruct (co_page b Hco _ _ Hq) as (pg & Hpg & Hid). congruence.
    + intros q g Hg. rewrite lookup_delete_Some. split; [by intros [_ ?]|].
      intros Hq. split; [|done]. intros Heq.
      pose proof (ac_ids b Hac _ _ Hq) as Hq0.
      assert (Hvalid : page_id_ pg0 ≠ INVALID_PAGE_ID) by (unfold INVALID_PAGE_ID; lia).
      pose proof (ac_mapped b Hac f0 pg0 Hf0 Hpg0 Hvalid) as Hpt. congruence.
Qed.

(** With a client that fetches only allocated page ids, a successful
    [NewPage] returns the id [next_page_id_] held and advances the counter
    by one; the frame it returns holds that id with zeroed data, pin count
    1 and a clear dirty flag, so nothing of the frame's previous page shows;
    the page table maps the new id to that frame and nothing else to it,
    the entries of the other frames are as before, and no other frame's
    page object changes. *)
Theorem NewPage_effect (pool_size : Z) (replacer_k : N) (b b' : t) (page_id f : Z) :
  0 ≤ pool_size → reachable_allocated pool_size replacer_k b →
  NewPage b = Ok (b', Some (page_id, f)) →
  page_id = next_page_id_ b ∧ next_page_id_ b' = next_page_id_ b + 1 ∧
  page_table_ b !! page_id = None ∧
  0 ≤ f < pool_size ∧
  vec_at (pages_ b') f = Ok (mkPage zero_data page_id 1 false) ∧
  ¬ LRUKReplacer.evictable (replacer_ b') f ∧
  (∀ x, x ≠ f → vec_at (pages_ b') x = vec_at (pages_ b) x) ∧
  (∀ q, page_table_ b' !! q = Some f ↔ q = page_id) ∧
  (∀ q g, g ≠ f → page_table_ b' !! q = Some g ↔ page_table_ b !! q = Some g).
Proof.
  intros Hp Hwb Hop.
  pose proof (reachable_allocated_accounted pool_size replacer_k b Hp Hwb) as Hac.
  apply reachable_allocated_reachable in Hwb.
  pose proof (reachable_inv pool_size replacer_k b Hp Hwb) as Hinv.
  pose proof (reachable_coherent pool_size replacer_k b Hp Hwb) as Hco.
  pose proof (reachable_pool_size pool_size replacer_k b Hwb) as Hps.
  destruct (NewPage_pins b b' page_id f Hinv Hop) as (_ & _ & _ & Hpinned).
  assert (Hfresh : page_table_ b !! next_page_id_ b = None).
  { destruct (page_table_ b !! next_page_id_ b) as [g|] eqn:Hg; [|done].
    pose proof (ac_ids b Hac _ _ Hg). lia. }
  unfold NewPage in Hop. apply bind_Ok_inv in Hop as ([b1 got] & Hget & Hop).
  destruct got as [f'|]; [|discriminate].
  apply bind_Ok_inv in Hop as (pg & Hpg & Hop).
  apply bind_Ok_inv in Hop as (r1 & H1 & Hop).
  apply bind_Ok_inv in Hop as (r2 & H2 & [= <- <- ->]).
  apply obtain_frame_taken in Hget as (Hf & Hnext & Hpages & Hgone & Hkeep);
    [|by apply inv_counter | by apply coherent_counter
     |apply accounted_counter; [done | lia]].
  cbn [pool_size_ pages_ page_table_ next_page_id_] in Hf, Hnext, Hpages, Hkeep.
  projb. split_and!; [done | lia | done | lia | lia | | done | | |].
  - by eapply vec_at_vec_set_same.
  - intros x Hne. rewrite vec_at_vec_set_ne by (done || lia). by apply Hpages.
  - intros q. destruct (decide (q = next_page_id_ b)) as [->|Hne].
    + by rewrite lookup_insert_eq.
    + rewrite lookup_insert_ne by done. split; [|done]. intros Hq. by apply Hgone in Hq.
  - intros q g Hg. destruct (decide (q = next_page_id_ b)) as [->|Hne].
    + rewrite lookup_insert_eq, Hfresh. split; [|done]. by intros [= ->].
    + rewrite lookup_insert_ne by done. by apply Hkeep.
Qed.

Lemma NewPage_effect_witness :
  0 ≤ 1 ∧ reachable_allocated 1 2 pool1_unpinned ∧
  ∃ b', NewPage pool1_unpinned = Ok (b', Some (1, 0)) ∧
        vec_at (pages_ b') 0 = Ok (mkPage zero_data 1 1 false) ∧
        page_table_ b' !! 0 = None.
Proof.
  split; [lia|]. split; [exact pool1_unpinned_allocated|].
  assert (Hnew : NewPage pool1_unpinned = Ok (pool1_evicted, Some (1, 0)))
    by (vm_compute; reflexivity).
  exists pool1_evicted. split; [exact Hnew|].
  destruct (NewPage_effect 1 2 pool1_unpinned pool1_evicted 1 0 ltac:(lia)
              pool1_unpinned_allocated Hnew)
    as (_ & _ & _ & _ & Hpage & _ & _ & Hframe & _).
  split; [exact Hpage|].
  destruct (page_table_ pool1_evicted !! 0) as [g|] eqn:Hg; [|reflexivity].
  assert (g = 0) as -> by (vm_compute in Hg; congruence).
  apply Hframe in Hg. discriminate.
Defined.

End BufferPoolProofs.

(** * Properties of the copy-on-write trie *)

Module TrieProofs.

Import Trie.

Local Open Scope nat_scope.

Lemma preserves_refl (h : heap) : preserves h h.
Proof. by split. Qed.

Lemma preserves_trans (h1 h2 h3 : heap) :
  preserves h1 h2 → preserves h2 h3 → preserves h1 h3.
Proof.
  intros [Hl1 H1] [Hl2 H2]. split; [lia|]. intros p Hp.
  rewrite H2 by lia. by apply H1.
Qed.

Lemma children_with_children (n : TrieNode) (m : gmap ascii nat) :
  children_ (with_children n m) = m.
Proof. by destruct n. Qed.

Lemma is_value_node_with_children (n : TrieNode) (m : gmap ascii nat) :
  is_value_node_ (with_children n m) = is_value_node_ n.
Proof. by destruct n. Qed.

Lemma deref_Ok (h : heap) (p : nat) (n : TrieNode) : deref h p = Ok n ↔ h !! p = Some n.
Proof. unfold deref. destruct (h !! p); split; congruence. Qed.

Lemma deref_in_range (h : heap) (p : nat) : p < length h → ∃ n, deref h p = Ok n.
Proof.
  intros Hp. destruct (lookup_lt_is_Some_2 h p Hp) as [n Hn]. exists n. by apply deref_Ok.
Qed.

Lemma closed_alloc (h : heap) (n : TrieNode) :
  closed h → (∀ c q, children_ n !! c = Some q → q < length h) → closed (h ++ [n]).
Proof.
  intros Hc Hn p n' c q Hp Hq. rewrite length_app. simpl.
  apply lookup_app_Some in Hp as [Hp|[_ Hp]].
  - specialize (Hc _ _ _ _ Hp Hq). lia.
  - apply list_lookup_singleton_Some in Hp as [_ <-]. specialize (Hn _ _ Hq). lia.
Qed.

Lemma preserves_alloc (h : heap) (n : TrieNode) : preserves h (h ++ [n]).
Proof.
  split; [rewrite length_app; lia|]. intros p Hp. by apply lookup_app_l.
Qed.

Lemma lookup_alloc (h : heap) (n : TrieNode) : (h ++ [n]) !! length h = Some n.
Proof. by apply list_lookup_middle. Qed.

Lemma set_child_spec (h : heap) (p : nat) (c : ascii) (q : nat) (n : TrieNode) :
  h !! p = Some n →
  set_child h p c q = Ok (<[p := with_children n (<[c := q]> (children_ n))]> h).
Proof. intros Hp. unfold set_child, deref. by rewrite Hp. Qed.

Lemma closed_set_child (h : heap) (p : nat) (c : ascii) (q : nat) (n : TrieNode) :
  closed h → h !! p = Some n → q < length h →
  closed (<[p := with_children n (<[c := q]> (children_ n))]> h).
Proof.
  intros Hc Hp Hq p' n' c' q' Hp' Hq'. rewrite length_insert.
  apply list_lookup_insert_Some in Hp' as [(-> & <- & _)|[_ Hp']]; [|by eapply Hc].
  rewrite children_with_children in Hq'.
  apply lookup_insert_Some in Hq' as [[_ <-]|[_ Hq']]; [done | by eapply Hc].
Qed.

Lemma closed_erase_child (h : heap) (p : nat) (c : ascii) (n : TrieNode) :
  closed h → h !! p = Some n →
  closed (<[p := with_children n (delete c (children_ n))]> h).
Proof.
  intros Hc Hp p' n' c' q' Hp' Hq'. rewrite length_insert.
  apply list_lookup_insert_Some in Hp' as [(-> & <- & _)|[_ Hp']]; [|by eapply Hc].
  rewrite children_with_children in Hq'.
  apply lookup_delete_Some in Hq' as [_ Hq']. by eapply Hc.
Qed.

(** *** Reading is unaffected by what is allocated later *)

Lemma walk_preserves (h h' : heap) (r : nat) (key : list ascii) :
  closed h → r < length h → preserves h h' → walk h' r key = walk h r key.
Proof.
  intros Hc Hr [_ Hp]. revert r Hr. induction key as [|c key IH]; intros r Hr; simpl; [done|].
  unfold deref. rewrite Hp by done.
  destruct (h !! r) as [n|] eqn:Hn; simpl; [|done].
  destruct (children_ n !! c) as [q|] eqn:Hq; [|done].
  apply IH. by eapply Hc.
Qed.

Lemma walk_in_range (h : heap) (r p : nat) (key : list ascii) :
  closed h → r < length h → walk h r key = Ok (Some p) → p < length h.
Proof.
  intros Hc. revert r. induction key as [|c key IH]; intros r Hr; simpl.
  - by intros [= <-].
  - intros H. apply bind_Ok_inv in H as (n & Hn & H). apply deref_Ok in Hn.
    destruct (children_ n !! c) as [q|] eqn:Hq; [|discriminate].
    eapply IH; [|done]. by eapply Hc.
Qed.

Lemma walk_defined (h : heap) (r : nat) (key : list ascii) :
  closed h → r < length h → ∃ res, walk h r key = Ok res.
Proof.
  intros Hc. revert r. induction key as [|c key IH]; intros r Hr; simpl; [by eexists|].
  destruct (deref_in_range h r Hr) as [n Hn]. rewrite Hn. simpl. apply deref_Ok in Hn.
  destruct (children_ n !! c) as [q|] eqn:Hq; [|by eexists].
  apply IH. by eapply Hc.
Qed.

Lemma value_at_preserves (h h' : heap) (p : nat) (T : ValueType) :
  p < length h → preserves h h' → value_at h' p T = value_at h p T.
Proof. intros Hp [_ Hpres]. unfold value_at, deref. by rewrite Hpres. Qed.

Lemma Get_preserves (h h' : heap) (root : option nat) (key : list ascii) (T : ValueType) :
  closed h → valid_root h root → preserves h h' → Get h' root key T = Get h root key T.
Proof.
  intros Hc Hroot Hpres. destruct root as [r|]; simpl in *; [|done].
  rewrite (walk_preserves h h') by done.
  destruct (walk h r key) as [[p|]| |] eqn:Hw; simpl; try done.
  apply value_at_preserves; [|done]. by eapply walk_in_range.
Qed.

Lemma Get_defined (h : heap) (root : option nat) (key : list ascii) (T : ValueType) :
  closed h → valid_root h root → ∃ res, Get h root key T = Ok res.
Proof.
  intros Hc Hroot. destruct root as [r|]; simpl in *; [|by eexists].
  destruct (walk_defined h r key Hc Hroot) as [[p|] Hw]; rewrite Hw; simpl; [|by eexists].
  apply (walk_in_range h r p key Hc Hroot) in Hw.
  destruct (deref_in_range h p Hw) as [n Hn]. unfold value_at. rewrite Hn. simpl.
  destruct n as [m|m v]; simpl; [by eexists|]. case_decide; by eexists.
Qed.

(** *** [Put] *)

(** One step of [Put]: a new node is allocated and linked under [ptr]. *)
Lemma link_new_child (h : heap) (ptr : nat) (c : ascii) (n new_node : TrieNode) :
  closed h → h !! ptr = Some n →
  (∀ c' q, children_ new_node !! c' = Some q → q < length h) →
  ∃ h2, set_child (h ++ [new_node]) ptr c (length h) = Ok h2 ∧
    closed h2 ∧ length h2 = S (length h) ∧
    h2 !! length h = Some new_node ∧
    h2 !! ptr = Some (with_children n (<[c := length h]> (children_ n))) ∧
    ∀ p, p ≠ ptr → h2 !! p = (h ++ [new_node]) !! p.
Proof.
  intros Hc Hptr Hnew.
  assert (Hlt : ptr < length h) by (by eapply lookup_lt_Some).
  assert (Hptr1 : (h ++ [new_node]) !! ptr = Some n) by (by apply lookup_app_l_Some).
  rewrite (set_child_spec _ _ _ _ _ Hptr1). eexists. split; [done|]. split_and!.
  - apply closed_set_child; [by apply closed_alloc | done |].
    rewrite length_app. simpl. lia.
  - rewrite length_insert, length_app. simpl. lia.
  - rewrite list_lookup_insert_ne by lia. apply lookup_alloc.
  - apply list_lookup_insert_eq. rewrite length_app. lia.
  - intros p Hp. by apply list_lookup_insert_ne.
Qed.

Lemma put_walk_spec (rest : list ascii) (h : heap) (ptr : nat) (c : ascii) (v : Value) :
  closed h → ptr < length h →
  ∃ h', put_walk h ptr c rest v = Ok h' ∧ closed h' ∧ length h ≤ length h' ∧
    (∀ p, p < length h → p ≠ ptr → h' !! p = h !! p) ∧
    ∃ q chs, walk h' ptr (c :: rest) = Ok (Some q) ∧
             h' !! q = Some (NodeWithValue chs (std_move v)).
Proof.
  revert h ptr c. induction rest as [|c' rest IH]; intros h ptr c Hc Hptr.
  - (* the last character *)
    destruct (lookup_lt_is_Some_2 h ptr Hptr) as [n Hn].
    simpl. unfold deref at 1. rewrite Hn. simpl.
    destruct (children_ n !! c) as [old|] eqn:Hold.
    + assert (Hold_lt : old < length h) by (by eapply Hc).
      destruct (lookup_lt_is_Some_2 h old Hold_lt) as [o Ho].
      unfold deref. rewrite Ho. simpl.
      destruct (link_new_child h ptr c n (NodeWithValue (children_ o) (std_move v)) Hc Hn)
        as (h2 & -> & Hc2 & Hlen & Hnew & Hptr2 & Hother).
      { intros c0 q Hq. by eapply Hc. }
      eexists. split; [done|]. split_and!; [done | lia | |].
      * intros p Hp Hne. rewrite Hother by done. by apply lookup_app_l.
      * exists (length h), (children_ o). unfold deref. rewrite Hptr2. simpl.
        by rewrite children_with_children, lookup_insert_eq.
    + destruct (link_new_child h ptr c n (NodeWithValue ∅ (std_move v)) Hc Hn)
        as (h2 & -> & Hc2 & Hlen & Hnew & Hptr2 & Hother).
      { intros c0 q Hq. simpl in Hq. by rewrite lookup_empty in Hq. }
      eexists. split; [done|]. split_and!; [done | lia | |].
      * intros p Hp Hne. rewrite Hother by done. by apply lookup_app_l.
      * exists (length h), ∅. unfold deref. rewrite Hptr2. simpl.
        by rewrite children_with_children, lookup_insert_eq.
  - (* an inner character *)
    destruct (lookup_lt_is_Some_2 h ptr Hptr) as [n Hn].
    cbn [put_walk]. unfold deref at 1. rewrite Hn. cbn [bind].
    assert (Hstep : ∀ new_node,
      (∀ c0 q, children_ new_node !! c0 = Some q → q < length h) →
      ∃ h', (let* h2 := set_child (h ++ [new_node]) ptr c (length h) in
             put_walk h2 (length h) c' rest v) = Ok h' ∧
        closed h' ∧ length h ≤ length h' ∧
        (∀ p, p < length h → p ≠ ptr → h' !! p = h !! p) ∧
        ∃ q chs, walk h' ptr (c :: c' :: rest) = Ok (Some q) ∧
                 h' !! q = Some (NodeWithValue chs (std_move v))).
    { intros new_node Hnew_node.
      destruct (link_new_child h ptr c n new_node Hc Hn Hnew_node)
        as (h2 & -> & Hc2 & Hlen & Hnew & Hptr2 & Hother).
      cbn [bind].
      destruct (IH h2 (length h) c' Hc2) as (h' & Hput & Hc' & Hlen' & Hkeep & q & chs & Hw & Hq);
        [lia|].
      exists h'. split; [done|]. split_and!; [done | lia | |].
      - intros p Hp Hne. rewrite Hkeep by lia. rewrite Hother by done. by apply lookup_app_l.
      - exists q, chs. split; [|done].
        change (walk h' ptr (c :: c' :: rest))
          with (let* n0 := deref h' ptr in
                match children_ n0 !! c with
                | Some child => walk h' child (c' :: rest)
                | None => Ok None
                end).
        unfold deref. rewrite Hkeep, Hptr2 by lia. cbn [bind].
        by rewrite children_with_children, lookup_insert_eq. }
    destruct (children_ n !! c) as [old|] eqn:Hold.
    + assert (Hold_lt : old < length h) by (by eapply Hc).
      destruct (lookup_lt_is_Some_2 h old Hold_lt) as [o Ho].
      unfold deref at 1. rewrite Ho. cbn [bind alloc].
      apply Hstep. intros c0 q Hq. by eapply Hc.
    + cbn [alloc]. apply Hstep. intros c0 q Hq. simpl in Hq. by rewrite lookup_empty in Hq.
Qed.

(** The move keeps the type, and a second move changes nothing more. *)
Lemma type_of_std_move (v : Value) : type_of (std_move v) = type_of v.
Proof. by destruct v. Qed.

Lemma std_move_idemp (v : Value) : std_move (std_move v) = std_move v.
Proof. by destruct v. Qed.

Lemma value_at_value (h : heap) (q : nat) (chs : gmap ascii nat) (v : Value)
    (T : ValueType) :
  h !! q = Some (NodeWithValue chs v) →
  value_at h q T = Ok (if decide (type_of v = T) then Some v else None).
Proof. intros Hq. unfold value_at, deref. rewrite Hq. simpl. by case_decide. Qed.

Lemma Put_rooted_spec (h : heap) (r : nat) (key : list ascii) (v : Value) :
  closed h → r < length h →
  ∃ h' r', Put_rooted h r key v = Ok (h', r') ∧ closed h' ∧ r' < length h' ∧
    preserves h h' ∧
    ∀ T, Get h' (Some r') key T =
         Ok (if decide (type_of v = T) then Some (std_move v) else None).
Proof.
  intros Hc Hr. destruct (lookup_lt_is_Some_2 h r Hr) as [rn Hrn].
  unfold Put_rooted, deref. rewrite Hrn. cbn [bind alloc].
  assert (Hc1 : closed (h ++ [rn])).
  { apply closed_alloc; [done|]. intros c q Hq. by eapply Hc. }
  destruct key as [|c rest].
  - eexists _, _. split; [done|]. split_and!.
    + apply closed_alloc; [done|]. intros c q Hq. simpl in Hq.
      rewrite length_app. simpl. specialize (Hc _ _ _ _ Hrn Hq). lia.
    + rewrite !length_app. simpl. lia.
    + eapply preserves_trans; apply preserves_alloc.
    + intros T. simpl. rewrite <- (type_of_std_move v).
      apply (value_at_value _ _ (children_ rn)). apply lookup_alloc.
  - destruct (put_walk_spec rest (h ++ [rn]) (length h) c v Hc1)
      as (h' & -> & Hc' & Hlen & Hkeep & q & chs & Hw & Hq).
    { rewrite length_app. simpl. lia. }
    rewrite length_app in Hlen, Hkeep. simpl in Hlen, Hkeep.
    eexists _, _. split; [done|]. split_and!; [done | lia | |].
    + split; [lia|]. intros p Hp. rewrite Hkeep by lia. by apply lookup_app_l.
    + intros T. unfold Get. rewrite Hw. cbn [bind]. rewrite <- (type_of_std_move v).
      by eapply value_at_value.
Qed.

Lemma Put_spec (h : heap) (root : option nat) (key : list ascii) (v : Value) :
  closed h → valid_root h root →
  ∃ h' r', Put h root key v = Ok (h', r') ∧ closed h' ∧ r' < length h' ∧
    preserves h h' ∧
    ∀ T, Get h' (Some r') key T =
         Ok (if decide (type_of v = T) then Some (std_move v) else None).
Proof.
  intros Hc Hroot. destruct root as [r|]; simpl in Hroot; [by apply Put_rooted_spec|].
  unfold Put. cbn [alloc].
  destruct (Put_rooted_spec (h ++ [Node ∅]) (length h) key (std_move v))
    as (h' & r' & Hput & Hc' & Hr' & Hpres & Hget).
  - apply closed_alloc; [done|]. intros c q Hq. simpl in Hq. by rewrite lookup_empty in Hq.
  - rewrite length_app. simpl. lia.
  - exists h', r'. split_and!; try done.
    + eapply preserves_trans; [apply preserves_alloc | done].
    + intros T. by rewrite Hget, type_of_std_move, std_move_idemp.
Qed.

(** *** [Remove] *)

Lemma Get_cons (h : heap) (r : nat) (c : ascii) (key : list ascii) (T : ValueType)
    (n : TrieNode) :
  h !! r = Some n →
  Get h (Some r) (c :: key) T =
  match children_ n !! c with
  | Some child => Get h (Some child) key T
  | None => Ok None
  end.
Proof.
  intros Hr. unfold Get. cbn [walk]. unfold deref at 1. rewrite Hr. cbn [bind].
  by destruct (children_ n !! c).
Qed.

Lemma Dfs_spec (key : list ascii) (h : heap) (r : nat) :
  closed h → r < length h →
  ∃ h' res, Dfs h (Some r) key = Ok (h', res) ∧ closed h' ∧ preserves h h' ∧
    valid_root h' res ∧ ∀ T, Get h' res key T = Ok None.
Proof.
  revert h r. induction key as [|c key IH]; intros h r Hc Hr;
    destruct (lookup_lt_is_Some_2 h r Hr) as [n Hn];
    cbn [Dfs]; unfold deref at 1; rewrite Hn; cbn [bind].
  - (* the node of the key *)
    case_bool_decide as Hempty.
    + exists h, None. split_and!; try done; apply preserves_refl.
    + cbn [alloc]. eexists _, _. split; [done|]. split_and!.
      * apply closed_alloc; [done|]. intros c q Hq. by eapply Hc.
      * apply preserves_alloc.
      * simpl. rewrite length_app. simpl. lia.
      * intros T. simpl. unfold value_at, deref. by rewrite lookup_alloc.
  - destruct (children_ n !! c) as [child|] eqn:Hchild.
    + (* the branch exists *)
      assert (Hchild_lt : child < length h) by (by eapply Hc).
      destruct (IH h child Hc Hchild_lt) as (h1 & new_node & -> & Hc1 & Hpres1 & Hvalid1 & Hget1).
      cbn [bind]. destruct Hpres1 as [Hlen1 Hkeep1].
      assert (Hn1 : h1 !! r = Some n) by (by rewrite Hkeep1).
      unfold deref at 1. rewrite Hn1. cbn [bind alloc].
      assert (Hc2 : closed (h1 ++ [n])).
      { apply closed_alloc; [done|]. intros c0 q Hq. by eapply Hc1. }
      assert (Hnode : (h1 ++ [n]) !! length h1 = Some n) by apply lookup_alloc.
      destruct new_node as [p|]; simpl in Hvalid1.
      * rewrite (set_child_spec _ _ _ _ _ Hnode). cbn [bind].
        eexists _, _. split; [done|].
        assert (Hpres3 : preserves h1
                  (<[length h1 := with_children n (<[c := p]> (children_ n))]> (h1 ++ [n]))).
        { split; [rewrite length_insert, length_app; lia|]. intros q Hq.
          rewrite list_lookup_insert_ne by lia. by apply lookup_app_l. }
        split_and!.
        -- apply closed_set_child; [done..|]. rewrite length_app. simpl. lia.
        -- eapply preserves_trans; [|exact Hpres3]. by split.
        -- simpl. rewrite length_insert, length_app. simpl. lia.
        -- intros T. erewrite Get_cons.
           2:{ apply list_lookup_insert_eq. rewrite length_app. simpl. lia. }
           rewrite children_with_children, lookup_insert_eq.
           rewrite (Get_preserves h1) by done. apply Hget1.
      * unfold erase_child, deref at 1. rewrite Hnode. cbn [bind].
        unfold deref. rewrite list_lookup_insert_eq by (rewrite length_app; simpl; lia).
        cbn [bind].
        assert (Hpres3 : preserves h
                  (<[length h1 := with_children n (delete c (children_ n))]> (h1 ++ [n]))).
        { split; [rewrite length_insert, length_app; lia|]. intros q Hq.
          rewrite list_lookup_insert_ne by lia. rewrite lookup_app_l by lia. by apply Hkeep1. }
        destruct (negb (is_value_node_ _) && bool_decide (_ = ∅)).
        -- eexists _, None. split; [done|]. split_and!; try done.
           by apply closed_erase_child.
        -- eexists _, _. split; [done|]. split_and!; try done.
           ++ by apply closed_erase_child.
           ++ simpl. rewrite length_insert, length_app. simpl. lia.
           ++ intros T. erewrite Get_cons.
              2:{ apply list_lookup_insert_eq. rewrite length_app. simpl. lia. }
              by rewrite children_with_children, lookup_delete_eq.
    + (* the branch is missing *)
      exists h, (Some r). split_and!; try done; try apply preserves_refl.
      intros T. by rewrite (Get_cons _ _ _ _ _ n), Hchild.
Qed.

Lemma Remove_spec (h : heap) (r : nat) (key : list ascii) :
  closed h → r < length h →
  ∃ h' res, Remove h (Some r) key = Ok (h', res) ∧ closed h' ∧ preserves h h' ∧
    valid_root h' res ∧ ∀ T, Get h' res key T = Ok None.
Proof. apply Dfs_spec. Qed.

(** *** Round trip and persistence *)

Lemma closed_nil : closed [].
Proof. intros p n c q Hp. by rewrite lookup_nil in Hp. Qed.




Lemma heap_a_built : Put [] None ["a"%char] (VUInt32 1) = Ok (heap_a, 1).
Proof. vm_compute. reflexivity. Qed.

(** C6 as stated fails: on the trie that already holds 1 under "a",
    putting 2 under "a" and removing "a" leaves nothing under "a", while
    the original trie still answers 1. *)
Lemma Put_Remove_counterexample :
  Put [] None ["a"%char] (VUInt32 1) = Ok (heap_a, 1%nat) ∧
  ∃ before after,
    get_before_and_after heap_a (Some 1%nat) ["a"%char] (VUInt32 2) TUInt32
      = Ok (before, after) ∧
    before = Some (VUInt32 1) ∧ after = None ∧ before ≠ after.
Proof.
  split; [exact heap_a_built|].
  exists (Some (VUInt32 1)), None. split_and!; [by vm_compute | done..].
Qed.

(** C6 (amended): after [t1 = t0.Put(k, v)] and [t2 = t1.Remove(k)], [Get]
    of [k] on [t2] is absent at every type, so it agrees with [Get] of [k]
    on [t0] whenever that one is absent; no node of the heap that [t0]
    lives in is changed, and every [Get] on [t0] (and on [t1]) returns
    afterwards what it returned before. *)
Theorem Put_Remove_persistence (h0 : heap) (t0 : option nat) (k : list ascii) (v : Value) :
  closed h0 → valid_root h0 t0 →
  ∃ h1 t1 h2 t2,
    Put h0 t0 k v = Ok (h1, t1) ∧ Remove h1 (Some t1) k = Ok (h2, t2) ∧
    (∀ T, Get h2 t2 k T = Ok None) ∧
    (∀ T, Get h0 t0 k T = Ok None → Get h0 t0 k T = Get h2 t2 k T) ∧
    preserves h0 h1 ∧ preserves h1 h2 ∧
    (∀ k' T, Get h1 t0 k' T = Get h0 t0 k' T ∧ Get h2 t0 k' T = Get h0 t0 k' T) ∧
    (∀ k' T, Get h2 (Some t1) k' T = Get h1 (Some t1) k' T).
Proof.
  intros Hc Hroot.
  destruct (Put_spec h0 t0 k v Hc Hroot) as (h1 & t1 & Hput & Hc1 & Ht1 & Hpres1 & _).
  destruct (Remove_spec h1 t1 k Hc1 Ht1) as (h2 & t2 & Hrem & Hc2 & Hpres2 & Ht2 & Hget).
  exists h1, t1, h2, t2. split_and!; try done.
  - intros T ->. by rewrite Hget.
  - intros k' T. split.
    + by apply Get_preserves.
    + apply Get_preserves; [done..|]. by eapply preserves_trans.
  - intros k' T. by apply Get_preserves.
Qed.

Lemma Put_Remove_persistence_witness :
  closed [] ∧ valid_root [] None ∧
  ∃ h1 t1 h2 t2,
    Put [] None ["a"%char] (VUInt32 1) = Ok (h1, t1) ∧
    Remove h1 (Some t1) ["a"%char] = Ok (h2, t2) ∧
    Get h2 t2 ["a"%char] TUInt32 = Ok None.
Proof.
  split; [exact closed_nil|]. split; [exact I|].
  destruct (Put_Remove_persistence [] None ["a"%char] (VUInt32 1) closed_nil I)
    as (h1 & t1 & h2 & t2 & Hput & Hrem & Hget & _).
  exists h1, t1, h2, t2. split; [exact Hput|]. split; [exact Hrem|]. apply Hget.
Defined.

(** C7 fails on the code: [Remove] on the empty trie dereferences the null
    root, whatever the key. *)
Theorem Remove_empty_trie_undefined (h : heap) (key : list ascii) :
  Remove h None key = Undefined.
Proof. unfold Remove. by destruct key. Qed.

(** Removing the only key yields the empty trie, on which a second [Remove]
    is undefined. *)
Lemma Remove_twice_undefined :
  (let* (h1, t1) := Remove heap_a (Some 1) ["a"%char] in
   Ok (t1, Remove h1 t1 ["a"%char]))
  = Ok (None, Undefined).
Proof. vm_compute. reflexivity. Qed.

(** *** [Remove] on a trie that has a root *)

Lemma Get_nil (h : heap) (r : nat) (T : ValueType) : Get h (Some r) [] T = value_at h r T.
Proof. done. Qed.

Lemma value_at_with_children (h : heap) (p q : nat) (n : TrieNode) (m : gmap ascii nat)
    (T : ValueType) :
  h !! p = Some (with_children n m) → h !! q = Some n → value_at h p T = value_at h q T.
Proof.
  intros Hp Hq. unfold value_at, deref. rewrite Hp, Hq. simpl.
  rewrite is_value_node_with_children. by destruct n.
Qed.

(** When the branch of [key] is missing below [r], the trie that [Dfs]
    returns answers every [Get] as the trie at [r] does. *)
Lemma Dfs_branch_missing (key : list ascii) (h : heap) (r : nat) :
  closed h → r < length h → walk h r key = Ok None →
  ∃ h' r', Dfs h (Some r) key = Ok (h', Some r') ∧ closed h' ∧ r' < length h' ∧
    preserves h h' ∧ ∀ k' T, Get h' (Some r') k' T = Get h (Some r) k' T.
Proof.
  revert h r. induction key as [|c key IH]; intros h r Hc Hr Hwalk; [discriminate|].
  destruct (lookup_lt_is_Some_2 h r Hr) as [n Hn].
  cbn [walk] in Hwalk. unfold deref in Hwalk. rewrite Hn in Hwalk. cbn [bind] in Hwalk.
  cbn [Dfs]. unfold deref at 1. rewrite Hn. cbn [bind].
  destruct (children_ n !! c) as [child|] eqn:Hchild.
  - assert (Hchild_lt : child < length h) by (by eapply Hc).
    destruct (IH h child Hc Hchild_lt Hwalk) as (h1 & p & -> & Hc1 & Hvalid & Hpres1 & Hsame).
    cbn [bind]. destruct Hpres1 as [Hlen1 Hkeep1].
    assert (Hn1 : h1 !! r = Some n) by (by rewrite Hkeep1).
    unfold deref at 1. rewrite Hn1. cbn [bind alloc].
    assert (Hnode : (h1 ++ [n]) !! length h1 = Some n) by apply lookup_alloc.
    rewrite (set_child_spec _ _ _ _ _ Hnode). cbn [bind].
    set (h3 := <[length h1 := with_children n (<[c := p]> (children_ n))]> (h1 ++ [n])).
    assert (Hpres3 : preserves h1 h3).
    { split; [unfold h3; rewrite length_insert, length_app; lia|]. intros q Hq.
      unfold h3. rewrite list_lookup_insert_ne by lia. by apply lookup_app_l. }
    assert (Hh3 : h3 !! length h1 = Some (with_children n (<[c := p]> (children_ n)))).
    { unfold h3. apply list_lookup_insert_eq. rewrite length_app. simpl. lia. }
    exists h3, (length h1). split; [done|]. split.
    { unfold h3. apply closed_set_child; [|done|rewrite length_app; simpl; lia].
      apply closed_alloc; [done|]. intros c0 q Hq. by eapply Hc1. }
    split; [unfold h3; rewrite length_insert, length_app; simpl; lia|]. split.
    { eapply preserves_trans; [|exact Hpres3]. by split. }
    intros k' T. destruct k' as [|c' k'].
    + rewrite !Get_nil. etransitivity.
      * eapply (value_at_with_children h3 _ r); [exact Hh3|].
        destruct Hpres3 as [_ Hk3]. rewrite Hk3 by lia. exact Hn1.
      * apply value_at_preserves; [done|]. eapply preserves_trans; [|exact Hpres3]. by split.
    + rewrite (Get_cons h3 _ _ _ _ _ Hh3), (Get_cons h r _ _ _ n Hn).
      rewrite children_with_children. destruct (decide (c' = c)) as [->|Hne].
      * rewrite lookup_insert_eq, Hchild.
        rewrite (Get_preserves h1 h3) by done. apply Hsame.
      * rewrite lookup_insert_ne by done.
        destruct (children_ n !! c') as [q|] eqn:Hq; [|done].
        apply Get_preserves; [done | by eapply Hc |].
        eapply preserves_trans; [|exact Hpres3]. by split.
  - exists h, r. split_and!; try done; apply preserves_refl.
Qed.

(** [Remove] on a trie with a root returns a trie, and when the key's
    branch is missing that trie holds what the original holds. *)
Theorem Remove_rooted (h : heap) (r : nat) (key : list ascii) :
  closed h → (r < length h)%nat →
  (∃ h' res, Remove h (Some r) key = Ok (h', res) ∧ ∀ T, Get h' res key T = Ok None) ∧
  (walk h r key = Ok None →
   ∃ h' r', Remove h (Some r) key = Ok (h', Some r') ∧
     ∀ k' T, Get h' (Some r') k' T = Get h (Some r) k' T).
Proof.
  intros Hc Hr. split.
  - destruct (Remove_spec h r key Hc Hr) as (h' & res & Hop & _ & _ & _ & Hget).
    by exists h', res.
  - intros Hwalk.
    destruct (Dfs_branch_missing key h r Hc Hr Hwalk) as (h' & r' & Hop & _ & _ & _ & Hsame).
    by exists h', r'.
Qed.

Lemma heap_a_closed : closed heap_a.
Proof.
  destruct (Put_spec [] None ["a"%char] (VUInt32 1) closed_nil I)
    as (h' & r' & Hput & Hc & _).
  rewrite heap_a_built in Hput. by injection Hput as <- <-.
Defined.

Lemma Remove_rooted_witness :
  closed heap_a ∧ (1 < length heap_a)%nat ∧
  ∃ h' res, Remove heap_a (Some 1%nat) ["b"%char] = Ok (h', res).
Proof.
  split; [exact heap_a_closed|]. split; [simpl; lia|].
  destruct (Remove_rooted heap_a 1 ["b"%char] heap_a_closed) as [(h' & res & Hop & _) _];
    [simpl; lia|].
  by exists h', res.
Defined.

(** Type discrimination: [Get] at another type than the one stored finds
    nothing. *)
Theorem Put_Get_type_mismatch (h : heap) (root : option nat) (key : list ascii)
    (v : Value) (T : ValueType) :
  closed h → valid_root h root → T ≠ type_of v →
  ∃ h' r', Put h root key v = Ok (h', r') ∧ Get h' (Some r') key T = Ok None.
Proof.
  intros Hc Hroot HT.
  destruct (Put_spec h root key v Hc Hroot) as (h' & r' & Hput & _ & _ & _ & Hget).
  exists h', r'. split; [done|]. rewrite Hget. by rewrite decide_False.
Qed.

Lemma Put_Get_type_mismatch_witness :
  closed [] ∧ valid_root [] None ∧ TUInt64 ≠ type_of (VUInt32 1) ∧
  ∃ h' r', Put [] None ["a"%char; "b"%char] (VUInt32 1) = Ok (h', r') ∧
           Get h' (Some r') ["a"%char; "b"%char] TUInt64 = Ok None.
Proof.
  split; [exact closed_nil|]. split; [exact I|]. split; [discriminate|].
  apply (Put_Get_type_mismatch [] None ["a"%char; "b"%char] (VUInt32 1) TUInt64 closed_nil I).
  discriminate.
Defined.

(** *** The other keys *)

(** [Get] on the empty key looks at the node only. *)
Lemma value_at_node (h : heap) (p : nat) (n : TrieNode) (T : ValueType) :
  h !! p = Some n →
  value_at h p T =
  match n with
  | NodeWithValue _ v => Ok (if decide (type_of v = T) then Some v else None)
  | Node _ => Ok None
  end.
Proof.
  intros Hp. unfold value_at, deref. rewrite Hp. cbn [bind].
  destruct n as [m|m v]; simpl; [done|]. by case_decide.
Qed.

(** Two nodes with the same value part give the same answer for the empty
    key. *)
Lemma value_at_relinked (h h' : heap) (p p' : nat) (n : TrieNode) (m : gmap ascii nat)
    (T : ValueType) :
  h !! p = Some n → h' !! p' = Some (with_children n m) →
  value_at h' p' T = value_at h p T.
Proof.
  intros Hp Hp'. rewrite (value_at_node _ _ _ _ Hp), (value_at_node _ _ _ _ Hp').
  by destruct n.
Qed.

(** Below an old heap [h0] that both [h1] and [h2] extend, a trie reads
    the same in both. *)
Lemma Get_old (h0 h1 h2 : heap) (x : nat) (key : list ascii) (T : ValueType) :
  closed h0 → preserves h0 h1 → preserves h0 h2 → x < length h0 →
  Get h1 (Some x) key T = Get h2 (Some x) key T.
Proof.
  intros Hc H1 H2 Hx.
  rewrite (Get_preserves h0 h1), (Get_preserves h0 h2); done.
Qed.

(** Two nodes that agree on the child for [c] read the same below [c]. *)
Lemma Get_cons_old (h0 h1 h2 : heap) (p1 p2 : nat) (n1 n2 : TrieNode) (c : ascii)
    (key : list ascii) (T : ValueType) :
  closed h0 → preserves h0 h1 → preserves h0 h2 →
  h1 !! p1 = Some n1 → h2 !! p2 = Some n2 →
  children_ n1 !! c = children_ n2 !! c →
  (∀ q, children_ n2 !! c = Some q → q < length h0) →
  Get h1 (Some p1) (c :: key) T = Get h2 (Some p2) (c :: key) T.
Proof.
  intros Hc H1 H2 Hp1 Hp2 Heq Hlt.
  rewrite (Get_cons _ _ _ _ _ _ Hp1), (Get_cons _ _ _ _ _ _ Hp2), Heq.
  destruct (children_ n2 !! c) as [q|] eqn:Hq; [|done].
  by apply (Get_old h0); [..|apply Hlt].
Qed.

(** A copy of a node of the old heap reads as the original. *)
Lemma Get_copy (h0 h1 h2 : heap) (p1 p2 : nat) (n : TrieNode) (key : list ascii)
    (T : ValueType) :
  closed h0 → preserves h0 h1 → preserves h0 h2 →
  h1 !! p1 = Some n → h2 !! p2 = Some n →
  (∀ c q, children_ n !! c = Some q → q < length h0) →
  Get h1 (Some p1) key T = Get h2 (Some p2) key T.
Proof.
  intros Hc H1 H2 Hp1 Hp2 Hlt. destruct key as [|c key].
  - rewrite !Get_nil. by rewrite (value_at_node _ _ _ _ Hp1), (value_at_node _ _ _ _ Hp2).
  - apply (Get_cons_old h0 h1 h2 p1 p2 n n); try done. intros q. apply Hlt.
Qed.

Lemma Get_leaf (h : heap) (p : nat) (n : TrieNode) (c : ascii) (key : list ascii)
    (T : ValueType) :
  h !! p = Some n → children_ n = ∅ → Get h (Some p) (c :: key) T = Ok None.
Proof. intros Hp He. by rewrite (Get_cons _ _ _ _ _ _ Hp), He, lookup_empty. Qed.

(** A node whose child for [c] was replaced: the keys that do not start
    with [c] read as before. *)
Lemma Get_relinked (h0 h h' : heap) (ptr q : nat) (c : ascii) (n : TrieNode)
    (k' : list ascii) (T : ValueType) :
  closed h0 → preserves h0 h → preserves h0 h' →
  h !! ptr = Some n → (∀ c0 x, children_ n !! c0 = Some x → x < length h0) →
  h' !! ptr = Some (with_children n (<[c := q]> (children_ n))) →
  (∀ k, k' = c :: k →
     Get h' (Some q) k T =
     match children_ n !! c with
     | Some old => Get h (Some old) k T
     | None => Ok None
     end) →
  Get h' (Some ptr) k' T = Get h (Some ptr) k' T.
Proof.
  intros Hc0 Hpres Hpres' Hn Hkids Hn' Hsub. destruct k' as [|c0 k].
  - rewrite !Get_nil. by eapply value_at_relinked.
  - destruct (decide (c0 = c)) as [->|Hne].
    + rewrite (Get_cons _ _ _ _ _ _ Hn), (Get_cons _ _ _ _ _ _ Hn').
      rewrite children_with_children, lookup_insert_eq. by apply Hsub.
    + apply (Get_cons_old h0 h' h ptr ptr (with_children n (<[c := q]> (children_ n))) n);
        try done.
      * by rewrite children_with_children, lookup_insert_ne.
      * intros x. apply Hkids.
Qed.

(** What [put_walk] changes below [ptr]: the key it was given, nothing else.
    [h0] is the heap before [Put] began, in which [ptr], a copy made
    since, does not lie. *)
Lemma put_walk_frame (rest : list ascii) (h0 h : heap) (ptr : nat) (c : ascii)
    (v : Value) (n : TrieNode) (h' : heap) :
  closed h0 → preserves h0 h → length h0 ≤ ptr → closed h →
  h !! ptr = Some n → (∀ c0 q, children_ n !! c0 = Some q → q < length h0) →
  put_walk h ptr c rest v = Ok h' →
  preserves h0 h' ∧
  ∀ k' T, k' ≠ c :: rest → Get h' (Some ptr) k' T = Get h (Some ptr) k' T.
Proof.
  revert h ptr c n h'. induction rest as [|c' rest IH];
    intros h ptr c n h' Hc0 Hpres Hptr0 Hc Hn Hkids Hput;
    assert (Hptr : ptr < length h) by (by eapply lookup_lt_Some);
    assert (Hpres1 : ∀ new_node, preserves h0 (h ++ [new_node]))
      by (intros new_node; eapply preserves_trans; [done | apply preserves_alloc]).
  - (* the last character *)
    simpl in Hput. unfold deref at 1 in Hput. rewrite Hn in Hput. cbn [bind] in Hput.
    assert (Hlast : ∃ new_node,
      (∀ c0 q, children_ new_node !! c0 = Some q → q < length h0) ∧
      (∀ k T, k ≠ [] →
         Get (h ++ [new_node]) (Some (length h)) k T =
         match children_ n !! c with
         | Some old => Get h (Some old) k T
         | None => Ok None
         end) ∧
      set_child (h ++ [new_node]) ptr c (length h) = Ok h').
    { destruct (children_ n !! c) as [old|] eqn:Hold.
      - assert (Hold0 : old < length h0) by (by eapply Hkids).
        destruct (lookup_lt_is_Some_2 h0 old Hold0) as [o Ho0].
        assert (Ho : h !! old = Some o) by (destruct Hpres as [_ Hk]; by rewrite Hk).
        unfold deref in Hput. rewrite Ho in Hput. cbn [bind alloc] in Hput.
        exists (NodeWithValue (children_ o) (std_move v)). split_and!; [|  |done].
        + intros c0 q Hq. by eapply Hc0.
        + intros [|c1 k] T Hk; [done|].
          apply (Get_cons_old h0 _ _ _ _ (NodeWithValue (children_ o) (std_move v)) o); try done.
          * apply lookup_alloc.
          * intros q Hq. by eapply Hc0.
      - cbn [alloc] in Hput. exists (NodeWithValue ∅ (std_move v)). split_and!; [| |done].
        + intros c0 q Hq. simpl in Hq. by rewrite lookup_empty in Hq.
        + intros [|c1 k] T Hk; [done|].
          by apply (Get_leaf _ _ (NodeWithValue ∅ (std_move v))); [apply lookup_alloc|]. }
    destruct Hlast as (new_node & Hnew_kids & Hnew_get & Hset).
    destruct (link_new_child h ptr c n new_node Hc Hn) as (h2 & Hset2 & Hc2 & Hlen & Hnew & Hptr2 & Hother).
    { intros c0 q Hq. specialize (Hnew_kids _ _ Hq). destruct Hpres. lia. }
    rewrite Hset in Hset2. injection Hset2 as <-.
    assert (Hpres' : preserves h0 h').
    { destruct Hpres as [Hl Hk]. split; [lia|]. intros p Hp.
      rewrite Hother by lia. rewrite lookup_app_l by lia. by apply Hk. }
    split; [done|]. intros k' T Hk'.
    apply (Get_relinked h0 h h' ptr (length h) c n); try done.
    intros k ->. rewrite <- Hnew_get by congruence.
    apply (Get_copy h0 _ _ _ _ new_node); try done. apply lookup_alloc.
  - (* an inner character *)
    cbn [put_walk] in Hput. unfold deref at 1 in Hput. rewrite Hn in Hput. cbn [bind] in Hput.
    assert (Hinner : ∃ new_node h2,
      (∀ c0 q, children_ new_node !! c0 = Some q → q < length h0) ∧
      (∀ k T,
         Get (h ++ [new_node]) (Some (length h)) k T =
         match children_ n !! c with
         | Some old => Get h (Some old) k T
         | None => Ok None
         end) ∧
      set_child (h ++ [new_node]) ptr c (length h) = Ok h2 ∧
      put_walk h2 (length h) c' rest v = Ok h').
    { destruct (children_ n !! c) as [old|] eqn:Hold.
      - assert (Hold0 : old < length h0) by (by eapply Hkids).
        destruct (lookup_lt_is_Some_2 h0 old Hold0) as [o Ho0].
        assert (Ho : h !! old = Some o) by (destruct Hpres as [_ Hk]; by rewrite Hk).
        unfold deref at 1 in Hput. rewrite Ho in Hput. cbn [bind alloc] in Hput.
        apply bind_Ok_inv in Hput as (h2 & Hset & Hput).
        exists o, h2. split_and!; [| |done..].
        + intros c0 q Hq. by eapply Hc0.
        + intros k T. apply (Get_copy h0 _ _ _ _ o); try done.
          * apply lookup_alloc.
          * intros c0 q Hq. by eapply Hc0.
      - cbn [alloc] in Hput. apply bind_Ok_inv in Hput as (h2 & Hset & Hput).
        exists (Node ∅), h2. split_and!; [| |done..].
        + intros c0 q Hq. simpl in Hq. by rewrite lookup_empty in Hq.
        + intros [|c1 k] T.
          * rewrite Get_nil. by rewrite (value_at_node _ _ (Node ∅)) by apply lookup_alloc.
          * by apply (Get_leaf _ _ (Node ∅)); [apply lookup_alloc|]. }
    destruct Hinner as (new_node & h2 & Hnew_kids & Hnew_get & Hset & Hput2).
    destruct (link_new_child h ptr c n new_node Hc Hn) as (h2' & Hset2 & Hc2 & Hlen & Hnew & Hptr2 & Hother).
    { intros c0 q Hq. specialize (Hnew_kids _ _ Hq). destruct Hpres. lia. }
    rewrite Hset in Hset2. injection Hset2 as <-.
    assert (Hpres2 : preserves h0 h2).
    { destruct Hpres as [Hl Hk]. split; [lia|]. intros p Hp.
      rewrite Hother by lia. rewrite lookup_app_l by lia. by apply Hk. }
    destruct (IH h2 (length h) c' new_node h' Hc0 Hpres2) as [Hpres' Hget']; try done.
    { destruct Hpres. lia. }
    destruct (put_walk_spec rest h2 (length h) c' v Hc2) as (h'' & Hput'' & _ & _ & Hkeep & _);
      [lia|].
    rewrite Hput2 in Hput''. injection Hput'' as <-.
    split; [done|]. intros k' T Hk'.
    apply (Get_relinked h0 h h' ptr (length h) c n); try done.
    { rewrite Hkeep by lia. done. }
    intros k ->. rewrite Hget' by congruence. rewrite <- Hnew_get.
    apply (Get_copy h0 _ _ _ _ new_node); try done. apply lookup_alloc.
Qed.

Lemma Put_rooted_frame (h : heap) (r : nat) (key : list ascii) (v : Value)
    (h' : heap) (r' : nat) :
  closed h → r < length h → Put_rooted h r key v = Ok (h', r') →
  ∀ k' T, k' ≠ key → Get h' (Some r') k' T = Get h (Some r) k' T.
Proof.
  intros Hc Hr Hput k' T Hk'. destruct (lookup_lt_is_Some_2 h r Hr) as [rn Hrn].
  unfold Put_rooted, deref in Hput. rewrite Hrn in Hput. cbn [bind alloc] in Hput.
  assert (Hkids : ∀ c q, children_ rn !! c = Some q → q < length h)
    by (intros c q Hq; by eapply Hc).
  assert (Hc1 : closed (h ++ [rn])) by (by apply closed_alloc).
  destruct key as [|c rest].
  - injection Hput as <- <-. destruct k' as [|c k]; [done|].
    apply (Get_cons_old h _ _ _ _ (NodeWithValue (children_ rn) (std_move v)) rn); try done.
    + eapply preserves_trans; apply preserves_alloc.
    + apply lookup_alloc.
    + intros q. apply Hkids.
  - apply bind_Ok_inv in Hput as (h2 & Hput & [= <- <-]).
    destruct (put_walk_frame rest h (h ++ [rn]) (length h) c v rn h2) as [Hpres Hget];
      try done.
    + apply preserves_alloc.
    + apply lookup_alloc.
    + rewrite Hget by done.
      apply (Get_copy h _ _ _ _ rn); try done.
      * apply preserves_alloc.
      * apply lookup_alloc.
Qed.

(** [Put] leaves every other key as it was. *)
Theorem Put_Get_other (h : heap) (root : option nat) (key : list ascii) (v : Value) :
  closed h → valid_root h root →
  ∃ h' r', Put h root key v = Ok (h', r') ∧
    ∀ k' T, k' ≠ key → Get h' (Some r') k' T = Get h root k' T.
Proof.
  intros Hc Hroot.
  destruct (Put_spec h root key v Hc Hroot) as (h' & r' & Hput & _).
  exists h', r'. split; [done|]. intros k' T Hk'.
  destruct root as [r|]; simpl in Hroot.
  - by apply (Put_rooted_frame h r key v).
  - unfold Put in Hput. cbn [alloc] in Hput.
    rewrite (Put_rooted_frame (h ++ [Node ∅]) (length h) key (std_move v) h' r'); try done.
    + destruct k' as [|c k].
      * rewrite Get_nil. by rewrite (value_at_node _ _ (Node ∅)) by apply lookup_alloc.
      * by apply (Get_leaf _ _ (Node ∅)); [apply lookup_alloc|].
    + apply closed_alloc; [done|]. intros c q Hq. simpl in Hq. by rewrite lookup_empty in Hq.
    + rewrite length_app. simpl. lia.
Qed.

Lemma Put_Get_other_witness :
  closed heap_a ∧ valid_root heap_a (Some 1%nat) ∧
  ∃ h' r', Put heap_a (Some 1%nat) ["b"%char] (VUInt32 2) = Ok (h', r') ∧
           Get h' (Some r') ["a"%char] TUInt32 = Ok (Some (VUInt32 1)).
Proof.
  split; [exact heap_a_closed|]. split; [simpl; lia|].
  destruct (Put_Get_other heap_a (Some 1%nat) ["b"%char] (VUInt32 2) heap_a_closed)
    as (h' & r' & Hput & Hother); [simpl; lia|].
  exists h', r'. split; [exact Hput|]. rewrite Hother by discriminate. reflexivity.
Defined.

(** What [Dfs] changes: the key it was given, nothing else. *)
Lemma Dfs_frame (key : list ascii) (h : heap) (r : nat) (h' : heap) (res : option nat) :
  closed h → r < length h → Dfs h (Some r) key = Ok (h', res) →
  ∀ k' T, k' ≠ key → Get h' res k' T = Get h (Some r) k' T.
Proof.
  revert h r h' res. induction key as [|c key IH]; intros h r h' res Hc Hr Hdfs k' T Hk';
    destruct (lookup_lt_is_Some_2 h r Hr) as [n Hn];
    assert (Hkids : ∀ c0 q, children_ n !! c0 = Some q → q < length h)
      by (intros c0 q Hq; by eapply Hc);
    cbn [Dfs] in Hdfs; unfold deref at 1 in Hdfs; rewrite Hn in Hdfs; cbn [bind] in Hdfs.
  - (* the node of the key *)
    destruct k' as [|c k]; [done|]. case_bool_decide as Hempty.
    + injection Hdfs as <- <-. symmetry. by eapply Get_leaf.
    + cbn [alloc] in Hdfs. injection Hdfs as <- <-.
      apply (Get_cons_old h _ _ _ _ (Node (children_ n)) n); try done.
      * apply preserves_alloc.
      * apply lookup_alloc.
      * intros q. apply Hkids.
  - destruct (children_ n !! c) as [child|] eqn:Hchild; [|by injection Hdfs as <- <-].
    assert (Hchild_lt : child < length h) by (by eapply Hc).
    destruct (Dfs_spec key h child Hc Hchild_lt)
      as (h1 & new_node & Hsub & Hc1 & Hpres1 & Hvalid1 & _).
    specialize (IH h child h1 new_node Hc Hchild_lt Hsub).
    rewrite Hsub in Hdfs. cbn [bind] in Hdfs.
    assert (Hn1 : h1 !! r = Some n) by (destruct Hpres1 as [_ Hk]; by rewrite Hk).
    unfold deref at 1 in Hdfs. rewrite Hn1 in Hdfs. cbn [bind alloc] in Hdfs.
    assert (Hnode : (h1 ++ [n]) !! length h1 = Some n) by apply lookup_alloc.
    assert (Hlen1 : length h ≤ length h1) by (by destruct Hpres1).
    destruct new_node as [p|]; simpl in Hvalid1.
    + rewrite (set_child_spec _ _ _ _ _ Hnode) in Hdfs. cbn [bind] in Hdfs.
      injection Hdfs as <- <-.
      set (h3 := <[length h1 := with_children n (<[c := p]> (children_ n))]> (h1 ++ [n])).
      assert (Hpres3 : preserves h1 h3).
      { split; [unfold h3; rewrite length_insert, length_app; lia|]. intros q Hq.
        unfold h3. rewrite list_lookup_insert_ne by lia. by apply lookup_app_l. }
      assert (Hnode3 : h3 !! length h1 = Some (with_children n (<[c := p]> (children_ n)))).
      { apply list_lookup_insert_eq. rewrite length_app. simpl. lia. }
      destruct k' as [|c0 k].
      * rewrite !Get_nil. by eapply value_at_relinked.
      * destruct (decide (c0 = c)) as [->|Hne].
        -- rewrite (Get_cons _ _ _ _ _ _ Hn), (Get_cons _ _ _ _ _ _ Hnode3).
           rewrite children_with_children, lookup_insert_eq, Hchild.
           rewrite (Get_preserves h1 h3) by done. apply IH. congruence.
        -- apply (Get_cons_old h h3 h _ _ (with_children n (<[c := p]> (children_ n))) n);
             try done.
           ++ by eapply preserves_trans.
           ++ by rewrite children_with_children, lookup_insert_ne.
           ++ intros q. apply Hkids.
    + unfold erase_child, deref at 1 in Hdfs. rewrite Hnode in Hdfs. cbn [bind] in Hdfs.
      set (h3 := <[length h1 := with_children n (delete c (children_ n))]> (h1 ++ [n])) in *.
      assert (Hnode3 : h3 !! length h1 = Some (with_children n (delete c (children_ n)))).
      { apply list_lookup_insert_eq. rewrite length_app. simpl. lia. }
      unfold deref in Hdfs. rewrite Hnode3 in Hdfs. cbn [bind] in Hdfs.
      rewrite is_value_node_with_children, children_with_children in Hdfs.
      assert (Hpres3 : preserves h h3).
      { split; [unfold h3; rewrite length_insert, length_app; lia|]. intros q Hq.
        unfold h3. rewrite list_lookup_insert_ne by lia. rewrite lookup_app_l by lia.
        destruct Hpres1 as [_ Hk]. by apply Hk. }
      (* below [c] the original holds nothing but, possibly, the key *)
      assert (Hgone : ∀ k, k ≠ key → Get h (Some child) k T = Ok None).
      { intros k Hk. by rewrite <- IH. }
      destruct (negb (is_value_node_ n) && bool_decide (delete c (children_ n) = ∅)) eqn:Hprune;
        injection Hdfs as <- <-.
      * (* the copy is dropped: it held no value and no other child *)
        apply andb_true_iff in Hprune as [Hval Hkids0].
        apply negb_true_iff in Hval. apply bool_decide_eq_true in Hkids0.
        symmetry. destruct k' as [|c0 k].
        -- rewrite Get_nil. rewrite (value_at_node _ _ _ _ Hn). by destruct n.
        -- rewrite (Get_cons _ _ _ _ _ _ Hn). destruct (decide (c0 = c)) as [->|Hne].
           ++ rewrite Hchild. apply Hgone. congruence.
           ++ assert (children_ n !! c0 = None) as ->; [|done].
              rewrite <- (lookup_delete_ne (children_ n) c c0) by done.
              by rewrite Hkids0, lookup_empty.
      * destruct k' as [|c0 k].
        -- rewrite !Get_nil. by eapply value_at_relinked.
        -- destruct (decide (c0 = c)) as [->|Hne].
           ++ rewrite (Get_cons _ _ _ _ _ _ Hn), (Get_cons _ _ _ _ _ _ Hnode3).
              rewrite children_with_children, lookup_delete_eq, Hchild.
              symmetry. apply Hgone. congruence.
           ++ apply (Get_cons_old h h3 h _ _ (with_children n (delete c (children_ n))) n);
                try done.
              ** by rewrite children_with_children, lookup_delete_ne.
              ** intros q. apply Hkids.
Qed.

(** [Remove] leaves every other key as it was. *)
Theorem Remove_Get_other (h : heap) (r : nat) (key : list ascii) :
  closed h → (r < length h)%nat →
  ∃ h' res, Remove h (Some r) key = Ok (h', res) ∧
    ∀ k' T, k' ≠ key → Get h' res k' T = Get h (Some r) k' T.
Proof.
  intros Hc Hr. destruct (Remove_spec h r key Hc Hr) as (h' & res & Hrm & _).
  exists h', res. split; [done|]. by apply (Dfs_frame key h r).
Qed.

Lemma Remove_Get_other_witness :
  closed heap_a ∧ (1 < length heap_a)%nat ∧
  ∃ h' res, Remove heap_a (Some 1%nat) ["a"%char; "b"%char] = Ok (h', res) ∧
            Get h' res ["a"%char] TUInt32 = Ok (Some (VUInt32 1)).
Proof.
  split; [exact heap_a_closed|]. split; [simpl; lia|].
  destruct (Remove_Get_other heap_a 1%nat ["a"%char; "b"%char] heap_a_closed)
    as (h' & res & Hrm & Hother); [simpl; lia|].
  exists h', res. split; [exact Hrm|]. rewrite Hother by discriminate. reflexivity.
Defined.

(** *** Path copying *)

Lemma put_walk_length (rest : list ascii) (h : heap) (ptr : nat) (c : ascii) (v : Value)
    (h' : heap) :
  put_walk h ptr c rest v = Ok h' → length h' = length h + length rest + 1.
Proof.
  revert h ptr c h'. induction rest as [|c' rest IH]; intros h ptr c h' Hput;
    cbn [put_walk] in Hput; apply bind_Ok_inv in Hput as (n & Hn & Hput).
  - assert (Hset : ∃ new_node, set_child (h ++ [new_node]) ptr c (length h) = Ok h').
    { destruct (children_ n !! c) as [old|].
      - apply bind_Ok_inv in Hput as (o & Ho & Hput). cbn [alloc] in Hput. by eexists.
      - cbn [alloc] in Hput. by eexists. }
    destruct Hset as (new_node & Hset). apply bind_Ok_inv in Hset as (n1 & _ & [= <-]).
    rewrite length_insert, length_app. simpl. lia.
  - assert (Hset : ∃ new_node h2, set_child (h ++ [new_node]) ptr c (length h) = Ok h2 ∧
                                  put_walk h2 (length h) c' rest v = Ok h').
    { destruct (children_ n !! c) as [old|].
      - apply bind_Ok_inv in Hput as (o & Ho & Hput). cbn [alloc] in Hput.
        apply bind_Ok_inv in Hput as (h2 & Hset & Hput). by eexists _, _.
      - cbn [alloc] in Hput. apply bind_Ok_inv in Hput as (h2 & Hset & Hput). by eexists _, _. }
    destruct Hset as (new_node & h2 & Hset & Hput2).
    apply bind_Ok_inv in Hset as (n1 & _ & [= <-]).
    rewrite (IH _ _ _ _ Hput2), length_insert, length_app. simpl. lia.
Qed.

Lemma Dfs_length (key : list ascii) (h : heap) (root : option nat) (h' : heap)
    (res : option nat) :
  Dfs h root key = Ok (h', res) → length h' ≤ length h + length key + 1.
Proof.
  revert h root h' res. induction key as [|c key IH]; intros h root h' res Hdfs;
    cbn [Dfs] in Hdfs; destruct root as [r|]; try discriminate;
    apply bind_Ok_inv in Hdfs as (n & Hn & Hdfs).
  - case_bool_decide; cbn [alloc] in Hdfs; injection Hdfs as <- <-; [simpl; lia|].
    rewrite length_app. simpl. lia.
  - destruct (children_ n !! c) as [child|]; [|injection Hdfs as <- <-; simpl; lia].
    apply bind_Ok_inv in Hdfs as ([h1 new_node] & Hsub & Hdfs).
    apply IH in Hsub.
    apply bind_Ok_inv in Hdfs as (rn & Hrn & Hdfs). cbn [alloc] in Hdfs.
    destruct new_node as [p|].
    + apply bind_Ok_inv in Hdfs as (h3 & Hset & [= <- <-]).
      apply bind_Ok_inv in Hset as (n1 & _ & [= <-]).
      rewrite length_insert, length_app. simpl. lia.
    + apply bind_Ok_inv in Hdfs as (h3 & Hset & Hdfs).
      apply bind_Ok_inv in Hdfs as (nd & _ & Hdfs).
      apply bind_Ok_inv in Hset as (n1 & _ & [= <-]).
      destruct (_ && _); injection Hdfs as <- <-;
        rewrite length_insert, length_app; simpl; lia.
Qed.

(** Path copying: [Put] allocates one node for each character of the key
    and one for the root (one more on an empty trie, one more for the empty
    key, whose copy of the root goes unused), [Remove] at most one for each
    character and one more, and neither writes to a node that was there
    before. *)
Theorem path_copying (h : heap) (root : option nat) (key : list ascii) (v : Value) :
  closed h → valid_root h root →
  (∃ h' r', Put h root key v = Ok (h', r') ∧ preserves h h' ∧
     length h' = length h + length key + 1 +
                 (if root is None then 1 else 0) + (if key is [] then 1 else 0)) ∧
  (∀ r, root = Some r →
     ∃ h' res, Remove h root key = Ok (h', res) ∧ preserves h h' ∧
       length h' ≤ length h + length key + 1).
Proof.
  intros Hc Hroot. split.
  - destruct (Put_spec h root key v Hc Hroot) as (h' & r' & Hput & _ & _ & Hpres & _).
    exists h', r'. split_and!; [done..|].
    assert (Hrooted : ∀ h0 r0 v0, Put_rooted h0 r0 key v0 = Ok (h', r') →
              length h' = length h0 + length key + 1 + (if key is [] then 1 else 0)).
    { intros h0 r0 v0 Hp. unfold Put_rooted in Hp. apply bind_Ok_inv in Hp as (rn & _ & Hp).
      cbn [alloc] in Hp. destruct key as [|c rest].
      - injection Hp as <- <-. rewrite !length_app. simpl. lia.
      - apply bind_Ok_inv in Hp as (h2 & Hp & [= <- <-]).
        rewrite (put_walk_length _ _ _ _ _ _ Hp), length_app. simpl. lia. }
    destruct root as [r|].
    + rewrite (Hrooted h r v Hput). lia.
    + unfold Put in Hput. cbn [alloc] in Hput.
      rewrite (Hrooted _ _ _ Hput), length_app. simpl. lia.
  - intros r ->. simpl in Hroot.
    destruct (Remove_spec h r key Hc Hroot) as (h' & res & Hrm & _ & Hpres & _).
    exists h', res. split_and!; [done..|]. by eapply Dfs_length.
Qed.

Lemma path_copying_witness :
  closed [] ∧ valid_root [] None ∧
  ∃ h' r', Put [] None ["a"%char; "b"%char] (VUInt32 1) = Ok (h', r') ∧ length h' = 4.
Proof.
  split; [exact closed_nil|]. split; [exact I|].
  destruct (path_copying [] None ["a"%char; "b"%char] (VUInt32 1) closed_nil I)
    as [(h' & r' & Hput & _ & Hlen) _].
  exists h', r'. split; [exact Hput | exact Hlen].
Defined.

(** *** No dead leaves *)

Lemma no_dead_leaf_node (h : heap) (r : nat) (n : TrieNode) :
  h !! r = Some n →
  no_dead_leaf h (Some r) ↔
  (children_ n = ∅ → is_value_node_ n = true) ∧
  ∀ c q, children_ n !! c = Some q → no_dead_leaf h (Some q).
Proof.
  intros Hr. split.
  - intros Hnd. split.
    + intros He. by apply (Hnd r [] r n).
    + intros c q Hq r' key p n' [= <-] Hw Hp He. apply (Hnd r (c :: key) p n'); try done.
      cbn [walk]. unfold deref. rewrite Hr. cbn [bind]. by rewrite Hq.
  - intros [Hleaf Hkids] r' key p n' [= <-] Hw Hp He. destruct key as [|c key].
    + injection Hw as <-. rewrite Hr in Hp. injection Hp as <-. by apply Hleaf.
    + cbn [walk] in Hw. unfold deref in Hw. rewrite Hr in Hw. cbn [bind] in Hw.
      destruct (children_ n !! c) as [q|] eqn:Hq; [|discriminate].
      by apply (Hkids c q Hq q key p n').
Qed.

Lemma no_dead_leaf_preserves (h h' : heap) (x : nat) :
  closed h → x < length h → preserves h h' →
  no_dead_leaf h (Some x) → no_dead_leaf h' (Some x).
Proof.
  intros Hc Hx Hpres Hnd r key p n [= <-] Hw Hp He.
  rewrite (walk_preserves h h') in Hw by done.
  pose proof (walk_in_range h x p key Hc Hx Hw) as Hlt.
  destruct Hpres as [_ Hk]. rewrite Hk in Hp by done. by apply (Hnd x key p n).
Qed.

Lemma no_dead_leaf_None (h : heap) : no_dead_leaf h None.
Proof. by intros r key p n. Qed.

Lemma Dfs_no_dead_leaf (key : list ascii) (h : heap) (r : nat) (h' : heap)
    (res : option nat) :
  closed h → r < length h → no_dead_leaf h (Some r) →
  Dfs h (Some r) key = Ok (h', res) → no_dead_leaf h' res.
Proof.
  revert h r h' res. induction key as [|c key IH]; intros h r h' res Hc Hr Hnd Hdfs;
    destruct (lookup_lt_is_Some_2 h r Hr) as [n Hn];
    pose proof (proj1 (no_dead_leaf_node h r n Hn) Hnd) as [Hleaf Hkids];
    assert (Hlt : ∀ c0 q, children_ n !! c0 = Some q → q < length h)
      by (intros c0 q Hq; by eapply Hc);
    cbn [Dfs] in Hdfs; unfold deref at 1 in Hdfs; rewrite Hn in Hdfs; cbn [bind] in Hdfs.
  - case_bool_decide as Hempty.
    + injection Hdfs as <- <-. apply no_dead_leaf_None.
    + cbn [alloc] in Hdfs. injection Hdfs as <- <-.
      apply (no_dead_leaf_node _ _ (Node (children_ n))); [apply lookup_alloc|].
      split; [done|]. intros c q Hq.
      apply (no_dead_leaf_preserves h); [done | by eapply Hlt | apply preserves_alloc |].
      by eapply Hkids.
  - destruct (children_ n !! c) as [child|] eqn:Hchild; [|by injection Hdfs as <- <-].
    assert (Hchild_lt : child < length h) by (by eapply Hc).
    destruct (Dfs_spec key h child Hc Hchild_lt)
      as (h1 & new_node & Hsub & Hc1 & Hpres1 & Hvalid1 & _).
    specialize (IH h child h1 new_node Hc Hchild_lt (Hkids _ _ Hchild) Hsub).
    rewrite Hsub in Hdfs. cbn [bind] in Hdfs.
    assert (Hn1 : h1 !! r = Some n) by (destruct Hpres1 as [_ Hk]; by rewrite Hk).
    unfold deref at 1 in Hdfs. rewrite Hn1 in Hdfs. cbn [bind alloc] in Hdfs.
    assert (Hnode : (h1 ++ [n]) !! length h1 = Some n) by apply lookup_alloc.
    assert (Hlen1 : length h ≤ length h1) by (by destruct Hpres1).
    assert (Hold : ∀ m q c0, children_ n !! c0 = Some q →
              preserves h (<[length h1 := m]> (h1 ++ [n])) →
              no_dead_leaf (<[length h1 := m]> (h1 ++ [n])) (Some q)).
    { intros m q c0 Hq Hp. apply (no_dead_leaf_preserves h); [done | by eapply Hlt | done |].
      by eapply Hkids. }
    assert (Hpres3 : ∀ m, preserves h1 (<[length h1 := m]> (h1 ++ [n]))).
    { intros m. split; [rewrite length_insert, length_app; lia|]. intros q Hq.
      rewrite list_lookup_insert_ne by lia. by apply lookup_app_l. }
    assert (Hnode3 : ∀ m, <[length h1 := m]> (h1 ++ [n]) !! length h1 = Some m).
    { intros m. apply list_lookup_insert_eq. rewrite length_app. simpl. lia. }
    destruct new_node as [p|]; simpl in Hvalid1.
    + rewrite (set_child_spec _ _ _ _ _ Hnode) in Hdfs. cbn [bind] in Hdfs.
      injection Hdfs as <- <-.
      apply (no_dead_leaf_node _ _ _ (Hnode3 _)). rewrite children_with_children. split.
      * intros He. exfalso. apply (insert_non_empty (children_ n) c p He).
      * intros c0 q Hq. apply lookup_insert_Some in Hq as [[<- <-]|[Hne Hq]].
        -- by apply (no_dead_leaf_preserves h1).
        -- apply (Hold _ _ c0 Hq). by eapply preserves_trans.
    + unfold erase_child, deref at 1 in Hdfs. rewrite Hnode in Hdfs. cbn [bind] in Hdfs.
      unfold deref in Hdfs. rewrite Hnode3 in Hdfs. cbn [bind] in Hdfs.
      rewrite is_value_node_with_children, children_with_children in Hdfs.
      destruct (negb (is_value_node_ n) && bool_decide (delete c (children_ n) = ∅)) eqn:Hprune;
        injection Hdfs as <- <-; [apply no_dead_leaf_None|].
      apply (no_dead_leaf_node _ _ _ (Hnode3 _)).
      rewrite children_with_children, is_value_node_with_children. split.
      * intros He. apply andb_false_iff in Hprune as [Hv|Hk].
        -- by apply negb_false_iff in Hv.
        -- by apply bool_decide_eq_false in Hk.
      * intros c0 q Hq. apply lookup_delete_Some in Hq as [Hne Hq].
        apply (Hold _ _ c0 Hq). by eapply preserves_trans.
Qed.

Lemma put_walk_no_dead_leaf (rest : list ascii) (h0 h : heap) (ptr : nat) (c : ascii)
    (v : Value) (n : TrieNode) (h' : heap) :
  closed h0 → preserves h0 h → length h0 ≤ ptr → closed h →
  h !! ptr = Some n →
  (∀ c0 q, children_ n !! c0 = Some q → q < length h0 ∧ no_dead_leaf h0 (Some q)) →
  put_walk h ptr c rest v = Ok h' →
  no_dead_leaf h' (Some ptr).
Proof.
  revert h ptr c n h'. induction rest as [|c' rest IH];
    intros h ptr c n h' Hc0 Hpres Hptr0 Hc Hn Hkids Hput;
    assert (Hptr : ptr < length h) by (by eapply lookup_lt_Some);
    cbn [put_walk] in Hput; unfold deref at 1 in Hput; rewrite Hn in Hput;
    cbn [bind] in Hput.
  - assert (Hlast : ∃ new_node,
      is_value_node_ new_node = true ∧
      (∀ c0 q, children_ new_node !! c0 = Some q → q < length h0 ∧ no_dead_leaf h0 (Some q)) ∧
      set_child (h ++ [new_node]) ptr c (length h) = Ok h').
    { destruct (children_ n !! c) as [old|] eqn:Hold.
      - destruct (Hkids _ _ Hold) as [Hold0 Hnd_old].
        destruct (lookup_lt_is_Some_2 h0 old Hold0) as [o Ho0].
        assert (Ho : h !! old = Some o) by (destruct Hpres as [_ Hk]; by rewrite Hk).
        unfold deref in Hput. rewrite Ho in Hput. cbn [bind alloc] in Hput.
        exists (NodeWithValue (children_ o) (std_move v)). split_and!; [done| |done].
        intros c0 q Hq. split; [by eapply Hc0|].
        by apply (proj1 (no_dead_leaf_node h0 old o Ho0) Hnd_old) in Hq.
      - cbn [alloc] in Hput. exists (NodeWithValue ∅ (std_move v)). split_and!; [done| |done].
        intros c0 q Hq. simpl in Hq. by rewrite lookup_empty in Hq. }
    destruct Hlast as (new_node & Hval & Hnew_kids & Hset).
    destruct (link_new_child h ptr c n new_node Hc Hn)
      as (h2 & Hset2 & Hc2 & Hlen & Hnew & Hptr2 & Hother).
    { intros c0 q Hq. destruct (Hnew_kids _ _ Hq). destruct Hpres. lia. }
    rewrite Hset in Hset2. injection Hset2 as <-.
    assert (Hpres' : preserves h0 h').
    { destruct Hpres as [Hl Hk]. split; [lia|]. intros p Hp.
      rewrite Hother by lia. rewrite lookup_app_l by lia. by apply Hk. }
    apply (no_dead_leaf_node _ _ _ Hptr2). rewrite children_with_children. split.
    + intros He. exfalso. apply (insert_non_empty (children_ n) c (length h) He).
    + intros c0 q Hq. apply lookup_insert_Some in Hq as [[<- <-]|[Hne Hq]].
      * apply (no_dead_leaf_node _ _ _ Hnew). split; [done|]. intros c1 q Hq.
        destruct (Hnew_kids _ _ Hq). by apply (no_dead_leaf_preserves h0).
      * destruct (Hkids _ _ Hq). by apply (no_dead_leaf_preserves h0).
  - assert (Hinner : ∃ new_node h2,
      (∀ c0 q, children_ new_node !! c0 = Some q → q < length h0 ∧ no_dead_leaf h0 (Some q)) ∧
      set_child (h ++ [new_node]) ptr c (length h) = Ok h2 ∧
      put_walk h2 (length h) c' rest v = Ok h').
    { destruct (children_ n !! c) as [old|] eqn:Hold.
      - destruct (Hkids _ _ Hold) as [Hold0 Hnd_old].
        destruct (lookup_lt_is_Some_2 h0 old Hold0) as [o Ho0].
        assert (Ho : h !! old = Some o) by (destruct Hpres as [_ Hk]; by rewrite Hk).
        unfold deref at 1 in Hput. rewrite Ho in Hput. cbn [bind alloc] in Hput.
        apply bind_Ok_inv in Hput as (h2 & Hset & Hput).
        exists o, h2. split_and!; [|done..].
        intros c0 q Hq. split; [by eapply Hc0|].
        by apply (proj1 (no_dead_leaf_node h0 old o Ho0) Hnd_old) in Hq.
      - cbn [alloc] in Hput. apply bind_Ok_inv in Hput as (h2 & Hset & Hput).
        exists (Node ∅), h2. split_and!; [|done..].
        intros c0 q Hq. simpl in Hq. by rewrite lookup_empty in Hq. }
    destruct Hinner as (new_node & h2 & Hnew_kids & Hset & Hput2).
    destruct (link_new_child h ptr c n new_node Hc Hn)
      as (h2' & Hset2 & Hc2 & Hlen & Hnew & Hptr2 & Hother).
    { intros c0 q Hq. destruct (Hnew_kids _ _ Hq). destruct Hpres. lia. }
    rewrite Hset in Hset2. injection Hset2 as <-.
    assert (Hpres2 : preserves h0 h2).
    { destruct Hpres as [Hl Hk]. split; [lia|]. intros p Hp.
      rewrite Hother by lia. rewrite lookup_app_l by lia. by apply Hk. }
    assert (Hl0 : length h0 ≤ length h) by (by destruct Hpres).
    pose proof (IH h2 (length h) c' new_node h' Hc0 Hpres2 Hl0 Hc2 Hnew Hnew_kids Hput2) as Hnd.
    destruct (put_walk_spec rest h2 (length h) c' v Hc2) as (h'' & Hput'' & _ & Hlen' & Hkeep & _);
      [lia|].
    rewrite Hput2 in Hput''. injection Hput'' as <-.
    assert (Hpres' : preserves h0 h').
    { destruct Hpres2 as [Hl Hk]. split; [lia|]. intros p Hp.
      rewrite Hkeep by lia. by apply Hk. }
    assert (Hptr' : h' !! ptr = Some (with_children n (<[c := length h]> (children_ n)))).
    { rewrite Hkeep by lia. done. }
    apply (no_dead_leaf_node _ _ _ Hptr'). rewrite children_with_children. split.
    + intros He. exfalso. apply (insert_non_empty (children_ n) c (length h) He).
    + intros c0 q Hq. apply lookup_insert_Some in Hq as [[<- <-]|[Hne Hq]]; [done|].
      destruct (Hkids _ _ Hq). by apply (no_dead_leaf_preserves h0).
Qed.

Lemma Put_rooted_no_dead_leaf (h : heap) (r : nat) (rn : TrieNode) (key : list ascii)
    (v : Value) (h' : heap) (r' : nat) :
  closed h → h !! r = Some rn →
  (∀ c q, children_ rn !! c = Some q → no_dead_leaf h (Some q)) →
  Put_rooted h r key v = Ok (h', r') → no_dead_leaf h' (Some r').
Proof.
  intros Hc Hrn Hkids Hput.
  unfold Put_rooted, deref in Hput. rewrite Hrn in Hput. cbn [bind alloc] in Hput.
  assert (Hlt : ∀ c q, children_ rn !! c = Some q → q < length h)
    by (intros c q Hq; by eapply Hc).
  assert (Hc1 : closed (h ++ [rn])) by (by apply closed_alloc).
  destruct key as [|c rest].
  - injection Hput as <- <-.
    apply (no_dead_leaf_node _ _ (NodeWithValue (children_ rn) (std_move v))); [apply lookup_alloc|].
    split; [done|]. intros c q Hq.
    apply (no_dead_leaf_preserves h); [done | by eapply Hlt | | by eapply Hkids].
    eapply preserves_trans; apply preserves_alloc.
  - apply bind_Ok_inv in Hput as (h2 & Hput & [= <- <-]).
    apply (put_walk_no_dead_leaf rest h (h ++ [rn]) (length h) c v rn h2); try done.
    + apply preserves_alloc.
    + apply lookup_alloc.
    + intros c0 q Hq. split; [by eapply Hlt | by eapply Hkids].
Qed.

(** No dead leaves: when every node without children holds a value, the
    same is true of the trie [Put] returns and of the trie [Remove]
    returns.  [Put] on the empty trie is a case of it. *)
Theorem no_dead_leaves (h : heap) (root : option nat) (key : list ascii) (v : Value) :
  closed h → valid_root h root → no_dead_leaf h root →
  (∃ h' r', Put h root key v = Ok (h', r') ∧ no_dead_leaf h' (Some r')) ∧
  (∀ r, root = Some r →
     ∃ h' res, Remove h root key = Ok (h', res) ∧ no_dead_leaf h' res).
Proof.
  intros Hc Hroot Hnd. split.
  - destruct (Put_spec h root key v Hc Hroot) as (h' & r' & Hput & _).
    exists h', r'. split; [done|]. destruct root as [r|]; simpl in Hroot.
    + destruct (lookup_lt_is_Some_2 h r Hroot) as [rn Hrn].
      apply (Put_rooted_no_dead_leaf h r rn key v); try done.
      by apply (proj1 (no_dead_leaf_node h r rn Hrn) Hnd).
    + unfold Put in Hput. cbn [alloc] in Hput.
      apply (Put_rooted_no_dead_leaf (h ++ [Node ∅]) (length h) (Node ∅) key (std_move v)); try done.
      * apply closed_alloc; [done|]. intros c q Hq. simpl in Hq. by rewrite lookup_empty in Hq.
      * apply lookup_alloc.
  - intros r ->. simpl in Hroot.
    destruct (Remove_spec h r key Hc Hroot) as (h' & res & Hrm & _).
    exists h', res. split; [done|]. by apply (Dfs_no_dead_leaf key h r).
Qed.

Lemma heap_a_no_dead_leaf : no_dead_leaf heap_a (Some 1).
Proof.
  apply (no_dead_leaf_node heap_a 1 (Node {["a"%char := 2]})); [done|]. split.
  - intros He. exfalso. simpl in He. by apply (insert_non_empty (M := gmap ascii) ∅ "a"%char 2).
  - intros c q Hq. simpl in Hq. apply lookup_singleton_Some in Hq as [_ <-].
    apply (no_dead_leaf_node heap_a 2 (NodeWithValue ∅ (VUInt32 1))); [done|]. split; [done|].
    intros c' q' Hq'. simpl in Hq'. by rewrite lookup_empty in Hq'.
Qed.

Lemma no_dead_leaves_witness :
  closed heap_a ∧ valid_root heap_a (Some 1%nat) ∧ no_dead_leaf heap_a (Some 1%nat) ∧
  ∃ h' res, Remove heap_a (Some 1%nat) ["a"%char] = Ok (h', res) ∧ no_dead_leaf h' res.
Proof.
  split; [exact heap_a_closed|]. split; [simpl; lia|]. split; [exact heap_a_no_dead_leaf|].
  destruct (no_dead_leaves heap_a (Some 1%nat) ["a"%char] (VUInt32 1) heap_a_closed)
    as (_ & Hrm); [simpl; lia | exact heap_a_no_dead_leaf |].
  exact (Hrm 1%nat eq_refl).
Defined.

(** *** Taking out the only key *)

(** Erasing the only child of a copy of a valueless node leaves nothing to
    keep. *)
Lemma Dfs_only_child (h h1 : heap) (r q : nat) (c : ascii) (key : list ascii) :
  h !! r = Some (Node {[c := q]}) → Dfs h (Some q) key = Ok (h1, None) →
  preserves h h1 →
  ∃ h2, Dfs h (Some r) (c :: key) = Ok (h2, None).
Proof.
  intros Hr Hsub [Hlen Hkeep].
  assert (Hr_lt : r < length h) by (by eapply lookup_lt_Some).
  cbn [Dfs]. unfold deref at 1. rewrite Hr. cbn [bind children_].
  rewrite lookup_singleton_eq, Hsub. cbn [bind].
  unfold deref at 1. rewrite Hkeep, Hr by done. cbn [bind alloc].
  unfold erase_child, deref at 1. rewrite lookup_alloc. cbn [bind].
  unfold deref. rewrite list_lookup_insert_eq by (rewrite length_app; simpl; lia).
  cbn [bind with_children children_ is_value_node_ negb andb].
  rewrite delete_singleton_eq, bool_decide_eq_true_2 by done. by eexists.
Qed.

Lemma put_walk_single (rest : list ascii) (h : heap) (ptr : nat) (c : ascii) (v : Value)
    (h' : heap) :
  closed h → h !! ptr = Some (Node ∅) → put_walk h ptr c rest v = Ok h' →
  closed h' ∧ ∃ h2, Dfs h' (Some ptr) (c :: rest) = Ok (h2, None).
Proof.
  revert h ptr c h'. induction rest as [|c' rest IH]; intros h ptr c h' Hc Hptr Hput;
    assert (Hptr_lt : ptr < length h) by (by eapply lookup_lt_Some);
    cbn [put_walk] in Hput; unfold deref at 1 in Hput; rewrite Hptr in Hput;
    cbn [bind children_] in Hput; rewrite lookup_empty in Hput; cbn [alloc] in Hput.
  - destruct (link_new_child h ptr c (Node ∅) (NodeWithValue ∅ (std_move v)) Hc Hptr)
      as (h2 & Hset & Hc2 & Hlen & Hnew & Hptr2 & _).
    { intros c0 q Hq. simpl in Hq. by rewrite lookup_empty in Hq. }
    rewrite Hset in Hput. injection Hput as <-. split; [done|].
    apply (Dfs_only_child h2 h2 ptr (length h) c []); [| |apply preserves_refl].
    + rewrite Hptr2. simpl. by rewrite insert_empty.
    + cbn [Dfs]. unfold deref. rewrite Hnew. cbn [bind children_].
      by rewrite bool_decide_eq_true_2.
  - destruct (link_new_child h ptr c (Node ∅) (Node ∅) Hc Hptr)
      as (h2 & Hset & Hc2 & Hlen & Hnew & Hptr2 & _).
    { intros c0 q Hq. simpl in Hq. by rewrite lookup_empty in Hq. }
    rewrite Hset in Hput. cbn [bind] in Hput.
    destruct (IH h2 (length h) c' h' Hc2 Hnew Hput) as [Hc' [h3 Hsub]].
    split; [done|].
    destruct (put_walk_spec rest h2 (length h) c' v Hc2) as (h'' & Hput'' & _ & _ & Hkeep & _);
      [lia|].
    rewrite Hput in Hput''. injection Hput'' as <-.
    assert (Hq_lt : length h < length h').
    { destruct (put_walk_spec rest h2 (length h) c' v Hc2) as (h'' & Hput'' & _ & Hl & _); [lia|].
      rewrite Hput in Hput''. injection Hput'' as <-. lia. }
    destruct (Dfs_spec (c' :: rest) h' (length h) Hc' Hq_lt) as (h4 & res & Hdfs & _ & Hpres & _).
    rewrite Hsub in Hdfs. injection Hdfs as <- <-.
    apply (Dfs_only_child h' h3 ptr (length h) c (c' :: rest)); [|done..].
    rewrite Hkeep by lia. rewrite Hptr2. simpl. by rewrite insert_empty.
Qed.

(** [Put] on the empty trie followed by [Remove] of the same key gives the
    empty trie back, its root null: every node that [Put] made is pruned.
    A further [Remove] on the result dereferences that null root. *)
Theorem Put_Remove_empty_trie (h : heap) (key : list ascii) (v : Value) :
  closed h →
  ∃ h1 r1 h2, Put h None key v = Ok (h1, r1) ∧ Remove h1 (Some r1) key = Ok (h2, None) ∧
              ∀ key', Remove h2 None key' = Undefined.
Proof.
  intros Hc. unfold Put, Remove. cbn [alloc].
  assert (Hc1 : closed (h ++ [Node ∅])).
  { apply closed_alloc; [done|]. intros c q Hq. simpl in Hq. by rewrite lookup_empty in Hq. }
  unfold Put_rooted, deref. rewrite lookup_alloc. cbn [bind alloc children_].
  assert (Hc2 : closed ((h ++ [Node ∅]) ++ [Node ∅])).
  { apply closed_alloc; [done|]. intros c q Hq. simpl in Hq. by rewrite lookup_empty in Hq. }
  destruct key as [|c rest].
  - eexists _, _, _. split; [done|]. split; [|by intros [|]].
    cbn [Dfs]. unfold deref. rewrite lookup_alloc. cbn [bind children_].
    by rewrite bool_decide_eq_true_2.
  - destruct (put_walk_spec rest ((h ++ [Node ∅]) ++ [Node ∅]) (length (h ++ [Node ∅])) c
                (std_move v) Hc2)
      as (h1 & Hput & _); [rewrite !length_app; simpl; lia|].
    rewrite Hput. cbn [bind].
    destruct (put_walk_single rest _ _ c (std_move v) h1 Hc2 (lookup_alloc _ _) Hput)
      as [_ [h2 Hdfs]].
    exists h1, (length (h ++ [Node ∅])), h2. split; [done|]. split; [done|]. by intros [|].
Qed.

Lemma Put_Remove_empty_trie_witness :
  closed [] ∧
  ∃ h1 r1 h2, Put [] None ["a"%char; "b"%char] (VUInt32 1) = Ok (h1, r1) ∧
              Remove h1 (Some r1) ["a"%char; "b"%char] = Ok (h2, None).
Proof.
  split; [exact closed_nil|].
  destruct (Put_Remove_empty_trie [] ["a"%char; "b"%char] (VUInt32 1) closed_nil)
    as (h1 & r1 & h2 & Hput & Hrm & _).
  exists h1, r1, h2. split; [exact Hput | exact Hrm].
Defined.

End TrieProofs.
